(** * Border partitions of the Steiner-tree dynamic program

    A shallow embedding of [applications/STP/src/dpborder_util.c] and the
    properties of its partition primitives, child-partition builders and
    solution reconstruction.

    Conventions of the embedding.
    - C [int] and [DPB_Ptype] values are integers of [Z]; the characters that
      occur stay far inside the range of the C types, so no wrap-around is
      involved.
    - A C array is a [list]; reading or writing outside of it has no result
      ([None]).  Assertions are not part of the computation.
    - [SCIP_Real] costs are rationals of [Q].
    - Loops are run by [c_for], whose body reports how it ended ([Next] for
      the end of the body or [continue], [Break] for [break]); a [return]
      inside a loop is a [Break] that leaves the returned value in the state. *)

From Stdlib Require Import ZArith QArith Lia Lqa.
From stdpp Require Import base option list numbers sorting.

Local Open Scope Z_scope.

(** ** Arrays *)

Definition rd {A} (a : list A) (i : Z) : option A :=
  if 0 <=? i then a !! Z.to_nat i else None.

Definition wr {A} (a : list A) (i : Z) (v : A) : option (list A) :=
  if (0 <=? i) && (i <? Z.of_nat (length a))
  then Some (<[Z.to_nat i := v]> a) else None.

(** [StpVecPushBack] and [StpVecGetSize] of the vector type. *)
Definition StpVecPushBack {A} (v : list A) (x : A) : list A := v ++ [x].
Definition StpVecGetSize {A} (v : list A) : Z := Z.of_nat (length v).

(** ** Loops *)

Inductive ctl (St : Type) : Type :=
| Next (i : Z) (s : St)
| Break (i : Z) (s : St).
Arguments Next {St} i s.
Arguments Break {St} i s.

(** [for( ; i < hi; i++ ) body]: the body receives the loop index and hands
    it back, possibly advanced; the result is the index and the state on
    exit. *)
Fixpoint c_for_fuel {St} (fuel : nat) (hi : Z)
    (body : Z → St → option (ctl St)) (i : Z) (s : St) : option (Z * St) :=
  if i <? hi then
    match fuel with
    | O => None
    | S fuel' =>
        match body i s with
        | None => None
        | Some (Next i' s') => c_for_fuel fuel' hi body (i' + 1) s'
        | Some (Break i' s') => Some (i', s')
        end
    end
  else Some (i, s).

Definition c_for {St} (lo hi : Z) (body : Z → St → option (ctl St)) (s : St)
  : option (Z * St) :=
  c_for_fuel (Z.to_nat (hi - lo)) hi body lo s.

(** ** Data *)

Record DPBPART := mkDPBPART {
  partchars : list Z;
  delimiter : Z
}.

Definition partsize (bp : DPBPART) : Z := Z.of_nat (length (partchars bp)).

Record DPBLEVEL := mkDPBLEVEL {
  bordernodesMapToOrg : list Z;
  extnode : Z;
  nbordernodes : Z
}.

Record DPBORDER := mkDPBORDER {
  global_partitions : list Z;
  global_partstarts : list Z;
  global_partcosts : list Q;
  global_predparts : list Z;
  global_partsUseExt : list bool;
  global_npartitions : Z;
  global_optposition : Z;
  nnodes : Z;
  borderlevels : list DPBLEVEL;
  bordercharmap : list Z;
  borderchardists : list Q;
  extborderchar : Z
}.

(** The capacity of the character buffer is the length of its array. *)
Definition global_partcap (dpb : DPBORDER) : Z :=
  Z.of_nat (length (global_partitions dpb)).

Definition with_partitions (dpb : DPBORDER) (gp : list Z) : DPBORDER :=
  mkDPBORDER gp (global_partstarts dpb) (global_partcosts dpb)
    (global_predparts dpb) (global_partsUseExt dpb) (global_npartitions dpb)
    (global_optposition dpb) (nnodes dpb) (borderlevels dpb)
    (bordercharmap dpb) (borderchardists dpb) (extborderchar dpb).

Definition with_store (dpb : DPBORDER) (gp starts : list Z) (costs : list Q)
    (preds : list Z) (useext : list bool) (n : Z) : DPBORDER :=
  mkDPBORDER gp starts costs preds useext n
    (global_optposition dpb) (nnodes dpb) (borderlevels dpb)
    (bordercharmap dpb) (borderchardists dpb) (extborderchar dpb).

(** Modelled from the spec: [dpborder_getDelimiter] and
    [dpborder_getTopDelimiter] are declared in a header that is not part of
    the sources at hand.  The spec gives every level its delimiter, the
    number of border characters of the level, and makes the top delimiter
    the one of the last level. *)
Definition dpborder_getDelimiter (dpb : DPBORDER) (level : Z) : option Z :=
  lvl ← rd (borderlevels dpb) level; Some (nbordernodes lvl).

Definition dpborder_getTopDelimiter (dpb : DPBORDER) : option Z :=
  dpborder_getDelimiter dpb (StpVecGetSize (borderlevels dpb) - 1).

(** Modelled from the spec: the comparison macros [LT] and [GE] on costs are
    not part of the sources at hand.  The spec reads [LT(x, y)] as [x < y]
    and [GE(x, y)] as "x reaches y". *)
Definition LT (x y : Q) : bool := negb (Qle_bool y x).
Definition GE (x y : Q) : bool := Qle_bool y x.

(** Modelled from the spec: [BMSclearMemoryArray(a, n)] clears the first [n]
    entries of [a]. *)
Definition BMSclearMemoryArray (a : list bool) (n : Z) : option (list bool) :=
  if (0 <=? n) && (n <=? Z.of_nat (length a))
  then Some (replicate (Z.to_nat n) false ++ drop (Z.to_nat n) a) else None.

(** ** Local methods *)

(** [for( j = i - 1; curr < partition[j]; j-- ) partition[j + 1] = partition[j];]
    on the absolute position [k] of [partition + j]; gives the array and
    the final position. *)
Fixpoint sort_shift (fuel : nat) (buf : list Z) (curr : Z) (k : Z)
  : option (list Z * Z) :=
  pk ← rd buf k;
  if curr <? pk then
    match fuel with
    | O => None
    | S fuel' => buf' ← wr buf (k + 1) pk; sort_shift fuel' buf' curr (k - 1)
    end
  else Some (buf, k).

(** [partitionSortSubsets(&buf[base], delimiter, size)] *)
Definition partitionSortSubsets (buf : list Z) (base : Z) (delimiter : Z)
    (size : Z) : option (list Z) :=
  '(_, buf) ← c_for 0 size (λ iter buf,
      '(iter2, _) ← c_for (iter + 1) size (λ iter2 (_ : unit),
          p ← rd buf (base + iter2);
          if p =? delimiter then Some (Break iter2 tt)
          else Some (Next iter2 tt)) tt;
      (* NOTE: sentinel *)
      s ← rd buf (base + (iter - 1));
      buf ← wr buf (base + (iter - 1)) (s * -1);
      '(_, buf) ← c_for (iter + 1) iter2 (λ i buf,
          curr ← rd buf (base + i);
          '(buf, k) ← sort_shift (Z.to_nat (base + i)) buf curr (base + (i - 1));
          buf ← wr buf (k + 1) curr;
          Some (Next i buf)) buf;
      s ← rd buf (base + (iter - 1));
      buf ← wr buf (base + (iter - 1)) (s * -1);
      Some (Next iter2 buf)) buf;
  Some buf.

(** ** Interface methods *)

(** is partition valid? *)
Definition dpborder_partIsValid (borderpartition : DPBPART) : option bool :=
  let partitionchars := partchars borderpartition in
  let delimiter := delimiter borderpartition in
  let partsize := partsize borderpartition in
  c0 ← rd partitionchars 0;
  if c0 =? delimiter then Some false else
  cl ← rd partitionchars (partsize - 1);
  if cl =? delimiter then Some false else
  '(_, ret) ← c_for 1 partsize (λ i (ret : option bool),
      ci ← rd partitionchars i;
      cp ← rd partitionchars (i - 1);
      if (ci =? delimiter) && (cp =? delimiter)
      then Some (Break i (Some false))
      else Some (Next i ret)) None;
  match ret with
  | Some b => Some b
  | None =>
    '(_, ret) ← c_for 0 partsize (λ i (ret : option bool),
        borderchar ← rd partitionchars i;
        if borderchar >? delimiter then Some (Break i (Some false)) else
        if borderchar =? delimiter then Some (Next i ret) else
        '(_, ret) ← c_for 0 partsize (λ j (ret : option bool),
            borderchar2 ← rd partitionchars j;
            if negb (i =? j) && (borderchar =? borderchar2)
            then Some (Break j (Some false))
            else Some (Next j ret)) ret;
        match ret with
        | Some b => Some (Break i (Some b))
        | None => Some (Next i ret)
        end) None;
    match ret with
    | Some b => Some b
    | None => Some true
    end
  end.

Section Costs.

(** The cost that stands for "no connection"; its value is fixed in a
    header that is not part of the sources at hand. *)
Variable FARAWAY : Q.

(** [for( startpos = i; startpos > 0; startpos-- ) if( chars[startpos] == delimiter ) break;] *)
Fixpoint scan_left (fuel : nat) (partitionchars : list Z) (delimiter : Z)
    (startpos : Z) : option Z :=
  if 0 <? startpos then
    match fuel with
    | O => None
    | S fuel' =>
        c ← rd partitionchars startpos;
        if c =? delimiter then Some startpos
        else scan_left fuel' partitionchars delimiter (startpos - 1)
    end
  else Some startpos.

(** gets candidates start for given partition *)
Definition dpborder_partGetCandstarts (borderpartition : DPBPART)
    (dpborder : DPBORDER) : option (list Z) :=
  let partitionchars := partchars borderpartition in
  let delimiter := delimiter borderpartition in
  let partsize := partsize borderpartition in
  let borderchardists := borderchardists dpborder in
  '(_, candstarts) ← c_for 0 partsize (λ i candstarts,
      borderchar ← rd partitionchars i;
      if borderchar =? delimiter then Some (Next i candstarts) else
      dist ← rd borderchardists borderchar;
      if LT dist FARAWAY then
        startpos ← scan_left (Z.to_nat i) partitionchars delimiter i;
        c ← rd partitionchars startpos;
        let startpos := if c =? delimiter then startpos + 1 else startpos in
        let candstarts := StpVecPushBack candstarts startpos in
        (* move to next set of the partition *)
        '(i, _) ← c_for i partsize (λ i (_ : unit),
            c ← rd partitionchars i;
            if c =? delimiter then Some (Break i tt) else Some (Next i tt)) tt;
        Some (Next i candstarts)
      else Some (Next i candstarts)) [];
  Some candstarts.

(** gets cardinality from global index of new global partition. *)
Definition dpborder_partglobalGetCard (globalindex delimiter : Z)
    (dpborder : DPBORDER) : option Z :=
  let card := 1 in
  globalstart ← rd (global_partstarts dpborder) globalindex;
  globalend ← rd (global_partstarts dpborder) (globalindex + 1);
  let global_partitions := global_partitions dpborder in
  (* [for( i = globalstart; i != globalend; i++ )]: from a start beyond
     [globalend] the loop does not come to its end *)
  if globalend <? globalstart then None else
  '(_, card) ← c_for globalstart globalend (λ i card,
      c ← rd global_partitions i;
      if c =? delimiter then Some (Next i (card + 1))
      else Some (Next i card)) card;
  Some card.

(** gets minimum connection cost of connection selected sets of partition to
    extension vertex *)
Definition dpborder_partGetConnectionCost (dpborder : DPBORDER)
    (borderpartition : DPBPART) (candstarts_sub : list Z) : option Q :=
  let borderchardists := borderchardists dpborder in
  let partitionchars := partchars borderpartition in
  let delimiter_prev := delimiter borderpartition in
  let partsize := partsize borderpartition in
  '(_, costsum) ← c_for 0 (StpVecGetSize candstarts_sub) (λ i (costsum : Q),
      candstart ← rd candstarts_sub i;
      '(_, minedgecost) ← c_for candstart partsize (λ j (minedgecost : Q),
          partchar ← rd partitionchars j;
          if partchar =? delimiter_prev then Some (Break j minedgecost) else
          dist ← rd borderchardists partchar;
          if LT dist minedgecost then Some (Next j dist)
          else Some (Next j minedgecost)) FARAWAY;
      let costsum := (costsum + minedgecost)%Q in
      if GE costsum FARAWAY then Some (Break i costsum)
      else Some (Next i costsum)) 0%Q;
  Some costsum.

(** [for( j = lo; j < partsize; j++ ) if( partitionchars[j] < 0 ) partitionchars[j] = -(partitionchars[j] + 1);] *)
Definition unmark_from (lo : Z) (partitionchars : list Z) : option (list Z) :=
  '(_, partitionchars) ←
    c_for lo (Z.of_nat (length partitionchars)) (λ j partitionchars,
      c ← rd partitionchars j;
      if c <? 0 then
        partitionchars ← wr partitionchars j (- (c + 1));
        Some (Next j partitionchars)
      else Some (Next j partitionchars)) partitionchars;
  Some partitionchars.

(** The parts of [dpborder_partGetIdxNew].

    "form the union of marked subsets": the walk over the subset that
    begins at [candstart], which appends the characters that stay in the
    border. *)
Definition union_subset (bordercharmap partitionchars : list Z)
    (delimiter_prev candstart : Z) (global_partitions : list Z)
    (globalend : Z) : option (Z * (list Z * Z)) :=
  c_for candstart (Z.of_nat (length partitionchars))
    (λ j '(global_partitions, globalend),
      partchar ← rd partitionchars j;
      if partchar =? delimiter_prev
      then Some (Break j (global_partitions, globalend)) else
      m ← rd bordercharmap partchar;
      if negb (m =? -1) then
        global_partitions ← wr global_partitions globalend m;
        Some (Next j (global_partitions, globalend + 1))
      else Some (Next j (global_partitions, globalend)))
    (global_partitions, globalend).

(** The loop over the candidate starts: every start has its subset
    appended and is marked. *)
Definition union_marked (bordercharmap : list Z) (delimiter_prev : Z)
    (candstarts_sub partitionchars global_partitions : list Z)
    (globalend : Z) : option (Z * (list Z * list Z * Z)) :=
  c_for 0 (StpVecGetSize candstarts_sub)
    (λ i '(partitionchars, global_partitions, globalend),
      candstart ← rd candstarts_sub i;
      '(_, (global_partitions, globalend)) ←
        union_subset bordercharmap partitionchars delimiter_prev candstart
          global_partitions globalend;
      (* we mark the starts to skip them later on *)
      c ← rd partitionchars candstart;
      partitionchars ← wr partitionchars candstart (- c - 1);
      Some (Next i (partitionchars, global_partitions, globalend)))
    (partitionchars, global_partitions, globalend).

(** "now we add the remaining sets of the partition" *)
Definition copy_remaining (bordercharmap : list Z)
    (delimiter_prev delimiter_new : Z)
    (partitionchars global_partitions : list Z) (globalend : Z)
    (doCopy : bool) (globalstart : Z)
  : option (Z * (list Z * list Z * Z * bool * Z)) :=
  c_for 0 (Z.of_nat (length partitionchars))
    (λ i '(partitionchars, global_partitions, globalend, doCopy, globalstart),
      partchar ← rd partitionchars i;
      if partchar <? 0 then
        partitionchars ← wr partitionchars i (- (partchar + 1));
        Some (Next i (partitionchars, global_partitions, globalend, false, globalstart))
      else if partchar =? delimiter_prev then
        nextchar ← rd partitionchars (i + 1);
        if nextchar >=? 0 then
          (* empty subset? *)
          lastchar ← rd global_partitions (globalend - 1);
          if delimiter_new =? lastchar then
            Some (Break i (partitionchars, global_partitions, globalend, doCopy, -1))
          else
            global_partitions ← wr global_partitions globalend delimiter_new;
            Some (Next i (partitionchars, global_partitions, globalend + 1, true, globalstart))
        else
          Some (Next i (partitionchars, global_partitions, globalend, doCopy, globalstart))
      else if negb doCopy then
        Some (Next i (partitionchars, global_partitions, globalend, doCopy, globalstart))
      else
        m ← rd bordercharmap partchar;
        if negb (m =? -1) then
          global_partitions ← wr global_partitions globalend m;
          Some (Next i (partitionchars, global_partitions, globalend + 1, doCopy, globalstart))
        else
          Some (Next i (partitionchars, global_partitions, globalend, doCopy, globalstart)))
    (partitionchars, global_partitions, globalend, doCopy, globalstart).

(** Gets global index of new global partition.
    Returns -1 if no valid partition could be built.  The result carries
    the base partition and the border as the call leaves them. *)
Definition dpborder_partGetIdxNew (borderpartition : DPBPART)
    (candstarts_sub : list Z) (dpborder : DPBORDER)
  : option (Z * DPBPART * DPBORDER) :=
  globalstart ← rd (global_partstarts dpborder) (global_npartitions dpborder);
  let globalend := globalstart in
  let global_partitions := global_partitions dpborder in
  let bordercharmap := bordercharmap dpborder in
  let partitionchars := partchars borderpartition in
  let delimiter_prev := delimiter borderpartition in
  delimiter_new ← dpborder_getTopDelimiter dpborder;
  (* form the union of marked subsets, as well as of extension node (if in border) *)
  '(_, (partitionchars, global_partitions, globalend)) ←
    union_marked bordercharmap delimiter_prev candstarts_sub partitionchars
      global_partitions globalend;
  '(global_partitions, globalend) ←
    (if extborderchar dpborder >=? 0 then
       global_partitions ← wr global_partitions globalend (extborderchar dpborder);
       Some (global_partitions, globalend + 1)
     else Some (global_partitions, globalend));
  if globalend =? globalstart then
    partitionchars ← unmark_from 0 partitionchars;
    Some (-1, mkDPBPART partitionchars delimiter_prev,
          with_partitions dpborder global_partitions)
  else
    let doCopy := true in
    c0 ← rd partitionchars 0;
    '(global_partitions, globalend) ←
      (if c0 >=? 0 then
         global_partitions ← wr global_partitions globalend delimiter_new;
         Some (global_partitions, globalend + 1)
       else Some (global_partitions, globalend));
    (* now we add the remaining sets of the partition *)
    '(i, (partitionchars, global_partitions, globalend, doCopy, globalstart)) ←
      copy_remaining bordercharmap delimiter_prev delimiter_new partitionchars
        global_partitions globalend doCopy globalstart;
    lastchar ← rd global_partitions (globalend - 1);
    let globalstart := if delimiter_new =? lastchar then -1 else globalstart in
    if globalstart =? -1 then
      partitionchars ← unmark_from (i + 1) partitionchars;
      Some (-1, mkDPBPART partitionchars delimiter_prev,
            with_partitions dpborder global_partitions)
    else
      let partstarts := StpVecPushBack (global_partstarts dpborder) globalend in
      let partcosts := StpVecPushBack (global_partcosts dpborder) FARAWAY in
      let partsUseExt := StpVecPushBack (global_partsUseExt dpborder) true in
      let predparts := StpVecPushBack (global_predparts dpborder) (-1) in
      let npartitions := global_npartitions dpborder + 1 in
      global_partitions ←
        partitionSortSubsets global_partitions globalstart delimiter_new
          (globalend - globalstart);
      Some (npartitions - 1, mkDPBPART partitionchars delimiter_prev,
            with_store dpborder global_partitions partstarts partcosts
              predparts partsUseExt npartitions).

(** The parts of [dpborder_partGetIdxNewExclusive]: the copy of the
    characters that stay in the border, *)
Definition exclusive_copy (bordercharmap partitionchars global_partitions : list Z)
    (globalend : Z) : option (Z * (list Z * Z)) :=
  c_for 0 (Z.of_nat (length partitionchars))
    (λ i '(global_partitions, globalend),
      partchar ← rd partitionchars i;
      m ← rd bordercharmap partchar;
      if negb (m =? -1) then
        global_partitions ← wr global_partitions globalend m;
        Some (Next i (global_partitions, globalend + 1))
      else Some (Next i (global_partitions, globalend)))
    (global_partitions, globalend).

(** and the search for an empty subset, which leaves the value to return
    in the state when it finds one. *)
Definition exclusive_check (delimiter_new : Z) (global_partitions : list Z)
    (globalstart globalend : Z) : option (Z * option Z) :=
  c_for (globalstart + 1) globalend (λ i (ret : option Z),
      c ← rd global_partitions i;
      cp ← rd global_partitions (i - 1);
      if (c =? delimiter_new) && (cp =? delimiter_new)
      then Some (Break i (Some (-1)))
      else Some (Next i ret)) None.

(** Gets global index of new global partition, similar to above, but merely
    removes prev. border nodes.
    Returns -1 if no valid partition could be built. *)
Definition dpborder_partGetIdxNewExclusive (borderpartition : DPBPART)
    (dpborder : DPBORDER) : option (Z * DPBORDER) :=
  globalstart ← rd (global_partstarts dpborder) (global_npartitions dpborder);
  let globalend := globalstart in
  let global_partitions := global_partitions dpborder in
  let bordercharmap := bordercharmap dpborder in
  let partitionchars := partchars borderpartition in
  delimiter_new ← dpborder_getTopDelimiter dpborder;
  '(_, (global_partitions, globalend)) ←
    exclusive_copy bordercharmap partitionchars global_partitions globalend;
  let rejected := with_partitions dpborder global_partitions in
  if globalstart =? globalend then Some (-1, rejected) else
  first ← rd global_partitions globalstart;
  if first =? delimiter_new then Some (-1, rejected) else
  lastchar ← rd global_partitions (globalend - 1);
  if lastchar =? delimiter_new then Some (-1, rejected) else
  '(_, ret) ← exclusive_check delimiter_new global_partitions globalstart globalend;
  match ret with
  | Some r => Some (r, rejected)
  | None =>
    global_partitions ←
      partitionSortSubsets global_partitions globalstart delimiter_new
        (globalend - globalstart);
    let partstarts := StpVecPushBack (global_partstarts dpborder) globalend in
    let partcosts := StpVecPushBack (global_partcosts dpborder) FARAWAY in
    let predparts := StpVecPushBack (global_predparts dpborder) (-1) in
    let partsUseExt := StpVecPushBack (global_partsUseExt dpborder) false in
    let npartitions := global_npartitions dpborder + 1 in
    Some (npartitions - 1,
          with_store dpborder global_partitions partstarts partcosts
            predparts partsUseExt npartitions)
  end.

End Costs.

(** [for( pos = optposition; pos != 0; pos = predparts[pos] ) nlevels++;]
    The walk along the predecessors need not end; [fuel] bounds its hops. *)
Fixpoint count_levels (fuel : nat) (predparts : list Z) (pos : Z)
    (nlevels : Z) : option Z :=
  if pos =? 0 then Some nlevels else
  match fuel with
  | O => None
  | S fuel' =>
      pred ← rd predparts pos;
      count_levels fuel' predparts pred (nlevels + 1)
  end.

(** The second walk of [dpborder_markSolNodes], one partition per hop. *)
Fixpoint mark_levels (fuel : nat) (dpborder : DPBORDER) (pos level : Z)
    (nodes_isSol : list bool) : option (list bool) :=
  if pos =? 0 then Some nodes_isSol else
  match fuel with
  | O => None
  | S fuel' =>
      globalend ← rd (global_partstarts dpborder) (pos + 1);
      lvl ← rd (borderlevels dpborder) level;
      let nodemap := bordernodesMapToOrg lvl in
      delimiter ← dpborder_getDelimiter dpborder level;
      useext ← rd (global_partsUseExt dpborder) pos;
      nodes_isSol ←
        (if useext : bool then wr nodes_isSol (extnode lvl) true
         else Some nodes_isSol);
      globalstart ← rd (global_partstarts dpborder) pos;
      (* [for( i = global_partstarts[pos]; i != globalend; i++ )]: from a
         start beyond [globalend] the loop does not come to its end *)
      if globalend <? globalstart then None else
      '(_, nodes_isSol) ← c_for globalstart globalend (λ i nodes_isSol,
          borderchar ← rd (global_partitions dpborder) i;
          if negb (borderchar =? delimiter) then
            node ← rd nodemap borderchar;
            nodes_isSol ← wr nodes_isSol node true;
            Some (Next i nodes_isSol)
          else Some (Next i nodes_isSol)) nodes_isSol;
      pred ← rd (global_predparts dpborder) pos;
      mark_levels fuel' dpborder pred (level - 1) nodes_isSol
  end.

(** marks optimal solution nodes *)
Definition dpborder_markSolNodes (fuel : nat) (dpborder : DPBORDER)
    (nodes_isSol : list bool) : option (list bool) :=
  let optposition := global_optposition dpborder in
  nodes_isSol ← BMSclearMemoryArray nodes_isSol (nnodes dpborder);
  nlevels ← count_levels fuel (global_predparts dpborder) optposition 0;
  nodes_isSol ← mark_levels fuel dpborder optposition nlevels nodes_isSol;
  lvl0 ← rd (borderlevels dpborder) 0;
  wr nodes_isSol (extnode lvl0) true.

(** ** The partition invariant *)

(** The rules that [dpborder_partIsValid] looks at, on the characters
    themselves. *)
Record partition_wf (d : Z) (l : list Z) : Prop := {
  wf_head : ∃ c, l !! 0%nat = Some c ∧ c ≠ d;
  wf_last : ∃ c, last l = Some c ∧ c ≠ d;
  wf_no_empty : ∀ i : nat, l !! i = Some d → l !! S i ≠ Some d;
  wf_bound : ∀ (i : nat) c, l !! i = Some c → c ≤ d;
  wf_distinct :
    ∀ (i j : nat) c, l !! i = Some c → l !! j = Some c → c ≠ d → i = j
}.

(** The partition invariant of the data model: the rules above, on
    characters that are border positions, hence not negative. *)
Definition partition_inv (bp : DPBPART) : Prop :=
  dpborder_partIsValid bp = Some true ∧ Forall (λ c, 0 ≤ c) (partchars bp).

(** ** The partition store *)

(** The side arrays are in lockstep with the number of partitions. *)
Definition arena_inv (dpb : DPBORDER) : Prop :=
  StpVecGetSize (global_partstarts dpb) = global_npartitions dpb + 1 ∧
  StpVecGetSize (global_partcosts dpb) = global_npartitions dpb ∧
  StpVecGetSize (global_predparts dpb) = global_npartitions dpb ∧
  StpVecGetSize (global_partsUseExt dpb) = global_npartitions dpb.

(** The offset at which the next partition begins. *)
Definition top_end (dpb : DPBORDER) : option Z :=
  rd (global_partstarts dpb) (global_npartitions dpb).

(** The characters of a buffer from offset [lo] up to offset [hi]. *)
Definition segment (gp : list Z) (lo hi : Z) : list Z :=
  take (Z.to_nat (hi - lo)) (drop (Z.to_nat lo) gp).

(** The buffer [gp] with the characters [w] written from offset [gs] on. *)
Definition overwrite (gp : list Z) (gs : Z) (w : list Z) : list Z :=
  take (Z.to_nat gs) gp ++ w ++ drop (Z.to_nat gs + length w) gp.

(** The characters of the partition with index [idx]: the ones between its
    start offset and its end offset. *)
Definition stored_partition (dpb : DPBORDER) (idx : Z) : option (list Z) :=
  s ← rd (global_partstarts dpb) idx;
  e ← rd (global_partstarts dpb) (idx + 1);
  Some (segment (global_partitions dpb) s e).

(** The store as the data model has it: side arrays in lockstep, a top end
    beyond the reserved offset 0 and inside the buffer, and no negative
    character below the top end. *)
Definition store_inv (dpb : DPBORDER) : Prop :=
  arena_inv dpb ∧
  ∃ gs, top_end dpb = Some gs ∧
        1 ≤ gs ≤ Z.of_nat (length (global_partitions dpb)) ∧
        Forall (λ c, 0 ≤ c) (take (Z.to_nat gs) (global_partitions dpb)).

(** A run of either builder returns -1 and leaves all of the border but
    the character buffer as it was, or appends one entry to each side
    array and returns the former number of partitions. *)
Definition builder_outcome (FARAWAY : Q) (useext : bool) (dpb : DPBORDER)
    (r : Z) (dpb' : DPBORDER) : Prop :=
  (r = -1 ∧ ∃ gp, dpb' = with_partitions dpb gp) ∨
  (r = global_npartitions dpb ∧ ∃ gp e,
     dpb' = with_store dpb gp
              (global_partstarts dpb ++ [e])
              (global_partcosts dpb ++ [FARAWAY])
              (global_predparts dpb ++ [-1])
              (global_partsUseExt dpb ++ [useext])
              (global_npartitions dpb + 1)).

(** ** The marks of [dpborder_partGetIdxNew] *)

(** The array [pc] holds the characters [chars], some of them from position
    [i] on under their mark. *)
Definition restorable (chars : list Z) (i : Z) (pc : list Z) : Prop :=
  length pc = length chars ∧
  ∀ (k : nat) c, chars !! k = Some c →
    pc !! k = Some c ∨ (i ≤ Z.of_nat k ∧ pc !! k = Some (- c - 1)).

(** The buffer [g] has the length of [gp] and agrees with it below the
    offset [gs], and the next write is at [e], not below [gs]. *)
Definition scratch (gs : Z) (gp g : list Z) (e : Z) : Prop :=
  gs ≤ e ∧ length g = length gp ∧
  take (Z.to_nat gs) g = take (Z.to_nat gs) gp.

(** The characters [out] lie in the buffer [g] from the offset [gs] on, the
    next write is at [e], and [g] is the buffer [gp] otherwise. *)
Definition written (gp : list Z) (gs : Z) (g : list Z) (e : Z)
    (out : list Z) : Prop :=
  0 ≤ gs ∧ g = overwrite gp gs out ∧ e = gs + Z.of_nat (length out) ∧
  gs + Z.of_nat (length out) ≤ Z.of_nat (length gp).

Section ChildInvariant.

Variables (chars : list Z) (d : Z) (map : list Z) (D ext : Z).

(** [s] is a position at which a subset starts. *)
Definition is_start (s : Z) : Prop :=
  (s = 0 ∨ rd chars (s - 1) = Some d) ∧ ∃ c, rd chars s = Some c ∧ c ≠ d.

(** [x] is the new character of the parent's character at position [k]. *)
Definition from_pos (x k : Z) : Prop :=
  ∃ c, rd chars k = Some c ∧ c ≠ d ∧ rd map c = Some x ∧ x ≠ -1.

(** A chosen start lies before [i], with no delimiter from it up to
    [i]. *)
Definition opened (chosen : Z → Prop) (i : Z) : Prop :=
  ∃ s, chosen s ∧ s < i ∧ ∀ j, s ≤ j < i → rd chars j ≠ Some d.

(** The array [pc] holds, from position [i] on, the characters with the
    chosen positions under their mark; a chosen character is not
    negative. *)
Definition marked (chosen : Z → Prop) (i : Z) (pc : list Z) : Prop :=
  length pc = length chars ∧
  (∀ s c, chosen s → rd chars s = Some c → 0 ≤ c) ∧
  ∀ k c, i ≤ k → rd chars k = Some c →
    (chosen k ∧ rd pc k = Some (- c - 1)) ∨ (¬ chosen k ∧ rd pc k = Some c).

(** The union of the chosen subsets: distinct new characters of covered
    positions. *)
Definition union_inv (cov : Z → Prop) (out : list Z) : Prop :=
  NoDup out ∧ ∀ x, x ∈ out → ∃ k, from_pos x k ∧ cov k.

(** The child under construction: it begins with a character, holds no
    two delimiters in a row and no character twice, and its characters
    are the extension character or new characters of covered positions. *)
Definition child_inv (cov : Z → Prop) (out : list Z) : Prop :=
  NoDup (filter (λ x, x ≠ D) out) ∧
  (∀ x, x ∈ out → x = D ∨
     (0 ≤ x < D ∧ (x = ext ∨ ∃ k, from_pos x k ∧ cov k))) ∧
  (∃ x, out !! 0%nat = Some x ∧ x ≠ D) ∧
  (∀ i : nat, out !! i = Some D → out !! S i ≠ Some D).

End ChildInvariant.

(** ** The level transition *)

(** The character map as the data model has it: one entry for every
    character of the previous level and for its delimiter, each -1 or a
    character of the new level. *)
Definition map_domain (d_prev : Z) (map : list Z) : Prop :=
  Z.of_nat (length map) = d_prev + 1 ∧
  ∀ c m, rd map c = Some m → m = -1 ∨ 0 ≤ m.

(** The preconditions of a level transition: the characters of the previous
    level go to -1 or below the new delimiter, those that stay go to
    distinct values other than the extension character, the previous
    delimiter goes to the new one, and the extension character is -1 or a
    character of the new level. *)
Record level_pre (d_prev D : Z) (map : list Z) (ext : Z) : Prop := {
  lp_range : ∀ c m, 0 ≤ c < d_prev → rd map c = Some m → m = -1 ∨ 0 ≤ m < D;
  lp_inj : ∀ c c' m, 0 ≤ c < d_prev → 0 ≤ c' < d_prev →
             rd map c = Some m → rd map c' = Some m → m ≠ -1 → c = c';
  lp_fresh : ∀ c m, 0 ≤ c < d_prev → rd map c = Some m → m ≠ -1 → m ≠ ext;
  lp_delim : rd map d_prev = Some D;
  lp_ext : ext = -1 ∨ 0 ≤ ext < D
}.

(** The characters that stay in the border, mapped to the new level. *)
Definition remap (map : list Z) (chars : list Z) : list Z :=
  omap (λ c, m ← rd map c; if m =? -1 then None else Some m) chars.

(** What makes [dpborder_partGetIdxNewExclusive] reject a remapped
    sequence. *)
Definition rejected (D : Z) (l : list Z) : Prop :=
  l = [] ∨ head l = Some D ∨ last l = Some D ∨
  ∃ i : nat, l !! i = Some D ∧ l !! S i = Some D.

(** ** Subsets *)

(** Puts a character in front of the first subset of a list of subsets. *)
Definition cons_head (c : Z) (subs : list (Z * list Z)) : list (Z * list Z) :=
  match subs with
  | (s, run) :: rest => (s, c :: run) :: rest
  | [] => []
  end.

(** The subsets of a partition, each with the position of its first
    character: the maximal runs without delimiter, left to right.  [pos] is
    the position of the head of [l] and [start] the position at which the
    run that [l] continues began. *)
Fixpoint subsets_from (d start pos : Z) (l : list Z) : list (Z * list Z) :=
  match l with
  | [] => [(start, [])]
  | c :: l' =>
      if c =? d then (start, []) :: subsets_from d (pos + 1) (pos + 1) l'
      else cons_head c (subsets_from d start (pos + 1) l')
  end.

Definition subsets (d : Z) (l : list Z) : list (Z * list Z) :=
  subsets_from d 0 0 l.

(** The positions at which the subsets of a partition start. *)
Definition subset_starts (bp : DPBPART) : list Z :=
  (subsets (delimiter bp) (partchars bp)).*1.

(** The characters of [l] up to its first delimiter. *)
Fixpoint run_prefix (d : Z) (l : list Z) : list Z :=
  match l with
  | [] => []
  | c :: l' => if c =? d then [] else c :: run_prefix d l'
  end.

(** The characters from position [s] up to the next delimiter. *)
Definition subset_at (d : Z) (l : list Z) (s : Z) : list Z :=
  run_prefix d (drop (Z.to_nat s) l).

(** ** The canonical form *)

(** The characters of every subset in ascending order, the delimiters where
    they are.  [run] holds the characters of the subset that [l]
    continues. *)
Fixpoint sort_subsets_aux (d : Z) (run l : list Z) : list Z :=
  match l with
  | [] => merge_sort Z.le run
  | c :: l' =>
      if c =? d then merge_sort Z.le run ++ d :: sort_subsets_aux d [] l'
      else sort_subsets_aux d (run ++ [c]) l'
  end.

Definition sort_subsets (d : Z) (l : list Z) : list Z :=
  sort_subsets_aux d [] l.

(** ** Candidate starts and connection costs, as the spec words them *)

Section CostSpec.

Variable FARAWAY : Q.
Variable dists : list Q.

(** A character is connectable when its distance is below [FARAWAY]. *)
Definition connectable_char (c : Z) : bool :=
  match rd dists c with
  | Some x => LT x FARAWAY
  | None => false
  end.

(** The starts of those subsets of [subs] that hold a connectable
    character. *)
Definition cands (subs : list (Z * list Z)) : list Z :=
  (filter (λ sr, existsb connectable_char sr.2) subs).*1.

Definition candstarts_spec (d : Z) (l : list Z) : list Z :=
  cands (subsets d l).

(** The least distance of the characters of [run], found the way the
    source does: starting from [FARAWAY], a character replaces the current
    value when its distance is below it. *)
Definition min_step (m : Q) (c : Z) : Q :=
  match rd dists c with
  | Some x => if LT x m then x else m
  | None => m
  end.

Definition min_dist (run : list Z) : Q := fold_left min_step run FARAWAY.

(** [m] is the least of the distances of the characters of [run]. *)
Definition is_min_dist (run : list Z) (m : Q) : Prop :=
  (∃ c x, c ∈ run ∧ rd dists c = Some x ∧ (x == m)%Q) ∧
  (∀ c x, c ∈ run → rd dists c = Some x → (m <= x)%Q).

(** The running sum of the minima, which stops once it reaches
    [FARAWAY]. *)
Fixpoint sum_until (costsum : Q) (mins : list Q) : Q :=
  match mins with
  | [] => costsum
  | m :: mins' =>
      let costsum := (costsum + m)%Q in
      if GE costsum FARAWAY then costsum else sum_until costsum mins'
  end.

End CostSpec.


(** ** Solution reconstruction *)

(** A level as the data model has it: the delimiter is the number of its
    border nodes, and the border nodes and the extension node are vertices
    of the graph. *)
Definition level_nodes (dpb : DPBORDER) (lvl : DPBLEVEL) : Prop :=
  Z.of_nat (length (bordernodesMapToOrg lvl)) = nbordernodes lvl ∧
  Forall (λ v, 0 ≤ v < nnodes dpb) (bordernodesMapToOrg lvl) ∧
  0 ≤ extnode lvl < nnodes dpb.

(** The vertices of the characters of a partition, delimiters apart. *)
Definition partition_nodes (lvl : DPBLEVEL) (chars : list Z) : list Z :=
  omap (λ c, if c =? nbordernodes lvl then None
             else rd (bordernodesMapToOrg lvl) c) chars.

(** [chain dpb n pos marks]: the predecessors lead from the partition [pos]
    to index 0 in [n] hops, the partition visited with [k] hops to go lies
    at level [k], with characters between 0 and the delimiter of the level,
    and [marks] are the vertices of the visited partitions: the extension
    node of the level where the partition uses it, and the vertices of its
    characters. *)
Inductive chain (dpb : DPBORDER) : nat → Z → list Z → Prop :=
| chain_root : chain dpb 0 0 []
| chain_hop n pos pred lvl s e u marks :
    pos ≠ 0 →
    rd (global_predparts dpb) pos = Some pred →
    rd (global_partstarts dpb) pos = Some s →
    rd (global_partstarts dpb) (pos + 1) = Some e →
    0 ≤ s ≤ e →
    rd (borderlevels dpb) (Z.of_nat (S n)) = Some lvl →
    rd (global_partsUseExt dpb) pos = Some u →
    level_nodes dpb lvl →
    (∀ i, s ≤ i < e → ∃ c, rd (global_partitions dpb) i = Some c ∧
                            0 ≤ c ≤ nbordernodes lvl) →
    chain dpb n pred marks →
    chain dpb (S n) pos
      ((if u then [extnode lvl] else []) ++
       partition_nodes lvl (segment (global_partitions dpb) s e) ++ marks).

(** The array [nodes] with the entries of the vertices [vs] set. *)
Definition mark_all (vs : list Z) (nodes : list bool) : list bool :=
  foldl (λ acc v, <[Z.to_nat v := true]> acc) nodes vs.

(** ** What the validity check rejects *)

(** A leading, trailing or repeated delimiter, a character above the
    delimiter, or a character that occurs twice. *)
Definition rule_broken (bp : DPBPART) : Prop :=
  let l := partchars bp in
  let d := delimiter bp in
  head l = Some d ∨ last l = Some d ∨
  (∃ i : nat, l !! i = Some d ∧ l !! S i = Some d) ∨
  Exists (λ c, d < c) l ∨
  ¬ NoDup (filter (λ c, c ≠ d) l).

(** ** Sums of costs *)


(** The partition reached from [pos] after [n] hops along the
    predecessors. *)
Fixpoint walk (predparts : list Z) (n : nat) (pos : Z) : option Z :=
  match n with
  | O => Some pos
  | S n' => pred ← rd predparts pos; walk predparts n' pred
  end.

(** ** The child of the union builder *)

(** The merged subset: the characters of the chosen subsets that stay in the
    border, in the order of the chosen starts, and the extension character
    when there is one. *)
Definition union_chars (map : list Z) (d : Z) (chars starts : list Z)
    (ext : Z) : list Z :=
  flat_map (λ s, remap map (subset_at d chars s)) starts ++
  (if ext >=? 0 then [ext] else []).

(** A subset that is not chosen is kept behind a delimiter. *)
Definition kept (map : list Z) (D : Z) (starts : list Z)
    (sr : Z * list Z) : list Z :=
  if bool_decide (sr.1 ∈ starts) then [] else D :: remap map sr.2.

(** The subsets that are not chosen, from left to right. *)
Definition kept_chars (map : list Z) (d D : Z) (chars starts : list Z)
  : list Z :=
  flat_map (kept map D starts) (subsets d chars).

Definition union_child (map : list Z) (d D : Z) (chars starts : list Z)
    (ext : Z) : list Z :=
  union_chars map d chars starts ext ++ kept_chars map d D chars starts.

(** The position at which the last run of [l] starts; [pos] is the position
    of the head of [l] and [start] the one at which the run that [l]
    continues began. *)
Fixpoint run_start (d start pos : Z) (l : list Z) : Z :=
  match l with
  | [] => start
  | c :: l' =>
      if c =? d then run_start d (pos + 1) (pos + 1) l'
      else run_start d start (pos + 1) l'
  end.
(** ** Example data *)

(** A parent whose second subset leaves the border, so that the child
    would end with a delimiter. *)
Definition rollback_parent : DPBPART := mkDPBPART [0; 2; 1] 2.

Definition rollback_border : DPBORDER :=
  mkDPBORDER [0; 7; 7; 7; 7] [1] [] [] [] 0 0 0 [mkDPBLEVEL [] 0 2]
    [0; -1; 2] [] (-1).


(** A parent of two subsets and a level transition that keeps both of its
    characters. *)
Definition closure_parent : DPBPART := mkDPBPART [0; 2; 1] 2.

Definition closure_border : DPBORDER :=
  mkDPBORDER [0; 7; 7; 7; 7] [1] [] [] [] 0 0 0 [mkDPBLEVEL [] 0 2]
    [0; 1; 2] [] (-1).

(** A store of two partitions: the second one, at level 1, holds the
    character 0, uses the extension node 9 of its level and has the first
    one for predecessor; the border node of character 0 is vertex 4, and
    the root extension node is vertex 7. *)
Definition reconstruction_border : DPBORDER :=
  mkDPBORDER [0; 0; 0] [1; 2; 3] [0%Q; 0%Q] [-1; 0] [false; true] 2 1 10
    [mkDPBLEVEL [] 7 0; mkDPBLEVEL [4] 9 1] [] [] (-1).

(** The same border with distances for the two characters of the parent:
    character 0 is connectable at cost 3, character 1 is not (the value of
    [FARAWAY] in the examples is 100). *)
Definition cost_border : DPBORDER :=
  mkDPBORDER [0; 7; 7; 7; 7] [1] [] [] [] 0 0 0 [mkDPBLEVEL [] 0 2]
    [0; 1; 2] [3%Q; 100%Q] (-1).

(** A parent of three subsets whose characters are connectable at costs
    50, 60 and 60: two of the costs together reach [FARAWAY] = 100. *)
Definition saturating_parent : DPBPART := mkDPBPART [0; 3; 1; 3; 2] 3.

Definition saturating_border : DPBORDER :=
  mkDPBORDER [0; 7; 7; 7; 7; 7; 7] [1] [] [] [] 0 0 0 [mkDPBLEVEL [] 0 3]
    [0; 1; 2; 3] [50%Q; 60%Q; 60%Q] (-1).

(** A store that holds the partition [0; 2; 1] of level 2 at index 0, with
    room for a further partition and a level transition that keeps both
    characters. *)
Definition card_border : DPBORDER :=
  mkDPBORDER [0; 0; 2; 1; 7; 7; 7; 7] [1; 4] [0%Q] [-1] [false] 1 0 0
    [mkDPBLEVEL [] 0 2] [0; 1; 2] [] (-1).

(** The same store with the predecessor of the optimal partition still at
    its initial value -1. *)
Definition unset_border : DPBORDER :=
  mkDPBORDER [0; 0; 0] [1; 2; 3] [0%Q; 0%Q] [-1; -1] [false; true] 2 1 10
    [mkDPBLEVEL [] 7 0; mkDPBLEVEL [4] 9 1] [] [] (-1).

(** A parent of three subsets and a level transition that keeps all of its
    characters, in a store with room for the child. *)
Definition union_parent : DPBPART := mkDPBPART [1; 3; 0; 3; 2] 3.

Definition union_border : DPBORDER :=
  mkDPBORDER [0; 7; 7; 7; 7; 7; 7; 7] [1] [] [] [] 0 0 0 [mkDPBLEVEL [] 0 3]
    [0; 1; 2; 3] [] (-1).

(** The same store at a level transition in which character 1 leaves the
    border. *)
Definition vanishing_border : DPBORDER :=
  mkDPBORDER [0; 7; 7; 7; 7; 7; 7; 7] [1] [] [] [] 0 0 0 [mkDPBLEVEL [] 0 3]
    [0; -1; 2; 3] [] (-1).
(** * Properties *)

(** ** Arrays and loops *)

Lemma rd_Some {A} (a : list A) i v :
  rd a i = Some v ↔ 0 ≤ i ∧ a !! Z.to_nat i = Some v.
Proof.
  unfold rd. destruct (Z.leb_spec 0 i); split; intros H1;
    try tauto; try discriminate; try lia.
Qed.

Lemma rd_nat {A} (a : list A) (n : nat) : rd a (Z.of_nat n) = a !! n.
Proof.
  unfold rd. destruct (Z.leb_spec 0 (Z.of_nat n)); [|lia].
  by rewrite Nat2Z.id.
Qed.

Lemma rd_in_range {A} (a : list A) i :
  0 ≤ i < Z.of_nat (length a) → ∃ v, rd a i = Some v.
Proof.
  intros Hi. destruct (lookup_lt_is_Some_2 a (Z.to_nat i)) as [v Hv]; [lia|].
  exists v. apply rd_Some. split; [lia|done].
Qed.

Lemma rd_range {A} (a : list A) i v :
  rd a i = Some v → 0 ≤ i < Z.of_nat (length a).
Proof.
  intros [? H]%rd_Some. apply lookup_lt_Some in H. lia.
Qed.

Lemma wr_Some {A} (a : list A) i v a' :
  wr a i v = Some a' ↔
  0 ≤ i < Z.of_nat (length a) ∧ a' = <[Z.to_nat i := v]> a.
Proof.
  unfold wr. destruct (Z.leb_spec 0 i), (Z.ltb_spec i (Z.of_nat (length a)));
    simpl; split; intros H1; try (destruct H1; lia); try discriminate.
  - inversion H1. split; [lia|done].
  - destruct H1 as [_ ->]. done.
Qed.

Lemma wr_in_range {A} (a : list A) i v :
  0 ≤ i < Z.of_nat (length a) → wr a i v = Some (<[Z.to_nat i := v]> a).
Proof. intros. by apply wr_Some. Qed.

Lemma wr_length {A} (a : list A) i v a' :
  wr a i v = Some a' → length a' = length a.
Proof. intros [_ ->]%wr_Some. apply length_insert. Qed.

Lemma rd_wr_eq {A} (a : list A) i v a' :
  wr a i v = Some a' → rd a' i = Some v.
Proof.
  intros [Hi ->]%wr_Some. apply rd_Some. split; [lia|].
  apply list_lookup_insert_eq. lia.
Qed.

Lemma rd_wr_ne {A} (a : list A) i j v a' :
  wr a i v = Some a' → i ≠ j → rd a' j = rd a j.
Proof.
  intros [Hi ->]%wr_Some Hne. unfold rd.
  destruct (Z.leb_spec 0 j); [|done].
  apply list_lookup_insert_ne. lia.
Qed.

(** A loop whose body keeps an invariant and never fails ends in a state
    that satisfies the invariant at an index beyond the bound, or the exit
    condition of a [break]. *)
Lemma c_for_fuel_total {St} (Inv Post : Z → St → Prop) hi body :
  (∀ i s, Inv i s → i < hi → ∃ st, body i s = Some st ∧
     match st with
     | Next i' s' => i ≤ i' ∧ Inv (i' + 1) s'
     | Break i' s' => Post i' s'
     end) →
  (∀ i s, Inv i s → hi ≤ i → Post i s) →
  ∀ fuel i s, Inv i s → (Z.to_nat (hi - i) ≤ fuel)%nat →
    ∃ i' s', c_for_fuel fuel hi body i s = Some (i', s') ∧ Post i' s'.
Proof.
  intros Hbody Hexit fuel. induction fuel as [|fuel IH]; intros i s Hinv Hfuel.
  - simpl. destruct (Z.ltb_spec i hi); [lia|]. eauto.
  - simpl. destruct (Z.ltb_spec i hi); [|eauto].
    destruct (Hbody i s Hinv) as (st & -> & Hst); [done|].
    destruct st as [i' s'|i' s']; [|eauto].
    destruct Hst as [Hle Hinv']. apply IH; [done|lia].
Qed.

Lemma c_for_total {St} (Inv Post : Z → St → Prop) lo hi body s :
  (∀ i s, Inv i s → i < hi → ∃ st, body i s = Some st ∧
     match st with
     | Next i' s' => i ≤ i' ∧ Inv (i' + 1) s'
     | Break i' s' => Post i' s'
     end) →
  (∀ i s, Inv i s → hi ≤ i → Post i s) →
  Inv lo s →
  ∃ i' s', c_for lo hi body s = Some (i', s') ∧ Post i' s'.
Proof.
  intros Hbody Hexit Hinv. unfold c_for.
  apply (c_for_fuel_total Inv Post hi body Hbody Hexit); [done|lia].
Qed.

(** The same for a loop whose body may fail: whatever it returns satisfies
    the exit condition. *)
Lemma c_for_fuel_sound {St} (Inv Post : Z → St → Prop) hi body :
  (∀ i s st, Inv i s → i < hi → body i s = Some st →
     match st with
     | Next i' s' => Inv (i' + 1) s'
     | Break i' s' => Post i' s'
     end) →
  (∀ i s, Inv i s → hi ≤ i → Post i s) →
  ∀ fuel i s i' s', Inv i s →
    c_for_fuel fuel hi body i s = Some (i', s') → Post i' s'.
Proof.
  intros Hbody Hexit fuel. induction fuel as [|fuel IH]; intros i s i' s' Hinv.
  - simpl. destruct (Z.ltb_spec i hi); [done|].
    intros [= <- <-]. eauto.
  - simpl. destruct (Z.ltb_spec i hi); [|intros [= <- <-]; eauto].
    destruct (body i s) as [st|] eqn:Hst; [|done].
    specialize (Hbody i s st Hinv H Hst).
    destruct st as [j t|j t]; simpl in Hbody.
    + intros Hrun. exact (IH _ _ _ _ Hbody Hrun).
    + intros [= <- <-]. exact Hbody.
Qed.

Lemma c_for_sound {St} (Inv Post : Z → St → Prop) lo hi body s i' s' :
  (∀ i s st, Inv i s → i < hi → body i s = Some st →
     match st with
     | Next i' s' => Inv (i' + 1) s'
     | Break i' s' => Post i' s'
     end) →
  (∀ i s, Inv i s → hi ≤ i → Post i s) →
  Inv lo s →
  c_for lo hi body s = Some (i', s') → Post i' s'.
Proof.
  intros Hbody Hexit Hinv. unfold c_for.
  by apply (c_for_fuel_sound Inv Post hi body Hbody Hexit).
Qed.

(** ** The validity check *)

Lemma valid_loop_adjacent (l : list Z) d :
  ∃ i ret,
    c_for 1 (Z.of_nat (length l)) (λ i (ret : option bool),
      ci ← rd l i;
      cp ← rd l (i - 1);
      if (ci =? d) && (cp =? d)
      then Some (Break i (Some false))
      else Some (Next i ret)) None = Some (i, ret) ∧
    ((ret = None ∧ ∀ k : nat, l !! k = Some d → l !! S k ≠ Some d) ∨
     (ret = Some false ∧ ∃ k : nat, l !! k = Some d ∧ l !! S k = Some d)).
Proof.
  apply (c_for_total
    (λ i ret, 1 ≤ i ∧ ret = None ∧
       ∀ k : nat, Z.of_nat (S k) < i → l !! k = Some d → l !! S k ≠ Some d)
    (λ _ ret,
       (ret = None ∧ ∀ k : nat, l !! k = Some d → l !! S k ≠ Some d) ∨
       (ret = Some false ∧ ∃ k : nat, l !! k = Some d ∧ l !! S k = Some d))).
  - intros i ret (Hi & -> & Hprev) Hlt.
    destruct (rd_in_range l i) as [ci Hci]; [lia|].
    destruct (rd_in_range l (i - 1)) as [cp Hcp]; [lia|].
    rewrite Hci, Hcp. simpl.
    apply rd_Some in Hci as [_ Hci]. apply rd_Some in Hcp as [_ Hcp].
    replace (Z.to_nat i) with (S (Z.to_nat (i - 1))) in Hci by lia.
    destruct (Z.eqb_spec ci d) as [->|Hne]; simpl.
    + destruct (Z.eqb_spec cp d) as [->|Hne].
      * eexists. split; [done|]. right. eauto.
      * eexists. split; [done|]. split; [lia|]. split; [lia|]. split; [done|].
        intros k Hk Hk1 Hk2.
        destruct (decide (k = Z.to_nat (i - 1))) as [->|]; [congruence|].
        apply (Hprev k); [lia|done..].
    + eexists. split; [done|]. split; [lia|]. split; [lia|]. split; [done|].
      intros k Hk Hk1 Hk2.
      destruct (decide (k = Z.to_nat (i - 1))) as [->|]; [congruence|].
      apply (Hprev k); [lia|done..].
  - intros i ret (Hi & -> & Hprev) Hge. left. split; [done|].
    intros k Hk1 Hk2. apply (Hprev k); [|done..].
    apply lookup_lt_Some in Hk2. lia.
  - split; [lia|]. split; [done|]. intros k Hk. lia.
Qed.

Lemma valid_loop_duplicate (l : list Z) (i c : Z) :
  ∃ j ret,
    c_for 0 (Z.of_nat (length l)) (λ j (ret : option bool),
      borderchar2 ← rd l j;
      if negb (i =? j) && (c =? borderchar2)
      then Some (Break j (Some false))
      else Some (Next j ret)) None = Some (j, ret) ∧
    ((ret = None ∧ ∀ k : nat, l !! k = Some c → Z.of_nat k = i) ∨
     (ret = Some false ∧ ∃ k : nat, l !! k = Some c ∧ Z.of_nat k ≠ i)).
Proof.
  apply (c_for_total
    (λ j ret, 0 ≤ j ∧ ret = None ∧
       ∀ k : nat, Z.of_nat k < j → l !! k = Some c → Z.of_nat k = i)
    (λ _ ret,
       (ret = None ∧ ∀ k : nat, l !! k = Some c → Z.of_nat k = i) ∨
       (ret = Some false ∧ ∃ k : nat, l !! k = Some c ∧ Z.of_nat k ≠ i))).
  - intros j ret (Hj & -> & Hprev) Hlt.
    destruct (rd_in_range l j) as [c2 Hc2]; [lia|].
    rewrite Hc2. simpl. apply rd_Some in Hc2 as [_ Hc2].
    destruct (Z.eqb_spec i j) as [->|Hij]; simpl.
    + eexists. split; [done|]. split; [lia|]. split; [lia|]. split; [done|].
      intros k Hk Hk1. destruct (decide (Z.of_nat k = j)); [done|].
      apply Hprev; [lia|done].
    + destruct (Z.eqb_spec c c2) as [<-|Hne].
      * eexists. split; [done|]. right. split; [done|].
        exists (Z.to_nat j). split; [done|lia].
      * eexists. split; [done|]. split; [lia|]. split; [lia|]. split; [done|].
        intros k Hk Hk1. destruct (decide (k = Z.to_nat j)) as [->|]; [congruence|].
        apply Hprev; [lia|done].
  - intros j ret (Hj & -> & Hprev) Hge. left. split; [done|].
    intros k Hk. apply Hprev; [|done]. apply lookup_lt_Some in Hk. lia.
  - split; [lia|]. split; [done|]. intros k Hk. lia.
Qed.

Lemma valid_loop_chars (l : list Z) d :
  ∃ i ret,
    c_for 0 (Z.of_nat (length l)) (λ i (ret : option bool),
      borderchar ← rd l i;
      if borderchar >? d then Some (Break i (Some false)) else
      if borderchar =? d then Some (Next i ret) else
      '(_, ret) ← c_for 0 (Z.of_nat (length l)) (λ j (ret : option bool),
          borderchar2 ← rd l j;
          if negb (i =? j) && (borderchar =? borderchar2)
          then Some (Break j (Some false))
          else Some (Next j ret)) ret;
      match ret with
      | Some b => Some (Break i (Some b))
      | None => Some (Next i ret)
      end) None = Some (i, ret) ∧
    ((ret = None ∧
      (∀ (k : nat) c, l !! k = Some c → c ≤ d) ∧
      (∀ (k j : nat) c, l !! k = Some c → l !! j = Some c → c ≠ d → k = j)) ∨
     (ret = Some false ∧
      ((∃ (k : nat) c, l !! k = Some c ∧ d < c) ∨
       (∃ (k j : nat) c, l !! k = Some c ∧ l !! j = Some c ∧ c ≠ d ∧ k ≠ j)))).
Proof.
  apply (c_for_total
    (λ i ret, 0 ≤ i ∧ ret = None ∧
      (∀ (k : nat) c, Z.of_nat k < i → l !! k = Some c → c ≤ d) ∧
      (∀ (k j : nat) c, Z.of_nat k < i →
         l !! k = Some c → l !! j = Some c → c ≠ d → k = j))
    (λ _ ret,
      (ret = None ∧
        (∀ (k : nat) c, l !! k = Some c → c ≤ d) ∧
        (∀ (k j : nat) c, l !! k = Some c → l !! j = Some c → c ≠ d → k = j)) ∨
      (ret = Some false ∧
        ((∃ (k : nat) c, l !! k = Some c ∧ d < c) ∨
         (∃ (k j : nat) c, l !! k = Some c ∧ l !! j = Some c ∧ c ≠ d ∧ k ≠ j))))).
  - intros i ret (Hi & -> & Hle & Hdis) Hlt.
    destruct (rd_in_range l i) as [c Hc]; [lia|].
    rewrite Hc. simpl. apply rd_Some in Hc as [_ Hc].
    destruct (Z.gtb_spec c d) as [Hgt|Hngt].
    { eexists. split; [done|]. right. split; [done|]. left. eauto. }
    assert (Hle' : ∀ (k : nat) c0, Z.of_nat k < i + 1 → l !! k = Some c0 → c0 ≤ d).
    { intros k c0 Hk Hk1.
      destruct (decide (k = Z.to_nat i)) as [->|]; [|apply (Hle k); [lia|done]].
      assert (c0 = c) by congruence. lia. }
    destruct (Z.eqb_spec c d) as [->|Hne].
    { eexists. split; [done|]. split; [lia|]. split; [lia|]. split; [done|].
      split; [done|]. intros k j c0 Hk Hk1 Hk2 Hc0.
      destruct (decide (k = Z.to_nat i)) as [->|]; [congruence|].
      apply (Hdis k j c0); [lia|done..]. }
    destruct (valid_loop_duplicate l i c) as (j' & ret & -> & Hret). simpl.
    destruct Hret as [[-> Hall]|[-> (k & Hk & Hki)]].
    + eexists. split; [done|]. split; [lia|]. split; [lia|]. split; [done|].
      split; [done|]. intros k j c0 Hk Hk1 Hk2 Hc0.
      destruct (decide (k = Z.to_nat i)) as [->|]; [|apply (Hdis k j c0); [lia|done..]].
      assert (c0 = c) as -> by congruence. apply Hall in Hk2. lia.
    + eexists. split; [done|]. right. split; [done|]. right.
      exists (Z.to_nat i), k, c. repeat split; [done..|lia].
  - intros i ret (Hi & -> & Hle & Hdis) Hge. left. split; [done|]. split.
    + intros k c Hk. apply (Hle k); [|done]. apply lookup_lt_Some in Hk. lia.
    + intros k j c Hk. apply (Hdis k j c); [|done].
      apply lookup_lt_Some in Hk. lia.
  - split; [lia|]. split; [done|]. split; intros; lia.
Qed.

Lemma dpborder_partIsValid_total bp :
  partchars bp ≠ [] → ∃ b, dpborder_partIsValid bp = Some b.
Proof.
  destruct bp as [l d]. simpl. intros Hne. unfold dpborder_partIsValid, partsize. simpl.
  destruct (rd_in_range l 0) as [c0 ->]; [destruct l; simpl; [done|lia]|]. simpl.
  destruct (c0 =? d); [eauto|].
  destruct (rd_in_range l (Z.of_nat (length l) - 1)) as [cl ->];
    [destruct l; simpl; [done|lia]|]. simpl.
  destruct (cl =? d); [eauto|].
  destruct (valid_loop_adjacent l d) as (i & ret & -> & Hret). simpl.
  destruct Hret as [[-> _]|[-> _]]; [|eauto].
  destruct (valid_loop_chars l d) as (i' & ret & -> & Hret). simpl.
  destruct Hret as [[-> _]|[-> _]]; eauto.
Qed.

Lemma dpborder_partIsValid_wf bp :
  dpborder_partIsValid bp = Some true ↔
  partition_wf (delimiter bp) (partchars bp).
Proof.
  destruct bp as [l d]. simpl. unfold dpborder_partIsValid, partsize. simpl.
  destruct l as [|c0 l'] eqn:El.
  { simpl. split; [done|]. intros [(c & Hc & _) _ _ _ _]. done. }
  rewrite <- El.
  assert (Hlen : (0 < length l)%nat) by (subst l; simpl; lia).
  assert (H0 : rd l 0 = Some c0) by (by subst l).
  rewrite H0. simpl.
  destruct (rd_in_range l (Z.of_nat (length l) - 1)) as [cl Hcl]; [lia|].
  assert (Hlast : last l = Some cl).
  { apply rd_Some in Hcl as [_ Hcl]. rewrite last_lookup.
    rewrite <- Hcl. f_equal. lia. }
  destruct (Z.eqb_spec c0 d) as [->|Hc0].
  { split; [done|]. intros [(c & Hc & Hcd) _ _ _ _].
    apply rd_Some in H0 as [_ H0]. change (Z.to_nat 0) with 0%nat in H0.
    congruence. }
  rewrite Hcl. simpl.
  destruct (Z.eqb_spec cl d) as [->|Hcl'].
  { split; [done|]. intros [_ (c & Hc & Hcd) _ _ _]. congruence. }
  destruct (valid_loop_adjacent l d) as (i & ret & -> & Hret). simpl.
  destruct Hret as [[-> Hadj]|[-> (k & Hk1 & Hk2)]].
  2:{ split; [done|]. intros [_ _ Hne _ _]. by destruct (Hne k). }
  destruct (valid_loop_chars l d) as (i' & ret & -> & Hret). simpl.
  destruct Hret as [[-> [Hle Hdis]]|[-> Hbad]].
  - split; [intros _|done].
    apply rd_Some in H0 as [_ H0]. change (Z.to_nat 0) with 0%nat in H0.
    split; eauto.
  - split; [done|]. intros [_ _ _ Hle Hdis].
    destruct Hbad as [(k & c & Hk & Hc)|(k & j & c & Hk & Hj & Hc & Hkj)].
    + apply Hle in Hk. lia.
    + destruct Hkj. by eapply Hdis.
Qed.

(** ** Subsets *)

Lemma subsets_from_cons d s p c l :
  subsets_from d s p (c :: l) =
  if c =? d then (s, []) :: subsets_from d (p + 1) (p + 1) l
  else cons_head c (subsets_from d s (p + 1) l).
Proof. done. Qed.

Lemma subsets_from_head d s p l :
  ∃ run rest, subsets_from d s p l = (s, run) :: rest.
Proof.
  revert s p. induction l as [|c l IH]; intros s p; simpl; [eauto|].
  destruct (c =? d); [eauto|].
  destruct (IH s (p + 1)) as (run & rest & ->). simpl. eauto.
Qed.

(** Splitting at the first delimiter. *)
Lemma subsets_from_run d s p (l : list Z) (j : nat) :
  (∀ k : nat, (k < j)%nat → l !! k ≠ Some d) →
  (j ≤ length l)%nat →
  (l !! j = Some d →
     subsets_from d s p l =
     (s, take j l) ::
       subsets_from d (p + Z.of_nat j + 1) (p + Z.of_nat j + 1) (drop (S j) l)) ∧
  (j = length l → subsets_from d s p l = [(s, l)]).
Proof.
  revert p l. induction j as [|j IH]; intros p l Hrun Hlen.
  - split.
    + destruct l as [|c l]; [done|]. intros [= ->]. simpl.
      rewrite Z.eqb_refl, drop_0. do 3 f_equal; lia.
    + destruct l; [done|]. simpl. lia.
  - destruct l as [|c l]; [simpl in Hlen; lia|].
    simpl in Hlen. simpl.
    destruct (Z.eqb_spec c d) as [->|Hne]; [by destruct (Hrun 0%nat); [lia|]|].
    destruct (IH (p + 1) l) as [IH1 IH2].
    { intros k Hk. apply (Hrun (S k)). lia. }
    { lia. }
    split.
    + intros Hj. rewrite IH1 by done. simpl. do 3 f_equal; lia.
    + intros Hj. rewrite IH2 by lia. done.
Qed.

Section CandStarts.

Variable FARAWAY : Q.
Variable dists : list Q.

Lemma cands_cons s run rest :
  cands FARAWAY dists ((s, run) :: rest) =
  if existsb (connectable_char FARAWAY dists) run then s :: cands FARAWAY dists rest
  else cands FARAWAY dists rest.
Proof.
  unfold cands. rewrite filter_cons. simpl.
  destruct (existsb _ run); simpl; done.
Qed.

Lemma cands_cons_head c subs :
  connectable_char FARAWAY dists c = false →
  cands FARAWAY dists (cons_head c subs) = cands FARAWAY dists subs.
Proof.
  intros Hc. destruct subs as [|[s run] rest]; [done|]. simpl.
  rewrite !cands_cons. simpl. by rewrite Hc.
Qed.

End CandStarts.

Lemma scan_left_run l d s : ∀ fuel i,
  0 ≤ s ≤ i →
  (∀ k, s ≤ k ≤ i → ∃ c, rd l k = Some c ∧ c ≠ d) →
  s = 0 ∨ rd l (s - 1) = Some d →
  (Z.to_nat i ≤ fuel)%nat →
  ∃ p c, scan_left fuel l d i = Some p ∧ rd l p = Some c ∧
         (if c =? d then p + 1 else p) = s.
Proof.
  induction fuel as [|fuel IH]; intros i Hs Hrun Hstart Hfuel.
  - assert (i = 0) as -> by lia. assert (s = 0) as -> by lia. simpl.
    destruct (Hrun 0) as (c & Hc & Hcd); [lia|].
    exists 0, c. split; [done|]. split; [done|].
    by destruct (Z.eqb_spec c d).
  - simpl. destruct (Z.ltb_spec 0 i) as [Hi|Hi].
    + destruct (Hrun i) as (c & Hc & Hcd); [lia|]. rewrite Hc. simpl.
      destruct (Z.eqb_spec c d) as [|_]; [done|].
      destruct (decide (s = i)) as [->|Hsi].
      * destruct Hstart as [->|Hd]; [lia|].
        clear IH. destruct fuel as [|fuel]; simpl.
        -- destruct (Z.ltb_spec 0 (i - 1)); [lia|].
           exists (i - 1), d. rewrite Z.eqb_refl. split; [done|]. split; [done|lia].
        -- destruct (Z.ltb_spec 0 (i - 1)).
           ++ rewrite Hd. simpl. rewrite Z.eqb_refl.
              exists (i - 1), d. rewrite Z.eqb_refl. split; [done|]. split; [done|lia].
           ++ exists (i - 1), d. rewrite Z.eqb_refl. split; [done|]. split; [done|lia].
      * apply IH; [lia| |done|lia]. intros k Hk. apply Hrun. lia.
    + assert (i = 0) as -> by lia. assert (s = 0) as -> by lia.
      destruct (Hrun 0) as (c & Hc & Hcd); [lia|].
      exists 0, c. split; [done|]. split; [done|].
      by destruct (Z.eqb_spec c d).
Qed.

Lemma skip_to_delimiter (l : list Z) d i :
  0 ≤ i →
  ∃ i', c_for i (Z.of_nat (length l)) (λ i (_ : unit),
          c ← rd l i;
          if c =? d then Some (Break i tt) else Some (Next i tt)) tt
        = Some (i', tt) ∧
        i ≤ i' ∧ (i ≤ Z.of_nat (length l) → i' ≤ Z.of_nat (length l)) ∧
        (∀ k, i ≤ k < i' → rd l k ≠ Some d) ∧
        (i' < Z.of_nat (length l) → rd l i' = Some d).
Proof.
  intros Hi.
  destruct (c_for_total
    (λ j (_ : unit), i ≤ j ∧ (i ≤ Z.of_nat (length l) → j ≤ Z.of_nat (length l)) ∧
        ∀ k, i ≤ k < j → rd l k ≠ Some d)
    (λ j (_ : unit), i ≤ j ∧ (i ≤ Z.of_nat (length l) → j ≤ Z.of_nat (length l)) ∧
        (∀ k, i ≤ k < j → rd l k ≠ Some d) ∧
        (j < Z.of_nat (length l) → rd l j = Some d))
    i (Z.of_nat (length l))
    (λ i (_ : unit),
          c ← rd l i;
          if c =? d then Some (Break i tt) else Some (Next i tt)) tt)
    as (i' & [] & Hrun & Hpost).
  - intros j [] (Hj & Hjn & Hprev) Hlt.
    destruct (rd_in_range l j) as [c Hc]; [lia|]. rewrite Hc. simpl.
    destruct (Z.eqb_spec c d) as [->|Hne].
    + eexists. split; [done|]. simpl. repeat split; try done; lia.
    + eexists. split; [done|]. simpl. split; [lia|]. split; [lia|]. split; [lia|].
      intros k Hk. destruct (decide (k = j)) as [->|]; [congruence|].
      apply Hprev. lia.
  - intros j [] (Hj & Hjn & Hprev) Hge. repeat split; try done; lia.
  - split; [lia|]. split; [lia|]. intros k Hk. lia.
  - exists i'. split; [done|]. tauto.
Qed.

Lemma subsets_from_elem d l : ∀ s p,
  ∃ rest, subsets_from d s p l = (s, run_prefix d l) :: rest ∧
    ∀ s' run, (s', run) ∈ rest →
      ∃ k : nat, l !! k = Some d ∧ s' = p + Z.of_nat k + 1 ∧
                 run = run_prefix d (drop (S k) l).
Proof.
  induction l as [|c l IH]; intros s p; simpl.
  - exists []. split; [done|]. intros s' run Hin. by apply elem_of_nil in Hin.
  - destruct (Z.eqb_spec c d) as [->|Hne].
    + destruct (IH (p + 1) (p + 1)) as (rest & -> & Hrest).
      eexists. split; [done|]. intros s' run [[= -> ->]|Hin]%elem_of_cons.
      * exists 0%nat. simpl. rewrite drop_0. split; [done|]. split; [lia|done].
      * destruct (Hrest _ _ Hin) as (k & Hk & -> & ->).
        exists (S k). simpl. split; [done|]. split; [lia|done].
    + destruct (IH s (p + 1)) as (rest & -> & Hrest). simpl.
      eexists. split; [done|]. intros s' run Hin.
      destruct (Hrest _ _ Hin) as (k & Hk & -> & ->).
      exists (S k). simpl. split; [done|]. split; [lia|done].
Qed.

Lemma run_prefix_nonempty d l c :
  l !! 0%nat = Some c → c ≠ d → run_prefix d l ≠ [].
Proof.
  destruct l as [|c' l]; [done|]. intros [= ->] Hne. simpl.
  by destruct (Z.eqb_spec c d).
Qed.

Lemma run_prefix_not_delimiter d l : d ∉ run_prefix d l.
Proof.
  induction l as [|c l IH]; simpl; [apply not_elem_of_nil|].
  destruct (Z.eqb_spec c d); [apply not_elem_of_nil|].
  intros [?|?]%elem_of_cons; [congruence|done].
Qed.

Lemma run_prefix_sublist d l c : c ∈ run_prefix d l → c ∈ l.
Proof.
  induction l as [|c' l IH]; simpl; [done|].
  destruct (Z.eqb_spec c' d); [by intros ?%elem_of_nil|].
  intros [->|?]%elem_of_cons; [left|right; auto].
Qed.

(** Every subset of a valid partition starts at position 0 or right after
    a delimiter, is not empty, and consists of the characters from its
    start up to the next delimiter. *)
Lemma subsets_valid d l s run :
  partition_wf d l →
  (s, run) ∈ subsets d l →
  0 ≤ s < Z.of_nat (length l) ∧
  (s = 0 ∨ rd l (s - 1) = Some d) ∧
  (∃ c, rd l s = Some c ∧ c ≠ d) ∧
  run = subset_at d l s ∧ run ≠ [].
Proof.
  intros [(c0 & Hc0 & Hc0d) (cl & Hcl & Hcld) Hadj _ _] Hin.
  unfold subsets in Hin.
  destruct (subsets_from_elem d l 0 0) as (rest & Heq & Hrest).
  rewrite Heq in Hin. apply elem_of_cons in Hin as [[= -> ->]|Hin].
  - apply lookup_lt_Some in Hc0 as Hlen.
    split; [lia|]. split; [by left|]. split; [exists c0; by rewrite <- rd_nat in Hc0|].
    unfold subset_at. simpl. rewrite drop_0. split; [done|].
    by eapply run_prefix_nonempty.
  - destruct (Hrest _ _ Hin) as (k & Hk & -> & ->).
    apply lookup_lt_Some in Hk as Hlen.
    assert (Hk1 : ∃ c, l !! S k = Some c ∧ c ≠ d).
    { destruct (l !! S k) as [c|] eqn:Hc.
      - exists c. split; [done|]. intros ->. by apply (Hadj k).
      - apply lookup_ge_None in Hc. rewrite last_lookup in Hcl.
        replace (Init.Nat.pred (length l)) with k in Hcl by lia. congruence. }
    destruct Hk1 as (c & Hc & Hcd). apply lookup_lt_Some in Hc as Hlen'.
    split; [lia|]. split.
    { right. rewrite <- rd_nat in Hk. rewrite <- Hk. f_equal. lia. }
    split.
    { exists c. split; [|done]. rewrite <- rd_nat in Hc. rewrite <- Hc. f_equal. lia. }
    unfold subset_at. replace (Z.to_nat (0 + Z.of_nat k + 1)) with (S k) by lia.
    split; [done|]. eapply run_prefix_nonempty; [|done].
    by rewrite lookup_drop, Nat.add_0_r.
Qed.

(** ** Candidate starts *)

Lemma cands_nil FARAWAY dists : cands FARAWAY dists [] = [].
Proof. done. Qed.

Lemma candstarts_loop FARAWAY bp dpb :
  (∃ c, partchars bp !! 0%nat = Some c ∧ c ≠ delimiter bp) →
  (∀ c, c ∈ partchars bp → c ≠ delimiter bp →
        ∃ x, rd (borderchardists dpb) c = Some x) →
  dpborder_partGetCandstarts FARAWAY bp dpb =
  Some (candstarts_spec FARAWAY (borderchardists dpb) (delimiter bp)
          (partchars bp)).
Proof.
  destruct bp as [l d]. simpl. intros Hhead Hdists.
  unfold dpborder_partGetCandstarts, partsize. simpl.
  set (dists := borderchardists dpb) in *. clearbody dists.
  set (n := Z.of_nat (length l)).
  set (total := candstarts_spec FARAWAY dists d l).
  match goal with |- context [c_for ?lo ?hi ?body ?st0] =>
    destruct (c_for_total
    (λ i cs, 0 ≤ i ∧
      ((i ≤ n ∧ ∃ s, 0 ≤ s ≤ i ∧
          (∀ k, s ≤ k < i → ∃ c, rd l k = Some c ∧ c ≠ d) ∧
          (s = 0 ∨ rd l (s - 1) = Some d) ∧
          cs ++ cands FARAWAY dists (subsets_from d s i (drop (Z.to_nat i) l)) = total) ∨
       (i = n + 1 ∧ cs = total)))
    (λ _ cs, cs = total) lo hi body st0)
    as (i' & cs & -> & ->); [| | |done]
  end.
  - intros i cs (Hi & Hinv) Hlt.
    destruct Hinv as [(_ & s & Hs & Hrun & Hstart & Hcs)|[-> _]]; [|lia].
    destruct (rd_in_range l i) as [c Hc]; [lia|]. rewrite Hc. simpl.
    destruct (proj1 (rd_Some _ _ _) Hc) as [_ Hc'].
    rewrite (drop_S _ _ _ Hc'), subsets_from_cons in Hcs.
    replace (S (Z.to_nat i)) with (Z.to_nat (i + 1)) in Hcs by lia.
    destruct (Z.eqb_spec c d) as [Hcd|Hne].
    { subst c. eexists. split; [done|]. simpl. split; [lia|]. split; [lia|]. left.
      split; [lia|]. exists (i + 1). split; [lia|]. split; [intros; lia|].
      split; [right; by replace (i + 1 - 1) with i by lia|].
      by rewrite cands_cons in Hcs. }
    destruct (Hdists c) as [x Hx]; [by eapply list_elem_of_lookup_2|done|].
    rewrite Hx. simpl.
    destruct (LT x FARAWAY) eqn:Hlt'; cycle 1.
    { eexists. split; [done|]. simpl. split; [lia|]. split; [lia|]. left.
      split; [lia|]. exists s. split; [lia|]. split; [|split; [done|]].
      - intros k Hk. destruct (decide (k = i)) as [->|]; [eauto|].
        apply Hrun. lia.
      - rewrite cands_cons_head in Hcs; [done|].
        unfold connectable_char. by rewrite Hx. }
    destruct (scan_left_run l d s (Z.to_nat i) i) as (p & c' & -> & Hp & Hadj);
      [lia| |done|lia|].
    { intros k Hk. destruct (decide (k = i)) as [->|]; [eauto|].
      apply Hrun. lia. }
    simpl. rewrite Hp. simpl. rewrite Hadj.
    destruct (skip_to_delimiter l d i Hi) as (i' & Hsk & Hii' & Hi'n & Hskip & Hdel).
    fold n in Hsk. rewrite Hsk. clear Hsk.
    simpl. eexists. split; [done|]. simpl. split; [lia|]. split; [lia|].
    assert (Hi' : i < i').
    { destruct (decide (i = i')) as [<-|]; [|lia].
      rewrite Hdel in Hc by done. congruence. }
    destruct (subsets_from_head d s (i + 1) (drop (Z.to_nat (i + 1)) l))
      as (run & rest & Hsub).
    destruct (subsets_from_run d s (i + 1) (drop (Z.to_nat (i + 1)) l)
                (Z.to_nat (i' - (i + 1)))) as [Hmid Hend].
    { intros k Hk. rewrite lookup_drop. specialize (Hskip (i + 1 + Z.of_nat k)).
      rewrite <- rd_nat. replace (Z.of_nat (Z.to_nat (i + 1) + k)) with
        (i + 1 + Z.of_nat k) by lia. apply Hskip. lia. }
    { rewrite length_drop. lia. }
    assert (Hconn : ∀ run', existsb (connectable_char FARAWAY dists) (c :: run') = true).
    { intros run'. simpl. unfold connectable_char at 1. by rewrite Hx, Hlt'. }
    destruct (decide (i' < n)) as [Hlt2|Hge2].
    + left. split; [lia|]. exists (i' + 1). split; [lia|].
      split; [intros; lia|]. split; [right; replace (i' + 1 - 1) with i' by lia; auto|].
      rewrite Hmid in Hcs.
      * simpl in Hcs. rewrite cands_cons, Hconn in Hcs.
        unfold StpVecPushBack. rewrite <- app_assoc. simpl.
        replace (i + 1 + Z.of_nat (Z.to_nat (i' - (i + 1))) + 1)
          with (i' + 1) in Hcs by lia.
        rewrite drop_drop in Hcs.
        replace (Z.to_nat (i + 1) + S (Z.to_nat (i' - (i + 1))))%nat
          with (Z.to_nat (i' + 1)) in Hcs by lia.
        done.
      * rewrite lookup_drop, <- rd_nat, <- (Hdel Hlt2). f_equal. lia.
    + right. split; [lia|].
      rewrite Hend in Hcs by (rewrite length_drop; lia).
      simpl in Hcs. rewrite cands_cons, Hconn in Hcs.
      unfold StpVecPushBack. rewrite <- Hcs. simpl.
      by rewrite cands_nil.
  - intros i cs (Hi & Hinv) Hge.
    destruct Hinv as [(Hle & s & Hs & Hrun & Hstart & Hcs)|[-> ->]]; [|done].
    rewrite drop_ge in Hcs by lia. simpl in Hcs.
    rewrite cands_cons in Hcs. simpl in Hcs.
    by rewrite app_nil_r in Hcs.
  - split; [lia|]. left. split; [lia|]. exists 0. split; [lia|].
    split; [intros; lia|]. split; [by left|]. done.
Qed.

(** C6.  For a valid partition whose characters index the distance array,
    [dpborder_partGetCandstarts] returns, from left to right, the start of
    every subset that holds a character with a distance below [FARAWAY],
    once per such subset and nothing else; every start is position 0 or the
    position right after a delimiter, and is the first character of its
    subset. *)
Theorem candstarts_enumeration FARAWAY bp dpb :
  partition_inv bp →
  delimiter bp ≤ Z.of_nat (length (borderchardists dpb)) →
  dpborder_partGetCandstarts FARAWAY bp dpb =
    Some (candstarts_spec FARAWAY (borderchardists dpb)
            (delimiter bp) (partchars bp)) ∧
  (∀ s run, (s, run) ∈ subsets (delimiter bp) (partchars bp) →
     0 ≤ s < partsize bp ∧
     (s = 0 ∨ rd (partchars bp) (s - 1) = Some (delimiter bp)) ∧
     run = subset_at (delimiter bp) (partchars bp) s ∧ run ≠ []).
Proof.
  intros [Hvalid Hpos] Hdists. apply dpborder_partIsValid_wf in Hvalid.
  split.
  - apply candstarts_loop; [apply Hvalid|].
    intros c Hc Hcd. apply rd_in_range.
    rewrite Forall_forall in Hpos. specialize (Hpos c Hc).
    apply list_elem_of_lookup in Hc as [k Hk].
    apply (wf_bound _ _ Hvalid) in Hk. lia.
  - intros s run Hin.
    destruct (subsets_valid _ _ _ _ Hvalid Hin) as (? & ? & ? & ? & ?).
    done.
Qed.

Lemma candstarts_enumeration_witness :
  dpborder_partGetCandstarts 100 closure_parent cost_border = Some [0] ∧
  subsets 2 [0; 2; 1] = [(0, [0]); (2, [1])].
Proof.
  destruct (candstarts_enumeration 100 closure_parent cost_border)
    as [Hrun _].
  - split; [reflexivity|repeat constructor; lia].
  - simpl. lia.
  - split; [exact Hrun|reflexivity].
Defined.

(** ** Connection costs *)

Lemma LT_spec x y : LT x y = true ↔ (x < y)%Q.
Proof.
  unfold LT. destruct (Qle_bool y x) eqn:H; simpl.
  - apply Qle_bool_iff in H. split; [done|]. intros. lra.
  - split; [intros _|done]. destruct (Qlt_le_dec x y); [done|].
    apply Qle_bool_iff in q. congruence.
Qed.

Lemma GE_spec x y : GE x y = true ↔ (y <= x)%Q.
Proof. unfold GE. apply Qle_bool_iff. Qed.

Section Costs.

Variable FARAWAY : Q.
Variable dists : list Q.

Lemma min_step_le m c : (min_step dists m c <= m)%Q.
Proof.
  unfold min_step. destruct (rd dists c) as [x|]; [|lra].
  destruct (LT x m) eqn:H; [|lra]. apply LT_spec in H. lra.
Qed.

Lemma fold_min_step_le run : ∀ m, (fold_left (min_step dists) run m <= m)%Q.
Proof.
  induction run as [|c run IH]; intros m; simpl; [lra|].
  pose proof (IH (min_step dists m c)). pose proof (min_step_le m c). lra.
Qed.

Lemma fold_min_step_lower run : ∀ m c x,
  c ∈ run → rd dists c = Some x →
  (fold_left (min_step dists) run m <= x)%Q.
Proof.
  induction run as [|c' run IH]; intros m c x Hin Hx; [by apply elem_of_nil in Hin|].
  simpl. apply elem_of_cons in Hin as [<-|Hin]; [|by eapply IH].
  pose proof (fold_min_step_le run (min_step dists m c)) as H.
  assert (min_step dists m c <= x)%Q; [|lra].
  unfold min_step. rewrite Hx. destruct (LT x m) eqn:Hlt; [lra|].
  destruct (Qlt_le_dec x m) as [Hl|Hl]; [|done].
  apply LT_spec in Hl. congruence.
Qed.

Lemma fold_min_step_attained run : ∀ m,
  fold_left (min_step dists) run m = m ∨
  ∃ c x, c ∈ run ∧ rd dists c = Some x ∧ fold_left (min_step dists) run m = x.
Proof.
  induction run as [|c run IH]; intros m; simpl; [by left|].
  destruct (IH (min_step dists m c)) as [->|(c' & x & Hin & Hx & ->)].
  - unfold min_step. destruct (rd dists c) as [x|] eqn:Hx; [|by left].
    destruct (LT x m); [|by left]. right. exists c, x. split; [left|done].
  - right. exists c', x. split; [by right|done].
Qed.

(** The value that the source computes is the minimum, once no distance
    exceeds [FARAWAY]. *)
Lemma min_dist_is_min run :
  run ≠ [] →
  (∀ c, c ∈ run → ∃ x, rd dists c = Some x ∧ (x <= FARAWAY)%Q) →
  is_min_dist dists run (min_dist FARAWAY dists run).
Proof.
  intros Hne Hd. split.
  - destruct (fold_min_step_attained run FARAWAY) as [Heq|(c & x & Hin & Hx & Heq)].
    + destruct run as [|c run]; [done|].
      destruct (Hd c) as (x & Hx & Hle); [left|].
      exists c, x. split; [left|]. split; [done|].
      pose proof (fold_min_step_lower (c :: run) FARAWAY c x) as H.
      unfold min_dist. rewrite Heq in *.
      assert (FARAWAY <= x)%Q by (apply H; [left|done]). lra.
    + exists c, x. split; [done|]. split; [done|]. unfold min_dist. by rewrite Heq.
  - intros c x Hin Hx. by eapply fold_min_step_lower.
Qed.

Lemma min_dist_nonneg run :
  (0 <= FARAWAY)%Q →
  (∀ c x, rd dists c = Some x → (0 <= x)%Q) →
  (0 <= min_dist FARAWAY dists run)%Q.
Proof.
  intros HF Hd.
  destruct (fold_min_step_attained run FARAWAY) as [Heq|(c & x & Hin & Hx & Heq)];
    unfold min_dist; rewrite Heq; eauto.
Qed.

(** The walk over one subset. *)
Lemma min_loop (l : list Z) d s :
  0 ≤ s →
  (∀ c, c ∈ l → c ≠ d → ∃ x, rd dists c = Some x) →
  ∃ j, c_for s (Z.of_nat (length l)) (λ j (minedgecost : Q),
          partchar ← rd l j;
          if partchar =? d then Some (Break j minedgecost) else
          dist ← rd dists partchar;
          if LT dist minedgecost then Some (Next j dist)
          else Some (Next j minedgecost)) FARAWAY
       = Some (j, min_dist FARAWAY dists (subset_at d l s)).
Proof.
  intros Hs Hd.
  match goal with |- context [c_for ?lo ?hi ?body ?st0] =>
    destruct (c_for_total
      (λ j m, s ≤ j ∧
         fold_left (min_step dists) (run_prefix d (drop (Z.to_nat j) l)) m =
         min_dist FARAWAY dists (subset_at d l s))
      (λ _ m, m = min_dist FARAWAY dists (subset_at d l s)) lo hi body st0)
      as (j & m & -> & ->); [| | |by eauto]
  end.
  - intros j m [Hj Hfold] Hlt.
    destruct (rd_in_range l j) as [c Hc]; [lia|]. rewrite Hc. simpl.
    destruct (proj1 (rd_Some _ _ _) Hc) as [_ Hc'].
    rewrite (drop_S _ _ _ Hc') in Hfold. simpl in Hfold.
    destruct (Z.eqb_spec c d) as [Hcd|Hcd]; [by eexists|].
    destruct (Hd c) as [x Hx]; [by eapply list_elem_of_lookup_2|done|].
    rewrite Hx. simpl. simpl in Hfold. unfold min_step at 2 in Hfold.
    rewrite Hx in Hfold.
    replace (S (Z.to_nat j)) with (Z.to_nat (j + 1)) in Hfold by lia.
    destruct (LT x m); eexists; (split; [done|]); simpl; (split; [lia|]);
      (split; [lia|done]).
  - intros j m [Hj Hfold] Hge. rewrite drop_ge in Hfold by lia. done.
  - split; [lia|done].
Qed.

Lemma cost_loop dpb bp (starts : list Z) :
  borderchardists dpb = dists →
  Forall (λ s, 0 ≤ s) starts →
  (∀ c, c ∈ partchars bp → c ≠ delimiter bp → ∃ x, rd dists c = Some x) →
  dpborder_partGetConnectionCost FARAWAY dpb bp starts =
  Some (sum_until FARAWAY 0
          (map (λ s, min_dist FARAWAY dists
                       (subset_at (delimiter bp) (partchars bp) s)) starts)).
Proof.
  intros Hdists Hstarts Hd. destruct bp as [l d]. simpl in *.
  unfold dpborder_partGetConnectionCost, partsize, StpVecGetSize. simpl.
  rewrite Hdists.
  set (minf := λ s, min_dist FARAWAY dists (subset_at d l s)).
  set (total := sum_until FARAWAY 0 (map minf starts)).
  match goal with |- context [c_for ?lo ?hi ?body ?st0] =>
    destruct (c_for_total
      (λ i cs, 0 ≤ i ∧
         sum_until FARAWAY cs (map minf (drop (Z.to_nat i) starts)) = total)
      (λ _ cs, cs = total) lo hi body st0)
      as (i & cs & -> & ->); [| | |done]
  end.
  - intros i cs [Hi Hsum] Hlt.
    destruct (rd_in_range starts i) as [s Hs]; [lia|]. rewrite Hs. simpl.
    destruct (proj1 (rd_Some _ _ _) Hs) as [_ Hs'].
    rewrite (drop_S _ _ _ Hs') in Hsum. simpl in Hsum.
    destruct (min_loop l d s) as (j & ->); [|done|].
    { rewrite Forall_forall in Hstarts. apply Hstarts.
      by eapply list_elem_of_lookup_2. }
    simpl. fold (minf s).
    replace (S (Z.to_nat i)) with (Z.to_nat (i + 1)) in Hsum by lia.
    destruct (GE (cs + minf s) FARAWAY); eexists; (split; [done|]); simpl;
      [done|]. split; [lia|]. split; [lia|done].
  - intros i cs [Hi Hsum] Hge. rewrite drop_ge in Hsum by lia. done.
  - split; [lia|]. by rewrite drop_0.
Qed.

Lemma sum_until_app_ge mins : ∀ costsum m,
  (0 <= m)%Q →
  (sum_until FARAWAY costsum mins <= sum_until FARAWAY costsum (mins ++ [m]))%Q.
Proof.
  induction mins as [|m0 mins IH]; intros costsum m Hm; simpl.
  - destruct (GE (costsum + m) FARAWAY); lra.
  - destruct (GE (costsum + m0) FARAWAY); [lra|]. by apply IH.
Qed.

End Costs.

Lemma subset_start_range bp s :
  dpborder_partIsValid bp = Some true → s ∈ subset_starts bp →
  0 ≤ s < partsize bp ∧
  subset_at (delimiter bp) (partchars bp) s ≠ [].
Proof.
  intros Hvalid%dpborder_partIsValid_wf Hin. unfold subset_starts in Hin.
  apply list_elem_of_fmap in Hin as ([s' run] & -> & Hin). simpl.
  destruct (subsets_valid _ _ _ _ Hvalid Hin) as (? & ? & ? & Heq & ?).
  by rewrite <- Heq.
Qed.

Lemma dists_readable bp (dists : list Q) :
  partition_inv bp →
  delimiter bp ≤ Z.of_nat (length dists) →
  ∀ c, c ∈ partchars bp → c ≠ delimiter bp → ∃ x, rd dists c = Some x.
Proof.
  intros [Hvalid%dpborder_partIsValid_wf Hpos] Hlen c Hc Hcd.
  apply rd_in_range. rewrite Forall_forall in Hpos. specialize (Hpos c Hc).
  apply list_elem_of_lookup in Hc as [k Hk].
  apply (wf_bound _ _ Hvalid) in Hk. lia.
Qed.

(** C4.  For a valid base partition and a list of subset starts,
    [dpborder_partGetConnectionCost] returns the running sum, over the
    chosen starts in order, of the least distance of the characters of the
    subset that begins at the start; the sum stops at the first start at
    which it reaches [FARAWAY]. *)
Theorem connection_cost_definition FARAWAY dpb bp starts :
  partition_inv bp →
  delimiter bp ≤ Z.of_nat (length (borderchardists dpb)) →
  (∀ c x, rd (borderchardists dpb) c = Some x → (x <= FARAWAY)%Q) →
  Forall (λ s, s ∈ subset_starts bp) starts →
  dpborder_partGetConnectionCost FARAWAY dpb bp starts =
    Some (sum_until FARAWAY 0
            (map (λ s, min_dist FARAWAY (borderchardists dpb)
                         (subset_at (delimiter bp) (partchars bp) s)) starts)) ∧
  Forall (λ s,
      is_min_dist (borderchardists dpb)
        (subset_at (delimiter bp) (partchars bp) s)
        (min_dist FARAWAY (borderchardists dpb)
           (subset_at (delimiter bp) (partchars bp) s))) starts.
Proof.
  intros Hinv Hlen Hfar Hstarts.
  pose proof (dists_readable bp _ Hinv Hlen) as Hd.
  destruct Hinv as [Hvalid Hpos]. split.
  - apply cost_loop; [done| |done].
    eapply Forall_impl; [exact Hstarts|]. intros s Hs. simpl in Hs.
    by destruct (subset_start_range bp s Hvalid Hs) as [[? _] _].
  - eapply Forall_impl; [exact Hstarts|]. intros s Hs. simpl in Hs.
    destruct (subset_start_range bp s Hvalid Hs) as [_ Hne].
    apply min_dist_is_min; [done|].
    intros c Hc. unfold subset_at in Hc.
    assert (c ≠ delimiter bp).
    { intros ->. by eapply run_prefix_not_delimiter. }
    apply run_prefix_sublist in Hc.
    assert (c ∈ partchars bp).
    { apply list_elem_of_lookup in Hc as [k Hk]. rewrite lookup_drop in Hk.
      by eapply list_elem_of_lookup_2. }
    destruct (Hd c) as [x Hx]; [done..|]. eauto.
Qed.

Lemma connection_cost_definition_witness :
  dpborder_partGetConnectionCost 100 cost_border closure_parent [0; 2] =
    Some (sum_until 100 0 [3%Q; 100%Q]).
Proof.
  destruct (connection_cost_definition 100 cost_border closure_parent [0; 2])
    as [Hrun _].
  - split; [reflexivity|repeat constructor; lia].
  - simpl. lia.
  - intros c x Hc. pose proof (rd_range _ _ _ Hc) as Hr. simpl in Hr.
    assert (c = 0 ∨ c = 1) as [-> | ->] by lia; injection Hc as <-;
      unfold Qle; simpl; lia.
  - repeat (constructor; [vm_compute; repeat constructor|]). constructor.
  - exact Hrun.
Defined.

(** Away from the end of the list a further start can lower the result,
    but not below [FARAWAY]. *)
Lemma sum_until_mono FARAWAY mins : ∀ costsum costsum',
  Forall (λ m, 0 <= m)%Q mins →
  (costsum <= costsum')%Q →
  (sum_until FARAWAY costsum mins <= sum_until FARAWAY costsum' mins)%Q ∨
  (FARAWAY <= sum_until FARAWAY costsum' mins)%Q.
Proof.
  induction mins as [|m mins IH]; intros costsum costsum' Hpos Hle; simpl.
  - by left.
  - apply Forall_cons in Hpos as [Hm Hpos].
    destruct (GE (costsum' + m) FARAWAY) eqn:H'.
    + right. by apply GE_spec.
    + destruct (GE (costsum + m) FARAWAY) eqn:H.
      * apply GE_spec in H. destruct (Qlt_le_dec (costsum' + m) FARAWAY) as [Hl|Hl].
        -- lra.
        -- apply GE_spec in Hl. congruence.
      * apply IH; [done|lra].
Qed.

Lemma sum_until_insert FARAWAY mins1 : ∀ costsum m mins2,
  (0 <= m)%Q → Forall (λ m, 0 <= m)%Q mins2 →
  (sum_until FARAWAY costsum (mins1 ++ mins2) <=
   sum_until FARAWAY costsum (mins1 ++ m :: mins2))%Q ∨
  (FARAWAY <= sum_until FARAWAY costsum (mins1 ++ m :: mins2))%Q.
Proof.
  induction mins1 as [|m1 mins1 IH]; intros costsum m mins2 Hm Hpos; simpl.
  - destruct (GE (costsum + m) FARAWAY) eqn:H.
    + right. by apply GE_spec.
    + apply sum_until_mono; [done|lra].
  - destruct (GE (costsum + m1) FARAWAY); [left; lra|]. by apply IH.
Qed.

(** C5 (amended).  For a valid base partition and distances that are not
    negative, the connection cost of a list of subset starts with one
    further start put into it is not below the cost of the list itself or
    not below [FARAWAY]; with the further start at the end of the list it is
    not below the cost of the list itself. *)
Theorem connection_cost_monotone FARAWAY dpb bp starts1 s starts2 :
  (0 <= FARAWAY)%Q →
  partition_inv bp →
  delimiter bp ≤ Z.of_nat (length (borderchardists dpb)) →
  (∀ c x, rd (borderchardists dpb) c = Some x → (0 <= x)%Q) →
  Forall (λ s, s ∈ subset_starts bp) (starts1 ++ s :: starts2) →
  ∃ cost cost',
    dpborder_partGetConnectionCost FARAWAY dpb bp (starts1 ++ starts2) =
      Some cost ∧
    dpborder_partGetConnectionCost FARAWAY dpb bp (starts1 ++ s :: starts2) =
      Some cost' ∧
    ((cost <= cost')%Q ∨ (FARAWAY <= cost')%Q) ∧
    (starts2 = [] → (cost <= cost')%Q).
Proof.
  intros HF Hinv Hlen Hpos Hstarts.
  pose proof (dists_readable bp _ Hinv Hlen) as Hd.
  destruct Hinv as [Hvalid _].
  assert (Hge : Forall (λ s, 0 ≤ s) (starts1 ++ s :: starts2)).
  { eapply Forall_impl; [exact Hstarts|]. intros s' Hs. simpl in Hs.
    by destruct (subset_start_range bp s' Hvalid Hs) as [[? _] _]. }
  assert (Hsub : Forall (λ s, s ∈ subset_starts bp) (starts1 ++ starts2) ∧
                 Forall (λ s, 0 ≤ s) (starts1 ++ starts2)).
  { rewrite !Forall_app, !Forall_cons in *. tauto. }
  destruct Hsub as [Hstarts' Hge'].
  do 2 eexists. split; [|split; [|split]].
  - by apply cost_loop.
  - by apply cost_loop.
  - rewrite !map_app. simpl. apply sum_until_insert.
    + by apply min_dist_nonneg.
    + apply Forall_forall. intros m (s' & -> & _)%list_elem_of_fmap.
      by apply min_dist_nonneg.
  - intros ->. rewrite app_nil_r, map_app. simpl. apply sum_until_app_ge.
    by apply min_dist_nonneg.
Qed.

Lemma connection_cost_monotone_witness :
  ∃ cost cost',
    dpborder_partGetConnectionCost 100 cost_border closure_parent ([] ++ [2]) =
      Some cost ∧
    dpborder_partGetConnectionCost 100 cost_border closure_parent
      ([] ++ 0 :: [2]) = Some cost' ∧
    ((cost <= cost')%Q ∨ (100 <= cost')%Q) ∧
    ([2] = [] → (cost <= cost')%Q).
Proof.
  apply (connection_cost_monotone 100 cost_border closure_parent [] 0 [2]).
  - unfold Qle. simpl. lia.
  - split; [reflexivity|repeat constructor; lia].
  - simpl. lia.
  - intros c x Hc. pose proof (rd_range _ _ _ Hc) as Hr. simpl in Hr.
    assert (c = 0 ∨ c = 1) as [-> | ->] by lia; injection Hc as <-;
      unfold Qle; simpl; lia.
  - repeat (constructor; [vm_compute; repeat constructor|]). constructor.
Defined.

(** C5, as stated, fails once the running sum reaches [FARAWAY]: with a
    further start in front the sum stops at a lower value. *)
Lemma connection_cost_monotone_saturated :
  partition_inv saturating_parent ∧
  Forall (λ x, 0 <= x)%Q (borderchardists saturating_border) ∧
  Forall (λ s, s ∈ subset_starts saturating_parent) [0; 2; 4] ∧
  dpborder_partGetConnectionCost 100 saturating_border saturating_parent
    [2; 4] = Some 120%Q ∧
  dpborder_partGetConnectionCost 100 saturating_border saturating_parent
    [0; 2; 4] = Some 110%Q ∧
  (110 < 120)%Q.
Proof.
  split; [split; [reflexivity|repeat constructor; lia]|].
  split; [repeat constructor; unfold Qle; simpl; lia|].
  split; [repeat (constructor; [vm_compute; repeat constructor|]); constructor|].
  split; [reflexivity|]. split; [reflexivity|]. reflexivity.
Qed.


(** ** Sorting the subsets *)

Ltac list_norm :=
  repeat (progress (rewrite <- ?app_assoc; simpl)).

Lemma rd_app_at {A} (X Y : list A) y k :
  k = Z.of_nat (length X) → rd (X ++ y :: Y) k = Some y.
Proof.
  intros ->. rewrite rd_nat. by apply list_lookup_middle.
Qed.

Lemma wr_app_at {A} (X Y : list A) y v k :
  k = Z.of_nat (length X) → wr (X ++ y :: Y) k v = Some (X ++ v :: Y).
Proof.
  intros ->. rewrite wr_in_range by (rewrite length_app; simpl; lia).
  f_equal. rewrite Nat2Z.id. rewrite insert_app_r_alt by lia.
  by rewrite Nat.sub_diag.
Qed.

(** The shifting loop of the insertion: the characters above [curr] at the
    end of the sorted part [S] move one place up, and the loop stops on
    the last character that is at most [curr], at the latest on the
    sentinel [t]. *)
Lemma sort_shift_spec curr t : ∀ S A hole R fuel,
  t ≤ curr → (length S ≤ fuel)%nat →
  ∃ S1 S2 hole',
    S = S1 ++ S2 ∧ Forall (λ y, curr < y) S2 ∧
    (∀ y, last S1 = Some y → y ≤ curr) ∧
    sort_shift fuel (A ++ t :: S ++ hole :: R) curr
      (Z.of_nat (length A + length S)) =
    Some (A ++ t :: S1 ++ hole' :: S2 ++ R, Z.of_nat (length A + length S1)).
Proof.
  induction S as [|y S IH] using rev_ind; intros A hole R fuel Ht Hfuel.
  - exists [], [], hole. split; [done|]. split; [done|]. split; [done|].
    simpl. destruct fuel; simpl;
      (rewrite rd_app_at by lia; simpl;
       destruct (Z.ltb_spec curr t); [lia|done]).
  - rewrite length_app in Hfuel. simpl in Hfuel.
    destruct fuel as [|fuel]; [lia|]. simpl.
    assert (Hrd : rd (A ++ t :: (S ++ [y]) ++ hole :: R)
                    (Z.of_nat (length A + length (S ++ [y]))) = Some y).
    { replace (A ++ t :: (S ++ [y]) ++ hole :: R)
        with ((A ++ t :: S) ++ y :: hole :: R)
        by (by list_norm).
      apply rd_app_at. rewrite !length_app. simpl. lia. }
    rewrite Hrd. simpl. destruct (Z.ltb_spec curr y) as [Hlt|Hge].
    + replace (A ++ t :: (S ++ [y]) ++ hole :: R)
        with ((A ++ t :: S ++ [y]) ++ hole :: R)
        by (by list_norm).
      rewrite (wr_app_at _ _ _ y) by (rewrite !length_app; simpl; rewrite length_app; simpl; lia).
      simpl.
      destruct (IH A y (y :: R) fuel Ht) as (S1 & S2 & hole' & -> & HS2 & HS1 & Hrun);
        [lia|].
      exists S1, (S2 ++ [y]), hole'. split; [by rewrite app_assoc|].
      split; [apply Forall_app; split; [done|by constructor]|]. split; [done|].
      replace ((A ++ t :: (S1 ++ S2) ++ [y]) ++ y :: R)
        with (A ++ t :: (S1 ++ S2) ++ y :: y :: R)
        by (by list_norm).
      replace (Z.of_nat (length A + length ((S1 ++ S2) ++ [y])) - 1)
        with (Z.of_nat (length A + length (S1 ++ S2)))
        by (rewrite !length_app; simpl; lia).
      rewrite Hrun. do 2 f_equal. by list_norm.
    + exists (S ++ [y]), [], hole. split; [by rewrite app_nil_r|].
      split; [done|]. split; [|done].
      intros y'. rewrite last_snoc. intros [= <-]. lia.
Qed.

Lemma Sorted_insert_middle (S1 S2 : list Z) curr :
  Sorted Z.le (S1 ++ S2) →
  Forall (λ y, curr < y) S2 →
  (∀ y, last S1 = Some y → y ≤ curr) →
  Sorted Z.le (S1 ++ curr :: S2).
Proof.
  intros Hs HS2 HS1.
  apply Sorted_StronglySorted in Hs; [|apply _].
  apply StronglySorted_Sorted.
  apply StronglySorted_app in Hs as (H12 & H1 & H2).
  apply StronglySorted_app. split; [|split; [done|]].
  - intros x1 x2 Hx1 [->|Hx2]%elem_of_cons; [|by apply H12].
    destruct S1 as [|a S1 _] using rev_ind; [by apply elem_of_nil in Hx1|].
    specialize (HS1 a). rewrite last_snoc in HS1.
    specialize (HS1 eq_refl).
    apply elem_of_app in Hx1 as [Hx1|Hx1%list_elem_of_singleton]; [|lia].
    apply StronglySorted_app in H1 as (H1 & _ & _).
    specialize (H1 x1 a Hx1). etrans; [apply H1; by left|done].
  - constructor; [done|]. eapply Forall_impl; [exact HS2|]. simpl. lia.
Qed.

(** The insertion loop over one subset, behind the sentinel [t]. *)
Lemma insertion_loop (A B run : list Z) t base iter iter2 :
  Forall (λ c, t ≤ c) run → run ≠ [] →
  base + (iter - 1) = Z.of_nat (length A) →
  iter2 - iter = Z.of_nat (length run) →
  ∃ i', c_for (iter + 1) iter2 (λ i buf,
          curr ← rd buf (base + i);
          '(buf, k) ← sort_shift (Z.to_nat (base + i)) buf curr (base + (i - 1));
          buf ← wr buf (k + 1) curr;
          Some (Next i buf)) (A ++ t :: run ++ B)
        = Some (i', A ++ t :: merge_sort Z.le run ++ B).
Proof.
  intros Ht Hne HA Hlen.
  match goal with |- context [c_for ?lo ?hi ?body ?st0] =>
    destruct (c_for_total
      (λ i buf', iter + 1 ≤ i ≤ iter2 ∧ ∃ Srt,
         buf' = A ++ t :: Srt ++ drop (Z.to_nat (i - iter)) run ++ B ∧
         Sorted Z.le Srt ∧ Srt ≡ₚ take (Z.to_nat (i - iter)) run)
      (λ _ buf', buf' = A ++ t :: merge_sort Z.le run ++ B) lo hi body st0)
      as (i' & buf' & -> & ->); [| | |by eauto]
  end.
  - intros i buf' (Hi & Srt & -> & Hsorted & Hperm) Hlt.
    set (m := Z.to_nat (i - iter)) in *.
    assert (HlenS : length Srt = m).
    { rewrite Hperm, length_take. lia. }
    destruct (lookup_lt_is_Some_2 run m) as [c Hc]; [lia|].
    rewrite (drop_S _ _ _ Hc).
    replace (A ++ t :: Srt ++ (c :: drop (S m) run) ++ B)
      with ((A ++ t :: Srt) ++ c :: drop (S m) run ++ B) by (by list_norm).
    rewrite rd_app_at by (rewrite length_app; simpl; lia). simpl.
    replace ((A ++ t :: Srt) ++ c :: drop (S m) run ++ B)
      with (A ++ t :: Srt ++ c :: drop (S m) run ++ B) by (by list_norm).
    replace (base + (i - 1)) with (Z.of_nat (length A + length Srt)) by lia.
    destruct (sort_shift_spec c t Srt A c (drop (S m) run ++ B)
                (Z.to_nat (base + i)))
      as (S1 & S2 & hole' & -> & HS2 & HS1 & ->); [|lia|].
    { rewrite Forall_forall in Ht. apply Ht. by eapply list_elem_of_lookup_2. }
    simpl.
    replace (A ++ t :: S1 ++ hole' :: S2 ++ drop (S m) run ++ B)
      with ((A ++ t :: S1) ++ hole' :: S2 ++ drop (S m) run ++ B)
      by (by list_norm).
    rewrite (wr_app_at _ _ _ c) by (rewrite length_app; simpl; lia). simpl.
    eexists. split; [done|]. simpl. split; [lia|]. split; [lia|].
    exists (S1 ++ c :: S2). split; [|split].
    + replace (Z.to_nat (i + 1 - iter)) with (S m) by lia. by list_norm.
    + by apply Sorted_insert_middle.
    + replace (Z.to_nat (i + 1 - iter)) with (S m) by lia.
      rewrite (take_S_r _ _ _ Hc), <- Hperm.
      rewrite <- Permutation_middle, (Permutation_app_comm _ [c]). done.
  - intros i buf' (Hi & Srt & -> & Hsorted & Hperm) Hge.
    rewrite drop_ge by lia. rewrite take_ge in Hperm by lia. simpl.
    do 2 f_equal. f_equal.
    apply (Sorted_unique Z.le); [done|apply Sorted_merge_sort; apply _|].
    by rewrite Hperm, merge_sort_Permutation.
  - destruct run as [|c run]; [done|]. simpl in Hlen. split; [lia|].
    exists [c]. replace (Z.to_nat (iter + 1 - iter)) with 1%nat by lia.
    simpl. rewrite drop_0, take_0. split; [done|]. split; [|done].
    repeat constructor.
Qed.

Lemma sort_scan (buf : list Z) base d iter size :
  0 ≤ base + iter →
  base + size ≤ Z.of_nat (length buf) →
  ∃ iter2, c_for (iter + 1) size (λ iter2 (_ : unit),
             p ← rd buf (base + iter2);
             if p =? d then Some (Break iter2 tt)
             else Some (Next iter2 tt)) tt = Some (iter2, tt) ∧
    iter + 1 ≤ iter2 ∧ (iter + 1 ≤ size → iter2 ≤ size) ∧
    (∀ k, iter + 1 ≤ k < iter2 → rd buf (base + k) ≠ Some d) ∧
    (iter2 < size → rd buf (base + iter2) = Some d).
Proof.
  intros Hlo Hhi.
  match goal with |- context [c_for ?lo ?hi ?body ?st0] =>
    destruct (c_for_total
      (λ j (_ : unit), iter + 1 ≤ j ∧ (iter + 1 ≤ size → j ≤ size) ∧
          ∀ k, iter + 1 ≤ k < j → rd buf (base + k) ≠ Some d)
      (λ j (_ : unit), iter + 1 ≤ j ∧ (iter + 1 ≤ size → j ≤ size) ∧
          (∀ k, iter + 1 ≤ k < j → rd buf (base + k) ≠ Some d) ∧
          (j < size → rd buf (base + j) = Some d)) lo hi body st0)
      as (i' & [] & -> & Hpost); [| | |by eauto]
  end.
  - intros j [] (Hj & Hjn & Hprev) Hlt.
    destruct (rd_in_range buf (base + j)) as [c Hc]; [lia|]. rewrite Hc. simpl.
    destruct (Z.eqb_spec c d) as [->|Hne].
    + eexists. split; [done|]. simpl. repeat split; try done; lia.
    + eexists. split; [done|]. simpl. split; [lia|]. split; [lia|]. split; [lia|].
      intros k Hk. destruct (decide (k = j)) as [->|]; [congruence|].
      apply Hprev. lia.
  - intros j [] (Hj & Hjn & Hprev) Hge. repeat split; try done; lia.
  - split; [lia|]. split; [lia|]. intros k Hk. lia.
Qed.

Lemma sort_subsets_aux_run d run : ∀ acc,
  d ∉ run →
  (∀ rest, sort_subsets_aux d acc (run ++ d :: rest) =
           merge_sort Z.le (acc ++ run) ++ d :: sort_subsets_aux d [] rest) ∧
  sort_subsets_aux d acc run = merge_sort Z.le (acc ++ run).
Proof.
  induction run as [|c run IH]; intros acc Hd; simpl.
  - rewrite Z.eqb_refl, app_nil_r. done.
  - apply not_elem_of_cons in Hd as [Hcd Hd].
    destruct (Z.eqb_spec c d); [done|].
    destruct (IH (acc ++ [c]) Hd) as [IH1 IH2].
    rewrite <- (app_assoc acc [c] run) in IH1, IH2. done.
Qed.

(** [partitionSortSubsets] on a partition [seg] that lies in its array
    behind the slot [v]: the slot and the characters are not negative, the
    partition does not begin with a delimiter and holds no two delimiters
    in a row. *)
Lemma partitionSortSubsets_spec pre v seg post d :
  0 ≤ v → Forall (λ c, 0 ≤ c) seg →
  (∀ c, seg !! 0%nat = Some c → c ≠ d) →
  (∀ i : nat, seg !! i = Some d → seg !! S i ≠ Some d) →
  partitionSortSubsets (pre ++ v :: seg ++ post)
    (Z.of_nat (length pre) + 1) d (Z.of_nat (length seg)) =
  Some (pre ++ v :: sort_subsets d seg ++ post).
Proof.
  intros Hv Hpos Hhead Hadj. unfold partitionSortSubsets.
  set (base := Z.of_nat (length pre) + 1).
  set (size := Z.of_nat (length seg)).
  match goal with |- context [c_for ?lo ?hi ?body ?st0] =>
    destruct (c_for_total
      (λ iter buf', 0 ≤ iter ∧ ∃ done,
         buf' = pre ++ v :: done ++ drop (Z.to_nat iter) seg ++ post ∧
         Z.of_nat (length done) = Z.min iter size ∧
         done ++ sort_subsets d (drop (Z.to_nat iter) seg) = sort_subsets d seg ∧
         (iter = 0 ∨ size < iter ∨
          (seg !! Z.to_nat (iter - 1) = Some d ∧ last done = Some d)))
      (λ _ buf', buf' = pre ++ v :: sort_subsets d seg ++ post) lo hi body st0)
      as (i' & buf' & -> & ->); [| | |done]
  end.
  - intros iter buf' (Hiter & done & -> & Hlen & Hsort & Hsent) Hlt.
    set (m := Z.to_nat iter) in *.
    set (buf' := pre ++ v :: done ++ drop m seg ++ post).
    assert (Hlenb : Z.of_nat (length buf') =
                    base + size + Z.of_nat (length post)).
    { unfold buf'. rewrite length_app. simpl.
      rewrite !length_app, length_drop. lia. }
    assert (Hrd : ∀ k, iter ≤ k < size → rd buf' (base + k) = seg !! Z.to_nat k).
    { intros k Hk. unfold buf'.
      replace (pre ++ v :: done ++ drop m seg ++ post)
        with ((pre ++ v :: done) ++ drop m seg ++ post) by (by list_norm).
      unfold rd. destruct (Z.leb_spec 0 (base + k)); [|lia].
      rewrite lookup_app_r by (rewrite length_app; simpl; lia).
      rewrite lookup_app_l by (rewrite length_drop, length_app; simpl; lia).
      rewrite lookup_drop. f_equal. rewrite length_app. simpl. lia. }
    destruct (sort_scan buf' base d iter size) as
      (iter2 & -> & Hi2 & Hi2n & Hno & Hdel); [lia|lia|].
    simpl.
    set (run := take (Z.to_nat (iter2 - iter)) (drop m seg)).
    set (rest := drop (Z.to_nat (iter2 - iter)) (drop m seg)).
    assert (Hsplit : drop m seg = run ++ rest) by (symmetry; apply take_drop).
    assert (Hrest : rest = drop (Z.to_nat iter2) seg).
    { unfold rest. rewrite drop_drop. f_equal. lia. }
    assert (Hlenrun : Z.of_nat (length run) = iter2 - iter).
    { unfold run. rewrite length_take, length_drop. lia. }
    assert (Hrun_d : d ∉ run).
    { intros [j Hj]%list_elem_of_lookup. apply lookup_lt_Some in Hj as Hjl.
      unfold run in Hj. rewrite lookup_take_lt in Hj by lia.
      rewrite lookup_drop in Hj.
      destruct (decide (j = 0%nat)) as [->|Hj0].
      - rewrite Nat.add_0_r in Hj.
        destruct (decide (iter = 0)) as [Hi0|Hi0].
        + apply (Hhead d); [|done]. rewrite <- Hj. f_equal. unfold m. lia.
        + destruct Hsent as [?|[?|[Hprev _]]]; [lia|lia|].
          apply (Hadj _ Hprev). rewrite <- Hj. f_equal. unfold m. lia.
      - apply (Hno (iter + Z.of_nat j)); [lia|]. rewrite Hrd by lia.
        rewrite <- Hj. f_equal. unfold m. lia. }
    assert (Hrun_ne : run ≠ []).
    { intros Heq. rewrite Heq in Hlenrun. simpl in Hlenrun. lia. }
    assert (Hrun_pos : Forall (λ c, 0 ≤ c) run).
    { unfold run. apply Forall_take, Forall_drop. done. }
    assert (HA : ∃ A s, pre ++ v :: done = A ++ [s] ∧ 0 ≤ s ∧
                        Z.of_nat (length A) = base + (iter - 1)).
    { destruct Hsent as [->|[?|[Hprev Hlast]]]; [|lia|].
      - destruct done; [|simpl in Hlen; lia].
        exists pre, v. split; [done|]. split; [done|]. lia.
      - destruct done as [|x done' _] using rev_ind; [done|].
        rewrite last_snoc in Hlast. injection Hlast as ->.
        exists (pre ++ v :: done'), d. split; [by list_norm|]. split.
        + rewrite Forall_forall in Hpos. apply Hpos.
          by eapply list_elem_of_lookup_2.
        + rewrite !length_app in *. simpl in *. lia. }
    destruct HA as (A & s & HA & Hs & HlenA).
    assert (Hbuf : buf' = A ++ s :: run ++ rest ++ post).
    { unfold buf'. rewrite Hsplit.
      replace (pre ++ v :: done ++ (run ++ rest) ++ post)
        with ((pre ++ v :: done) ++ run ++ rest ++ post) by (by list_norm).
      rewrite HA. by list_norm. }
    rewrite Hbuf.
    rewrite rd_app_at by lia. simpl.
    rewrite wr_app_at by lia. simpl.
    destruct (insertion_loop A (rest ++ post) run (s * -1) base iter iter2)
      as (i' & ->); [|done|lia|lia|].
    { eapply Forall_impl; [exact Hrun_pos|]. simpl. lia. }
    simpl. rewrite rd_app_at by lia. simpl.
    rewrite wr_app_at by lia. simpl.
    replace (s * -1 * -1) with s by lia.
    eexists. split; [done|]. simpl. split; [lia|]. split; [lia|].
    exists (done ++ merge_sort Z.le run ++ take 1 rest).
    assert (Hlenms : length (merge_sort Z.le run) = length run).
    { by rewrite merge_sort_Permutation. }
    assert (Hdrop1 : drop (Z.to_nat (iter2 + 1)) seg = drop 1 rest).
    { rewrite Hrest, drop_drop. f_equal. lia. }
    split; [|split; [|split]].
    + rewrite Hdrop1.
      replace (A ++ s :: merge_sort Z.le run ++ rest ++ post)
        with ((A ++ [s]) ++ merge_sort Z.le run ++ rest ++ post)
        by (by list_norm).
      rewrite <- HA. rewrite <- (take_drop 1 rest) at 1. by list_norm.
    + rewrite !length_app, Hlenms, length_take.
      assert (Z.of_nat (length rest) = size - iter2).
      { rewrite Hrest, length_drop. lia. }
      lia.
    + rewrite <- Hsort. fold m. rewrite Hsplit. rewrite <- !app_assoc. f_equal.
      unfold sort_subsets.
      destruct (sort_subsets_aux_run d run [] Hrun_d) as [Hmid Hend].
      destruct (decide (iter2 < size)) as [Hlt2|Hge2].
      * specialize (Hdel Hlt2). rewrite Hrd in Hdel by lia.
        assert (Hr : rest = d :: drop 1 rest).
        { rewrite Hrest, drop_drop.
          rewrite (drop_S _ _ _ Hdel). f_equal. f_equal. lia. }
        rewrite Hdrop1.
        transitivity (sort_subsets_aux d [] (run ++ d :: drop 1 rest));
          [|by rewrite <- Hr].
        rewrite Hmid. simpl.
        assert (take 1 rest = [d]) as -> by (by rewrite Hr).
        done.
      * assert (Hr : rest = []).
        { rewrite Hrest. apply drop_ge. lia. }
        rewrite Hdrop1, Hr. simpl. rewrite !app_nil_r.
        by rewrite Hend.
    + destruct (decide (iter2 < size)) as [Hlt2|Hge2]; [|right; left; lia].
      right. right. specialize (Hdel Hlt2). rewrite Hrd in Hdel by lia.
      replace (Z.to_nat (iter2 + 1 - 1)) with (Z.to_nat iter2) by lia.
      split; [done|].
      assert (Hr : take 1 rest = [d]).
      { rewrite Hrest. rewrite (drop_S _ _ _ Hdel). done. }
      rewrite Hr. rewrite !app_assoc. apply last_snoc.
  - intros iter buf' (Hiter & done & -> & Hlen & Hsort & Hsent) Hge.
    rewrite drop_ge in Hsort |- * by lia. simpl.
    unfold sort_subsets in Hsort at 1. simpl in Hsort.
    rewrite app_nil_r in Hsort. by rewrite Hsort.
  - split; [lia|]. exists []. simpl. rewrite drop_0. split; [done|].
    split; [lia|]. split; [done|]. by left.
Qed.

(** *** The canonical form *)

Lemma elem_of_merge_sort (l : list Z) x : x ∈ merge_sort Z.le l ↔ x ∈ l.
Proof. by rewrite merge_sort_Permutation. Qed.

Lemma length_merge_sort (l : list Z) : length (merge_sort Z.le l) = length l.
Proof. by rewrite merge_sort_Permutation. Qed.

Lemma sort_subsets_aux_length d l : ∀ acc,
  length (sort_subsets_aux d acc l) = (length acc + length l)%nat.
Proof.
  induction l as [|c l IH]; intros acc; simpl.
  - rewrite length_merge_sort. lia.
  - destruct (c =? d).
    + rewrite length_app, length_merge_sort. simpl. rewrite IH. simpl. lia.
    + rewrite IH, length_app. simpl. lia.
Qed.

Lemma sort_subsets_aux_Permutation d l : ∀ acc,
  sort_subsets_aux d acc l ≡ₚ acc ++ l.
Proof.
  induction l as [|c l IH]; intros acc; simpl.
  - by rewrite merge_sort_Permutation, app_nil_r.
  - destruct (Z.eqb_spec c d) as [->|_].
    + by rewrite merge_sort_Permutation, IH.
    + rewrite IH. by list_norm.
Qed.

Lemma sort_subsets_length d l : length (sort_subsets d l) = length l.
Proof. apply sort_subsets_aux_length. Qed.

Lemma sort_subsets_Permutation d l : sort_subsets d l ≡ₚ l.
Proof. apply sort_subsets_aux_Permutation. Qed.

(** The delimiters stay where they are. *)
Lemma sort_subsets_aux_delimiter d l : ∀ acc (i : nat),
  d ∉ acc →
  sort_subsets_aux d acc l !! i = Some d ↔ (acc ++ l) !! i = Some d.
Proof.
  induction l as [|c l IH]; intros acc i Hacc; simpl.
  - rewrite app_nil_r. split; intros H%list_elem_of_lookup_2; exfalso.
    + rewrite elem_of_merge_sort in H. by apply Hacc.
    + by apply Hacc.
  - destruct (Z.eqb_spec c d) as [->|Hne].
    + destruct (decide (i < length acc)%nat) as [Hlt|Hge].
      * rewrite !lookup_app_l by (rewrite ?length_merge_sort; lia).
        split; intros H%list_elem_of_lookup_2; exfalso; [|by apply Hacc].
        rewrite elem_of_merge_sort in H. by apply Hacc.
      * rewrite !lookup_app_r by (rewrite ?length_merge_sort; lia).
        rewrite length_merge_sort.
        destruct (i - length acc)%nat as [|j]; [done|]. simpl.
        apply (IH [] j). apply not_elem_of_nil.
    + rewrite IH; [by list_norm|].
      intros [?|?%list_elem_of_singleton]%elem_of_app; [done|congruence].
Qed.

Lemma sort_subsets_delimiter d l (i : nat) :
  sort_subsets d l !! i = Some d ↔ l !! i = Some d.
Proof. apply (sort_subsets_aux_delimiter d l [] i), not_elem_of_nil. Qed.

Lemma Sorted_lookup_le (l : list Z) (i : nat) a b :
  Sorted Z.le l → l !! i = Some a → l !! S i = Some b → a ≤ b.
Proof.
  intros Hs. revert i. induction Hs as [|x l Hs IH Hhd]; intros i Ha Hb; [done|].
  destruct i as [|i]; simpl in *.
  - injection Ha as ->. destruct Hhd as [|y l Hxy]; [done|].
    simpl in Hb. by injection Hb as ->.
  - by eapply IH.
Qed.

(** Neighbours inside a subset are in ascending order. *)
Lemma sort_subsets_aux_ascending d l : ∀ acc (i : nat) a b,
  sort_subsets_aux d acc l !! i = Some a →
  sort_subsets_aux d acc l !! S i = Some b →
  a ≠ d → b ≠ d → a ≤ b.
Proof.
  induction l as [|c l IH]; intros acc i a b Ha Hb Had Hbd; simpl in *.
  - eapply Sorted_lookup_le; [|done..]. apply Sorted_merge_sort; apply _.
  - destruct (Z.eqb_spec c d) as [->|Hne]; [|by eapply IH].
    destruct (decide (S i < length (merge_sort Z.le acc))%nat) as [Hlt|Hge].
    + rewrite lookup_app_l in Ha, Hb by lia.
      eapply Sorted_lookup_le; [|done..]. apply Sorted_merge_sort; apply _.
    + rewrite lookup_app_r in Hb by lia.
      destruct (decide (S i = length (merge_sort Z.le acc))) as [Heq|Hneq].
      { rewrite Heq, Nat.sub_diag in Hb. simpl in Hb. congruence. }
      rewrite lookup_app_r in Ha by lia.
      destruct (decide (i = length (merge_sort Z.le acc))) as [Heq|Hneq'].
      { rewrite Heq, Nat.sub_diag in Ha. simpl in Ha. congruence. }
      replace (S i - length (merge_sort Z.le acc))%nat
        with (S (S (i - S (length (merge_sort Z.le acc))))) in Hb by lia.
      replace (i - length (merge_sort Z.le acc))%nat
        with (S (i - S (length (merge_sort Z.le acc)))) in Ha by lia.
      simpl in Ha, Hb. by eapply IH.
Qed.

Lemma subsets_from_free d run : ∀ s p,
  d ∉ run →
  (∀ rest, subsets_from d s p (run ++ d :: rest) =
     (s, run) :: subsets_from d (p + Z.of_nat (length run) + 1)
                   (p + Z.of_nat (length run) + 1) rest) ∧
  subsets_from d s p run = [(s, run)].
Proof.
  induction run as [|c run IH]; intros s p Hd; simpl.
  - rewrite Z.eqb_refl. split; [|done]. intros rest. do 2 f_equal; lia.
  - apply not_elem_of_cons in Hd as [Hcd Hd].
    destruct (Z.eqb_spec c d); [done|].
    destruct (IH s (p + 1) Hd) as [IH1 IH2]. split; [|by rewrite IH2].
    intros rest. rewrite IH1. simpl. do 2 f_equal; lia.
Qed.

(** Every subset is replaced by its characters in ascending order, at the
    same place. *)
Lemma sort_subsets_aux_subsets d l : ∀ acc s p,
  d ∉ acc →
  subsets_from d s p (sort_subsets_aux d acc l) =
  (λ sr, (sr.1, merge_sort Z.le sr.2)) <$> subsets_from d s p (acc ++ l).
Proof.
  induction l as [|c l IH]; intros acc s p Hacc; simpl.
  - rewrite app_nil_r.
    destruct (subsets_from_free d acc s p Hacc) as [_ ->].
    destruct (subsets_from_free d (merge_sort Z.le acc) s p) as [_ ->]; [|done].
    by rewrite elem_of_merge_sort.
  - destruct (Z.eqb_spec c d) as [->|Hne].
    + destruct (subsets_from_free d acc s p Hacc) as [-> _].
      destruct (subsets_from_free d (merge_sort Z.le acc) s p) as [-> _];
        [by rewrite elem_of_merge_sort|].
      rewrite length_merge_sort. simpl. f_equal.
      apply (IH []), not_elem_of_nil.
    + rewrite IH; [by list_norm|].
      intros [?|?%list_elem_of_singleton]%elem_of_app; [done|congruence].
Qed.

Lemma sort_subsets_subsets d l :
  subsets d (sort_subsets d l) =
  (λ sr, (sr.1, merge_sort Z.le sr.2)) <$> subsets d l.
Proof. apply (sort_subsets_aux_subsets d l [] 0 0), not_elem_of_nil. Qed.

(** The rule on duplicates is a property of the characters as a multiset. *)
Lemma distinct_NoDup d (l : list Z) :
  (∀ (i j : nat) c, l !! i = Some c → l !! j = Some c → c ≠ d → i = j) ↔
  NoDup (filter (λ c, c ≠ d) l).
Proof.
  induction l as [|c l IH].
  - split; [intros _; constructor|]. intros _ i j c Hi. done.
  - rewrite filter_cons. split.
    + intros Hdis.
      assert (Hl : NoDup (filter (λ c, c ≠ d) l)).
      { apply IH. intros i j c' Hi Hj Hc'.
        specialize (Hdis (S i) (S j) c' Hi Hj Hc'). lia. }
      destruct (decide (c ≠ d)) as [Hcd|_]; [|done].
      constructor; [|done].
      intros [_ Hin]%list_elem_of_filter.
      apply list_elem_of_lookup in Hin as [j Hj].
      specialize (Hdis 0%nat (S j) c eq_refl Hj Hcd). lia.
    + intros Hnd i j c' Hi Hj Hc'.
      assert (Hl : NoDup (filter (λ c, c ≠ d) l) ∧
                   (c ≠ d → c ∉ l)).
      { destruct (decide (c ≠ d)) as [Hcd|Hcd].
        - apply NoDup_cons in Hnd as [Hnin Hnd]. split; [done|].
          intros _ Hin. apply Hnin. by apply list_elem_of_filter.
        - done. }
      destruct Hl as [Hl Hc].
      destruct i as [|i], j as [|j]; simpl in *; [done| | |].
      * injection Hi as ->. destruct (Hc Hc'). by eapply list_elem_of_lookup_2.
      * injection Hj as ->. destruct (Hc Hc'). by eapply list_elem_of_lookup_2.
      * f_equal. apply (proj2 IH Hl i j c'); done.
Qed.

(** The canonical form of a valid partition is a valid partition. *)
Lemma sort_subsets_wf d l :
  partition_wf d l → partition_wf d (sort_subsets d l).
Proof.
  intros [(c0 & Hc0 & Hc0d) (cl & Hcl & Hcld) Hadj Hle Hdis].
  pose proof (sort_subsets_length d l) as Hlen.
  split.
  - destruct (lookup_lt_is_Some_2 (sort_subsets d l) 0) as [c Hc].
    { apply lookup_lt_Some in Hc0. lia. }
    exists c. split; [done|]. intros ->.
    rewrite sort_subsets_delimiter in Hc. congruence.
  - rewrite last_lookup in Hcl |- *. rewrite Hlen.
    destruct (lookup_lt_is_Some_2 (sort_subsets d l) (Init.Nat.pred (length l)))
      as [c Hc].
    { apply lookup_lt_Some in Hcl. lia. }
    exists c. split; [done|]. intros ->.
    rewrite sort_subsets_delimiter in Hc. congruence.
  - intros i Hi Hi'. rewrite sort_subsets_delimiter in Hi, Hi'.
    by apply (Hadj i).
  - intros i c Hc. apply list_elem_of_lookup_2 in Hc.
    rewrite sort_subsets_Permutation in Hc.
    apply list_elem_of_lookup in Hc as [j Hj]. by eapply Hle.
  - apply distinct_NoDup. rewrite sort_subsets_Permutation.
    by apply distinct_NoDup.
Qed.

(** C3 (amended).  For a partition that satisfies the partition invariant
    and lies in its array behind a slot that holds a value that is not
    negative, [partitionSortSubsets] leaves the array as it is around the
    partition (the slot included), keeps every delimiter at its position,
    permutes the characters inside each subset only, and leaves any two
    neighbours that are no delimiters in strictly ascending order.  On
    [3; 1; 2; D; 5; 4] it yields [1; 2; 3; D; 4; 5]. *)
Theorem canonical_sort :
  (∀ pre v post bp,
     partition_inv bp → 0 ≤ v →
     ∃ out,
       partitionSortSubsets (pre ++ v :: partchars bp ++ post)
         (Z.of_nat (length pre) + 1) (delimiter bp) (partsize bp) =
         Some (pre ++ v :: out ++ post) ∧
       length out = length (partchars bp) ∧
       (∀ i : nat, out !! i = Some (delimiter bp) ↔
                   partchars bp !! i = Some (delimiter bp)) ∧
       Forall2 (λ sr sr', sr'.1 = sr.1 ∧ sr'.2 ≡ₚ sr.2)
         (subsets (delimiter bp) (partchars bp)) (subsets (delimiter bp) out) ∧
       (∀ (i : nat) a b, out !! i = Some a → out !! S i = Some b →
          a ≠ delimiter bp → b ≠ delimiter bp → a < b)) ∧
  (∀ pre v post D,
     5 < D → 0 ≤ v →
     partitionSortSubsets (pre ++ v :: [3; 1; 2; D; 5; 4] ++ post)
       (Z.of_nat (length pre) + 1) D 6 =
     Some (pre ++ v :: [1; 2; 3; D; 4; 5] ++ post)).
Proof.
  split.
  - intros pre v post [seg d] [Hvalid Hpos] Hv. simpl in *.
    apply dpborder_partIsValid_wf in Hvalid. simpl in Hvalid.
    pose proof (sort_subsets_wf d seg Hvalid) as Hwf.
    destruct Hvalid as [(c0 & Hc0 & Hc0d) _ Hadj _ _].
    exists (sort_subsets d seg). split; [|split; [|split; [|split]]].
    + apply partitionSortSubsets_spec; [done..| |done].
      intros c Hc. congruence.
    + apply sort_subsets_length.
    + intros i. apply sort_subsets_delimiter.
    + rewrite sort_subsets_subsets. apply Forall2_fmap_r.
      apply Forall_Forall2_diag, Forall_forall. intros [s run] _. simpl.
      split; [done|]. apply merge_sort_Permutation.
    + intros i a b Ha Hb Had Hbd.
      pose proof (sort_subsets_aux_ascending d seg [] i a b Ha Hb Had Hbd).
      assert (a ≠ b); [|lia]. intros ->.
      pose proof (wf_distinct _ _ Hwf i (S i) b Ha Hb Hbd). lia.
  - intros pre v post D HD Hv.
    change 6 with (Z.of_nat (length [3; 1; 2; D; 5; 4])).
    rewrite (partitionSortSubsets_spec pre v [3; 1; 2; D; 5; 4] post D Hv).
    + do 3 f_equal. unfold sort_subsets.
      destruct (sort_subsets_aux_run D [3; 1; 2] []) as [H1 _].
      { intros H. repeat (apply elem_of_cons in H as [H|H]; [lia|]).
        by apply elem_of_nil in H. }
      destruct (sort_subsets_aux_run D [5; 4] []) as [_ H2].
      { intros H. repeat (apply elem_of_cons in H as [H|H]; [lia|]).
        by apply elem_of_nil in H. }
      change [3; 1; 2; D; 5; 4] with ([3; 1; 2] ++ D :: [5; 4]).
      rewrite H1, H2. reflexivity.
    + repeat constructor; lia.
    + intros c [= <-]. lia.
    + intros i Hi Hi'.
      do 6 (destruct i as [|i]; [simpl in *; simplify_eq; lia|]). done.
Qed.

Lemma canonical_sort_witness :
  (∃ out,
     partitionSortSubsets ([7] ++ 0 :: [3; 1; 2; 6; 5; 4] ++ [8]) 2 6 6 =
       Some ([7] ++ 0 :: out ++ [8]) ∧
     length out = 6%nat) ∧
  partitionSortSubsets ([7] ++ 0 :: [3; 1; 2; 6; 5; 4] ++ [8]) 2 6 6 =
    Some ([7] ++ 0 :: [1; 2; 3; 6; 4; 5] ++ [8]).
Proof.
  split.
  - destruct (proj1 canonical_sort [7] 0 [8] (mkDPBPART [3; 1; 2; 6; 5; 4] 6))
      as (out & Hrun & Hlen & _);
      [split; [reflexivity|repeat constructor; lia]|lia|].
    exists out. split; [exact Hrun|exact Hlen].
  - apply (proj2 canonical_sort [7] 0 [8] 6); lia.
Defined.

(** C3, as stated, fails when the slot in front of the partition holds a
    negative value: the insertion runs past the slot. *)
Lemma canonical_sort_negative_sentinel :
  partition_inv (mkDPBPART [2; 1] 3) ∧
  partitionSortSubsets ([-3] ++ [2; 1]) 1 3 2 = None ∧
  partitionSortSubsets ([0; -3] ++ [2; 1]) 2 3 2 = Some ([0; -1] ++ [3; 2]).
Proof.
  split; [split; [reflexivity|repeat constructor; lia]|].
  split; reflexivity.
Qed.

(** ** The shape of a run of the builders *)

Lemma exclusive_check_ret D gp gs ge i ret :
  exclusive_check D gp gs ge = Some (i, ret) → ret = None ∨ ret = Some (-1).
Proof.
  unfold exclusive_check.
  apply (c_for_sound (λ _ ret, ret = None ∨ ret = Some (-1))
                     (λ _ ret, ret = None ∨ ret = Some (-1))).
  - intros j s st Hs _ Hbody.
    repeat (simplify_option_eq || case_match); auto.
  - auto.
  - auto.
Qed.

Lemma partGetIdxNewExclusive_outcome FARAWAY bp dpb r dpb' :
  dpborder_partGetIdxNewExclusive FARAWAY bp dpb = Some (r, dpb') →
  builder_outcome FARAWAY false dpb r dpb'.
Proof.
  unfold dpborder_partGetIdxNewExclusive. intros H.
  repeat (simplify_option_eq || case_match); try (left; eauto; fail).
  - match goal with
    | H : exclusive_check _ _ _ _ = Some _ |- _ =>
        apply exclusive_check_ret in H as [?|?]; simplify_eq
    end.
    left. eauto.
  - right. split; [lia|]. eauto.
Qed.

Lemma partGetIdxNew_outcome FARAWAY bp starts dpb r bp' dpb' :
  dpborder_partGetIdxNew FARAWAY bp starts dpb = Some (r, bp', dpb') →
  builder_outcome FARAWAY true dpb r dpb'.
Proof.
  unfold dpborder_partGetIdxNew. intros H.
  repeat (simplify_option_eq || case_match); try (left; eauto; fail);
    right; (split; [lia|]); eauto.
Qed.

Lemma builder_outcome_arena FARAWAY useext dpb r dpb' :
  arena_inv dpb → builder_outcome FARAWAY useext dpb r dpb' →
  arena_inv dpb' ∧
  (r = -1 ∨ r = global_npartitions dpb) ∧
  (r = -1 →
     global_npartitions dpb' = global_npartitions dpb ∧
     global_partstarts dpb' = global_partstarts dpb ∧
     global_partcosts dpb' = global_partcosts dpb ∧
     global_predparts dpb' = global_predparts dpb ∧
     global_partsUseExt dpb' = global_partsUseExt dpb) ∧
  (0 ≤ r →
     global_npartitions dpb' = global_npartitions dpb + 1 ∧
     (∃ e, global_partstarts dpb' = global_partstarts dpb ++ [e]) ∧
     global_partcosts dpb' = global_partcosts dpb ++ [FARAWAY] ∧
     global_predparts dpb' = global_predparts dpb ++ [-1] ∧
     global_partsUseExt dpb' = global_partsUseExt dpb ++ [useext]).
Proof.
  intros (H1 & H2 & H3 & H4) [[-> (gp & ->)]|[-> (gp & e & ->)]].
  - split; [done|]. split; [by left|]. split; [done|]. intros; lia.
  - unfold arena_inv, StpVecGetSize in *. simpl. rewrite !length_app. simpl.
    split; [lia|]. split; [by right|]. split; [intros; lia|]. eauto 10.
Qed.

(** C9.  When the side arrays are in lockstep before a call of
    [dpborder_partGetIdxNew] or [dpborder_partGetIdxNewExclusive], they are
    in lockstep after it, whether the call returns -1 or an index; a
    rejected call leaves them and the number of partitions as they were,
    and a call that returns an index has appended one entry to each of the
    four side arrays and raised the number of partitions by one. *)
Theorem arena_consistency FARAWAY dpb :
  arena_inv dpb →
  (∀ bp starts r bp' dpb',
     dpborder_partGetIdxNew FARAWAY bp starts dpb = Some (r, bp', dpb') →
     arena_inv dpb' ∧
     (r = -1 ∨ r = global_npartitions dpb) ∧
     (r = -1 →
        global_npartitions dpb' = global_npartitions dpb ∧
        global_partstarts dpb' = global_partstarts dpb ∧
        global_partcosts dpb' = global_partcosts dpb ∧
        global_predparts dpb' = global_predparts dpb ∧
        global_partsUseExt dpb' = global_partsUseExt dpb) ∧
     (0 ≤ r →
        global_npartitions dpb' = global_npartitions dpb + 1 ∧
        (∃ e, global_partstarts dpb' = global_partstarts dpb ++ [e]) ∧
        global_partcosts dpb' = global_partcosts dpb ++ [FARAWAY] ∧
        global_predparts dpb' = global_predparts dpb ++ [-1] ∧
        global_partsUseExt dpb' = global_partsUseExt dpb ++ [true])) ∧
  (∀ bp r dpb',
     dpborder_partGetIdxNewExclusive FARAWAY bp dpb = Some (r, dpb') →
     arena_inv dpb' ∧
     (r = -1 ∨ r = global_npartitions dpb) ∧
     (r = -1 →
        global_npartitions dpb' = global_npartitions dpb ∧
        global_partstarts dpb' = global_partstarts dpb ∧
        global_partcosts dpb' = global_partcosts dpb ∧
        global_predparts dpb' = global_predparts dpb ∧
        global_partsUseExt dpb' = global_partsUseExt dpb) ∧
     (0 ≤ r →
        global_npartitions dpb' = global_npartitions dpb + 1 ∧
        (∃ e, global_partstarts dpb' = global_partstarts dpb ++ [e]) ∧
        global_partcosts dpb' = global_partcosts dpb ++ [FARAWAY] ∧
        global_predparts dpb' = global_predparts dpb ++ [-1] ∧
        global_partsUseExt dpb' = global_partsUseExt dpb ++ [false])).
Proof.
  intros Harena. split.
  - intros bp starts r bp' dpb' Hrun.
    by eapply builder_outcome_arena, partGetIdxNew_outcome.
  - intros bp r dpb' Hrun.
    by eapply builder_outcome_arena, partGetIdxNewExclusive_outcome.
Qed.

Lemma arena_consistency_witness :
  ∃ dpb',
    dpborder_partGetIdxNew 100 closure_parent [0] closure_border =
      Some (0, closure_parent, dpb') ∧
    arena_inv dpb' ∧ global_npartitions dpb' = 1 ∧
    global_partsUseExt dpb' = [true].
Proof.
  destruct (arena_consistency 100 closure_border) as [Hunion _];
    [by repeat split|].
  eexists. split; [reflexivity|].
  destruct (Hunion closure_parent [0] 0 _ _ eq_refl)
    as (Harena & _ & _ & Happend).
  destruct (Happend ltac:(lia)) as (Hn & _ & _ & _ & Huse).
  split; [exact Harena|]. split; [exact Hn|exact Huse].
Defined.

(** ** The character buffer *)

Lemma overwrite_length gp gs w :
  0 ≤ gs → gs + Z.of_nat (length w) ≤ Z.of_nat (length gp) →
  length (overwrite gp gs w) = length gp.
Proof.
  intros Hgs Hcap. unfold overwrite.
  rewrite !length_app, length_take, length_drop. lia.
Qed.

Lemma overwrite_nil gp gs : overwrite gp gs [] = gp.
Proof.
  unfold overwrite. simpl. rewrite Nat.add_0_r. apply take_drop.
Qed.

Lemma overwrite_rd gp gs w (k : nat) :
  0 ≤ gs → gs + Z.of_nat (length w) ≤ Z.of_nat (length gp) →
  (k < length w)%nat →
  rd (overwrite gp gs w) (gs + Z.of_nat k) = w !! k.
Proof.
  intros Hgs Hcap Hk. unfold overwrite, rd.
  destruct (Z.leb_spec 0 (gs + Z.of_nat k)); [|lia].
  rewrite lookup_app_r by (rewrite length_take; lia).
  rewrite lookup_app_l by (rewrite length_take; lia).
  f_equal. rewrite length_take. lia.
Qed.

Lemma overwrite_rd_below gp gs w k :
  0 ≤ k < gs → gs ≤ Z.of_nat (length gp) →
  rd (overwrite gp gs w) k = rd gp k.
Proof.
  intros Hk Hgs. unfold overwrite, rd.
  destruct (Z.leb_spec 0 k); [|lia].
  rewrite lookup_app_l by (rewrite length_take; lia).
  apply lookup_take_lt. lia.
Qed.

Lemma overwrite_take gp gs w :
  0 ≤ gs ≤ Z.of_nat (length gp) →
  take (Z.to_nat gs) (overwrite gp gs w) = take (Z.to_nat gs) gp.
Proof.
  intros Hgs. unfold overwrite.
  rewrite take_app_le by (rewrite length_take; lia).
  rewrite take_take. f_equal. lia.
Qed.

Lemma overwrite_segment gp gs w :
  0 ≤ gs → gs + Z.of_nat (length w) ≤ Z.of_nat (length gp) →
  segment (overwrite gp gs w) gs (gs + Z.of_nat (length w)) = w.
Proof.
  intros Hgs Hcap. unfold overwrite, segment.
  rewrite drop_app_length' by (rewrite length_take; lia).
  replace (Z.to_nat (gs + Z.of_nat (length w) - gs)) with (length w) by lia.
  by rewrite take_app_length.
Qed.

(** A write right behind the characters written so far adds one. *)
Lemma overwrite_wr gp gs w m g' :
  0 ≤ gs →
  wr (overwrite gp gs w) (gs + Z.of_nat (length w)) m = Some g' →
  gs + Z.of_nat (length w) ≤ Z.of_nat (length gp) →
  g' = overwrite gp gs (w ++ [m]) ∧
  gs + Z.of_nat (length (w ++ [m])) ≤ Z.of_nat (length gp).
Proof.
  intros Hgs [Hr ->]%wr_Some Hcap.
  rewrite overwrite_length in Hr by lia.
  rewrite length_app. simpl. split; [|lia].
  unfold overwrite.
  replace (Z.to_nat (gs + Z.of_nat (length w)))
    with (length (take (Z.to_nat gs) gp ++ w))
    by (rewrite length_app, length_take; lia).
  rewrite (app_assoc _ w).
  destruct (drop (Z.to_nat gs + length w) gp) as [|x rest] eqn:Hdrop.
  { apply (f_equal length) in Hdrop. rewrite length_drop in Hdrop.
    simpl in Hdrop. lia. }
  rewrite insert_app_r_alt by lia. rewrite Nat.sub_diag. simpl.
  rewrite <- !app_assoc. simpl. do 3 f_equal.
  rewrite length_app. simpl.
  replace (Z.to_nat gs + (length w + 1))%nat
    with (Z.to_nat gs + length w + 1)%nat by lia.
  by rewrite <- drop_drop, Hdrop.
Qed.

Lemma overwrite_wr_total gp gs w m :
  0 ≤ gs → gs + Z.of_nat (length w) < Z.of_nat (length gp) →
  wr (overwrite gp gs w) (gs + Z.of_nat (length w)) m =
  Some (overwrite gp gs (w ++ [m])).
Proof.
  intros Hgs Hcap.
  destruct (wr (overwrite gp gs w) (gs + Z.of_nat (length w)) m) as [g'|] eqn:H.
  - by apply overwrite_wr in H as [-> _]; [|lia..].
  - unfold wr in H. rewrite overwrite_length in H by lia.
    destruct (Z.leb_spec 0 (gs + Z.of_nat (length w))); [|lia].
    destruct (Z.ltb_spec (gs + Z.of_nat (length w)) (Z.of_nat (length gp)));
      [done|lia].
Qed.

(** ** The exclusive builder *)

Lemma remap_length map (chars : list Z) :
  (length (remap map chars) ≤ length chars)%nat.
Proof.
  induction chars as [|c chars IH]; simpl; [done|].
  unfold remap in *. simpl. destruct (rd map c ≫= _); simpl; lia.
Qed.

Lemma remap_snoc map (chars : list Z) c :
  remap map (chars ++ [c]) =
  remap map chars ++
  match rd map c with
  | Some m => if m =? -1 then [] else [m]
  | None => []
  end.
Proof.
  unfold remap. rewrite omap_app. f_equal. simpl.
  destruct (rd map c) as [m|]; simpl; [|done]. by destruct (m =? -1).
Qed.

Lemma exclusive_copy_spec map chars gp gs :
  0 ≤ gs → gs + Z.of_nat (length chars) ≤ Z.of_nat (length gp) →
  (∀ c, c ∈ chars → ∃ m, rd map c = Some m) →
  ∃ i, exclusive_copy map chars gp gs =
       Some (i, (overwrite gp gs (remap map chars),
                 gs + Z.of_nat (length (remap map chars)))).
Proof.
  intros Hgs Hcap Hmap. unfold exclusive_copy.
  match goal with |- context [c_for ?lo ?hi ?body ?st0] =>
    destruct (c_for_total
      (λ i '(g, e), 0 ≤ i ≤ Z.of_nat (length chars) ∧
         g = overwrite gp gs (remap map (take (Z.to_nat i) chars)) ∧
         e = gs + Z.of_nat (length (remap map (take (Z.to_nat i) chars))))
      (λ _ '(g, e),
         g = overwrite gp gs (remap map chars) ∧
         e = gs + Z.of_nat (length (remap map chars))) lo hi body st0)
      as (i & [g e] & -> & -> & ->); [| | |by eauto]
  end.
  - intros i [g e] (Hi & -> & ->) Hlt.
    destruct (rd_in_range chars i) as [c Hc]; [lia|]. rewrite Hc. simpl.
    destruct (proj1 (rd_Some _ _ _) Hc) as [_ Hc'].
    destruct (Hmap c) as [m Hm]; [by eapply list_elem_of_lookup_2|].
    rewrite Hm. simpl.
    pose proof (remap_length map (take (Z.to_nat i) chars)) as Hlen.
    rewrite length_take in Hlen.
    assert (Hsnoc := remap_snoc map (take (Z.to_nat i) chars) c).
    rewrite <- (take_S_r _ _ _ Hc'), Hm in Hsnoc.
    replace (S (Z.to_nat i)) with (Z.to_nat (i + 1)) in Hsnoc by lia.
    destruct (Z.eqb_spec m (-1)) as [->|Hne]; simpl.
    + rewrite app_nil_r in Hsnoc. eexists. split; [done|]. simpl.
      rewrite Hsnoc. split; [lia|]. split; [lia|done].
    + rewrite overwrite_wr_total by lia. simpl.
      eexists. split; [done|]. simpl. rewrite Hsnoc, length_app. simpl.
      split; [lia|]. split; [lia|]. split; [done|lia].
  - intros i [g e] (Hi & -> & ->) Hge. rewrite take_ge by lia. done.
  - split; [lia|]. change (Z.to_nat 0) with 0%nat. rewrite take_0.
    change (remap map []) with (@nil Z). rewrite overwrite_nil. simpl.
    split; [done|lia].
Qed.

Lemma exclusive_check_spec D gp gs (w : list Z) :
  0 ≤ gs → gs + Z.of_nat (length w) ≤ Z.of_nat (length gp) →
  ∃ i ret,
    exclusive_check D (overwrite gp gs w) gs (gs + Z.of_nat (length w)) =
      Some (i, ret) ∧
    ((ret = None ∧ ∀ k : nat, w !! k = Some D → w !! S k ≠ Some D) ∨
     (ret = Some (-1) ∧ ∃ k : nat, w !! k = Some D ∧ w !! S k = Some D)).
Proof.
  intros Hgs Hcap. unfold exclusive_check.
  match goal with |- context [c_for ?lo ?hi ?body ?st0] =>
    apply (c_for_total
      (λ i ret, gs + 1 ≤ i ∧ ret = None ∧
         ∀ k : nat, gs + Z.of_nat (S k) < i → w !! k = Some D → w !! S k ≠ Some D)
      (λ _ ret,
         (ret = None ∧ ∀ k : nat, w !! k = Some D → w !! S k ≠ Some D) ∨
         (ret = Some (-1) ∧ ∃ k : nat, w !! k = Some D ∧ w !! S k = Some D))
      lo hi body st0)
  end.
  - intros i ret (Hi & -> & Hprev) Hlt.
    set (k := Z.to_nat (i - gs - 1)).
    assert (Hr1 : rd (overwrite gp gs w) i = w !! S k).
    { replace i with (gs + Z.of_nat (S k)) by lia. apply overwrite_rd; lia. }
    assert (Hr2 : rd (overwrite gp gs w) (i - 1) = w !! k).
    { replace (i - 1) with (gs + Z.of_nat k) by lia. apply overwrite_rd; lia. }
    rewrite Hr1, Hr2.
    destruct (lookup_lt_is_Some_2 w (S k)) as [c Hc]; [lia|].
    destruct (lookup_lt_is_Some_2 w k) as [cp Hcp]; [lia|].
    rewrite Hc, Hcp. simpl.
    destruct (Z.eqb_spec c D) as [->|Hne]; simpl.
    + destruct (Z.eqb_spec cp D) as [->|Hne].
      * eexists. split; [done|]. right. eauto.
      * eexists. split; [done|]. split; [lia|]. split; [lia|]. split; [done|].
        intros k' Hk' Hk1 Hk2.
        destruct (decide (k' = k)) as [->|]; [congruence|].
        apply (Hprev k'); [lia|done..].
    + eexists. split; [done|]. split; [lia|]. split; [lia|]. split; [done|].
      intros k' Hk' Hk1 Hk2.
      destruct (decide (k' = k)) as [->|]; [congruence|].
      apply (Hprev k'); [lia|done..].
  - intros i ret (Hi & -> & Hprev) Hge. left. split; [done|].
    intros k Hk1 Hk2. apply (Hprev k); [|done..].
    apply lookup_lt_Some in Hk2. lia.
  - split; [lia|]. split; [done|]. intros k Hk. lia.
Qed.

Lemma remap_nonneg d map chars :
  map_domain d map → Forall (λ c, 0 ≤ c) (remap map chars).
Proof.
  intros [_ Hmap]. apply Forall_forall. intros x Hx.
  apply list_elem_of_omap in Hx as (c & _ & Hc).
  destruct (rd map c) as [m|] eqn:Hm; simpl in Hc; [|done].
  destruct (Z.eqb_spec m (-1)); [done|]. injection Hc as <-.
  destruct (Hmap c m Hm); [done|lia].
Qed.

(** Sorting the partition that lies at the top end of the store. *)
Lemma sort_at_top_end dpb gs D (w : list Z) :
  store_inv dpb → top_end dpb = Some gs →
  gs + Z.of_nat (length w) ≤ Z.of_nat (length (global_partitions dpb)) →
  Forall (λ c, 0 ≤ c) w →
  (∀ c, w !! 0%nat = Some c → c ≠ D) →
  (∀ i : nat, w !! i = Some D → w !! S i ≠ Some D) →
  partitionSortSubsets (overwrite (global_partitions dpb) gs w) gs D
    (Z.of_nat (length w)) =
  Some (overwrite (global_partitions dpb) gs (sort_subsets D w)).
Proof.
  intros (_ & gs' & Hgs' & Hgs & Hpos) Htop Hcap Hw Hhead Hadj.
  rewrite Htop in Hgs'. injection Hgs' as <-.
  set (gp := global_partitions dpb) in *.
  destruct (take (Z.to_nat gs) gp) as [|v pre _] eqn:Hpre using rev_ind.
  { apply (f_equal length) in Hpre. rewrite length_take in Hpre.
    simpl in Hpre. lia. }
  assert (Hlenpre : Z.of_nat (length pre) + 1 = gs).
  { apply (f_equal length) in Hpre.
    rewrite length_take, length_app in Hpre. simpl in Hpre. lia. }
  unfold overwrite. rewrite Hpre, sort_subsets_length.
  rewrite <- !(app_assoc pre [v]). simpl. rewrite <- Hlenpre.
  apply partitionSortSubsets_spec; [|done..].
  rewrite Forall_forall in Hpos. apply Hpos.
  apply elem_of_app. right. by apply list_elem_of_singleton.
Qed.

(** C7.  For a valid parent partition in a well-formed store with room for
    it, [dpborder_partGetIdxNewExclusive] forms the sequence of the parent's
    characters mapped through [bordercharmap], those mapped to -1 left out.
    It returns -1 exactly when the sequence is empty, begins or ends with
    the new delimiter, or holds two new delimiters in a row (so for
    [x; D; D; y]), and then leaves the side arrays and the number of
    partitions as they were; otherwise it stores the sequence with its
    subsets sorted as a new partition that does not use the extension
    vertex and costs [FARAWAY], and returns its index. *)
Theorem exclusive_builder FARAWAY bp dpb gs D :
  partition_inv bp →
  store_inv dpb → top_end dpb = Some gs →
  gs + partsize bp ≤ Z.of_nat (length (global_partitions dpb)) →
  dpborder_getTopDelimiter dpb = Some D →
  map_domain (delimiter bp) (bordercharmap dpb) →
  rd (bordercharmap dpb) (delimiter bp) = Some D →
  (rejected D (remap (bordercharmap dpb) (partchars bp)) →
     dpborder_partGetIdxNewExclusive FARAWAY bp dpb =
     Some (-1, with_partitions dpb
                 (overwrite (global_partitions dpb) gs
                    (remap (bordercharmap dpb) (partchars bp))))) ∧
  (¬ rejected D (remap (bordercharmap dpb) (partchars bp)) →
     0 ≤ global_npartitions dpb ∧
     dpborder_partGetIdxNewExclusive FARAWAY bp dpb =
     Some (global_npartitions dpb,
           with_store dpb
             (overwrite (global_partitions dpb) gs
                (sort_subsets D (remap (bordercharmap dpb) (partchars bp))))
             (global_partstarts dpb ++
                [gs + Z.of_nat (length (remap (bordercharmap dpb) (partchars bp)))])
             (global_partcosts dpb ++ [FARAWAY])
             (global_predparts dpb ++ [-1])
             (global_partsUseExt dpb ++ [false])
             (global_npartitions dpb + 1))) ∧
  (∀ x y, remap (bordercharmap dpb) (partchars bp) = [x; D; D; y] →
     ∃ dpb', dpborder_partGetIdxNewExclusive FARAWAY bp dpb = Some (-1, dpb')).
Proof.
  intros [Hvalid Hpos] Hstore Htop Hcap HD Hdom HmapD.
  set (w := remap (bordercharmap dpb) (partchars bp)).
  assert (Hgs : 1 ≤ gs).
  { destruct Hstore as (_ & gs' & Hgs' & ? & _). rewrite Htop in Hgs'.
    injection Hgs' as <-. lia. }
  assert (Hnp : 0 ≤ global_npartitions dpb).
  { destruct Hstore as ((_ & H & _) & _). unfold StpVecGetSize in H. lia. }
  assert (Hlenw : gs + Z.of_nat (length w) ≤ Z.of_nat (length (global_partitions dpb))).
  { pose proof (remap_length (bordercharmap dpb) (partchars bp)).
    unfold partsize in Hcap. fold w in H. lia. }
  assert (Hrun : (rejected D w ∧
      dpborder_partGetIdxNewExclusive FARAWAY bp dpb =
      Some (-1, with_partitions dpb (overwrite (global_partitions dpb) gs w))) ∨
    (¬ rejected D w ∧
      dpborder_partGetIdxNewExclusive FARAWAY bp dpb =
      Some (global_npartitions dpb,
           with_store dpb
             (overwrite (global_partitions dpb) gs (sort_subsets D w))
             (global_partstarts dpb ++ [gs + Z.of_nat (length w)])
             (global_partcosts dpb ++ [FARAWAY])
             (global_predparts dpb ++ [-1])
             (global_partsUseExt dpb ++ [false])
             (global_npartitions dpb + 1)))).
  { unfold dpborder_partGetIdxNewExclusive. unfold top_end in Htop.
    rewrite Htop, HD. simpl.
    destruct (exclusive_copy_spec (bordercharmap dpb) (partchars bp)
                (global_partitions dpb) gs) as (i & ->); [lia|done| |].
    { intros c Hc. apply rd_in_range. destruct Hdom as [-> _].
      apply dpborder_partIsValid_wf in Hvalid.
      rewrite Forall_forall in Hpos. specialize (Hpos c Hc).
      apply list_elem_of_lookup in Hc as [k Hk].
      apply (wf_bound _ _ Hvalid) in Hk. lia. }
    simpl. fold w.
    destruct w as [|x w'] eqn:Hw.
    { simpl. rewrite Z.add_0_r, Z.eqb_refl. left. split; [by left|done]. }
    rewrite <- Hw in *.
    assert (Hlen1 : (0 < length w)%nat) by (rewrite Hw; simpl; lia).
    destruct (Z.eqb_spec gs (gs + Z.of_nat (length w))) as [?|_]; [lia|].
    assert (Hhd : w !! 0%nat = Some x) by (by rewrite Hw).
    assert (Hr0 : rd (overwrite (global_partitions dpb) gs w) gs = Some x).
    { rewrite <- Hhd. replace gs with (gs + Z.of_nat 0) at 2 by lia.
      apply overwrite_rd; lia. }
    rewrite Hr0. simpl.
    destruct (Z.eqb_spec x D) as [->|HxD].
    { left. split; [|done]. right. left. by rewrite Hw. }
    destruct (lookup_lt_is_Some_2 w (Init.Nat.pred (length w))) as [y Hy]; [lia|].
    assert (Hr1 : rd (overwrite (global_partitions dpb) gs w)
                     (gs + Z.of_nat (length w) - 1) = Some y).
    { rewrite <- Hy. replace (gs + Z.of_nat (length w) - 1)
        with (gs + Z.of_nat (Init.Nat.pred (length w))) by lia.
      apply overwrite_rd; lia. }
    rewrite Hr1. simpl.
    destruct (Z.eqb_spec y D) as [->|HyD].
    { left. split; [|done]. right. right. left. by rewrite last_lookup. }
    destruct (exclusive_check_spec D (global_partitions dpb) gs w)
      as (i' & ret & -> & Hret); [lia|lia|].
    simpl. destruct Hret as [[-> Hadj]|[-> Hadj]].
    - right. split.
      + intros [Hnil|[Hhead|[Hlast|(k & Hk1 & Hk2)]]].
        * by rewrite Hw in Hnil.
        * rewrite Hw in Hhead. simpl in Hhead. congruence.
        * rewrite last_lookup in Hlast. congruence.
        * by apply (Hadj k).
      + rewrite Z.add_simpl_l, sort_at_top_end.
        * simpl. unfold StpVecPushBack. do 2 f_equal. lia.
        * done.
        * by unfold top_end.
        * lia.
        * by eapply remap_nonneg.
        * intros c Hc. congruence.
        * done.
    - left. split; [|done]. right. right. right. done. }
  split; [|split].
  - intros Hrej. destruct Hrun as [[_ ?]|[? _]]; done.
  - intros Hrej. destruct Hrun as [[? _]|[_ ?]]; done.
  - intros x y Hxy. destruct Hrun as [[_ ?]|[Hnrej _]]; [eauto|].
    destruct Hnrej. right. right. right. exists 1%nat. fold w. by rewrite Hxy.
Qed.

Lemma exclusive_builder_witness :
  ∃ dpb',
    dpborder_partGetIdxNewExclusive 100 closure_parent closure_border =
      Some (0, dpb') ∧
    global_partitions dpb' = [0; 0; 2; 1; 7] ∧
    global_partsUseExt dpb' = [false].
Proof.
  destruct (exclusive_builder 100 closure_parent closure_border 1 2)
    as (_ & Hstore & _).
  - split; [reflexivity|repeat constructor; lia].
  - split; [by repeat split|]. exists 1. split; [reflexivity|].
    split; [simpl; lia|]. repeat constructor. lia.
  - reflexivity.
  - unfold partsize. simpl. lia.
  - reflexivity.
  - split; [reflexivity|]. intros c m Hc.
    pose proof (rd_range _ _ _ Hc) as Hr. simpl in Hr.
    assert (c = 0 ∨ c = 1 ∨ c = 2) as [-> | [-> | ->]] by lia;
      injection Hc as <-; lia.
  - reflexivity.
  - destruct Hstore as [_ Hrun].
    + intros [?|[?|[?|(i & Hi & Hi')]]]; [done..|].
      destruct i as [|[|[|i]]]; simpl in Hi, Hi'; congruence.
    + eexists. split; [exact Hrun|]. split; reflexivity.
Defined.

(** ** Rollback of the union builder *)

Lemma scratch_wr gs gp g e m g' :
  scratch gs gp g e → wr g e m = Some g' → scratch gs gp g' (e + 1).
Proof.
  intros (He & Hlen & Htake) [Hr ->]%wr_Some. split; [lia|].
  split; [by rewrite length_insert|].
  rewrite take_insert_ge by lia. done.
Qed.

Lemma union_subset_scratch gs gp map pc d s g e j g' e' :
  union_subset map pc d s g e = Some (j, (g', e')) →
  scratch gs gp g e → scratch gs gp g' e'.
Proof.
  unfold union_subset. intros Hrun Hs.
  eapply (c_for_sound (λ _ '(g, e), scratch gs gp g e)
           (λ _ '(g, e), scratch gs gp g e)) in Hrun; [done| | |done].
  - intros i [g0 e0] st Hs0 _ Hbody.
    repeat (simplify_option_eq || case_match); eauto using scratch_wr.
  - by intros i [g0 e0].
Qed.

Lemma restorable_mark chars pc s c pc' :
  restorable chars 0 pc → rd pc s = Some c → wr pc s (- c - 1) = Some pc' →
  restorable chars 0 pc'.
Proof.
  intros [Hlen Hpc] [Hs Hc]%rd_Some [_ ->]%wr_Some.
  split; [by rewrite length_insert|]. intros k c0 Hk.
  destruct (decide (k = Z.to_nat s)) as [->|Hne].
  - rewrite list_lookup_insert_eq by (by eapply lookup_lt_Some).
    destruct (Hpc _ _ Hk) as [H|[_ H]]; rewrite H in Hc; injection Hc as <-.
    + right. split; [lia|done].
    + left. f_equal. lia.
  - rewrite list_lookup_insert_ne by done. apply Hpc in Hk as [?|[? ?]]; [by left|].
    right. split; [lia|done].
Qed.

Lemma union_marked_rollback gs gp chars map d starts pc g e i pc' g' e' :
  union_marked map d starts pc g e = Some (i, (pc', g', e')) →
  restorable chars 0 pc → scratch gs gp g e →
  restorable chars 0 pc' ∧ scratch gs gp g' e'.
Proof.
  unfold union_marked. intros Hrun Hpc Hs.
  eapply (c_for_sound
            (λ _ '(pc, g, e), restorable chars 0 pc ∧ scratch gs gp g e)
            (λ _ '(pc, g, e), restorable chars 0 pc ∧ scratch gs gp g e))
    in Hrun; [done| | |done].
  - intros ii [[pc0 g0] e0] st [Hpc0 Hs0] _ Hbody.
    repeat (simplify_option_eq || case_match).
    split; [by eapply restorable_mark|by eapply union_subset_scratch].
  - by intros ii [[pc0 g0] e0].
Qed.

Lemma restorable_skip chars j pc x :
  Forall (λ c, 0 ≤ c) chars →
  restorable chars j pc → rd pc j = Some x → 0 ≤ x →
  restorable chars (j + 1) pc.
Proof.
  intros Hpos [Hlen Hpc] [Hj Hx]%rd_Some Hx0. split; [done|]. intros k c Hk.
  destruct (Hpc _ _ Hk) as [?|[Hjk Hm]]; [by left|].
  destruct (decide (k = Z.to_nat j)) as [->|Hne]; [|right; split; [lia|done]].
  rewrite Forall_forall in Hpos.
  assert (0 ≤ c) by (apply Hpos; by eapply list_elem_of_lookup_2).
  rewrite Hm in Hx. injection Hx as <-. lia.
Qed.

Lemma restorable_unmark chars j pc x pc' :
  Forall (λ c, 0 ≤ c) chars →
  restorable chars j pc → rd pc j = Some x → x < 0 →
  wr pc j (- (x + 1)) = Some pc' →
  restorable chars (j + 1) pc'.
Proof.
  intros Hpos [Hlen Hpc] [Hj Hx]%rd_Some Hx0 [Hr ->]%wr_Some.
  split; [by rewrite length_insert|]. intros k c Hk.
  destruct (decide (k = Z.to_nat j)) as [->|Hne].
  - rewrite list_lookup_insert_eq by lia. left.
    destruct (Hpc _ _ Hk) as [H|[_ H]]; rewrite H in Hx; injection Hx as <-.
    + rewrite Forall_forall in Hpos.
      assert (0 ≤ c) by (apply Hpos; by eapply list_elem_of_lookup_2). lia.
    + f_equal. lia.
  - rewrite list_lookup_insert_ne by done.
    destruct (Hpc _ _ Hk) as [?|[? ?]]; [by left|]. right. split; [lia|done].
Qed.

Lemma restorable_done chars j pc :
  restorable chars j pc → Z.of_nat (length chars) ≤ j → pc = chars.
Proof.
  intros [Hlen Hpc] Hj. apply list_eq. intros k.
  destruct (chars !! k) as [c|] eqn:Hc.
  - destruct (Hpc _ _ Hc) as [?|[Hk _]]; [done|].
    apply lookup_lt_Some in Hc. lia.
  - apply lookup_ge_None in Hc. apply lookup_ge_None. lia.
Qed.

(** Clearing the marks from [lo] on gives the characters back, when none
    of them is negative. *)
Lemma unmark_from_restores chars lo pc pc' :
  Forall (λ c, 0 ≤ c) chars →
  restorable chars lo pc → unmark_from lo pc = Some pc' → pc' = chars.
Proof.
  intros Hpos Hpc Hrun. unfold unmark_from in Hrun.
  pose proof (proj1 Hpc) as HlenP.
  destruct (c_for _ _ _ _) as [[jend pc1]|] eqn:Hloop; [|done].
  simpl in Hrun. injection Hrun as ->.
  eapply (c_for_sound
            (λ j pc, lo ≤ j ∧ restorable chars j pc)
            (λ _ pc, pc = chars)) in Hloop; [done| | |done].
  - intros j pc0 st [Hj Hpc0] _ Hbody.
    destruct (rd pc0 j) as [x|] eqn:Hx; simpl in Hbody; [|done].
    destruct (Z.ltb_spec x 0) as [Hneg|Hnneg].
    + destruct (wr pc0 j (- (x + 1))) as [pc1|] eqn:Hwr; simpl in Hbody; [|done].
      injection Hbody as <-. split; [lia|]. by eapply restorable_unmark.
    + injection Hbody as <-. split; [lia|]. by eapply restorable_skip.
  - intros j pc0 [Hj Hpc0] Hge. eapply restorable_done; [done|].
    destruct Hpc0 as [Hlen0 _]. lia.
Qed.

Lemma copy_remaining_rollback gs gp chars map d D pc g e dc fl i pc' g' e' dc' fl' :
  copy_remaining map d D pc g e dc fl = Some (i, (pc', g', e', dc', fl')) →
  Forall (λ c, 0 ≤ c) chars →
  restorable chars 0 pc → scratch gs gp g e →
  restorable chars (i + 1) pc' ∧ scratch gs gp g' e'.
Proof.
  unfold copy_remaining. intros Hrun Hpos Hpc Hs.
  pose proof (proj1 Hpc) as HlenP.
  eapply (c_for_sound
            (λ j '(pc, g, e, _, _), restorable chars j pc ∧ scratch gs gp g e)
            (λ j '(pc, g, e, _, _),
               restorable chars (j + 1) pc ∧ scratch gs gp g e))
    in Hrun; [done| | |done].
  - intros j [[[[pc0 g0] e0] dc0] fl0] st [Hpc0 Hs0] _ Hbody.
    destruct (rd pc0 j) as [x|] eqn:Hx; simpl in Hbody; [|done].
    destruct (Z.ltb_spec x 0) as [Hneg|Hnneg].
    { destruct (wr pc0 j (- (x + 1))) as [pc1|] eqn:Hwr; simpl in Hbody; [|done].
      injection Hbody as <-. split; [by eapply restorable_unmark|done]. }
    pose proof (restorable_skip _ _ _ _ Hpos Hpc0 Hx Hnneg) as Hpc1.
    repeat (simplify_option_eq || case_match); eauto using scratch_wr.
  - intros j [[[[pc0 g0] e0] dc0] fl0] [Hpc0 Hs0] Hge. split; [|done].
    assert (pc0 = chars) as ->.
    { eapply restorable_done; [done|]. lia. }
    split; [done|]. intros k c Hk. by left.
Qed.

Lemma restorable_refl chars : restorable chars 0 chars.
Proof. split; [done|]. intros k c Hk. by left. Qed.

Lemma scratch_refl gs gp : scratch gs gp gp gs.
Proof. by split; [lia|]. Qed.

(** C2 (amended).  When [dpborder_partGetIdxNew] returns -1 on a parent that
    satisfies the partition invariant, the parent's characters are as
    before the call, so the parent is valid again, the side arrays and the
    number of partitions are as before the call, and so is the character
    buffer below the top end of the store. *)
Theorem union_builder_rollback FARAWAY bp starts dpb bp' dpb' :
  partition_inv bp →
  dpborder_partGetIdxNew FARAWAY bp starts dpb = Some (-1, bp', dpb') →
  bp' = bp ∧ dpborder_partIsValid bp' = Some true ∧
  global_npartitions dpb' = global_npartitions dpb ∧
  global_partstarts dpb' = global_partstarts dpb ∧
  global_partcosts dpb' = global_partcosts dpb ∧
  global_predparts dpb' = global_predparts dpb ∧
  global_partsUseExt dpb' = global_partsUseExt dpb ∧
  length (global_partitions dpb') = length (global_partitions dpb) ∧
  ∀ gs, top_end dpb = Some gs →
    take (Z.to_nat gs) (global_partitions dpb') =
    take (Z.to_nat gs) (global_partitions dpb).
Proof.
  intros [Hvalid Hpos] Hrun. destruct bp as [chars d]. simpl in *.
  unfold dpborder_partGetIdxNew in Hrun. simpl in Hrun.
  destruct (rd (global_partstarts dpb) (global_npartitions dpb)) as [gs|] eqn:Hgs;
    simpl in Hrun; [|done].
  apply rd_Some in Hgs as Hnp. destruct Hnp as [Hnp _].
  destruct (dpborder_getTopDelimiter dpb) as [D|]; simpl in Hrun; [|done].
  destruct (union_marked _ _ _ _ _ _) as [[i1 [[pc1 g1] e1]]|] eqn:Hu;
    simpl in Hrun; [|done].
  eapply (union_marked_rollback gs (global_partitions dpb) chars) in Hu
    as [Hpc1 Hs1]; [|apply restorable_refl|apply scratch_refl].
  assert (Hext : ∃ g2 e2,
    (if extborderchar dpb >=? 0
     then wr g1 e1 (extborderchar dpb) ≫= λ g, Some (g, e1 + 1)
     else Some (g1, e1)) = Some (g2, e2) ∧
    scratch gs (global_partitions dpb) g2 e2).
  { destruct (extborderchar dpb >=? 0); [|by eauto].
    destruct (wr g1 e1 (extborderchar dpb)) as [g2|] eqn:Hwr; [|done].
    simpl. eauto using scratch_wr. }
  destruct Hext as (g2 & e2 & Hext & Hs2). rewrite Hext in Hrun.
  simpl in Hrun. clear Hext.
  assert (Hgoal : ∀ pc gfin efin,
    pc = chars → scratch gs (global_partitions dpb) gfin efin →
    (-1, mkDPBPART pc d, with_partitions dpb gfin) = (-1, bp', dpb') →
    bp' = mkDPBPART chars d ∧ dpborder_partIsValid bp' = Some true ∧
    global_npartitions dpb' = global_npartitions dpb ∧
    global_partstarts dpb' = global_partstarts dpb ∧
    global_partcosts dpb' = global_partcosts dpb ∧
    global_predparts dpb' = global_predparts dpb ∧
    global_partsUseExt dpb' = global_partsUseExt dpb ∧
    length (global_partitions dpb') = length (global_partitions dpb) ∧
    ∀ gs', top_end dpb = Some gs' →
      take (Z.to_nat gs') (global_partitions dpb') =
      take (Z.to_nat gs') (global_partitions dpb)).
  { intros pc gfin efin -> (_ & Hlen & Htake) [= <- <-]. simpl.
    repeat split; try done. intros gs' Hgs'. unfold top_end in Hgs'.
    rewrite Hgs in Hgs'. by injection Hgs' as <-. }
  destruct (e2 =? gs).
  - destruct (unmark_from 0 pc1) as [pc2|] eqn:Hun; simpl in Hrun; [|done].
    apply (Hgoal pc2 g2 e2); [|exact Hs2|congruence].
    by eapply unmark_from_restores.
  - destruct (rd pc1 0) as [c0|]; simpl in Hrun; [|done].
    assert (Hd : ∃ g3 e3,
      (if c0 >=? 0
       then wr g2 e2 D ≫= λ g, Some (g, e2 + 1)
       else Some (g2, e2)) = Some (g3, e3) ∧
      scratch gs (global_partitions dpb) g3 e3).
    { destruct (c0 >=? 0); [|by eauto].
      destruct (wr g2 e2 D) as [g3|] eqn:Hwr; [|done].
      simpl. eauto using scratch_wr. }
    destruct Hd as (g3 & e3 & Hd & Hs3). rewrite Hd in Hrun.
    simpl in Hrun. clear Hd.
    destruct (copy_remaining _ _ _ _ _ _ _ _)
      as [[i [[[[pc4 g4] e4] dc4] fl4]]|] eqn:Hcopy; simpl in Hrun; [|done].
    eapply (copy_remaining_rollback gs (global_partitions dpb) chars) in Hcopy
      as [Hpc4 Hs4]; [|done..].
    destruct (rd g4 (e4 - 1)) as [lastchar|]; simpl in Hrun; [|done].
    destruct ((if D =? lastchar then -1 else fl4) =? -1).
    + destruct (unmark_from (i + 1) pc4) as [pc5|] eqn:Hun; simpl in Hrun; [|done].
      apply (Hgoal pc5 g4 e4); [|exact Hs4|congruence].
      by eapply unmark_from_restores.
    + destruct (partitionSortSubsets _ _ _ _); simpl in Hrun; [|done].
      injection Hrun as Hrun _ _. lia.
Qed.

Lemma union_builder_rollback_witness :
  dpborder_partGetIdxNew 100 rollback_parent [0] rollback_border =
    Some (-1, rollback_parent,
          with_partitions rollback_border [0; 0; 2; 7; 7]) ∧
  dpborder_partIsValid rollback_parent = Some true ∧
  take 1 [0; 0; 2; 7; 7] = take 1 (global_partitions rollback_border).
Proof.
  assert (Hrun : dpborder_partGetIdxNew 100 rollback_parent [0] rollback_border =
    Some (-1, rollback_parent, with_partitions rollback_border [0; 0; 2; 7; 7]))
    by reflexivity.
  destruct (union_builder_rollback 100 rollback_parent [0] rollback_border _ _
              ltac:(split; [reflexivity|repeat constructor; lia]) Hrun)
    as (_ & Hvalid & _ & _ & _ & _ & _ & _ & Htake).
  split; [exact Hrun|]. split; [exact Hvalid|].
  exact (Htake 1 eq_refl).
Defined.

(** C2, as stated, fails: a rejected call has written into the character
    buffer, from the top end of the store on. *)
Lemma union_builder_rollback_scratch :
  partition_inv rollback_parent ∧
  ∃ dpb',
    dpborder_partGetIdxNew 100 rollback_parent [0] rollback_border =
      Some (-1, rollback_parent, dpb') ∧
    global_partitions dpb' ≠ global_partitions rollback_border.
Proof.
  split; [split; [reflexivity|repeat constructor; lia]|].
  eexists. split; [reflexivity|]. simpl. discriminate.
Qed.
(** ** Validity closure *)

(** *** The invariant of the child *)

Lemma written_wr gp gs g e out m g' :
  written gp gs g e out → wr g e m = Some g' →
  written gp gs g' (e + 1) (out ++ [m]).
Proof.
  intros (Hgs & -> & -> & Hcap) Hwr.
  apply overwrite_wr in Hwr as [-> Hcap']; [|done..].
  split; [done|]. split; [done|]. split; [|done].
  rewrite length_app. simpl. lia.
Qed.

Lemma written_last gp gs g e out x :
  written gp gs g e out → out ≠ [] → rd g (e - 1) = Some x → last out = Some x.
Proof.
  intros (Hgs & -> & -> & Hcap) Hne Hrd.
  assert (0 < length out)%nat by (destruct out; [done|simpl; lia]).
  replace (gs + Z.of_nat (length out) - 1)
    with (gs + Z.of_nat (Init.Nat.pred (length out))) in Hrd by lia.
  rewrite overwrite_rd in Hrd by lia. by rewrite last_lookup.
Qed.

Lemma written_init gp gs :
  0 ≤ gs ≤ Z.of_nat (length gp) → written gp gs gp gs [].
Proof.
  intros Hgs. split; [lia|]. rewrite overwrite_nil. simpl.
  split; [done|]. split; lia.
Qed.

Lemma opened_impl chars d (P Q : Z → Prop) i :
  (∀ s, P s → Q s) → opened chars d P i → opened chars d Q i.
Proof. intros HPQ (s & Hs & Hrest). exists s. split; [auto|done]. Qed.

Section ValidityClosure.

Variables (chars : list Z) (d : Z) (map : list Z) (D ext : Z).
Hypothesis Hwf : partition_wf d chars.
Hypothesis Hlev : level_pre d D map ext.

Local Abbreviation from_pos := (from_pos chars d map).
Local Abbreviation opened := (opened chars d).
Local Abbreviation is_start := (is_start chars d).
Local Abbreviation marked := (marked chars).
Local Abbreviation union_inv := (union_inv chars d map).
Local Abbreviation child_inv := (child_inv chars d map D ext).

Lemma char_range k c :
  rd chars k = Some c → c ≠ d → (∃ x, rd map c = Some x) → 0 ≤ c < d.
Proof.
  intros [_ Hk]%rd_Some Hcd [x Hx%rd_range].
  apply (wf_bound _ _ Hwf) in Hk. lia.
Qed.

Lemma from_pos_range x k : from_pos x k → 0 ≤ x < D ∧ x ≠ ext.
Proof.
  intros (c & Hc & Hcd & Hx & Hx1).
  assert (0 ≤ c < d) by (eapply char_range; eauto).
  destruct (lp_range _ _ _ _ Hlev c x) as [?|?]; [done..|].
  split; [done|]. by eapply (lp_fresh _ _ _ _ Hlev).
Qed.

Lemma from_pos_inj x k k' : from_pos x k → from_pos x k' → k = k'.
Proof.
  intros (c & Hc & Hcd & Hx & Hx1) (c' & Hc' & Hcd' & Hx' & _).
  assert (0 ≤ c < d) by (eapply char_range; eauto).
  assert (0 ≤ c' < d) by (eapply char_range; eauto).
  assert (c = c') as <- by (by eapply (lp_inj _ _ _ _ Hlev)).
  apply rd_Some in Hc as [Hk Hc], Hc' as [Hk' Hc'].
  pose proof (wf_distinct _ _ Hwf _ _ _ Hc Hc' Hcd). lia.
Qed.

Lemma is_start_nonneg s : is_start s → 0 ≤ s < Z.of_nat (length chars).
Proof. intros [_ (c & Hc%rd_range & _)]. done. Qed.

(** Two starts with no delimiter up to the same position are the same. *)
Lemma is_start_unique s s' k :
  is_start s → is_start s' → s ≤ k → s' ≤ k →
  (∀ j, s ≤ j ≤ k → rd chars j ≠ Some d) →
  (∀ j, s' ≤ j ≤ k → rd chars j ≠ Some d) → s = s'.
Proof.
  intros Hs Hs' Hk Hk' Hrun Hrun'.
  pose proof (is_start_nonneg _ Hs). pose proof (is_start_nonneg _ Hs').
  destruct Hs as [Hs _], Hs' as [Hs' _].
  destruct (Z.lt_trichotomy s s') as [Hlt|[?|Hlt]]; [|done|].
  - destruct Hs' as [->|Hd]; [lia|]. destruct (Hrun (s' - 1)); [lia|done].
  - destruct Hs as [->|Hd]; [lia|]. destruct (Hrun' (s - 1)); [lia|done].
Qed.

Lemma union_inv_impl (cov cov' : Z → Prop) out :
  (∀ k, cov k → cov' k) → union_inv cov out → union_inv cov' out.
Proof.
  intros Hcov [Hnd Hout]. split; [done|]. intros x Hx.
  destruct (Hout x Hx) as (k & ? & ?). eauto.
Qed.

Lemma union_inv_snoc (cov : Z → Prop) out x k :
  union_inv cov out → from_pos x k → ¬ cov k →
  union_inv (λ k', cov k' ∨ k' = k) (out ++ [x]).
Proof.
  intros [Hnd Hout] Hx Hk. split.
  - apply NoDup_app. split; [done|]. split; [|apply NoDup_singleton].
    intros y Hy Hy'%list_elem_of_singleton. subst y.
    destruct (Hout _ Hy) as (k' & Hk' & Hcov).
    by rewrite (from_pos_inj _ _ _ Hx Hk') in Hk.
  - intros y [Hy|Hy%list_elem_of_singleton]%elem_of_app.
    + destruct (Hout _ Hy) as (k' & ? & ?). eauto.
    + subst y. eauto.
Qed.

(** The walk over the subset of a start that is not chosen yet. *)
Lemma union_subset_inv gp gs (chosen : Z → Prop) pc s g e out j g' e' :
  union_subset map pc d s g e = Some (j, (g', e')) →
  marked chosen 0 pc → ¬ chosen s → is_start s →
  (∀ s', chosen s' → is_start s') →
  written gp gs g e out →
  union_inv (λ k, opened chosen (k + 1)) out →
  (∃ c, rd chars s = Some c ∧ 0 ≤ c) ∧
  ∃ out', written gp gs g' e' out' ∧
          union_inv (λ k, opened (λ x, chosen x ∨ x = s) (k + 1)) out'.
Proof.
  unfold union_subset. intros Hrun (Hlen & Hnn & Hpc) Hs Hstart Hstarts Hw Hu.
  pose proof (is_start_nonneg _ Hstart) as Hsr.
  eapply (c_for_sound
    (λ j '(g, e), s ≤ j ∧
       (∀ i, s ≤ i < j → rd chars i ≠ Some d) ∧
       (s < j → ∃ c, rd chars s = Some c ∧ 0 ≤ c) ∧
       ∃ out, written gp gs g e out ∧
              union_inv (λ k, opened chosen (k + 1) ∨ s ≤ k < j) out)
    (λ _ '(g, e),
       (∃ c, rd chars s = Some c ∧ 0 ≤ c) ∧
       ∃ out', written gp gs g e out' ∧
               union_inv (λ k, opened (λ x, chosen x ∨ x = s) (k + 1)) out'))
    in Hrun; [done| | |].
  - intros i [g0 e0] st (Hi & Hrun0 & Hnn0 & out0 & Hw0 & Hu0) Hlt Hbody.
    rewrite Hlen in Hlt.
    destruct (rd_in_range chars i) as [c Hc]; [lia|].
    assert (Hnot : ¬ chosen i).
    { intros Hch. destruct (decide (i = s)) as [->|Hne]; [done|].
      destruct (Hstarts _ Hch) as [[->|Hd] _]; [lia|].
      by destruct (Hrun0 (i - 1)); [lia|]. }
    destruct (Hpc i c) as [[? _]|[_ Hpci]]; [lia|done|done|].
    rewrite Hpci in Hbody. simpl in Hbody.
    assert (Hweak : ∀ j', i ≤ j' →
      (∀ i', s ≤ i' < j' → rd chars i' ≠ Some d) →
      ∀ k, opened chosen (k + 1) ∨ s ≤ k < i →
           opened (λ x, chosen x ∨ x = s) (k + 1)).
    { intros j' Hj' Hrun' k [Hk|Hk].
      - eapply opened_impl; [|done]. auto.
      - exists s. split; [by right|]. split; [lia|].
        intros i' Hi'. apply Hrun0. lia. }
    destruct (Z.eqb_spec c d) as [Heq|Hcd].
    { subst c. injection Hbody as <-. split.
      - apply Hnn0. destruct (decide (s = i)) as [->|]; [|lia].
        destruct Hstart as [_ (c' & Hc' & Hne)]. congruence.
      - exists out0. split; [done|]. eapply union_inv_impl; [|done].
        by apply (Hweak i). }
    destruct (rd map c) as [m|] eqn:Hm; simpl in Hbody; [|done].
    assert (Hc0 : 0 ≤ c) by (apply rd_range in Hm; lia).
    assert (Hrun1 : ∀ i', s ≤ i' < i + 1 → rd chars i' ≠ Some d).
    { intros i' Hi'. destruct (decide (i' = i)) as [->|]; [congruence|].
      apply Hrun0. lia. }
    assert (Hnn1 : s < i + 1 → ∃ c, rd chars s = Some c ∧ 0 ≤ c).
    { intros _. destruct (decide (s = i)) as [->|]; [eauto|].
      apply Hnn0. lia. }
    destruct (Z.eqb_spec m (-1)) as [->|Hm1]; simpl in Hbody.
    { injection Hbody as <-. split; [lia|]. split; [done|]. split; [done|].
      exists out0. split; [done|]. eapply union_inv_impl; [|done].
      intros k [?|?]; [by left|right; lia]. }
    destruct (wr g0 e0 m) as [g1|] eqn:Hwr; simpl in Hbody; [|done].
    injection Hbody as <-. split; [lia|]. split; [done|]. split; [done|].
    exists (out0 ++ [m]). split; [by eapply written_wr|].
    eapply union_inv_impl; [|apply (union_inv_snoc _ _ m i Hu0)].
    + intros k [[?|?]| ->]; [by left|right; lia|right; lia].
    + exists c. done.
    + intros [(s' & Hs' & Hs'i & Hrun')|?]; [|lia].
      assert (s = s'); [|by subst].
      apply (is_start_unique s s' i); [done|by apply Hstarts|lia|lia| |].
      * intros j' Hj'. apply Hrun1. lia.
      * intros j' Hj'. apply Hrun'. lia.
  - intros i [g0 e0] (Hi & Hrun0 & Hnn0 & out0 & Hw0 & Hu0) Hge.
    rewrite Hlen in Hge. split; [apply Hnn0; lia|].
    exists out0. split; [done|]. eapply union_inv_impl; [|done].
    intros k [Hk|Hk].
    + eapply opened_impl; [|done]. auto.
    + exists s. split; [by right|]. split; [lia|].
      intros i' Hi'. apply Hrun0. lia.
  - split; [lia|]. split; [intros; lia|]. split; [intros; lia|].
    exists out. split; [done|]. eapply union_inv_impl; [|done]. auto.
Qed.

(** The walk fails at a marked start: a start chosen twice. *)
Lemma union_subset_marked pc s g e c :
  rd pc s = Some c → c < 0 → union_subset map pc d s g e = None.
Proof.
  intros Hc Hneg. unfold union_subset.
  assert (0 ≤ d) by (pose proof (lp_delim _ _ _ _ Hlev) as Hd;
                     apply rd_range in Hd; lia).
  match goal with |- ?run = None => destruct run as [[i0 st0]|] eqn:Hrun end;
    [exfalso|done].
  eapply (c_for_sound (λ i _, i = s) (λ _ _, False)) in Hrun; [done| | |done].
  - intros i [g0 e0] st' -> Hlt Hbody. rewrite Hc in Hbody. simpl in Hbody.
    destruct (Z.eqb_spec c d) as [?|_]; [lia|].
    destruct (rd map c) eqn:Hm; [apply rd_range in Hm; lia|done].
  - intros i st' -> Hge. apply rd_range in Hc. lia.
Qed.

(** The loop over the candidate starts. *)
Lemma union_marked_inv gp gs (starts : list Z) g e ii pc' g' e' :
  union_marked map d starts chars g e = Some (ii, (pc', g', e')) →
  (∀ s, s ∈ starts → is_start s) →
  written gp gs g e [] →
  marked (λ x, x ∈ starts) 0 pc' ∧
  ∃ out, written gp gs g' e' out ∧
         union_inv (λ k, opened (λ x, x ∈ starts) (k + 1)) out.
Proof.
  unfold union_marked, StpVecGetSize. intros Hrun Hstarts Hw.
  eapply (c_for_sound
    (λ i '(pc, g, e), 0 ≤ i ∧
       marked (λ x, x ∈ take (Z.to_nat i) starts) 0 pc ∧
       ∃ out, written gp gs g e out ∧
              union_inv (λ k, opened (λ x, x ∈ take (Z.to_nat i) starts) (k + 1)) out)
    (λ _ '(pc, g, e),
       marked (λ x, x ∈ starts) 0 pc ∧
       ∃ out, written gp gs g e out ∧
              union_inv (λ k, opened (λ x, x ∈ starts) (k + 1)) out))
    in Hrun; [done| | |].
  - intros i [[pc0 g0] e0] st (Hi & Hm0 & out0 & Hw0 & Hu0) Hlt Hbody.
    destruct (rd starts i) as [s|] eqn:Hs; simpl in Hbody; [|done].
    destruct (proj1 (rd_Some _ _ _) Hs) as [_ Hs'].
    assert (Htake : ∀ x, x ∈ take (Z.to_nat (i + 1)) starts ↔
                         x ∈ take (Z.to_nat i) starts ∨ x = s).
    { intros x. replace (Z.to_nat (i + 1)) with (S (Z.to_nat i)) by lia.
      rewrite (take_S_r _ _ _ Hs'), elem_of_app, list_elem_of_singleton. done. }
    assert (Hsub : ∀ s', s' ∈ take (Z.to_nat i) starts → is_start s').
    { intros s' Hs'in. apply Hstarts.
      apply elem_of_take in Hs'in as (i0 & Hi0 & _).
      by eapply list_elem_of_lookup_2. }
    destruct (union_subset map pc0 d s g0 e0) as [[j [g1 e1]]|] eqn:Hwalk;
      simpl in Hbody; [|done].
    assert (Hnew : s ∉ take (Z.to_nat i) starts).
    { intros Hin.
      destruct (Hstarts s) as [_ (c & Hc & _)];
        [by eapply list_elem_of_lookup_2|].
      destruct Hm0 as (_ & Hnn0 & Hpc0).
      destruct (Hpc0 s c) as [[_ Hpcs]|[? _]];
        [by apply rd_range in Hc; lia|done| |done].
      rewrite (union_subset_marked _ _ _ _ _ Hpcs) in Hwalk; [done|].
      specialize (Hnn0 s c Hin Hc). lia. }
    eapply union_subset_inv in Hwalk
      as [(c & Hc & Hc0) (out1 & Hw1 & Hu1)]; [|done|done|by apply Hstarts; eapply list_elem_of_lookup_2|done|done|done].
    destruct Hm0 as (Hlen0 & Hnn0 & Hpc0).
    destruct (Hpc0 s c) as [[? _]|[_ Hpcs]];
      [by apply rd_range in Hc; lia|done|done|].
    rewrite Hpcs in Hbody. simpl in Hbody.
    destruct (wr pc0 s (- c - 1)) as [pc1|] eqn:Hwr; simpl in Hbody; [|done].
    injection Hbody as <-. split; [lia|]. split.
    + split; [by rewrite (wr_length _ _ _ _ Hwr)|]. split.
      * intros s' c' [Hin| ->]%Htake Hc'; [by eapply Hnn0|]. congruence.
      * intros k c' _ Hc'. destruct (decide (k = s)) as [->|Hne].
        -- left. split; [apply Htake; by right|].
           rewrite (rd_wr_eq _ _ _ _ Hwr). congruence.
        -- rewrite (rd_wr_ne _ _ _ _ _ Hwr) by done.
           destruct (Hpc0 k c') as [[? ?]|[? ?]];
             [apply rd_range in Hc'; lia|done| |].
           ++ left. split; [apply Htake; by left|done].
           ++ right. split; [|done]. intros [?| ->]%Htake; done.
    + exists out1. split; [done|]. eapply union_inv_impl; [|done].
      intros k Hk. simpl in Hk. eapply opened_impl; [|exact Hk].
      intros x Hx. simpl in Hx. by apply Htake.
  - intros i [[pc0 g0] e0] (Hi & Hm0 & out0 & Hw0 & Hu0) Hge.
    rewrite take_ge in Hm0, Hu0 by lia. eauto.
  - split; [lia|]. change (Z.to_nat 0) with 0%nat. rewrite take_0. split.
    + split; [done|]. split; [by intros s c Hs%elem_of_nil|].
      intros k c _ Hc. right. split; [apply not_elem_of_nil|done].
    + exists []. split; [done|]. split; [constructor|].
      by intros x Hx%elem_of_nil.
Qed.

Lemma child_inv_impl (cov cov' : Z → Prop) out :
  (∀ k, cov k → cov' k) → child_inv cov out → child_inv cov' out.
Proof.
  intros Hcov (Hnd & Hout & Hhd & Hadj). split; [done|]. split; [|done].
  intros x Hx. destruct (Hout x Hx) as [?|[? [?|(k & ? & ?)]]]; eauto 10.
Qed.

Lemma filter_snoc_ne (out : list Z) x :
  x ≠ D → filter (λ y, y ≠ D) (out ++ [x]) = filter (λ y, y ≠ D) out ++ [x].
Proof.
  intros Hx. rewrite filter_app. f_equal.
  rewrite filter_cons. by destruct (decide (x ≠ D)).
Qed.

Lemma filter_snoc_eq (out : list Z) :
  filter (λ y, y ≠ D) (out ++ [D]) = filter (λ y, y ≠ D) out.
Proof.
  rewrite filter_app, filter_cons. destruct (decide (D ≠ D)); [done|].
  by rewrite filter_nil, app_nil_r.
Qed.

Lemma lookup_snoc_pair (out : list Z) x (i : nat) a b :
  (out ++ [x]) !! i = Some a → (out ++ [x]) !! S i = Some b →
  (out !! i = Some a ∧ out !! S i = Some b) ∨ (last out = Some a ∧ b = x).
Proof.
  intros Ha Hb. apply lookup_lt_Some in Hb as Hlen.
  rewrite length_app in Hlen. simpl in Hlen.
  rewrite lookup_app_l in Ha by lia.
  destruct (decide (S i < length out)%nat).
  - left. by rewrite lookup_app_l in Hb by lia.
  - right. rewrite lookup_app_r in Hb by lia.
    replace (S i - length out)%nat with 0%nat in Hb by lia.
    injection Hb as <-. split; [|done].
    rewrite last_lookup, <- Ha. f_equal. lia.
Qed.

(** A new character behind the child. *)
Lemma child_inv_snoc_char (cov : Z → Prop) out x :
  child_inv cov out → 0 ≤ x < D →
  (x = ext ∨ ∃ k, from_pos x k ∧ cov k) → x ∉ out →
  child_inv cov (out ++ [x]).
Proof.
  intros (Hnd & Hout & (x0 & Hx0 & Hx0D) & Hadj) Hx Hsrc Hnew.
  split; [|split; [|split]].
  - rewrite filter_snoc_ne by lia. apply NoDup_app. split; [done|].
    split; [|apply NoDup_singleton].
    intros y [_ Hy]%list_elem_of_filter Hy'%list_elem_of_singleton.
    by subst y.
  - intros y [Hy|Hy%list_elem_of_singleton]%elem_of_app; [auto|].
    subst y. by right.
  - exists x0. split; [|done]. by apply lookup_app_l_Some.
  - intros i Hi Hi'.
    destruct (lookup_snoc_pair _ _ _ _ _ Hi Hi') as [[? ?]|[_ ?]]; [|lia].
    by apply (Hadj i).
Qed.

(** A delimiter behind a child that does not end with one. *)
Lemma child_inv_snoc_delimiter (cov : Z → Prop) out :
  child_inv cov out → last out ≠ Some D → child_inv cov (out ++ [D]).
Proof.
  intros (Hnd & Hout & (x0 & Hx0 & Hx0D) & Hadj) Hlast.
  split; [|split; [|split]].
  - by rewrite filter_snoc_eq.
  - intros y [Hy|Hy%list_elem_of_singleton]%elem_of_app; [auto|]. by left.
  - exists x0. split; [|done]. by apply lookup_app_l_Some.
  - intros i Hi Hi'.
    destruct (lookup_snoc_pair _ _ _ _ _ Hi Hi') as [[? ?]|[? _]]; [|done].
    by apply (Hadj i).
Qed.

(** The union, with the extension character when there is one, begins a
    child unless it is empty. *)
Lemma union_inv_child (cov : Z → Prop) out :
  union_inv cov out → out ≠ [] → child_inv cov out.
Proof.
  intros [Hnd Hout] Hne.
  assert (Hlt : ∀ x, x ∈ out → 0 ≤ x < D).
  { intros x Hx. destruct (Hout x Hx) as (k & Hk%from_pos_range & _). lia. }
  split; [|split; [|split]].
  - by apply NoDup_filter.
  - intros x Hx. right. split; [auto|]. right. auto.
  - destruct out as [|x out]; [done|]. exists x. split; [done|].
    assert (0 ≤ x < D) by (apply Hlt; left). lia.
  - intros i Hi%list_elem_of_lookup_2%Hlt. lia.
Qed.

Lemma union_inv_ext (cov : Z → Prop) out :
  union_inv cov out → 0 ≤ ext < D → child_inv cov (out ++ [ext]).
Proof.
  intros [Hnd Hout] Hext.
  assert (Hlt : ∀ x, x ∈ out → 0 ≤ x < D ∧ x ≠ ext).
  { intros x Hx. by destruct (Hout x Hx) as (k & Hk%from_pos_range & _). }
  assert (Hall : ∀ x, x ∈ out ++ [ext] → 0 ≤ x < D).
  { intros x [Hx%Hlt|Hx%list_elem_of_singleton]%elem_of_app; [tauto|by subst]. }
  split; [|split; [|split]].
  - apply NoDup_filter.
    apply NoDup_app. split; [done|]. split; [|apply NoDup_singleton].
    intros y Hy%Hlt Hy'%list_elem_of_singleton. tauto.
  - intros x Hx. right. split; [auto|].
    apply elem_of_app in Hx as [Hx|Hx%list_elem_of_singleton]; [|by left].
    right. auto.
  - destruct (out ++ [ext]) as [|x l] eqn:Heq; [by destruct out|].
    exists x. split; [done|]. assert (0 ≤ x < D) by (apply Hall; left). lia.
  - intros i Hi%list_elem_of_lookup_2%Hall. lia.
Qed.

Lemma opened_succ (chosen : Z → Prop) i :
  opened chosen (i + 1) → chosen i ∨ opened chosen i.
Proof.
  intros (s & Hs & Hlt & Hno). destruct (decide (s = i)) as [->|]; [by left|].
  right. exists s. split; [done|]. split; [lia|].
  intros j Hj. apply Hno. lia.
Qed.

Lemma opened_delimiter (chosen : Z → Prop) i :
  rd chars i = Some d → ¬ opened chosen (i + 1).
Proof. intros Hd (s & Hs & Hlt & Hno). apply (Hno i); [lia|done]. Qed.

(** The loop over the parent's characters: the subsets that are not
    chosen follow the union, each behind a delimiter. *)
Lemma copy_remaining_inv gp gs (chosen : Z → Prop) pc g e out0 fl
    i pc' g' e' dc' fl' :
  copy_remaining map d D pc g e true fl = Some (i, (pc', g', e', dc', fl')) →
  marked chosen 0 pc → (∀ s, chosen s → is_start s) →
  written gp gs g e out0 →
  child_inv (λ k, opened chosen (k + 1)) out0 →
  fl' = -1 ∨
  (fl' = fl ∧ ∃ out, written gp gs g' e' out ∧ child_inv (λ _, True) out).
Proof.
  unfold copy_remaining. intros Hrun Hm Hch Hw Hc.
  pose proof (proj1 Hm) as Hlen.
  eapply (c_for_sound
    (λ i '(pc, g, e, dc, f), 0 ≤ i ∧ f = fl ∧ marked chosen i pc ∧
       (dc = true → ¬ opened chosen i) ∧
       ∃ out, written gp gs g e out ∧
              child_inv (λ k, opened chosen (k + 1) ∨ k < i) out)
    (λ _ '(pc, g, e, dc, f), f = -1 ∨
       (f = fl ∧ ∃ out, written gp gs g e out ∧ child_inv (λ _, True) out)))
    in Hrun; [done| | |].
  - intros k [[[[pc1 g1] e1] dc1] f1] st
      (Hk & -> & Hm1 & Hdc & out & Hw1 & Hc1) Hlt Hbody.
    destruct (rd pc1 k) as [partchar|] eqn:Hpk; simpl in Hbody; [|done].
    destruct (rd chars k) as [c|] eqn:Hck;
      [|apply rd_range in Hpk; destruct Hm1 as [Hl1 _];
        assert (is_Some (rd chars k)) as [? ?]
          by (apply rd_in_range; lia); congruence].
    assert (Hnext : ∀ pc2, length pc2 = length pc1 →
              (∀ j, k + 1 ≤ j → rd pc2 j = rd pc1 j) →
              marked chosen (k + 1) pc2).
    { intros pc2 Hl2 Hsame. destruct Hm1 as (Hl1 & Hnn1 & Hpc1).
      split; [congruence|]. split; [done|].
      intros j cj Hj Hcj. rewrite Hsame by done. apply Hpc1; [lia|done]. }
    assert (Hcov : child_inv (λ j, opened chosen (j + 1) ∨ j < k + 1) out).
    { eapply child_inv_impl; [|exact Hc1]. simpl. intros j [?|?]; [by left|].
      right. lia. }
    destruct (Z.ltb_spec partchar 0) as [Hneg|Hpos].
    { destruct (wr pc1 k (- (partchar + 1))) as [pc2|] eqn:Hwr;
        simpl in Hbody; [|done].
      injection Hbody as <-. split; [lia|]. split; [done|]. split.
      - apply Hnext; [by rewrite (wr_length _ _ _ _ Hwr)|].
        intros j Hj. apply (rd_wr_ne _ _ _ _ _ Hwr). lia.
      - split; [done|]. eauto. }
    assert (Hnot : ¬ chosen k ∧ partchar = c).
    { destruct Hm1 as (_ & Hnn1 & Hpc1).
      destruct (Hpc1 k c) as [[Hin Hp]|[Hout Hp]]; [lia|done| |].
      - specialize (Hnn1 k c Hin Hck). rewrite Hpk in Hp.
        injection Hp as ->. lia.
      - split; [done|]. congruence. }
    destruct Hnot as [Hnot ->].
    destruct (Z.eqb_spec c d) as [Hcd|Hcd].
    { subst c. pose proof (opened_delimiter chosen k Hck) as Hclosed.
      destruct (rd pc1 (k + 1)) as [nextchar|]; simpl in Hbody; [|done].
      destruct (nextchar >=? 0).
      - destruct (rd g1 (e1 - 1)) as [lastchar|] eqn:Hlast;
          simpl in Hbody; [|done].
        destruct (Z.eqb_spec D lastchar) as [Heq|Hne].
        { injection Hbody as <-. by left. }
        destruct (wr g1 e1 D) as [g2|] eqn:Hwr; simpl in Hbody; [|done].
        injection Hbody as <-. split; [lia|]. split; [done|].
        split; [by apply Hnext|]. split; [done|].
        exists (out ++ [D]). split; [by eapply written_wr|].
        apply child_inv_snoc_delimiter; [done|].
        assert (out ≠ []).
        { destruct Hc1 as (_ & _ & (x & Hx & _) & _). by intros ->. }
        rewrite (written_last _ _ _ _ _ _ Hw1) by done. congruence.
      - injection Hbody as <-. split; [lia|]. split; [done|].
        split; [by apply Hnext|]. split; [done|]. eauto. }
    assert (Hstay : dc1 = true → ¬ opened chosen (k + 1)).
    { intros Hd [?|?]%opened_succ; [done|]. by apply Hdc. }
    destruct dc1; simpl in Hbody.
    2:{ injection Hbody as <-. split; [lia|]. split; [done|].
        split; [by apply Hnext|]. split; [done|]. eauto. }
    destruct (rd map c) as [m|] eqn:Hmc; simpl in Hbody; [|done].
    destruct (Z.eqb_spec m (-1)) as [Hm1'|Hm1']; simpl in Hbody.
    { injection Hbody as <-. split; [lia|]. split; [done|].
      split; [by apply Hnext|]. split; [done|]. eauto. }
    destruct (wr g1 e1 m) as [g2|] eqn:Hwr; simpl in Hbody; [|done].
    injection Hbody as <-. split; [lia|]. split; [done|].
    split; [by apply Hnext|]. split; [done|].
    exists (out ++ [m]). split; [by eapply written_wr|].
    assert (Hfrom : from_pos m k) by (exists c; done).
    pose proof (from_pos_range _ _ Hfrom) as [Hrange Hext].
    apply child_inv_snoc_char; [done|done| |].
    + right. exists k. split; [done|]. right. lia.
    + intros Hin. destruct Hc1 as (_ & Hout & _).
      destruct (Hout m Hin) as [?|[_ [?|(j & Hj & Hcovj)]]]; [lia|done|].
      pose proof (from_pos_inj _ _ _ Hj Hfrom). subst j.
      destruct Hcovj as [?|?]; [|lia]. by apply Hstay.
  - intros k [[[[pc1 g1] e1] dc1] f1] (Hk & -> & Hm1 & Hdc & out & Hw1 & Hc1) _.
    right. split; [done|]. exists out. split; [done|].
    by eapply child_inv_impl; [|exact Hc1].
  - split; [done|]. split; [done|]. split; [done|]. split.
    + intros _ (s & Hs & Hlt & _).
      destruct (Hch s Hs) as [_ (c & Hc' & _)]. apply rd_range in Hc'. lia.
    + exists out0. split; [done|]. eapply child_inv_impl; [|exact Hc].
      simpl. by left.
Qed.

(** A child that does not end with a delimiter is a valid partition of
    characters that are not negative. *)
Lemma child_inv_wf out x :
  child_inv (λ _, True) out → last out = Some x → x ≠ D →
  partition_wf D out ∧ Forall (λ c, 0 ≤ c) out.
Proof.
  intros (Hnd & Hout & (x0 & Hx0 & Hx0D) & Hadj) Hlast HxD.
  assert (0 < D).
  { destruct (Hout x0) as [?|[? _]]; [by eapply list_elem_of_lookup_2|done|lia]. }
  split.
  - split; [eauto|eauto|done| |].
    + intros i c Hc%list_elem_of_lookup_2%Hout. lia.
    + by apply distinct_NoDup.
  - apply Forall_forall. intros c Hc%Hout. lia.
Qed.

End ValidityClosure.

(** *** The child of the exclusive builder *)

Lemma exclusive_copy_written map chars gp gs i g e :
  exclusive_copy map chars gp gs = Some (i, (g, e)) →
  0 ≤ gs ≤ Z.of_nat (length gp) →
  written gp gs g e (remap map chars).
Proof.
  unfold exclusive_copy. intros Hrun Hgs.
  eapply (c_for_sound
    (λ i '(g, e), 0 ≤ i ∧
       written gp gs g e (remap map (take (Z.to_nat i) chars)))
    (λ _ '(g, e), written gp gs g e (remap map chars)))
    in Hrun; [done| | |].
  - intros k [g0 e0] st [Hk Hw] Hlt Hbody.
    destruct (rd chars k) as [c|] eqn:Hc; simpl in Hbody; [|done].
    destruct (proj1 (rd_Some _ _ _) Hc) as [_ Hc'].
    destruct (rd map c) as [m|] eqn:Hm; simpl in Hbody; [|done].
    assert (Hsnoc := remap_snoc map (take (Z.to_nat k) chars) c).
    rewrite <- (take_S_r _ _ _ Hc'), Hm in Hsnoc.
    replace (S (Z.to_nat k)) with (Z.to_nat (k + 1)) in Hsnoc by lia.
    destruct (Z.eqb_spec m (-1)) as [->|Hne]; simpl in Hbody.
    + injection Hbody as <-. rewrite app_nil_r in Hsnoc. rewrite Hsnoc.
      split; [lia|done].
    + destruct (wr g0 e0 m) as [g1|] eqn:Hwr; simpl in Hbody; [|done].
      injection Hbody as <-. rewrite Hsnoc. split; [lia|].
      by eapply written_wr.
  - intros k [g0 e0] [Hk Hw] Hge. by rewrite take_ge in Hw by lia.
  - split; [done|]. change (Z.to_nat 0) with 0%nat. rewrite take_0.
    by apply written_init.
Qed.

Lemma remap_range d D map ext (l : list Z) x :
  level_pre d D map ext → (∀ c, c ∈ l → c ≤ d) →
  x ∈ remap map l → x = D ∨ 0 ≤ x < D.
Proof.
  intros Hlev Hle (c & Hc & Hx)%list_elem_of_omap.
  destruct (rd map c) as [m|] eqn:Hm; simpl in Hx; [|done].
  destruct (Z.eqb_spec m (-1)) as [?|Hne]; [done|]. injection Hx as ->.
  destruct (decide (c = d)) as [->|Hcd].
  - left. rewrite (lp_delim _ _ _ _ Hlev) in Hm. congruence.
  - right. pose proof (Hle c Hc). pose proof (rd_range _ _ _ Hm).
    destruct (lp_range _ _ _ _ Hlev c x); [lia|done|done|done].
Qed.

Lemma remap_NoDup d D map ext (l : list Z) :
  level_pre d D map ext → (∀ c, c ∈ l → c ≤ d) →
  NoDup (filter (λ c, c ≠ d) l) →
  NoDup (filter (λ x, x ≠ D) (remap map l)).
Proof.
  intros Hlev. induction l as [|c l IH]; intros Hle Hnd; [constructor|].
  assert (Hl : NoDup (filter (λ x, x ≠ D) (remap map l))).
  { apply IH; [intros c' Hc'; apply Hle; by right|].
    rewrite filter_cons in Hnd. destruct (decide (c ≠ d)); [|done].
    by apply NoDup_cons in Hnd as [_ ?]. }
  change (c :: l) with ([c] ++ l). unfold remap. rewrite omap_app.
  fold (remap map l). simpl.
  destruct (rd map c) as [m|] eqn:Hm; simpl; [|done].
  destruct (Z.eqb_spec m (-1)) as [?|Hne]; simpl; [done|].
  rewrite filter_cons. destruct (decide (m ≠ D)) as [HmD|_]; [|done].
  constructor; [|done].
  intros [_ (c' & Hc' & Hx)%list_elem_of_omap]%list_elem_of_filter.
  destruct (rd map c') as [m'|] eqn:Hm'; simpl in Hx; [|done].
  destruct (Z.eqb_spec m' (-1)) as [?|_]; [done|]. injection Hx as ->.
  assert (Hd : ∀ a, a ∈ c :: l → rd map a = Some m → 0 ≤ a < d).
  { intros a Ha Hma. pose proof (Hle a Ha). pose proof (rd_range _ _ _ Hma).
    destruct (decide (a = d)) as [->|]; [|lia].
    rewrite (lp_delim _ _ _ _ Hlev) in Hma. congruence. }
  assert (0 ≤ c < d) by (apply Hd; [by left|done]).
  assert (0 ≤ c' < d) by (apply Hd; [by right|done]).
  assert (c = c') by (by apply (lp_inj _ _ _ _ Hlev c c' m)). subst c'.
  rewrite filter_cons in Hnd. destruct (decide (c ≠ d)); [|lia].
  apply NoDup_cons in Hnd as [Hnin _]. apply Hnin.
  by apply list_elem_of_filter.
Qed.

(** *** The stored child *)

(** A valid sequence of characters that are not negative, written at the
    top end and sorted there, is stored as a valid partition. *)
Lemma store_child dpb gs D g e out g' costs preds useext :
  store_inv dpb → top_end dpb = Some gs →
  written (global_partitions dpb) gs g e out →
  partition_wf D out → Forall (λ c, 0 ≤ c) out →
  partitionSortSubsets g gs D (e - gs) = Some g' →
  ∃ child,
    stored_partition
      (with_store dpb g' (StpVecPushBack (global_partstarts dpb) e)
         costs preds useext (global_npartitions dpb + 1))
      (global_npartitions dpb) = Some child ∧
    dpborder_partIsValid (mkDPBPART child D) = Some true.
Proof.
  intros Hinv Htop (Hgs & -> & -> & Hcap) Hwf Hnn Hsort.
  replace (gs + Z.of_nat (length out) - gs) with (Z.of_nat (length out))
    in Hsort by lia.
  rewrite (sort_at_top_end dpb gs D out) in Hsort;
    [|done|done|done|done| |by apply (wf_no_empty _ _ Hwf)].
  2:{ intros c Hc. destruct (wf_head _ _ Hwf) as (c' & Hc' & ?). congruence. }
  injection Hsort as <-. exists (sort_subsets D out). split.
  - unfold stored_partition, with_store, StpVecPushBack. simpl.
    destruct Hinv as [(Hlen & _) _]. unfold StpVecGetSize in Hlen.
    unfold top_end in Htop.
    assert (Hs : rd (global_partstarts dpb ++ [gs + Z.of_nat (length out)])
                   (global_npartitions dpb) = Some gs).
    { apply rd_Some in Htop as [Hn Htop]. apply rd_Some. split; [done|].
      by apply lookup_app_l_Some. }
    assert (He : rd (global_partstarts dpb ++ [gs + Z.of_nat (length out)])
                   (global_npartitions dpb + 1) =
                 Some (gs + Z.of_nat (length out))).
    { apply rd_Some. split; [lia|]. rewrite lookup_app_r by lia.
      by replace (Z.to_nat (global_npartitions dpb + 1) -
                  length (global_partstarts dpb))%nat with 0%nat by lia. }
    rewrite Hs, He. simpl. f_equal.
    rewrite <- (sort_subsets_length D out).
    apply overwrite_segment; [done|]. by rewrite sort_subsets_length.
  - apply dpborder_partIsValid_wf. simpl. by apply sort_subsets_wf.
Qed.

(** *** The child of the union builder *)

Lemma partGetIdxNew_valid FARAWAY bp starts dpb D r bp' dpb' :
  dpborder_partIsValid bp = Some true →
  Forall (λ s, s ∈ subset_starts bp) starts →
  level_pre (delimiter bp) D (bordercharmap dpb) (extborderchar dpb) →
  store_inv dpb → dpborder_getTopDelimiter dpb = Some D →
  dpborder_partGetIdxNew FARAWAY bp starts dpb = Some (r, bp', dpb') →
  0 ≤ r →
  ∃ child, stored_partition dpb' r = Some child ∧
           dpborder_partIsValid (mkDPBPART child D) = Some true.
Proof.
  intros Hv Hst Hlev Hinv HD Hrun Hr.
  apply dpborder_partIsValid_wf in Hv as Hwf.
  pose proof Hinv as (_ & gs & Htop & Hgs & _).
  set (chars := partchars bp) in *. set (d := delimiter bp) in *.
  set (map := bordercharmap dpb) in *. set (ext := extborderchar dpb) in *.
  set (gp := global_partitions dpb) in *.
  assert (Hstarts : ∀ s, s ∈ starts → is_start chars d s).
  { intros s Hs. rewrite Forall_forall in Hst.
    apply Hst, list_elem_of_fmap in Hs as ([s' run] & -> & Hin).
    apply (subsets_valid _ _ _ _ Hwf) in Hin as (_ & ? & ? & _). by split. }
  unfold dpborder_partGetIdxNew in Hrun. pose proof Htop as Htop'.
  unfold top_end in Htop'. rewrite Htop', HD in Hrun. simpl in Hrun.
  fold chars d map ext gp in Hrun.
  destruct (union_marked map d starts chars gp gs)
    as [[ii [[pc1 g1] e1]]|] eqn:Hum; simpl in Hrun; [|done].
  apply (union_marked_inv chars d map D ext Hwf Hlev gp gs) in Hum
    as (Hm & out1 & Hw1 & Hu1); [|done|apply written_init; lia].
  set (cov := λ k, opened chars d (λ x, x ∈ starts) (k + 1)) in *.
  match type of Hrun with context [if ext >=? 0 then ?a else ?b] =>
    destruct (if ext >=? 0 then a else b) as [[g2 e2]|] eqn:Hext;
      simpl in Hrun; [|done]
  end.
  assert (Hstep : ∃ out2, written gp gs g2 e2 out2 ∧ (∀ x, x ∈ out2 → x ≠ D) ∧
            (out2 ≠ [] → child_inv chars d map D ext cov out2)).
  { destruct (Z.geb_spec ext 0) as [Hge|Hlt].
    - destruct (wr g1 e1 ext) as [g|] eqn:Hwr; simpl in Hext; [|done].
      injection Hext as <- <-.
      assert (0 ≤ ext < D) by (destruct (lp_ext _ _ _ _ Hlev); lia).
      exists (out1 ++ [ext]). split; [by eapply written_wr|]. split.
      + intros x [Hx|Hx%list_elem_of_singleton]%elem_of_app; [|lia].
        destruct Hu1 as [_ Hu1]. destruct (Hu1 x Hx) as (k & Hk & _).
        apply (from_pos_range chars d map D ext Hwf Hlev) in Hk. lia.
      + intros _. by apply (union_inv_ext chars d map D ext Hwf Hlev).
    - injection Hext as <- <-. exists out1. split; [done|]. split.
      + intros x Hx.
        destruct Hu1 as [_ Hu1]. destruct (Hu1 x Hx) as (k & Hk & _).
        apply (from_pos_range chars d map D ext Hwf Hlev) in Hk. lia.
      + by apply (union_inv_child chars d map D ext Hwf Hlev). }
  destruct Hstep as (out2 & Hw2 & HnoD & Hc2).
  destruct (Z.eqb_spec e2 gs) as [_|Hne].
  { destruct (unmark_from 0 pc1); simpl in Hrun; [|done].
    injection Hrun as <- _ _. lia. }
  assert (Hout2 : out2 ≠ []).
  { intros ->. destruct Hw2 as (_ & _ & He2 & _). simpl in He2. lia. }
  specialize (Hc2 Hout2).
  destruct (rd pc1 0) as [c0|]; simpl in Hrun; [|done].
  match type of Hrun with context [if c0 >=? 0 then ?a else ?b] =>
    destruct (if c0 >=? 0 then a else b) as [[g3 e3]|] eqn:H3;
      simpl in Hrun; [|done]
  end.
  assert (Hstep3 : ∃ out3, written gp gs g3 e3 out3 ∧
            child_inv chars d map D ext cov out3).
  { destruct (c0 >=? 0).
    - destruct (wr g2 e2 D) as [g|] eqn:Hwr; simpl in H3; [|done].
      injection H3 as <- <-. exists (out2 ++ [D]).
      split; [by eapply written_wr|].
      apply child_inv_snoc_delimiter; [done|].
      intros Hl%last_Some_elem_of%HnoD. done.
    - injection H3 as <- <-. eauto. }
  destruct Hstep3 as (out3 & Hw3 & Hc3).
  destruct (copy_remaining map d D pc1 g3 e3 true gs)
    as [[i [[[[pc4 g4] e4] dc4] fl4]]|] eqn:Hcopy; simpl in Hrun; [|done].
  apply (copy_remaining_inv chars d map D ext Hwf Hlev gp gs
           (λ x, x ∈ starts) _ _ _ out3) in Hcopy; [|done..].
  destruct (rd g4 (e4 - 1)) as [lastchar|] eqn:Hlast; simpl in Hrun; [|done].
  destruct (Z.eqb_spec D lastchar) as [_|HlD].
  { simpl in Hrun. destruct (unmark_from (i + 1) pc4); simpl in Hrun; [|done].
    injection Hrun as <- _ _. lia. }
  destruct (Z.eqb_spec fl4 (-1)) as [_|Hfl].
  { destruct (unmark_from (i + 1) pc4); simpl in Hrun; [|done].
    injection Hrun as <- _ _. lia. }
  destruct Hcopy as [?|[-> (out & Hw4 & Hc4)]]; [done|].
  destruct (partitionSortSubsets g4 gs D (e4 - gs)) as [g5|] eqn:Hsort;
    simpl in Hrun; [|done].
  injection Hrun as <- _ <-.
  replace (global_npartitions dpb + 1 - 1) with (global_npartitions dpb)
    by lia.
  assert (Hne4 : out ≠ []).
  { destruct Hc4 as (_ & _ & (x & Hx & _) & _). by intros ->. }
  pose proof (written_last _ _ _ _ _ _ Hw4 Hne4 Hlast) as Hl.
  destruct (child_inv_wf chars d map D ext out lastchar Hc4 Hl) as [Hwf4 Hnn4];
    [congruence|].
  by eapply store_child.
Qed.

Lemma partGetIdxNewExclusive_valid FARAWAY bp dpb D r dpb' :
  dpborder_partIsValid bp = Some true →
  level_pre (delimiter bp) D (bordercharmap dpb) (extborderchar dpb) →
  store_inv dpb → dpborder_getTopDelimiter dpb = Some D →
  dpborder_partGetIdxNewExclusive FARAWAY bp dpb = Some (r, dpb') →
  0 ≤ r →
  ∃ child, stored_partition dpb' r = Some child ∧
           dpborder_partIsValid (mkDPBPART child D) = Some true.
Proof.
  intros Hv Hlev Hinv HD Hrun Hr.
  apply dpborder_partIsValid_wf in Hv as Hwf.
  pose proof Hinv as (_ & gs & Htop & Hgs & _).
  unfold dpborder_partGetIdxNewExclusive in Hrun. pose proof Htop as Htop'.
  unfold top_end in Htop'. rewrite Htop', HD in Hrun. simpl in Hrun.
  destruct (exclusive_copy (bordercharmap dpb) (partchars bp)
              (global_partitions dpb) gs)
    as [[i [g e]]|] eqn:Hcopy; simpl in Hrun; [|done].
  apply exclusive_copy_written in Hcopy; [|lia].
  set (out := remap (bordercharmap dpb) (partchars bp)) in *.
  destruct (Z.eqb_spec gs e) as [_|Hne]; [injection Hrun as <- _; lia|].
  destruct (rd g gs) as [first|] eqn:Hfirst; simpl in Hrun; [|done].
  destruct (Z.eqb_spec first D) as [_|HfD]; [injection Hrun as <- _; lia|].
  destruct (rd g (e - 1)) as [lastchar|] eqn:Hlast; simpl in Hrun; [|done].
  destruct (Z.eqb_spec lastchar D) as [_|HlD]; [injection Hrun as <- _; lia|].
  destruct (exclusive_check D g gs e) as [[j ret]|] eqn:Hcheck;
    simpl in Hrun; [|done].
  destruct ret as [r'|].
  { apply exclusive_check_ret in Hcheck as [?|[= ->]]; [done|].
    injection Hrun as <- _. lia. }
  destruct (partitionSortSubsets g gs D (e - gs)) as [g'|] eqn:Hsort;
    simpl in Hrun; [|done].
  injection Hrun as <- <-.
  replace (global_npartitions dpb + 1 - 1) with (global_npartitions dpb)
    by lia.
  assert (Hle : ∀ c, c ∈ partchars bp → c ≤ delimiter bp).
  { intros c [k Hk]%list_elem_of_lookup. by apply (wf_bound _ _ Hwf k). }
  assert (Hrange : ∀ x, x ∈ out → x = D ∨ 0 ≤ x < D)
    by (intros x; by eapply remap_range).
  assert (Hout : out ≠ []).
  { intros Heq. destruct Hcopy as (_ & _ & He & _). rewrite Heq in He.
    simpl in He. lia. }
  assert (Hhead : out !! 0%nat = Some first).
  { pose proof Hcopy as (? & Hg & _ & ?). rewrite Hg in Hfirst.
    rewrite <- Hfirst. replace gs with (gs + Z.of_nat 0) at 2 by lia.
    symmetry. apply overwrite_rd; [done..|].
    destruct out; [done|simpl; lia]. }
  assert (0 < D).
  { destruct (Hrange first); [by eapply list_elem_of_lookup_2|done|lia]. }
  eapply store_child; [done|done|exact Hcopy| | |exact Hsort].
  - split.
    + eauto.
    + exists lastchar. split; [by eapply written_last|done].
    + destruct Hcopy as (? & -> & -> & ?).
      destruct (exclusive_check_spec D (global_partitions dpb) gs out)
        as (j' & ret' & Hrun' & [[_ Hadj]|[-> _]]); [done..| |congruence].
      done.
    + intros k c Hc%list_elem_of_lookup_2%Hrange. lia.
    + apply distinct_NoDup.
      eapply remap_NoDup; [done..|]. apply distinct_NoDup.
      apply (wf_distinct _ _ Hwf).
  - apply Forall_forall. intros c Hc%Hrange. lia.
Qed.

(** C1 (validity closure): for a parent that [dpborder_partIsValid]
    accepts, chosen starts that are subset starts of the parent, a character
    map that sends the characters of the previous level to -1 or below the
    new delimiter, the kept ones to distinct values other than the extension
    character, and the previous delimiter to the new one, and a store as the
    data model has it, an index that [dpborder_partGetIdxNew] or
    [dpborder_partGetIdxNewExclusive] returns and that is not negative is the
    index of a stored child that [dpborder_partIsValid] accepts under the new
    delimiter. *)
Theorem validity_closure FARAWAY bp starts dpb D :
  dpborder_partIsValid bp = Some true →
  Forall (λ s, s ∈ subset_starts bp) starts →
  level_pre (delimiter bp) D (bordercharmap dpb) (extborderchar dpb) →
  store_inv dpb →
  dpborder_getTopDelimiter dpb = Some D →
  (∀ r bp' dpb',
     dpborder_partGetIdxNew FARAWAY bp starts dpb = Some (r, bp', dpb') →
     0 ≤ r →
     ∃ child, stored_partition dpb' r = Some child ∧
              dpborder_partIsValid (mkDPBPART child D) = Some true) ∧
  (∀ r dpb',
     dpborder_partGetIdxNewExclusive FARAWAY bp dpb = Some (r, dpb') →
     0 ≤ r →
     ∃ child, stored_partition dpb' r = Some child ∧
              dpborder_partIsValid (mkDPBPART child D) = Some true).
Proof.
  intros Hv Hst Hlev Hinv HD. split.
  - intros r bp' dpb' Hrun Hr. by eapply partGetIdxNew_valid.
  - intros r dpb' Hrun Hr. by eapply partGetIdxNewExclusive_valid.
Qed.

Lemma closure_level : level_pre 2 2 [0; 1; 2] (-1).
Proof.
  split.
  - intros c m Hc Hm.
    assert (c = 0 ∨ c = 1) as [-> | ->] by lia; injection Hm as <-; lia.
  - intros c c' m Hc Hc' Hm Hm' _.
    assert (c = 0 ∨ c = 1) as [-> | ->] by lia;
      assert (c' = 0 ∨ c' = 1) as [-> | ->] by lia;
      vm_compute in Hm, Hm'; congruence.
  - intros c m _ _ Hm. exact Hm.
  - reflexivity.
  - by left.
Qed.

Lemma closure_store : store_inv closure_border.
Proof.
  split; [by repeat split|]. exists 1. split; [reflexivity|].
  split; [simpl; lia|]. repeat constructor. lia.
Qed.

Lemma validity_closure_witness :
  ∃ dpb1 dpb2,
    dpborder_partGetIdxNew 100 closure_parent [0] closure_border =
      Some (0, closure_parent, dpb1) ∧
    dpborder_partGetIdxNewExclusive 100 closure_parent closure_border =
      Some (0, dpb2) ∧
    (∃ child, stored_partition dpb1 0 = Some child ∧
              dpborder_partIsValid (mkDPBPART child 2) = Some true) ∧
    (∃ child, stored_partition dpb2 0 = Some child ∧
              dpborder_partIsValid (mkDPBPART child 2) = Some true).
Proof.
  destruct (validity_closure 100 closure_parent [0] closure_border 2)
    as [Hunion Hexcl].
  - reflexivity.
  - constructor; [|constructor]. vm_compute. constructor.
  - exact closure_level.
  - exact closure_store.
  - reflexivity.
  - eexists _, _. split; [reflexivity|]. split; [reflexivity|]. split.
    + apply (Hunion 0 closure_parent); [reflexivity|lia].
    + apply (Hexcl 0); [reflexivity|lia].
Defined.

(** ** Solution reconstruction *)

Lemma mark_all_app vs ws (nodes : list bool) :
  mark_all (vs ++ ws) nodes = mark_all ws (mark_all vs nodes).
Proof. unfold mark_all. by rewrite foldl_app. Qed.

Lemma mark_all_length vs (nodes : list bool) :
  length (mark_all vs nodes) = length nodes.
Proof.
  revert nodes. induction vs as [|v vs IH]; intros nodes; [done|].
  change (mark_all (v :: vs) nodes)
    with (mark_all vs (<[Z.to_nat v := true]> nodes)).
  by rewrite IH, length_insert.
Qed.

Lemma mark_all_rd vs (nodes : list bool) v :
  Forall (λ x, 0 ≤ x < Z.of_nat (length nodes)) vs →
  rd (mark_all vs nodes) v = Some true ↔ v ∈ vs ∨ rd nodes v = Some true.
Proof.
  revert nodes. induction vs as [|x vs IH]; intros nodes Hvs.
  - simpl. split; [by right|]. by intros [?%elem_of_nil|?].
  - apply Forall_cons in Hvs as [Hx Hvs].
    change (mark_all (x :: vs) nodes)
      with (mark_all vs (<[Z.to_nat x := true]> nodes)).
    rewrite IH by (by rewrite length_insert).
    pose proof (wr_in_range nodes x true Hx) as Hwr.
    rewrite elem_of_cons. destruct (decide (v = x)) as [->|Hne].
    + rewrite <- (rd_wr_eq _ _ _ _ Hwr). tauto.
    + rewrite <- (rd_wr_ne _ _ _ _ _ Hwr) by done. tauto.
Qed.

Lemma mark_all_rd_beyond vs (nodes : list bool) n v :
  Forall (λ x, 0 ≤ x < n) vs → n ≤ v →
  rd (mark_all vs nodes) v = rd nodes v.
Proof.
  revert nodes. induction vs as [|x vs IH]; intros nodes Hvs Hv; [done|].
  apply Forall_cons in Hvs as [Hx Hvs].
  change (mark_all (x :: vs) nodes)
    with (mark_all vs (<[Z.to_nat x := true]> nodes)).
  rewrite IH by done. unfold rd. destruct (Z.leb_spec 0 v); [|done].
  apply list_lookup_insert_ne. lia.
Qed.

Lemma segment_snoc (gp : list Z) s i c :
  0 ≤ s ≤ i → rd gp i = Some c →
  segment gp s (i + 1) = segment gp s i ++ [c].
Proof.
  intros Hs [_ Hc]%rd_Some. unfold segment.
  replace (Z.to_nat (i + 1 - s)) with (S (Z.to_nat (i - s))) by lia.
  apply take_S_r. rewrite lookup_drop. rewrite <- Hc. f_equal. lia.
Qed.

Lemma partition_nodes_snoc lvl chars c :
  partition_nodes lvl (chars ++ [c]) =
  partition_nodes lvl chars ++
  (if c =? nbordernodes lvl then []
   else match rd (bordernodesMapToOrg lvl) c with
        | Some node => [node]
        | None => []
        end).
Proof.
  unfold partition_nodes. rewrite omap_app. f_equal. simpl.
  destruct (c =? nbordernodes lvl); [done|].
  by destruct (rd (bordernodesMapToOrg lvl) c).
Qed.

Lemma level_nodes_rd dpb lvl c :
  level_nodes dpb lvl → 0 ≤ c < nbordernodes lvl →
  ∃ node, rd (bordernodesMapToOrg lvl) c = Some node ∧ 0 ≤ node < nnodes dpb.
Proof.
  intros (Hlen & Hall & _) Hc.
  destruct (rd_in_range (bordernodesMapToOrg lvl) c) as [node Hnode]; [lia|].
  exists node. split; [done|]. apply rd_Some in Hnode as [_ Hnode].
  rewrite Forall_forall in Hall. apply Hall. by eapply list_elem_of_lookup_2.
Qed.

Lemma partition_nodes_range dpb lvl chars :
  level_nodes dpb lvl →
  Forall (λ v, 0 ≤ v < nnodes dpb) (partition_nodes lvl chars).
Proof.
  intros (_ & Hall & _). apply Forall_forall.
  intros v (c & _ & Hv)%list_elem_of_omap.
  destruct (c =? nbordernodes lvl); [done|].
  apply rd_Some in Hv as [_ Hv]. rewrite Forall_forall in Hall.
  apply Hall. by eapply list_elem_of_lookup_2.
Qed.

Lemma chain_marks_range dpb n pos marks :
  chain dpb n pos marks → Forall (λ v, 0 ≤ v < nnodes dpb) marks.
Proof.
  induction 1 as [|n pos pred lvl s e u marks _ _ _ _ _ _ _ Hlvl _ _ IH];
    [constructor|].
  apply Forall_app. split.
  - destruct u; [|constructor]. apply Forall_singleton. apply Hlvl.
  - apply Forall_app. split; [by eapply partition_nodes_range|done].
Qed.

(** The first walk counts the hops. *)
Lemma count_levels_chain dpb n pos marks fuel k :
  chain dpb n pos marks → (n ≤ fuel)%nat →
  count_levels fuel (global_predparts dpb) pos k = Some (k + Z.of_nat n).
Proof.
  intros Hchain. revert fuel k.
  induction Hchain as [|n pos pred lvl s e u marks Hpos Hpred _ _ _ _ _ _ _ _ IH];
    intros fuel k Hfuel.
  - destruct fuel; simpl; f_equal; lia.
  - destruct fuel as [|fuel]; [lia|]. simpl.
    destruct (Z.eqb_spec pos 0) as [?|_]; [done|].
    rewrite Hpred. simpl. rewrite IH by lia. f_equal. lia.
Qed.

(** The loop over the characters of a partition. *)
Lemma mark_chars dpb lvl s e (nodes : list bool) :
  0 ≤ s ≤ e → level_nodes dpb lvl →
  (∀ i, s ≤ i < e → ∃ c, rd (global_partitions dpb) i = Some c ∧
                          0 ≤ c ≤ nbordernodes lvl) →
  nnodes dpb ≤ Z.of_nat (length nodes) →
  ∃ i, c_for s e (λ i nodes_isSol,
         borderchar ← rd (global_partitions dpb) i;
         if negb (borderchar =? nbordernodes lvl) then
           node ← rd (bordernodesMapToOrg lvl) borderchar;
           nodes_isSol ← wr nodes_isSol node true;
           Some (Next i nodes_isSol)
         else Some (Next i nodes_isSol)) nodes =
       Some (i, mark_all (partition_nodes lvl
                            (segment (global_partitions dpb) s e)) nodes).
Proof.
  intros Hs Hlvl Hchars Hlen.
  match goal with |- context [c_for ?lo ?hi ?body ?st0] =>
    destruct (c_for_total
      (λ i st, s ≤ i ≤ e ∧
         st = mark_all (partition_nodes lvl
                          (segment (global_partitions dpb) s i)) nodes)
      (λ _ st,
         st = mark_all (partition_nodes lvl
                          (segment (global_partitions dpb) s e)) nodes)
      lo hi body st0) as (i & st & -> & ->); [| | |by eauto]
  end.
  - intros i st [Hi ->] Hlt.
    destruct (Hchars i) as (c & Hc & Hrange); [lia|]. rewrite Hc. simpl.
    pose proof (segment_snoc _ s i c ltac:(lia) Hc) as Hseg.
    pose proof (partition_nodes_snoc lvl
                  (segment (global_partitions dpb) s i) c) as Hsnoc.
    rewrite <- Hseg in Hsnoc.
    destruct (Z.eqb_spec c (nbordernodes lvl)) as [Heq|Hne]; simpl.
    + eexists. split; [done|]. simpl. rewrite Hsnoc, app_nil_r.
      split; [lia|]. split; [lia|done].
    + destruct (level_nodes_rd dpb lvl c Hlvl) as (node & Hnode & Hrange');
        [lia|].
      rewrite Hnode in Hsnoc |- *. simpl.
      rewrite wr_in_range by (rewrite mark_all_length; lia). simpl.
      eexists. split; [done|]. simpl. rewrite Hsnoc, mark_all_app.
      split; [lia|]. split; [lia|done].
  - intros i st [Hi ->] Hge. by replace i with e by lia.
  - split; [lia|]. unfold segment.
    by replace (Z.to_nat (s - s)) with 0%nat by lia.
Qed.

(** The second walk marks the vertices of the visited partitions. *)
Lemma mark_levels_chain dpb n pos marks fuel (nodes : list bool) :
  chain dpb n pos marks → (n ≤ fuel)%nat →
  nnodes dpb ≤ Z.of_nat (length nodes) →
  mark_levels fuel dpb pos (Z.of_nat n) nodes = Some (mark_all marks nodes).
Proof.
  intros Hchain. revert fuel nodes.
  induction Hchain
    as [|n pos pred lvl s e u marks Hpos Hpred Hs He Hse Hlvl Hu Hok Hchars _ IH];
    intros fuel nodes Hfuel Hlen.
  - by destruct fuel.
  - destruct fuel as [|fuel]; [lia|]. cbn [mark_levels].
    destruct (Z.eqb_spec pos 0) as [?|_]; [done|].
    unfold dpborder_getDelimiter. rewrite He, Hlvl, Hu, Hs. simpl.
    set (nodes1 := mark_all (if u then [extnode lvl] else []) nodes).
    assert (Hext : (if u then wr nodes (extnode lvl) true else Some nodes) =
                   Some nodes1).
    { unfold nodes1. destruct u; [|done]. apply wr_in_range.
      destruct Hok as (_ & _ & ?). lia. }
    rewrite Hext. simpl.
    destruct (Z.ltb_spec e s) as [?|_]; [lia|].
    destruct (mark_chars dpb lvl s e nodes1) as [i Hloop]; [done..| |].
    { unfold nodes1. rewrite mark_all_length. done. }
    rewrite Hloop. simpl. rewrite Hpred. simpl.
    replace (Z.of_nat (S n) - 1) with (Z.of_nat n) by lia.
    rewrite IH; [|lia|by unfold nodes1; rewrite !mark_all_length].
    by rewrite !mark_all_app.
Qed.

Lemma clear_rd_below (nodes : list bool) n v :
  0 ≤ v < n → rd (replicate (Z.to_nat n) false ++ drop (Z.to_nat n) nodes) v =
              Some false.
Proof.
  intros Hv. apply rd_Some. split; [lia|].
  rewrite lookup_app_l by (rewrite length_replicate; lia).
  apply lookup_replicate_2. lia.
Qed.

Lemma clear_rd_beyond (nodes : list bool) n v :
  0 ≤ n ≤ v → rd (replicate (Z.to_nat n) false ++ drop (Z.to_nat n) nodes) v =
              rd nodes v.
Proof.
  intros Hv. unfold rd. destruct (Z.leb_spec 0 v); [|lia].
  rewrite lookup_app_r by (rewrite length_replicate; lia).
  rewrite length_replicate, lookup_drop. f_equal. lia.
Qed.

(** C8 (solution reconstruction): when the predecessors lead from
    [global_optposition] to index 0 in [n] hops, the characters of every
    visited partition lie between 0 and the delimiter of its level, and the
    border nodes and extension nodes are vertices below [nnodes],
    [dpborder_markSolNodes] has a result for every bound of at least [n]
    hops, leaves the length of the array and its entries from [nnodes] on
    as they were, and sets, below [nnodes], exactly the entries of
    [extnode] of level 0 and of the vertices of the visited partitions: the
    extension node of the level where [partsUseExt] holds and the border
    node of every character that is not the delimiter. *)
Theorem solution_reconstruction dpb n marks lvl0 (nodes : list bool) fuel :
  chain dpb n (global_optposition dpb) marks →
  rd (borderlevels dpb) 0 = Some lvl0 →
  0 ≤ extnode lvl0 < nnodes dpb →
  nnodes dpb ≤ Z.of_nat (length nodes) →
  (n ≤ fuel)%nat →
  ∃ out, dpborder_markSolNodes fuel dpb nodes = Some out ∧
         length out = length nodes ∧
         (∀ v, nnodes dpb ≤ v → rd out v = rd nodes v) ∧
         (∀ v, 0 ≤ v < nnodes dpb →
            (rd out v = Some true ↔ v = extnode lvl0 ∨ v ∈ marks)) ∧
         rd out (extnode lvl0) = Some true.
Proof.
  intros Hchain Hlvl0 Hext Hlen Hfuel.
  set (cleared := replicate (Z.to_nat (nnodes dpb)) false ++
                  drop (Z.to_nat (nnodes dpb)) nodes).
  assert (Hclen : length cleared = length nodes).
  { unfold cleared. rewrite length_app, length_replicate, length_drop. lia. }
  assert (Hrange : Forall (λ v, 0 ≤ v < nnodes dpb) (marks ++ [extnode lvl0])).
  { apply Forall_app. split; [by eapply chain_marks_range|].
    by apply Forall_singleton. }
  assert (Hrange' : Forall (λ v, 0 ≤ v < Z.of_nat (length cleared))
                      (marks ++ [extnode lvl0])).
  { eapply Forall_impl; [exact Hrange|]. simpl. intros v Hv. lia. }
  exists (mark_all (marks ++ [extnode lvl0]) cleared). split.
  - unfold dpborder_markSolNodes, BMSclearMemoryArray.
    destruct (Z.leb_spec 0 (nnodes dpb)); [|lia].
    destruct (Z.leb_spec (nnodes dpb) (Z.of_nat (length nodes))); [|lia].
    simpl. fold cleared.
    rewrite (count_levels_chain dpb n _ marks fuel 0 Hchain Hfuel). simpl.
    rewrite Z.add_0_l.
    rewrite (mark_levels_chain dpb n _ marks fuel cleared Hchain Hfuel)
      by lia.
    simpl. rewrite Hlvl0. simpl. rewrite mark_all_app.
    apply wr_in_range. rewrite mark_all_length. lia.
  - split; [by rewrite mark_all_length|]. split; [|split].
    + intros v Hv. rewrite (mark_all_rd_beyond _ _ (nnodes dpb)) by done.
      apply clear_rd_beyond. lia.
    + intros v Hv. rewrite mark_all_rd by done.
      unfold cleared. rewrite clear_rd_below by done.
      rewrite elem_of_app, list_elem_of_singleton.
      split; [intros [[?|?]|?]; [by right|by left|done]|].
      intros [?|?]; left; [by right|by left].
    + apply mark_all_rd; [done|]. left.
      rewrite elem_of_app, list_elem_of_singleton. by right.
Qed.

Lemma solution_reconstruction_witness :
  ∃ out, dpborder_markSolNodes 1 reconstruction_border (replicate 10 true) =
           Some out ∧
         length out = 10%nat ∧
         (rd out 4 = Some true ↔ 4 = 7 ∨ 4 ∈ [9; 4]) ∧
         rd out 7 = Some true.
Proof.
  assert (Hchain : chain reconstruction_border 1 1 [9; 4]).
  { apply (chain_hop reconstruction_border 0 1 0 (mkDPBLEVEL [4] 9 1) 2 3
             true []); try reflexivity; try lia.
    - split; [reflexivity|]. split; [repeat constructor; simpl; lia|simpl; lia].
    - intros i Hi. assert (i = 2) as -> by lia. exists 0.
      split; [reflexivity|simpl; lia].
    - constructor. }
  destruct (solution_reconstruction reconstruction_border 1 [9; 4]
              (mkDPBLEVEL [] 7 0) (replicate 10 true) 1 Hchain)
    as (out & Hrun & Hlen & _ & Hmarks & Hroot);
    [reflexivity|simpl; lia|simpl; lia|lia|].
  exists out. split; [exact Hrun|]. split; [exact Hlen|].
  split; [apply Hmarks; simpl; lia|exact Hroot].
Defined.

(** ** The rules of the validity check *)

Lemma adjacent_dec d (l : list Z) :
  (∃ i : nat, l !! i = Some d ∧ l !! S i = Some d) ∨
  (∀ i : nat, l !! i = Some d → l !! S i ≠ Some d).
Proof.
  induction l as [|a l IH]; [by right|].
  destruct IH as [(i & Hi & Hi')|IH]; [left; by exists (S i)|].
  destruct (decide (a = d ∧ head l = Some d)) as [[-> Hhd]|Hno].
  - left. exists 0%nat. split; [done|]. by destruct l.
  - right. intros [|i]; simpl; [|by apply IH].
    intros [= ->] Hl. apply Hno. split; [done|]. by destruct l.
Qed.

Lemma rule_broken_wf bp :
  partchars bp ≠ [] →
  ¬ rule_broken bp ↔ partition_wf (delimiter bp) (partchars bp).
Proof.
  destruct bp as [l d]. unfold rule_broken. simpl. intros Hne. split.
  - intros Hok. split.
    + destruct l as [|c l]; [done|]. exists c. split; [done|].
      intros ->. apply Hok. by left.
    + destruct (last l) as [c|] eqn:Hl;
        [|by apply last_None in Hl].
      exists c. split; [done|]. intros ->. apply Hok. right. by left.
    + intros i Hi Hi'. apply Hok. do 2 right. left. eauto.
    + intros i c Hc. destruct (Z.le_gt_cases c d) as [?|Hgt]; [done|].
      destruct Hok. do 3 right. left. apply Exists_exists. exists c.
      split; [by eapply list_elem_of_lookup_2|lia].
    + apply distinct_NoDup. destruct (decide (NoDup (filter (λ c, c ≠ d) l)));
        [done|]. destruct Hok. by do 4 right.
  - intros [(c0 & Hc0 & Hc0d) (cl & Hcl & Hcld) Hadj Hle Hdis]
      [Hh|[Hl|[(i & Hi & Hi')|[Hgt|Hdup]]]].
    + rewrite head_lookup in Hh. congruence.
    + congruence.
    + by apply (Hadj i).
    + apply Exists_exists in Hgt as (c & [i Hi]%list_elem_of_lookup & Hc).
      specialize (Hle i c Hi). lia.
    + by apply Hdup, distinct_NoDup.
Qed.

Lemma rule_broken_dec bp : rule_broken bp ∨ ¬ rule_broken bp.
Proof.
  destruct bp as [l d]. unfold rule_broken. simpl.
  destruct (decide (head l = Some d)); [by left; left|].
  destruct (decide (last l = Some d)); [by left; right; left|].
  destruct (adjacent_dec d l) as [?|Hadj]; [by left; do 2 right; left|].
  destruct (decide (Exists (λ c, d < c) l)); [by left; do 3 right; left|].
  destruct (decide (NoDup (filter (λ c, c ≠ d) l))) as [Hnd|?];
    [|by left; do 4 right].
  right. intros [?|[?|[(i & Hi & Hi')|[?|?]]]]; try done.
  by apply (Hadj i).
Qed.

(** C10 (no sign check): on a partition of at least one character
    [dpborder_partIsValid] returns FALSE exactly when the partition begins
    or ends with the delimiter, holds two delimiters in a row, holds a
    character above the delimiter, or holds a character other than the
    delimiter twice; so it returns TRUE on the single negative character -2
    with delimiter 3. *)
Theorem validity_ignores_sign :
  (∀ bp, partchars bp ≠ [] →
     ∃ b, dpborder_partIsValid bp = Some b ∧ (b = false ↔ rule_broken bp)) ∧
  partsize (mkDPBPART [-2] 3) = 1 ∧
  dpborder_partIsValid (mkDPBPART [-2] 3) = Some true.
Proof.
  split; [|by split]. intros bp Hne.
  destruct (dpborder_partIsValid_total bp Hne) as [b Hb]. exists b.
  split; [done|]. pose proof (dpborder_partIsValid_wf bp) as Hwf.
  pose proof (rule_broken_wf bp Hne) as Hrule. rewrite Hb in Hwf.
  destruct b.
  - split; [done|]. intros Hbroken. destruct (proj2 Hrule); [|done].
    by apply Hwf.
  - split; [|done]. intros _. destruct (rule_broken_dec bp) as [?|Hok]; [done|].
    apply Hrule, Hwf in Hok. done.
Qed.

Lemma validity_ignores_sign_witness :
  ∃ b, dpborder_partIsValid (mkDPBPART [1; 3; 3; 0] 3) = Some b ∧
       (b = false ↔ rule_broken (mkDPBPART [1; 3; 3; 0] 3)).
Proof.
  apply (proj1 validity_ignores_sign (mkDPBPART [1; 3; 3; 0] 3)).
  simpl. discriminate.
Defined.

(** * Further properties of the code *)

(** ** The number of subsets *)

Lemma cons_head_length c (subs : list (Z * list Z)) :
  length (cons_head c subs) = length subs.
Proof. by destruct subs as [|[s run] rest]. Qed.

Lemma subsets_from_length d (l : list Z) : ∀ s p,
  length (subsets_from d s p l) = S (length (filter (λ c, c = d) l)).
Proof.
  induction l as [|c l IH]; intros s p; [done|].
  rewrite subsets_from_cons, filter_cons.
  destruct (Z.eqb_spec c d) as [->|Hne].
  - destruct (decide (d = d)); [|done]. simpl. by rewrite IH.
  - destruct (decide (c = d)); [done|]. by rewrite cons_head_length, IH.
Qed.

Lemma cons_head_sizes c (subs : list (Z * list Z)) :
  subs ≠ [] →
  sum_list (length <$> (cons_head c subs).*2) =
  S (sum_list (length <$> subs.*2)).
Proof. by destruct subs as [|[s run] rest]. Qed.

(** The characters of the subsets and the delimiters between them make up
    the partition. *)
Lemma subsets_from_sizes d (l : list Z) : ∀ s p,
  (sum_list (length <$> (subsets_from d s p l).*2) +
   length (subsets_from d s p l) = S (length l))%nat.
Proof.
  induction l as [|c l IH]; intros s p; [done|].
  rewrite subsets_from_cons.
  destruct (Z.eqb_spec c d) as [->|Hne].
  - rewrite !fmap_cons. simpl. specialize (IH (p + 1) (p + 1)). lia.
  - rewrite cons_head_length, cons_head_sizes.
    + specialize (IH s (p + 1)). simpl. lia.
    + destruct (subsets_from_head d s (p + 1) l) as (run & rest & ->). done.
Qed.

Lemma sum_list_lower (ns : list nat) :
  Forall (λ n, 1 ≤ n)%nat ns → (length ns ≤ sum_list ns)%nat.
Proof. induction 1; simpl; lia. Qed.

(** The loop of [dpborder_partglobalGetCard] counts the delimiters. *)
Lemma card_loop (gp : list Z) d s e :
  0 ≤ s ≤ e → e ≤ Z.of_nat (length gp) →
  ∃ i, c_for s e (λ i card,
         c ← rd gp i;
         if c =? d then Some (Next i (card + 1))
         else Some (Next i card)) 1 =
       Some (i, 1 + Z.of_nat (length (filter (λ c, c = d) (segment gp s e)))).
Proof.
  intros Hs He.
  match goal with |- context [c_for ?lo ?hi ?body ?st0] =>
    destruct (c_for_total
      (λ i card, s ≤ i ≤ e ∧
         card = 1 + Z.of_nat (length (filter (λ c, c = d) (segment gp s i))))
      (λ _ card,
         card = 1 + Z.of_nat (length (filter (λ c, c = d) (segment gp s e))))
      lo hi body st0) as (i & st & -> & ->); [| | |by eauto]
  end.
  - intros i card [Hi ->] Hlt.
    destruct (rd_in_range gp i) as [c Hc]; [lia|]. rewrite Hc. simpl.
    pose proof (segment_snoc gp s i c ltac:(lia) Hc) as Hseg.
    destruct (Z.eqb_spec c d) as [Hcd|Hcd]; eexists; (split; [done|]);
      simpl; (split; [lia|]); (split; [lia|]);
      rewrite Hseg, filter_app, length_app, filter_cons, filter_nil;
      destruct (decide (c = d)); try done; simpl; lia.
  - intros i card [Hi ->] Hge. by replace i with e by lia.
  - split; [lia|]. unfold segment.
    by replace (Z.to_nat (s - s)) with 0%nat by lia.
Qed.

Lemma segment_length (gp : list Z) s e :
  0 ≤ s ≤ e → e ≤ Z.of_nat (length gp) →
  Z.of_nat (length (segment gp s e)) = e - s.
Proof.
  intros Hs He. unfold segment. rewrite length_take, length_drop. lia.
Qed.

Lemma partglobalGetCard_run idx d dpb s e :
  rd (global_partstarts dpb) idx = Some s →
  rd (global_partstarts dpb) (idx + 1) = Some e →
  0 ≤ s ≤ e → e ≤ Z.of_nat (length (global_partitions dpb)) →
  dpborder_partglobalGetCard idx d dpb =
  Some (Z.of_nat (length (subsets d (segment (global_partitions dpb) s e)))).
Proof.
  intros Hs He Hse Hlen.
  unfold dpborder_partglobalGetCard. rewrite Hs, He. simpl.
  destruct (Z.ltb_spec e s) as [?|_]; [lia|].
  destruct (card_loop (global_partitions dpb) d s e) as [i ->]; [done..|].
  simpl. f_equal. unfold subsets. rewrite subsets_from_length. lia.
Qed.

(** X1.  The cardinality of a stored partition is the number of its subsets: of
    the runs that the delimiter separates, empty ones included. *)
Theorem card_counts_subsets idx d dpb s e :
  rd (global_partstarts dpb) idx = Some s →
  rd (global_partstarts dpb) (idx + 1) = Some e →
  0 ≤ s ≤ e → e ≤ Z.of_nat (length (global_partitions dpb)) →
  ∃ chars, stored_partition dpb idx = Some chars ∧
           dpborder_partglobalGetCard idx d dpb =
             Some (Z.of_nat (length (subsets d chars))).
Proof.
  intros Hs He Hse Hlen. exists (segment (global_partitions dpb) s e).
  split; [|by apply partglobalGetCard_run].
  unfold stored_partition. by rewrite Hs, He.
Qed.

Lemma card_counts_subsets_witness :
  ∃ chars, stored_partition card_border 0 = Some chars ∧
           dpborder_partglobalGetCard 0 2 card_border =
             Some (Z.of_nat (length (subsets 2 chars))).
Proof.
  apply (card_counts_subsets 0 2 card_border 1 4);
    [reflexivity|reflexivity|lia|simpl; lia].
Defined.

(** X2.  A valid stored partition of [n] characters has at least one subset and
    at most [(n + 1) / 2]: every subset holds a character, and a delimiter
    stands between two subsets. *)
Theorem card_of_valid idx d dpb s e :
  rd (global_partstarts dpb) idx = Some s →
  rd (global_partstarts dpb) (idx + 1) = Some e →
  0 ≤ s ≤ e → e ≤ Z.of_nat (length (global_partitions dpb)) →
  dpborder_partIsValid
    (mkDPBPART (segment (global_partitions dpb) s e) d) = Some true →
  ∃ card, dpborder_partglobalGetCard idx d dpb = Some card ∧
          1 ≤ card ∧ 2 * card - 1 ≤ e - s.
Proof.
  intros Hs He Hse Hlen Hvalid%dpborder_partIsValid_wf. simpl in Hvalid.
  rewrite (partglobalGetCard_run idx d dpb s e) by done.
  eexists. split; [done|].
  set (l := segment (global_partitions dpb) s e) in *.
  pose proof (subsets_from_sizes d l 0 0) as Hsizes. fold (subsets d l) in Hsizes.
  assert (Hruns : Forall (λ n, 1 ≤ n)%nat (length <$> (subsets d l).*2)).
  { apply Forall_forall. intros n (run & -> & Hrun)%list_elem_of_fmap.
    apply list_elem_of_fmap in Hrun as ([s' run'] & -> & Hin). simpl.
    apply (subsets_valid _ _ _ _ Hvalid) in Hin as (_ & _ & _ & _ & Hne).
    destruct run'; [done|simpl; lia]. }
  apply sum_list_lower in Hruns. rewrite !length_fmap in Hruns.
  pose proof (segment_length (global_partitions dpb) s e Hse Hlen) as Hl.
  fold l in Hl.
  destruct (subsets d l) eqn:Hsub; [|simpl in *; lia].
  unfold subsets in Hsub.
  destruct (subsets_from_head d 0 0 l) as (run & rest & Heq). congruence.
Qed.

Lemma card_of_valid_witness :
  ∃ card, dpborder_partglobalGetCard 0 2 card_border = Some card ∧
          1 ≤ card ∧ 2 * card - 1 ≤ 4 - 1.
Proof.
  apply (card_of_valid 0 2 card_border 1 4);
    [reflexivity|reflexivity|lia|simpl; lia|reflexivity].
Defined.

(** ** The size of a valid partition *)

Lemma filter_split_length (l : list Z) d :
  length l =
  (length (filter (λ c, c ≠ d) l) + length (filter (λ c, c = d) l))%nat.
Proof.
  induction l as [|c l IH]; [done|]. rewrite !filter_cons.
  destruct (decide (c ≠ d)), (decide (c = d)); simpl; lia.
Qed.

Lemma NoDup_range_length (l : list Z) d :
  0 ≤ d → NoDup l → (∀ c, c ∈ l → 0 ≤ c < d) → Z.of_nat (length l) ≤ d.
Proof.
  intros Hd Hnd Hrange.
  assert (Hsub : l ⊆+ seqZ 0 d).
  { apply NoDup_submseteq; [done|]. intros c Hc%Hrange.
    apply elem_of_seqZ. lia. }
  apply submseteq_length in Hsub. rewrite length_seqZ in Hsub. lia.
Qed.

(** X3.  A valid partition of border characters of a level with delimiter [d]
    has at most [2 * d - 1] entries: at most [d] characters, and fewer
    delimiters than characters. *)
Theorem valid_size_bound bp :
  partition_inv bp →
  1 ≤ delimiter bp ∧ 1 ≤ partsize bp ≤ 2 * delimiter bp - 1.
Proof.
  intros [Hvalid%dpborder_partIsValid_wf Hpos]. destruct bp as [l d].
  unfold partsize. simpl in *. rewrite Forall_forall in Hpos.
  assert (Hchars : Z.of_nat (length (filter (λ c, c ≠ d) l)) ≤ d ∧ 1 ≤ d).
  { destruct (wf_head _ _ Hvalid) as (c0 & Hc0 & Hc0d).
    pose proof (wf_bound _ _ Hvalid _ _ Hc0).
    pose proof (Hpos c0 ltac:(by eapply list_elem_of_lookup_2)).
    split; [|lia]. apply NoDup_range_length; [lia| |].
    - apply distinct_NoDup, (wf_distinct _ _ Hvalid).
    - intros c [Hcd Hc]%list_elem_of_filter. specialize (Hpos c Hc).
      apply list_elem_of_lookup in Hc as [k Hk].
      pose proof (wf_bound _ _ Hvalid _ _ Hk). lia. }
  pose proof (subsets_from_sizes d l 0 0) as Hsizes.
  pose proof (subsets_from_length d l 0 0) as Hcount.
  fold (subsets d l) in Hsizes, Hcount.
  assert (Hruns : Forall (λ n, 1 ≤ n)%nat (length <$> (subsets d l).*2)).
  { apply Forall_forall. intros n (run & -> & Hrun)%list_elem_of_fmap.
    apply list_elem_of_fmap in Hrun as ([s' run'] & -> & Hin). simpl.
    apply (subsets_valid _ _ _ _ Hvalid) in Hin as (_ & _ & _ & _ & Hne).
    destruct run'; [done|simpl; lia]. }
  apply sum_list_lower in Hruns. rewrite !length_fmap in Hruns.
  pose proof (filter_split_length l d). lia.
Qed.

Lemma valid_size_bound_witness :
  1 ≤ 2 ∧ 1 ≤ partsize closure_parent ≤ 2 * 2 - 1.
Proof.
  apply (valid_size_bound closure_parent).
  split; [reflexivity|repeat constructor; lia].
Defined.

(** ** The border after a successful call *)

(** A valid sequence written at the top end is sorted in place. *)
Lemma sort_written dpb gs D g e out g' :
  store_inv dpb → top_end dpb = Some gs →
  written (global_partitions dpb) gs g e out →
  partition_wf D out → Forall (λ c, 0 ≤ c) out →
  partitionSortSubsets g gs D (e - gs) = Some g' →
  g' = overwrite (global_partitions dpb) gs (sort_subsets D out) ∧
  e = gs + Z.of_nat (length out) ∧
  gs + Z.of_nat (length out) ≤ Z.of_nat (length (global_partitions dpb)).
Proof.
  intros Hinv Htop (Hgs & -> & -> & Hcap) Hwf Hnn Hsort.
  replace (gs + Z.of_nat (length out) - gs) with (Z.of_nat (length out))
    in Hsort by lia.
  rewrite (sort_at_top_end dpb gs D out) in Hsort;
    [|done|done|done|done| |by apply (wf_no_empty _ _ Hwf)].
  2:{ intros c Hc. destruct (wf_head _ _ Hwf) as (c' & Hc' & ?). congruence. }
  by injection Hsort as <-.
Qed.

(** The border that a successful call of the exclusive builder leaves. *)
Lemma partGetIdxNewExclusive_child FARAWAY bp dpb D gs r dpb' :
  dpborder_partIsValid bp = Some true →
  level_pre (delimiter bp) D (bordercharmap dpb) (extborderchar dpb) →
  store_inv dpb → top_end dpb = Some gs →
  dpborder_getTopDelimiter dpb = Some D →
  dpborder_partGetIdxNewExclusive FARAWAY bp dpb = Some (r, dpb') →
  0 ≤ r →
  partition_wf D (remap (bordercharmap dpb) (partchars bp)) ∧
  Forall (λ c, 0 ≤ c) (remap (bordercharmap dpb) (partchars bp)) ∧
  gs + Z.of_nat (length (remap (bordercharmap dpb) (partchars bp))) ≤
    Z.of_nat (length (global_partitions dpb)) ∧
  r = global_npartitions dpb ∧
  dpb' = with_store dpb
           (overwrite (global_partitions dpb) gs
              (sort_subsets D (remap (bordercharmap dpb) (partchars bp))))
           (global_partstarts dpb ++
              [gs + Z.of_nat (length (remap (bordercharmap dpb) (partchars bp)))])
           (global_partcosts dpb ++ [FARAWAY])
           (global_predparts dpb ++ [-1])
           (global_partsUseExt dpb ++ [false])
           (global_npartitions dpb + 1).
Proof.
  intros Hv Hlev Hinv Htop HD Hrun Hr.
  apply dpborder_partIsValid_wf in Hv as Hwf.
  pose proof Hinv as (_ & gs' & Htop0 & Hgs & _).
  rewrite Htop in Htop0. injection Htop0 as <-.
  unfold dpborder_partGetIdxNewExclusive in Hrun. pose proof Htop as Htop'.
  unfold top_end in Htop'. rewrite Htop', HD in Hrun. simpl in Hrun.
  destruct (exclusive_copy (bordercharmap dpb) (partchars bp)
              (global_partitions dpb) gs)
    as [[i [g e]]|] eqn:Hcopy; simpl in Hrun; [|done].
  apply exclusive_copy_written in Hcopy; [|lia].
  set (out := remap (bordercharmap dpb) (partchars bp)) in *.
  destruct (Z.eqb_spec gs e) as [_|Hne]; [injection Hrun as <- _; lia|].
  destruct (rd g gs) as [first|] eqn:Hfirst; simpl in Hrun; [|done].
  destruct (Z.eqb_spec first D) as [_|HfD]; [injection Hrun as <- _; lia|].
  destruct (rd g (e - 1)) as [lastchar|] eqn:Hlast; simpl in Hrun; [|done].
  destruct (Z.eqb_spec lastchar D) as [_|HlD]; [injection Hrun as <- _; lia|].
  destruct (exclusive_check D g gs e) as [[j ret]|] eqn:Hcheck;
    simpl in Hrun; [|done].
  destruct ret as [r'|].
  { apply exclusive_check_ret in Hcheck as [?|[= ->]]; [done|].
    injection Hrun as <- _. lia. }
  destruct (partitionSortSubsets g gs D (e - gs)) as [g'|] eqn:Hsort;
    simpl in Hrun; [|done].
  injection Hrun as <- <-.
  assert (Hle : ∀ c, c ∈ partchars bp → c ≤ delimiter bp).
  { intros c [k Hk]%list_elem_of_lookup. by apply (wf_bound _ _ Hwf k). }
  assert (Hrange : ∀ x, x ∈ out → x = D ∨ 0 ≤ x < D)
    by (intros x; by eapply remap_range).
  assert (Hout : out ≠ []).
  { intros Heq. destruct Hcopy as (_ & _ & He & _). rewrite Heq in He.
    simpl in He. lia. }
  assert (Hhead : out !! 0%nat = Some first).
  { pose proof Hcopy as (? & Hg & _ & ?). rewrite Hg in Hfirst.
    rewrite <- Hfirst. replace gs with (gs + Z.of_nat 0) at 2 by lia.
    symmetry. apply overwrite_rd; [done..|].
    destruct out; [done|simpl; lia]. }
  assert (0 < D).
  { destruct (Hrange first); [by eapply list_elem_of_lookup_2|done|lia]. }
  assert (Hwfo : partition_wf D out).
  { split.
    - eauto.
    - exists lastchar. split; [by eapply written_last|done].
    - destruct Hcopy as (? & -> & -> & ?).
      destruct (exclusive_check_spec D (global_partitions dpb) gs out)
        as (j' & ret' & Hrun' & [[_ Hadj]|[-> _]]); [done..| |congruence].
      done.
    - intros k c Hc%list_elem_of_lookup_2%Hrange. lia.
    - apply distinct_NoDup.
      eapply remap_NoDup; [done..|]. apply distinct_NoDup.
      apply (wf_distinct _ _ Hwf). }
  assert (Hnn : Forall (λ c, 0 ≤ c) out).
  { apply Forall_forall. intros c Hc%Hrange. lia. }
  destruct (sort_written dpb gs D g e out g') as (-> & -> & Hcap); [done..|].
  split; [done|]. split; [done|]. split; [done|]. split; [lia|].
  unfold StpVecPushBack. f_equal.
Qed.

(** The border that a successful call of the union builder leaves: a valid
    child of characters of the new level, sorted, behind the top end. *)
Lemma partGetIdxNew_child FARAWAY bp starts dpb D gs r bp' dpb' :
  dpborder_partIsValid bp = Some true →
  Forall (λ s, s ∈ subset_starts bp) starts →
  level_pre (delimiter bp) D (bordercharmap dpb) (extborderchar dpb) →
  store_inv dpb → top_end dpb = Some gs →
  dpborder_getTopDelimiter dpb = Some D →
  dpborder_partGetIdxNew FARAWAY bp starts dpb = Some (r, bp', dpb') →
  0 ≤ r →
  ∃ out,
    child_inv (partchars bp) (delimiter bp) (bordercharmap dpb) D
      (extborderchar dpb) (λ _, True) out ∧
    partition_wf D out ∧ Forall (λ c, 0 ≤ c) out ∧
    gs + Z.of_nat (length out) ≤ Z.of_nat (length (global_partitions dpb)) ∧
    r = global_npartitions dpb ∧
    dpb' = with_store dpb
             (overwrite (global_partitions dpb) gs (sort_subsets D out))
             (global_partstarts dpb ++ [gs + Z.of_nat (length out)])
             (global_partcosts dpb ++ [FARAWAY])
             (global_predparts dpb ++ [-1])
             (global_partsUseExt dpb ++ [true])
             (global_npartitions dpb + 1).
Proof.
  intros Hv Hst Hlev Hinv Htop HD Hrun Hr.
  apply dpborder_partIsValid_wf in Hv as Hwf.
  pose proof Hinv as (_ & gs' & Htop0 & Hgs & _).
  rewrite Htop in Htop0. injection Htop0 as <-.
  set (chars := partchars bp) in *. set (d := delimiter bp) in *.
  set (map := bordercharmap dpb) in *. set (ext := extborderchar dpb) in *.
  set (gp := global_partitions dpb) in *.
  assert (Hstarts : ∀ s, s ∈ starts → is_start chars d s).
  { intros s Hs. rewrite Forall_forall in Hst.
    apply Hst, list_elem_of_fmap in Hs as ([s' run] & -> & Hin).
    apply (subsets_valid _ _ _ _ Hwf) in Hin as (_ & ? & ? & _). by split. }
  unfold dpborder_partGetIdxNew in Hrun. pose proof Htop as Htop'.
  unfold top_end in Htop'. rewrite Htop', HD in Hrun. simpl in Hrun.
  fold chars d map ext gp in Hrun.
  destruct (union_marked map d starts chars gp gs)
    as [[ii [[pc1 g1] e1]]|] eqn:Hum; simpl in Hrun; [|done].
  apply (union_marked_inv chars d map D ext Hwf Hlev gp gs) in Hum
    as (Hm & out1 & Hw1 & Hu1); [|done|apply written_init; lia].
  set (cov := λ k, opened chars d (λ x, x ∈ starts) (k + 1)) in *.
  match type of Hrun with context [if ext >=? 0 then ?a else ?b] =>
    destruct (if ext >=? 0 then a else b) as [[g2 e2]|] eqn:Hext;
      simpl in Hrun; [|done]
  end.
  assert (Hstep : ∃ out2, written gp gs g2 e2 out2 ∧ (∀ x, x ∈ out2 → x ≠ D) ∧
            (out2 ≠ [] → child_inv chars d map D ext cov out2)).
  { destruct (Z.geb_spec ext 0) as [Hge|Hlt].
    - destruct (wr g1 e1 ext) as [g|] eqn:Hwr; simpl in Hext; [|done].
      injection Hext as <- <-.
      assert (0 ≤ ext < D) by (destruct (lp_ext _ _ _ _ Hlev); lia).
      exists (out1 ++ [ext]). split; [by eapply written_wr|]. split.
      + intros x [Hx|Hx%list_elem_of_singleton]%elem_of_app; [|lia].
        destruct Hu1 as [_ Hu1]. destruct (Hu1 x Hx) as (k & Hk & _).
        apply (from_pos_range chars d map D ext Hwf Hlev) in Hk. lia.
      + intros _. by apply (union_inv_ext chars d map D ext Hwf Hlev).
    - injection Hext as <- <-. exists out1. split; [done|]. split.
      + intros x Hx.
        destruct Hu1 as [_ Hu1]. destruct (Hu1 x Hx) as (k & Hk & _).
        apply (from_pos_range chars d map D ext Hwf Hlev) in Hk. lia.
      + by apply (union_inv_child chars d map D ext Hwf Hlev). }
  destruct Hstep as (out2 & Hw2 & HnoD & Hc2).
  destruct (Z.eqb_spec e2 gs) as [_|Hne].
  { destruct (unmark_from 0 pc1); simpl in Hrun; [|done].
    injection Hrun as <- _ _. lia. }
  assert (Hout2 : out2 ≠ []).
  { intros ->. destruct Hw2 as (_ & _ & He2 & _). simpl in He2. lia. }
  specialize (Hc2 Hout2).
  destruct (rd pc1 0) as [c0|]; simpl in Hrun; [|done].
  match type of Hrun with context [if c0 >=? 0 then ?a else ?b] =>
    destruct (if c0 >=? 0 then a else b) as [[g3 e3]|] eqn:H3;
      simpl in Hrun; [|done]
  end.
  assert (Hstep3 : ∃ out3, written gp gs g3 e3 out3 ∧
            child_inv chars d map D ext cov out3).
  { destruct (c0 >=? 0).
    - destruct (wr g2 e2 D) as [g|] eqn:Hwr; simpl in H3; [|done].
      injection H3 as <- <-. exists (out2 ++ [D]).
      split; [by eapply written_wr|].
      apply child_inv_snoc_delimiter; [done|].
      intros Hl%last_Some_elem_of%HnoD. done.
    - injection H3 as <- <-. eauto. }
  destruct Hstep3 as (out3 & Hw3 & Hc3).
  destruct (copy_remaining map d D pc1 g3 e3 true gs)
    as [[i [[[[pc4 g4] e4] dc4] fl4]]|] eqn:Hcopy; simpl in Hrun; [|done].
  apply (copy_remaining_inv chars d map D ext Hwf Hlev gp gs
           (λ x, x ∈ starts) _ _ _ out3) in Hcopy; [|done..].
  destruct (rd g4 (e4 - 1)) as [lastchar|] eqn:Hlast; simpl in Hrun; [|done].
  destruct (Z.eqb_spec D lastchar) as [_|HlD].
  { simpl in Hrun. destruct (unmark_from (i + 1) pc4); simpl in Hrun; [|done].
    injection Hrun as <- _ _. lia. }
  destruct (Z.eqb_spec fl4 (-1)) as [_|Hfl].
  { destruct (unmark_from (i + 1) pc4); simpl in Hrun; [|done].
    injection Hrun as <- _ _. lia. }
  destruct Hcopy as [?|[-> (out & Hw4 & Hc4)]]; [done|].
  destruct (partitionSortSubsets g4 gs D (e4 - gs)) as [g5|] eqn:Hsort;
    simpl in Hrun; [|done].
  injection Hrun as <- _ <-.
  assert (Hne4 : out ≠ []).
  { destruct Hc4 as (_ & _ & (x & Hx & _) & _). by intros ->. }
  pose proof (written_last _ _ _ _ _ _ Hw4 Hne4 Hlast) as Hl.
  destruct (child_inv_wf chars d map D ext out lastchar Hc4 Hl) as [Hwf4 Hnn4];
    [congruence|].
  destruct (sort_written dpb gs D g4 e4 out g5) as (-> & -> & Hcap); [done..|].
  exists out. split; [done|]. split; [done|]. split; [done|].
  split; [done|]. split; [lia|]. unfold StpVecPushBack. f_equal.
Qed.

Lemma remap_delimiters d D map ext (l : list Z) :
  level_pre d D map ext → D ≠ -1 → (∀ c, c ∈ l → c ≤ d) →
  length (filter (λ x, x = D) (remap map l)) =
  length (filter (λ c, c = d) l).
Proof.
  intros Hlev HD. induction l as [|c l IH]; intros Hle; [done|].
  change (c :: l) with ([c] ++ l) at 1. unfold remap. rewrite omap_app.
  fold (remap map l). rewrite filter_app, length_app, IH
    by (intros c' Hc'; apply Hle; by right).
  rewrite filter_cons. simpl.
  destruct (decide (c = d)) as [->|Hcd].
  - rewrite (lp_delim _ _ _ _ Hlev). simpl.
    destruct (Z.eqb_spec D (-1)); [done|].
    rewrite filter_cons. destruct (decide (D = D)); [done|done].
  - destruct (rd map c) as [m|] eqn:Hm; simpl; [|done].
    destruct (Z.eqb_spec m (-1)); simpl; [done|].
    pose proof (rd_range _ _ _ Hm). pose proof (Hle c ltac:(by left)).
    destruct (lp_range _ _ _ _ Hlev c m); [lia|done|done|].
    rewrite filter_cons. destruct (decide (m = D)); [lia|done].
Qed.

Lemma sort_subsets_card d (l : list Z) :
  length (subsets d (sort_subsets d l)) = length (subsets d l).
Proof. by rewrite sort_subsets_subsets, length_fmap. Qed.

Lemma pushed_start {A} (starts : list A) n x y :
  Z.of_nat (length starts) = n + 1 → rd starts n = Some x →
  rd (starts ++ [y]) n = Some x ∧ rd (starts ++ [y]) (n + 1) = Some y.
Proof.
  intros Hlen [Hn Hx]%rd_Some. split; apply rd_Some.
  - split; [done|]. by apply lookup_app_l_Some.
  - split; [lia|]. rewrite lookup_app_r by lia.
    by replace (Z.to_nat (n + 1) - length starts)%nat with 0%nat by lia.
Qed.

(** X4.  The exclusive builder keeps the number of subsets: the partition it
    stores has as many subsets as the parent. *)
Theorem exclusive_keeps_card FARAWAY bp dpb D r dpb' :
  dpborder_partIsValid bp = Some true →
  level_pre (delimiter bp) D (bordercharmap dpb) (extborderchar dpb) →
  store_inv dpb →
  dpborder_getTopDelimiter dpb = Some D →
  dpborder_partGetIdxNewExclusive FARAWAY bp dpb = Some (r, dpb') →
  0 ≤ r →
  dpborder_partglobalGetCard r D dpb' =
  Some (Z.of_nat (length (subsets (delimiter bp) (partchars bp)))).
Proof.
  intros Hv Hlev Hinv HD Hrun Hr.
  pose proof Hinv as ((Hlen & _) & gs & Htop & Hgs & _).
  destruct (partGetIdxNewExclusive_child FARAWAY bp dpb D gs r dpb')
    as (Hwf & Hnn & Hcap & -> & ->); [done..|].
  set (out := remap (bordercharmap dpb) (partchars bp)) in *.
  destruct (pushed_start (global_partstarts dpb) (global_npartitions dpb) gs
              (gs + Z.of_nat (length out)) Hlen Htop) as [Hs He].
  rewrite (partglobalGetCard_run _ D _ gs (gs + Z.of_nat (length out)));
    [|done|done|lia|].
  2:{ simpl. rewrite overwrite_length; [done|lia|].
      by rewrite sort_subsets_length. }
  simpl. rewrite <- (sort_subsets_length D out) at 1.
  rewrite overwrite_segment; [|lia|by rewrite sort_subsets_length].
  rewrite sort_subsets_card. unfold subsets.
  rewrite !subsets_from_length. do 3 f_equal.
  apply dpborder_partIsValid_wf in Hv as Hwfp.
  eapply remap_delimiters; [done| |].
  - destruct (wf_head _ _ Hwf) as (c & Hc & HcD).
    rewrite Forall_forall in Hnn.
    pose proof (Hnn c ltac:(by eapply list_elem_of_lookup_2)).
    pose proof (wf_bound _ _ Hwf _ _ Hc). lia.
  - intros c [k Hk]%list_elem_of_lookup. by apply (wf_bound _ _ Hwfp k).
Qed.

Lemma exclusive_keeps_card_witness :
  ∃ dpb',
    dpborder_partGetIdxNewExclusive 100 closure_parent closure_border =
      Some (0, dpb') ∧
    dpborder_partglobalGetCard 0 2 dpb' =
      Some (Z.of_nat (length (subsets 2 [0; 2; 1]))).
Proof.
  eexists. split; [reflexivity|].
  apply (exclusive_keeps_card 100 closure_parent closure_border 2 0);
    [reflexivity|exact closure_level|exact closure_store|reflexivity
    |reflexivity|lia].
Defined.

Lemma segment_lookup (l : list Z) s e (n : nat) :
  0 ≤ s →
  segment l s e !! n =
  if decide (Z.of_nat n < e - s) then rd l (s + Z.of_nat n) else None.
Proof.
  intros Hs. unfold segment. destruct (decide (Z.of_nat n < e - s)).
  - rewrite lookup_take_lt by lia. rewrite lookup_drop. unfold rd.
    destruct (Z.leb_spec 0 (s + Z.of_nat n)); [|lia]. f_equal. lia.
  - apply lookup_take_ge. lia.
Qed.

Lemma segment_agree (l l' : list Z) s e :
  0 ≤ s → (∀ k, s ≤ k < e → rd l k = rd l' k) →
  segment l s e = segment l' s e.
Proof.
  intros Hs Hrd. apply list_eq. intros n. rewrite !segment_lookup by done.
  destruct (decide (Z.of_nat n < e - s)); [|done]. apply Hrd. lia.
Qed.

(** A partition that lies below the top end reads the same after an
    append at the top end. *)
Lemma stored_below dpb gs (w : list Z) x costs preds useext n idx s e :
  top_end dpb = Some gs →
  gs ≤ Z.of_nat (length (global_partitions dpb)) →
  rd (global_partstarts dpb) idx = Some s →
  rd (global_partstarts dpb) (idx + 1) = Some e →
  0 ≤ s → e ≤ gs →
  stored_partition
    (with_store dpb (overwrite (global_partitions dpb) gs w)
       (global_partstarts dpb ++ [x]) costs preds useext n) idx =
  stored_partition dpb idx.
Proof.
  intros Htop Hgs Hs He Hs0 Heg. unfold stored_partition. simpl.
  assert (Hext : ∀ k v, rd (global_partstarts dpb) k = Some v →
                        rd (global_partstarts dpb ++ [x]) k = Some v).
  { intros k v [Hk Hv]%rd_Some. apply rd_Some. split; [done|].
    by apply lookup_app_l_Some. }
  rewrite (Hext _ _ Hs), (Hext _ _ He), Hs, He. simpl. f_equal.
  apply segment_agree; [done|]. intros k Hk.
  apply overwrite_rd_below; lia.
Qed.

(** X5.  The store is append-only: when a builder returns an index, every
    partition that was stored below the top end reads as before. *)
Theorem builders_append_only FARAWAY bp starts dpb D gs :
  dpborder_partIsValid bp = Some true →
  Forall (λ s, s ∈ subset_starts bp) starts →
  level_pre (delimiter bp) D (bordercharmap dpb) (extborderchar dpb) →
  store_inv dpb → top_end dpb = Some gs →
  dpborder_getTopDelimiter dpb = Some D →
  ∀ r dpb',
    (∃ bp', dpborder_partGetIdxNew FARAWAY bp starts dpb = Some (r, bp', dpb')) ∨
    dpborder_partGetIdxNewExclusive FARAWAY bp dpb = Some (r, dpb') →
    0 ≤ r →
    ∀ idx s e,
      rd (global_partstarts dpb) idx = Some s →
      rd (global_partstarts dpb) (idx + 1) = Some e →
      0 ≤ s → e ≤ gs →
      stored_partition dpb' idx = stored_partition dpb idx.
Proof.
  intros Hv Hst Hlev Hinv Htop HD r dpb' Hrun Hr idx s e Hs He Hs0 Heg.
  assert (Hgs : gs ≤ Z.of_nat (length (global_partitions dpb))).
  { destruct Hinv as (_ & gs' & Htop' & ? & _). rewrite Htop in Htop'.
    injection Htop' as <-. lia. }
  destruct Hrun as [[bp' Hrun]|Hrun].
  - destruct (partGetIdxNew_child FARAWAY bp starts dpb D gs r bp' dpb')
      as (out & _ & _ & _ & _ & _ & ->); [done..|].
    by eapply stored_below.
  - destruct (partGetIdxNewExclusive_child FARAWAY bp dpb D gs r dpb')
      as (_ & _ & _ & _ & ->); [done..|].
    by eapply stored_below.
Qed.

Lemma builders_append_only_witness :
  ∃ dpb',
    dpborder_partGetIdxNewExclusive 100 closure_parent card_border =
      Some (1, dpb') ∧
    stored_partition dpb' 0 = stored_partition card_border 0.
Proof.
  eexists. split; [reflexivity|].
  apply (builders_append_only 100 closure_parent [] card_border 2 4)
    with (r := 1) (s := 1) (e := 4);
    try reflexivity; try lia.
  - constructor.
  - exact closure_level.
  - split; [by repeat split|]. exists 4. split; [reflexivity|].
    split; [simpl; lia|]. repeat constructor; lia.
  - by right.
Defined.

(** ** The canonical form *)

Lemma merge_sort_perm (l l' : list Z) :
  l ≡ₚ l' → merge_sort Z.le l = merge_sort Z.le l'.
Proof.
  intros Hperm. apply (Sorted_unique Z.le); try (apply Sorted_merge_sort; apply _).
  by rewrite !merge_sort_Permutation.
Qed.

Lemma merge_sort_idem (l : list Z) :
  merge_sort Z.le (merge_sort Z.le l) = merge_sort Z.le l.
Proof. apply merge_sort_perm, merge_sort_Permutation. Qed.

(** A list splits at its first delimiter, if it holds one. *)
Lemma first_delimiter d (l : list Z) :
  d ∉ l ∨ ∃ run rest, l = run ++ d :: rest ∧ d ∉ run.
Proof.
  destruct (decide (d ∈ l)) as [Hin|?]; [right|by left].
  apply list_elem_of_split_l in Hin as (run & rest & -> & ?). eauto.
Qed.

Lemma sort_subsets_free d (run : list Z) :
  d ∉ run → sort_subsets d run = merge_sort Z.le run.
Proof.
  intros Hd. unfold sort_subsets.
  by rewrite (proj2 (sort_subsets_aux_run d run [] Hd)).
Qed.

Lemma sort_subsets_split d (run rest : list Z) :
  d ∉ run →
  sort_subsets d (run ++ d :: rest) =
  merge_sort Z.le run ++ d :: sort_subsets d rest.
Proof.
  intros Hd. unfold sort_subsets.
  by rewrite (proj1 (sort_subsets_aux_run d run [] Hd)).
Qed.

Lemma sort_subsets_idem d (l : list Z) :
  sort_subsets d (sort_subsets d l) = sort_subsets d l.
Proof.
  remember (length l) as n eqn:Hn. revert l Hn.
  induction (lt_wf n) as [n _ IH]. intros l ->.
  destruct (first_delimiter d l) as [Hd|(run & rest & -> & Hd)].
  - rewrite (sort_subsets_free d l) by done.
    rewrite sort_subsets_free by (by rewrite elem_of_merge_sort).
    apply merge_sort_idem.
  - rewrite sort_subsets_split by done.
    rewrite sort_subsets_split by (by rewrite elem_of_merge_sort).
    rewrite merge_sort_idem. do 2 f_equal.
    apply (IH (length rest)); [|done]. rewrite length_app. simpl. lia.
Qed.

(** Partitions with the same subsets up to the order of the characters in
    each subset have the same canonical form. *)
Lemma sort_subsets_canonical d (l : list Z) : ∀ l' s p s' p',
  Forall2 (λ sr sr', sr.2 ≡ₚ sr'.2)
    (subsets_from d s p l) (subsets_from d s' p' l') →
  sort_subsets d l = sort_subsets d l'.
Proof.
  remember (length l) as n eqn:Hn. revert l Hn.
  induction (lt_wf n) as [n _ IH]. intros l -> l' s p s' p' Hsub.
  destruct (first_delimiter d l) as [Hd|(run & rest & -> & Hd)];
    destruct (first_delimiter d l') as [Hd'|(run' & rest' & -> & Hd')].
  - rewrite (proj2 (subsets_from_free d l s p Hd)),
      (proj2 (subsets_from_free d l' s' p' Hd')) in Hsub.
    apply Forall2_cons_1 in Hsub as [Hperm _]. simpl in Hperm.
    rewrite !sort_subsets_free by done. by apply merge_sort_perm.
  - rewrite (proj2 (subsets_from_free d l s p Hd)),
      (proj1 (subsets_from_free d run' s' p' Hd')) in Hsub.
    apply Forall2_cons_1 in Hsub as [_ Hnil]. apply Forall2_nil_inv_l in Hnil.
    destruct (subsets_from_head d (p' + Z.of_nat (length run') + 1)
                (p' + Z.of_nat (length run') + 1) rest') as (? & ? & Heq).
    congruence.
  - rewrite (proj1 (subsets_from_free d run s p Hd)),
      (proj2 (subsets_from_free d l' s' p' Hd')) in Hsub.
    apply Forall2_cons_1 in Hsub as [_ Hnil]. apply Forall2_nil_inv_r in Hnil.
    destruct (subsets_from_head d (p + Z.of_nat (length run) + 1)
                (p + Z.of_nat (length run) + 1) rest) as (? & ? & Heq).
    congruence.
  - rewrite (proj1 (subsets_from_free d run s p Hd)),
      (proj1 (subsets_from_free d run' s' p' Hd')) in Hsub.
    apply Forall2_cons_1 in Hsub as [Hperm Hrest]. simpl in Hperm.
    rewrite !sort_subsets_split by done.
    rewrite (merge_sort_perm _ _ Hperm). do 2 f_equal.
    eapply (IH (length rest)); [|done|exact Hrest].
    rewrite length_app. simpl. lia.
Qed.

Lemma sort_run pre v post bp :
  partition_inv bp → 0 ≤ v →
  partitionSortSubsets (pre ++ v :: partchars bp ++ post)
    (Z.of_nat (length pre) + 1) (delimiter bp) (partsize bp) =
  Some (pre ++ v :: sort_subsets (delimiter bp) (partchars bp) ++ post).
Proof.
  intros [Hvalid Hpos] Hv. apply dpborder_partIsValid_wf in Hvalid.
  destruct Hvalid as [(c0 & Hc0 & Hc0d) _ Hadj _ _].
  apply partitionSortSubsets_spec; [done..| |done].
  intros c Hc. congruence.
Qed.

Lemma sort_subsets_inv bp :
  partition_inv bp →
  partition_inv (mkDPBPART (sort_subsets (delimiter bp) (partchars bp))
                   (delimiter bp)).
Proof.
  intros [Hvalid Hpos]. split; simpl.
  - apply dpborder_partIsValid_wf. simpl. apply sort_subsets_wf.
    by apply dpborder_partIsValid_wf.
  - by rewrite sort_subsets_Permutation.
Qed.

(** X6.  Sorting is idempotent: a second call on the sorted partition leaves
    the array as it is. *)
Theorem sort_idempotent pre v post bp :
  partition_inv bp → 0 ≤ v →
  ∃ out,
    partitionSortSubsets (pre ++ v :: partchars bp ++ post)
      (Z.of_nat (length pre) + 1) (delimiter bp) (partsize bp) =
      Some (pre ++ v :: out ++ post) ∧
    partitionSortSubsets (pre ++ v :: out ++ post)
      (Z.of_nat (length pre) + 1) (delimiter bp) (partsize bp) =
      Some (pre ++ v :: out ++ post).
Proof.
  intros Hinv Hv. exists (sort_subsets (delimiter bp) (partchars bp)).
  split; [by apply sort_run|].
  pose proof (sort_run pre v post _ (sort_subsets_inv bp Hinv) Hv) as Hrun.
  simpl in Hrun. unfold partsize in *. simpl in Hrun.
  by rewrite sort_subsets_length, sort_subsets_idem in Hrun.
Qed.

Lemma sort_idempotent_witness :
  ∃ out,
    partitionSortSubsets ([7] ++ 0 :: [3; 1; 2; 6; 5; 4] ++ [8]) 2 6 6 =
      Some ([7] ++ 0 :: out ++ [8]) ∧
    partitionSortSubsets ([7] ++ 0 :: out ++ [8]) 2 6 6 =
      Some ([7] ++ 0 :: out ++ [8]).
Proof.
  apply (sort_idempotent [7] 0 [8] (mkDPBPART [3; 1; 2; 6; 5; 4] 6));
    [split; [reflexivity|repeat constructor; lia]|lia].
Defined.

(** X7.  The sorted form is canonical: two partitions with the same delimiter
    whose subsets hold, one by one, the same characters in whatever order are
    sorted into the same array. *)
Theorem sort_canonical pre v post bp bp' :
  partition_inv bp → partition_inv bp' →
  delimiter bp' = delimiter bp → 0 ≤ v →
  Forall2 (λ sr sr', sr.2 ≡ₚ sr'.2)
    (subsets (delimiter bp) (partchars bp))
    (subsets (delimiter bp) (partchars bp')) →
  ∃ out,
    partitionSortSubsets (pre ++ v :: partchars bp ++ post)
      (Z.of_nat (length pre) + 1) (delimiter bp) (partsize bp) =
      Some (pre ++ v :: out ++ post) ∧
    partitionSortSubsets (pre ++ v :: partchars bp' ++ post)
      (Z.of_nat (length pre) + 1) (delimiter bp) (partsize bp') =
      Some (pre ++ v :: out ++ post).
Proof.
  intros Hinv Hinv' Hd Hv Hsub.
  exists (sort_subsets (delimiter bp) (partchars bp)).
  split; [by apply sort_run|].
  rewrite <- Hd at 1. rewrite sort_run by done. rewrite Hd.
  by rewrite (sort_subsets_canonical _ _ _ _ _ _ _ Hsub).
Qed.

Lemma sort_canonical_witness :
  ∃ out,
    partitionSortSubsets ([7] ++ 0 :: [3; 1; 2; 6; 5; 4] ++ [8]) 2 6 6 =
      Some ([7] ++ 0 :: out ++ [8]) ∧
    partitionSortSubsets ([7] ++ 0 :: [1; 2; 3; 6; 4; 5] ++ [8]) 2 6 6 =
      Some ([7] ++ 0 :: out ++ [8]).
Proof.
  apply (sort_canonical [7] 0 [8] (mkDPBPART [3; 1; 2; 6; 5; 4] 6)
           (mkDPBPART [1; 2; 3; 6; 4; 5] 6));
    [split; [reflexivity|repeat constructor; lia]
    |split; [reflexivity|repeat constructor; lia]
    |reflexivity|lia|].
  vm_compute. constructor; [|constructor; [|constructor]].
  - apply (Permutation_cons_append [1; 2] 3).
  - apply perm_swap.
Defined.

(** X8.  Sorting keeps a partition valid, with characters that are not negative
    and as many subsets as before. *)
Theorem sort_keeps_valid pre v post bp :
  partition_inv bp → 0 ≤ v →
  ∃ out,
    partitionSortSubsets (pre ++ v :: partchars bp ++ post)
      (Z.of_nat (length pre) + 1) (delimiter bp) (partsize bp) =
      Some (pre ++ v :: out ++ post) ∧
    dpborder_partIsValid (mkDPBPART out (delimiter bp)) = Some true ∧
    Forall (λ c, 0 ≤ c) out ∧
    length (subsets (delimiter bp) out) =
      length (subsets (delimiter bp) (partchars bp)).
Proof.
  intros Hinv Hv. exists (sort_subsets (delimiter bp) (partchars bp)).
  split; [by apply sort_run|].
  destruct (sort_subsets_inv bp Hinv) as [Hvalid Hpos].
  split; [done|]. split; [done|]. apply sort_subsets_card.
Qed.

Lemma sort_keeps_valid_witness :
  ∃ out,
    partitionSortSubsets ([7] ++ 0 :: [3; 1; 2; 6; 5; 4] ++ [8]) 2 6 6 =
      Some ([7] ++ 0 :: out ++ [8]) ∧
    dpborder_partIsValid (mkDPBPART out 6) = Some true ∧
    Forall (λ c, 0 ≤ c) out ∧
    length (subsets 6 out) = length (subsets 6 [3; 1; 2; 6; 5; 4]).
Proof.
  apply (sort_keeps_valid [7] 0 [8] (mkDPBPART [3; 1; 2; 6; 5; 4] 6));
    [split; [reflexivity|repeat constructor; lia]|lia].
Defined.

(** ** Bounds and order of the connection cost *)












(** ** Candidate starts *)

Lemma cons_head_starts c (subs : list (Z * list Z)) :
  (cons_head c subs).*1 = subs.*1.
Proof. by destruct subs as [|[s run] rest]. Qed.

(** The subsets start at strictly ascending positions. *)
Lemma subsets_from_ascending d (l : list Z) : ∀ s p,
  s ≤ p →
  ∃ tl, (subsets_from d s p l).*1 = s :: tl ∧ Forall (λ x, p < x) tl ∧
        StronglySorted Z.lt (s :: tl).
Proof.
  induction l as [|c l IH]; intros s p Hsp.
  - exists []. split; [done|]. split; repeat constructor.
  - rewrite subsets_from_cons. destruct (Z.eqb_spec c d) as [_|_].
    + destruct (IH (p + 1) (p + 1)) as (tl & Htl & Hall & Hsorted); [lia|].
      exists ((p + 1) :: tl). rewrite fmap_cons, Htl. split; [done|].
      split.
      * constructor; [lia|]. eapply Forall_impl; [done|]. simpl. lia.
      * constructor; [done|]. constructor; [lia|].
        eapply Forall_impl; [done|]. simpl. lia.
    + destruct (IH s (p + 1)) as (tl & Htl & Hall & Hsorted); [lia|].
      exists tl. rewrite cons_head_starts. split; [done|]. split; [|done].
      eapply Forall_impl; [done|]. simpl. lia.
Qed.

Lemma sublist_StronglySorted (l k : list Z) :
  l `sublist_of` k → StronglySorted Z.lt k → StronglySorted Z.lt l.
Proof.
  induction 1 as [|x l k Hsub IH|x l k Hsub IH]; intros Hk; [done| |].
  - apply StronglySorted_inv in Hk as [Hk Hall]. constructor; [by apply IH|].
    rewrite Forall_forall in Hall. apply Forall_forall. intros y Hy.
    apply Hall. by eapply sublist_subseteq.
  - apply StronglySorted_inv in Hk as [Hk _]. by apply IH.
Qed.

Lemma cands_sublist FARAWAY dists (subs : list (Z * list Z)) :
  cands FARAWAY dists subs `sublist_of` subs.*1.
Proof. unfold cands. apply fmap_sublist, sublist_filter. Qed.

(** X11.  The candidate starts come out in strictly ascending order, each of them
    a position of the partition and the start of one of its subsets. *)
Theorem candstarts_ascending FARAWAY bp dpb :
  partition_inv bp →
  delimiter bp ≤ Z.of_nat (length (borderchardists dpb)) →
  ∃ cs, dpborder_partGetCandstarts FARAWAY bp dpb = Some cs ∧
        StronglySorted Z.lt cs ∧
        Forall (λ s, 0 ≤ s < partsize bp ∧ s ∈ subset_starts bp) cs.
Proof.
  intros Hinv Hlen. pose proof (dists_readable bp _ Hinv Hlen) as Hd.
  destruct Hinv as [Hvalid Hpos].
  apply dpborder_partIsValid_wf in Hvalid as Hwf.
  eexists. split; [apply candstarts_loop; [apply (wf_head _ _ Hwf)|done]|].
  pose proof (cands_sublist FARAWAY (borderchardists dpb)
                (subsets (delimiter bp) (partchars bp))) as Hsub.
  split.
  - eapply sublist_StronglySorted; [exact Hsub|].
    destruct (subsets_from_ascending (delimiter bp) (partchars bp) 0 0)
      as (tl & Htl & _ & Hsorted); [lia|].
    unfold subsets. by rewrite Htl.
  - apply Forall_forall. intros s Hs.
    assert (Hin : s ∈ subset_starts bp).
    { eapply sublist_subseteq; [exact Hsub|done]. }
    split; [|done]. by destruct (subset_start_range bp s Hvalid Hin).
Qed.

Lemma candstarts_ascending_witness :
  ∃ cs, dpborder_partGetCandstarts 100 saturating_parent saturating_border =
          Some cs ∧
        StronglySorted Z.lt cs ∧
        Forall (λ s, 0 ≤ s < partsize saturating_parent ∧
                     s ∈ subset_starts saturating_parent) cs.
Proof.
  apply (candstarts_ascending 100 saturating_parent saturating_border).
  - split; [reflexivity|repeat constructor; lia].
  - simpl. lia.
Defined.

Lemma min_dist_below FARAWAY dists (run : list Z) :
  (min_dist FARAWAY dists run < FARAWAY)%Q ↔
  existsb (connectable_char FARAWAY dists) run = true.
Proof.
  rewrite existsb_exists. unfold min_dist. split.
  - intros Hlt.
    destruct (fold_min_step_attained dists run FARAWAY)
      as [Heq|(c & x & Hc & Hx & Heq)].
    + rewrite Heq in Hlt. lra.
    + exists c. split; [by apply list_elem_of_In|].
      unfold connectable_char. rewrite Hx. apply LT_spec. by rewrite <- Heq.
  - intros (c & Hc%list_elem_of_In & Hconn). unfold connectable_char in Hconn.
    destruct (rd dists c) as [x|] eqn:Hx; [|done]. apply LT_spec in Hconn.
    pose proof (fold_min_step_lower dists run FARAWAY c x Hc Hx). lra.
Qed.

Lemma cands_elem FARAWAY dists (subs : list (Z * list Z)) s :
  s ∈ cands FARAWAY dists subs ↔
  ∃ run, (s, run) ∈ subs ∧
         existsb (connectable_char FARAWAY dists) run = true.
Proof.
  unfold cands. rewrite list_elem_of_fmap. split.
  - intros ([s' run] & -> & [Hex Hin]%list_elem_of_filter). simpl in *.
    exists run. split; [done|]. by destruct (existsb _ run).
  - intros (run & Hin & Hex). exists (s, run). split; [done|].
    apply list_elem_of_filter. split; [|done]. simpl. by rewrite Hex.
Qed.

(** X12.  A subset start is a candidate start exactly when the connection cost of
    its subset alone is below [FARAWAY]. *)
Theorem candidate_iff_finite_cost FARAWAY bp dpb s :
  partition_inv bp →
  delimiter bp ≤ Z.of_nat (length (borderchardists dpb)) →
  s ∈ subset_starts bp →
  ∃ cs cost,
    dpborder_partGetCandstarts FARAWAY bp dpb = Some cs ∧
    dpborder_partGetConnectionCost FARAWAY dpb bp [s] = Some cost ∧
    (s ∈ cs ↔ (cost < FARAWAY)%Q).
Proof.
  intros Hinv Hlen Hs. pose proof (dists_readable bp _ Hinv Hlen) as Hd.
  destruct Hinv as [Hvalid Hpos].
  apply dpborder_partIsValid_wf in Hvalid as Hwf.
  do 2 eexists. split; [apply candstarts_loop; [apply (wf_head _ _ Hwf)|done]|].
  split.
  { apply cost_loop; [done| |done]. constructor; [|constructor].
    by destruct (subset_start_range bp s Hvalid Hs) as [[? _] _]. }
  simpl.
  set (m := min_dist FARAWAY (borderchardists dpb)
              (subset_at (delimiter bp) (partchars bp) s)).
  assert (Hcost : ((if GE (0 + m) FARAWAY then 0 + m else 0 + m)%Q == m)%Q).
  { destruct (GE (0 + m) FARAWAY); ring. }
  rewrite Hcost. unfold m. rewrite min_dist_below.
  unfold candstarts_spec. rewrite cands_elem. split.
  - intros (run & Hin & Hex).
    apply (subsets_valid _ _ _ _ Hwf) in Hin as (_ & _ & _ & -> & _). done.
  - intros Hex. unfold subset_starts in Hs.
    apply list_elem_of_fmap in Hs as ([s' run] & -> & Hin). exists run.
    split; [done|]. simpl in *.
    apply (subsets_valid _ _ _ _ Hwf) in Hin as Hrun.
    destruct Hrun as (_ & _ & _ & -> & _). done.
Qed.

Lemma candidate_iff_finite_cost_witness :
  ∃ cs cost,
    dpborder_partGetCandstarts 100 closure_parent cost_border = Some cs ∧
    dpborder_partGetConnectionCost 100 cost_border closure_parent [2] =
      Some cost ∧
    (2 ∈ cs ↔ (cost < 100)%Q).
Proof.
  apply (candidate_iff_finite_cost 100 closure_parent cost_border 2).
  - split; [reflexivity|repeat constructor; lia].
  - simpl. lia.
  - vm_compute. repeat constructor.
Defined.

(** ** The array of solution nodes *)

Lemma markSolNodes_run dpb n marks lvl0 (nodes : list bool) fuel :
  chain dpb n (global_optposition dpb) marks →
  rd (borderlevels dpb) 0 = Some lvl0 →
  0 ≤ extnode lvl0 < nnodes dpb →
  nnodes dpb ≤ Z.of_nat (length nodes) →
  (n ≤ fuel)%nat →
  dpborder_markSolNodes fuel dpb nodes =
  Some (mark_all (marks ++ [extnode lvl0])
          (replicate (Z.to_nat (nnodes dpb)) false ++
           drop (Z.to_nat (nnodes dpb)) nodes)).
Proof.
  intros Hchain Hlvl0 Hext Hlen Hfuel.
  set (cleared := replicate (Z.to_nat (nnodes dpb)) false ++
                  drop (Z.to_nat (nnodes dpb)) nodes).
  assert (Hclen : length cleared = length nodes).
  { unfold cleared. rewrite length_app, length_replicate, length_drop. lia. }
  unfold dpborder_markSolNodes, BMSclearMemoryArray.
  destruct (Z.leb_spec 0 (nnodes dpb)); [|lia].
  destruct (Z.leb_spec (nnodes dpb) (Z.of_nat (length nodes))); [|lia].
  simpl. fold cleared.
  rewrite (count_levels_chain dpb n _ marks fuel 0 Hchain Hfuel). simpl.
  rewrite Z.add_0_l.
  rewrite (mark_levels_chain dpb n _ marks fuel cleared Hchain Hfuel)
    by lia.
  simpl. rewrite Hlvl0. simpl. rewrite mark_all_app.
  apply wr_in_range. rewrite mark_all_length. lia.
Qed.

Lemma mark_all_agree vs : ∀ (l l' : list bool) v,
  Forall (λ x, 0 ≤ x < Z.of_nat (length l) ∧ x < Z.of_nat (length l')) vs →
  rd l v = rd l' v →
  rd (mark_all vs l) v = rd (mark_all vs l') v.
Proof.
  induction vs as [|x vs IH]; intros l l' v Hvs Hv; [done|].
  apply Forall_cons in Hvs as [[Hx Hx'] Hvs].
  change (mark_all (x :: vs) l) with (mark_all vs (<[Z.to_nat x := true]> l)).
  change (mark_all (x :: vs) l') with (mark_all vs (<[Z.to_nat x := true]> l')).
  apply IH; [by rewrite !length_insert|].
  pose proof (wr_in_range l x true Hx) as Hwr.
  pose proof (wr_in_range l' x true ltac:(lia)) as Hwr'.
  destruct (decide (x = v)) as [->|Hne].
  - by rewrite (rd_wr_eq _ _ _ _ Hwr), (rd_wr_eq _ _ _ _ Hwr').
  - by rewrite (rd_wr_ne _ _ _ _ _ Hwr), (rd_wr_ne _ _ _ _ _ Hwr').
Qed.

Lemma list_eq_rd {A} (l l' : list A) :
  (∀ v, 0 ≤ v → rd l v = rd l' v) → l = l'.
Proof.
  intros Hrd. apply list_eq. intros i. rewrite <- !rd_nat. apply Hrd. lia.
Qed.

(** X13.  The solution nodes do not depend on what the array held or on the
    bound of the walk: two calls agree below [nnodes], and a second call on
    the result of the first returns it as it is. *)
Theorem reconstruction_ignores_input dpb n marks lvl0
    (nodes nodes' : list bool) fuel fuel' :
  chain dpb n (global_optposition dpb) marks →
  rd (borderlevels dpb) 0 = Some lvl0 →
  0 ≤ extnode lvl0 < nnodes dpb →
  nnodes dpb ≤ Z.of_nat (length nodes) →
  nnodes dpb ≤ Z.of_nat (length nodes') →
  (n ≤ fuel)%nat → (n ≤ fuel')%nat →
  ∃ out out',
    dpborder_markSolNodes fuel dpb nodes = Some out ∧
    dpborder_markSolNodes fuel' dpb nodes' = Some out' ∧
    (∀ v, 0 ≤ v < nnodes dpb → rd out v = rd out' v) ∧
    dpborder_markSolNodes fuel' dpb out = Some out.
Proof.
  intros Hchain Hlvl0 Hext Hlen Hlen' Hfuel Hfuel'.
  assert (Hrange : Forall (λ v, 0 ≤ v < nnodes dpb) (marks ++ [extnode lvl0])).
  { apply Forall_app. split; [by eapply chain_marks_range|].
    by apply Forall_singleton. }
  assert (Hclen : ∀ l : list bool, nnodes dpb ≤ Z.of_nat (length l) →
            length (replicate (Z.to_nat (nnodes dpb)) false ++
                    drop (Z.to_nat (nnodes dpb)) l) = length l).
  { intros l Hl. rewrite length_app, length_replicate, length_drop. lia. }
  assert (Hagree : ∀ l l' : list bool,
            nnodes dpb ≤ Z.of_nat (length l) →
            nnodes dpb ≤ Z.of_nat (length l') →
            ∀ v, 0 ≤ v < nnodes dpb →
              rd (mark_all (marks ++ [extnode lvl0])
                    (replicate (Z.to_nat (nnodes dpb)) false ++
                     drop (Z.to_nat (nnodes dpb)) l)) v =
              rd (mark_all (marks ++ [extnode lvl0])
                    (replicate (Z.to_nat (nnodes dpb)) false ++
                     drop (Z.to_nat (nnodes dpb)) l')) v).
  { intros l l' Hl Hl' v Hv. apply mark_all_agree.
    - rewrite !Hclen by done. eapply Forall_impl; [exact Hrange|].
      simpl. lia.
    - by rewrite !clear_rd_below. }
  do 2 eexists. split; [by eapply markSolNodes_run|].
  split; [by eapply markSolNodes_run|]. split; [by apply Hagree|].
  set (out := mark_all _ _).
  assert (Hout : length out = length nodes).
  { unfold out. rewrite mark_all_length. by apply Hclen. }
  rewrite (markSolNodes_run dpb n marks lvl0 out fuel');
    [|done|done|done|rewrite Hout; lia|done].
  f_equal. apply list_eq_rd. intros v Hv.
  destruct (Z.lt_ge_cases v (nnodes dpb)).
  - apply (Hagree out nodes); [rewrite Hout; lia|lia|lia].
  - rewrite (mark_all_rd_beyond _ _ (nnodes dpb)) by (done || lia).
    apply clear_rd_beyond. lia.
Qed.

Lemma reconstruction_ignores_input_witness :
  ∃ out out',
    dpborder_markSolNodes 1 reconstruction_border (replicate 10 true) =
      Some out ∧
    dpborder_markSolNodes 3 reconstruction_border (replicate 12 false) =
      Some out' ∧
    (∀ v, 0 ≤ v < 10 → rd out v = rd out' v) ∧
    dpborder_markSolNodes 3 reconstruction_border out = Some out.
Proof.
  assert (Hchain : chain reconstruction_border 1 1 [9; 4]).
  { apply (chain_hop reconstruction_border 0 1 0 (mkDPBLEVEL [4] 9 1) 2 3
             true []); try reflexivity; try lia.
    - split; [reflexivity|]. split; [repeat constructor; simpl; lia|simpl; lia].
    - intros i Hi. assert (i = 2) as -> by lia. exists 0.
      split; [reflexivity|simpl; lia].
    - constructor. }
  apply (reconstruction_ignores_input reconstruction_border 1 [9; 4]
           (mkDPBLEVEL [] 7 0) (replicate 10 true) (replicate 12 false) 1 3
           Hchain);
    [reflexivity|simpl; lia|simpl; lia|simpl; lia|lia|lia].
Defined.

Lemma count_levels_walk predparts : ∀ fuel pos k r,
  count_levels fuel predparts pos k = Some r →
  ∃ n, walk predparts n pos = Some 0.
Proof.
  induction fuel as [|fuel IH]; intros pos k r Hrun; simpl in Hrun.
  - destruct (Z.eqb_spec pos 0) as [->|_]; [by exists 0%nat|done].
  - destruct (Z.eqb_spec pos 0) as [->|_]; [by exists 0%nat|].
    destruct (rd predparts pos) as [pred|] eqn:Hpred; simpl in Hrun; [|done].
    destruct (IH _ _ _ Hrun) as [n Hn]. exists (S n). simpl.
    by rewrite Hpred.
Qed.

(** X14.  The walk along the predecessors has no check of its own: when no number
    of hops leads from the optimal partition to index 0 (a predecessor that
    was never set, or a cycle), no bound gives the call a result. *)
Theorem reconstruction_needs_root dpb :
  (∀ n, walk (global_predparts dpb) n (global_optposition dpb) ≠ Some 0) →
  ∀ fuel nodes, dpborder_markSolNodes fuel dpb nodes = None.
Proof.
  intros Hwalk fuel nodes. unfold dpborder_markSolNodes.
  destruct (BMSclearMemoryArray nodes (nnodes dpb)) as [cleared|]; [|done].
  simpl.
  destruct (count_levels fuel (global_predparts dpb)
              (global_optposition dpb) 0) as [r|] eqn:Hcount; [|done].
  apply count_levels_walk in Hcount as [n Hn]. by destruct (Hwalk n).
Qed.

Lemma reconstruction_needs_root_witness :
  dpborder_markSolNodes 5 unset_border (replicate 10 false) = None.
Proof.
  apply (reconstruction_needs_root unset_border).
  intros [|[|n]]; simpl; discriminate.
Defined.

(** ** The parent after a call of the union builder *)

Lemma copy_remaining_end map d D pc g e dc fl i pc' g' e' dc' fl' :
  copy_remaining map d D pc g e dc fl = Some (i, (pc', g', e', dc', fl')) →
  fl' = -1 ∨ Z.of_nat (length pc) ≤ i.
Proof.
  unfold copy_remaining. intros Hrun.
  eapply (c_for_sound (λ _ _, True)
    (λ i '(_, _, _, _, f), f = -1 ∨ Z.of_nat (length pc) ≤ i))
    in Hrun; [done| | |done].
  - intros k [[[[pc1 g1] e1] dc1] f1] st _ _ Hbody.
    repeat (simplify_option_eq || case_match); auto.
  - intros k [[[[pc1 g1] e1] dc1] f1] _ Hk. by right.
Qed.

(** X15.  Whatever it returns, the union builder hands the parent back with the
    characters it had: every mark it has set on a chosen start is taken
    back. *)
Theorem union_builder_restores FARAWAY bp starts dpb r bp' dpb' :
  partition_inv bp →
  dpborder_partGetIdxNew FARAWAY bp starts dpb = Some (r, bp', dpb') →
  bp' = bp.
Proof.
  intros [Hvalid Hpos] Hrun. destruct bp as [chars d]. simpl in *.
  unfold dpborder_partGetIdxNew in Hrun. simpl in Hrun.
  destruct (rd (global_partstarts dpb) (global_npartitions dpb)) as [gs|];
    simpl in Hrun; [|done].
  destruct (dpborder_getTopDelimiter dpb) as [D|]; simpl in Hrun; [|done].
  destruct (union_marked _ _ _ _ _ _) as [[i1 [[pc1 g1] e1]]|] eqn:Hu;
    simpl in Hrun; [|done].
  eapply (union_marked_rollback gs (global_partitions dpb) chars) in Hu
    as [Hpc1 _]; [|apply restorable_refl|apply scratch_refl].
  match type of Hrun with context [if extborderchar dpb >=? 0 then ?a else ?b] =>
    destruct (if extborderchar dpb >=? 0 then a else b) as [[g2 e2]|];
      simpl in Hrun; [|done]
  end.
  destruct (e2 =? gs).
  - destruct (unmark_from 0 pc1) as [pc2|] eqn:Hun; simpl in Hrun; [|done].
    injection Hrun as _ <- _. f_equal. by eapply unmark_from_restores.
  - destruct (rd pc1 0) as [c0|]; simpl in Hrun; [|done].
    match type of Hrun with context [if c0 >=? 0 then ?a else ?b] =>
      destruct (if c0 >=? 0 then a else b) as [[g3 e3]|];
        simpl in Hrun; [|done]
    end.
    destruct (copy_remaining _ _ _ _ _ _ _ _)
      as [[i [[[[pc4 g4] e4] dc4] fl4]]|] eqn:Hcopy; simpl in Hrun; [|done].
    pose proof (copy_remaining_end _ _ _ _ _ _ _ _ _ _ _ _ _ _ Hcopy) as Hend.
    eapply (copy_remaining_rollback e3 g3 chars) in Hcopy
      as [Hpc4 _]; [|done|done|apply scratch_refl].
    destruct (rd g4 (e4 - 1)) as [lastchar|]; simpl in Hrun; [|done].
    destruct (Z.eqb_spec (if D =? lastchar then -1 else fl4) (-1)) as [_|Hfl].
    + destruct (unmark_from (i + 1) pc4) as [pc5|] eqn:Hun;
        simpl in Hrun; [|done].
      injection Hrun as _ <- _. f_equal. by eapply unmark_from_restores.
    + destruct (partitionSortSubsets _ _ _ _); simpl in Hrun; [|done].
      injection Hrun as _ <- _. f_equal.
      eapply restorable_done; [done|].
      destruct Hend as [->|Hend]; [by destruct (D =? lastchar)|].
      destruct Hpc1 as [Hlen1 _]. lia.
Qed.

Lemma union_builder_restores_witness :
  ∃ dpb',
    dpborder_partGetIdxNew 100 closure_parent [0] closure_border =
      Some (0, closure_parent, dpb').
Proof.
  eexists.
  assert (Hrun : ∃ bp' dpb',
    dpborder_partGetIdxNew 100 closure_parent [0] closure_border =
      Some (0, bp', dpb')) by (do 2 eexists; reflexivity).
  destruct Hrun as (bp' & dpb' & Hrun).
  pose proof (union_builder_restores 100 closure_parent [0] closure_border
                0 bp' dpb' ltac:(split; [reflexivity|repeat constructor; lia])
                Hrun) as ->.
  reflexivity.
Defined.

Lemma unmark_from_id (pc : list Z) lo :
  0 ≤ lo → Forall (λ c, 0 ≤ c) pc → unmark_from lo pc = Some pc.
Proof.
  intros Hlo Hpos. unfold unmark_from.
  match goal with |- context [c_for ?a ?hi ?body ?st0] =>
    destruct (c_for_total (λ i st, 0 ≤ i ∧ st = pc) (λ _ st, st = pc)
                a hi body st0) as (i & st & -> & ->); [| | |done]
  end.
  - intros i st [Hi ->] Hlt.
    destruct (rd_in_range pc i) as [c Hc]; [lia|]. rewrite Hc. simpl.
    rewrite Forall_forall in Hpos. apply rd_Some in Hc as [_ Hc].
    pose proof (Hpos c ltac:(by eapply list_elem_of_lookup_2)).
    destruct (Z.ltb_spec c 0); [lia|]. eexists. split; [done|]. simpl.
    split; [lia|]. split; [lia|done].
  - by intros i st [_ ->] _.
  - done.
Qed.

(** X16.  With no chosen start and no extension character there is nothing to
    merge: the union builder returns -1 and leaves the parent and the whole
    border, the character buffer included, as they were. *)
Theorem union_builder_empty FARAWAY bp dpb gs D :
  Forall (λ c, 0 ≤ c) (partchars bp) →
  top_end dpb = Some gs →
  dpborder_getTopDelimiter dpb = Some D →
  extborderchar dpb < 0 →
  dpborder_partGetIdxNew FARAWAY bp [] dpb = Some (-1, bp, dpb).
Proof.
  intros Hpos Htop HD Hext. unfold dpborder_partGetIdxNew.
  unfold top_end in Htop. rewrite Htop, HD. simpl.
  destruct (Z.geb_spec (extborderchar dpb) 0); [lia|]. simpl.
  rewrite Z.eqb_refl, unmark_from_id by done. simpl.
  by destruct bp, dpb.
Qed.

Lemma union_builder_empty_witness :
  dpborder_partGetIdxNew 100 closure_parent [] closure_border =
  Some (-1, closure_parent, closure_border).
Proof.
  apply (union_builder_empty 100 closure_parent closure_border 1 2);
    [repeat constructor; lia|reflexivity|reflexivity|simpl; lia].
Defined.

(** ** The union builder, in full *)

Lemma remap_app map (l l' : list Z) :
  remap map (l ++ l') = remap map l ++ remap map l'.
Proof. unfold remap. apply omap_app. Qed.

Lemma run_start_free d (l : list Z) : ∀ s p, d ∉ l → run_start d s p l = s.
Proof.
  induction l as [|c l IH]; intros s p Hd; [done|]. simpl.
  apply not_elem_of_cons in Hd as [Hcd Hd].
  destruct (Z.eqb_spec c d); [done|]. by apply IH.
Qed.

Lemma run_start_split d (run rest : list Z) : ∀ s p,
  d ∉ run →
  run_start d s p (run ++ d :: rest) =
  run_start d (p + Z.of_nat (length run) + 1)
    (p + Z.of_nat (length run) + 1) rest.
Proof.
  induction run as [|c run IH]; intros s p Hd; simpl.
  - rewrite Z.eqb_refl. f_equal; lia.
  - apply not_elem_of_cons in Hd as [Hcd Hd].
    destruct (Z.eqb_spec c d); [done|]. rewrite IH by done. f_equal; lia.
Qed.

Lemma run_start_snoc d (l : list Z) c : ∀ s p,
  run_start d s p (l ++ [c]) =
  if c =? d then p + Z.of_nat (length l) + 1 else run_start d s p l.
Proof.
  induction l as [|a l IH]; intros s p; simpl.
  - destruct (c =? d); [lia|done].
  - destruct (a =? d); rewrite IH; destruct (c =? d); lia || done.
Qed.

Lemma run_start_range d (l : list Z) : ∀ s p,
  s ≤ p → s ≤ run_start d s p l ≤ p + Z.of_nat (length l).
Proof.
  induction l as [|a l IH]; intros s p Hsp; [simpl; lia|].
  simpl run_start. rewrite length_cons, Nat2Z.inj_succ.
  destruct (a =? d).
  - specialize (IH (p + 1) (p + 1)). lia.
  - specialize (IH s (p + 1)). lia.
Qed.

Lemma subsets_from_snoc_delimiter d (l : list Z) : ∀ s p,
  subsets_from d s p (l ++ [d]) =
  subsets_from d s p l ++ [(p + Z.of_nat (length l) + 1, [])].
Proof.
  induction l as [|a l IH]; intros s p.
  - simpl. rewrite Z.eqb_refl. do 3 f_equal; lia.
  - rewrite <- app_comm_cons, !subsets_from_cons.
    rewrite length_cons, Nat2Z.inj_succ.
    replace (p + Z.succ (Z.of_nat (length l)) + 1)
      with (p + 1 + Z.of_nat (length l) + 1) by lia.
    destruct (a =? d); rewrite IH; [done|].
    destruct (subsets_from_head d s (p + 1) l) as (run & rest & ->). done.
Qed.

Section UnionSpec.

Variables (map : list Z) (d D : Z) (starts : list Z).

Local Abbreviation kept := (kept map D starts).

Lemma kept_snoc_delimiter (l : list Z) s p :
  flat_map kept (subsets_from d s p (l ++ [d])) =
  flat_map kept (subsets_from d s p l) ++
  kept (p + Z.of_nat (length l) + 1, []).
Proof.
  rewrite subsets_from_snoc_delimiter, flat_map_app. simpl.
  by rewrite app_nil_r.
Qed.

Lemma kept_snoc_char (l : list Z) c : ∀ s p,
  c ≠ d →
  flat_map kept (subsets_from d s p (l ++ [c])) =
  flat_map kept (subsets_from d s p l) ++
  (if bool_decide (run_start d s p l ∈ starts) then [] else remap map [c]).
Proof.
  remember (length l) as n eqn:Hn. revert l Hn.
  induction (lt_wf n) as [n _ IH]. intros l -> s p Hcd.
  destruct (first_delimiter d l) as [Hd|(run & rest & -> & Hd)].
  - rewrite run_start_free by done.
    rewrite (proj2 (subsets_from_free d l s p Hd)).
    assert (Hd' : d ∉ l ++ [c]).
    { rewrite elem_of_app, list_elem_of_singleton. intros [?|?]; done. }
    rewrite (proj2 (subsets_from_free d (l ++ [c]) s p Hd')).
    simpl. unfold kept. simpl. rewrite !app_nil_r.
    destruct (bool_decide (s ∈ starts)); [done|].
    by rewrite remap_app.
  - rewrite run_start_split by done. rewrite <- app_assoc, <- app_comm_cons.
    rewrite !(proj1 (subsets_from_free d run s p Hd)). simpl.
    rewrite <- app_assoc. f_equal.
    apply (IH (length rest)); [|done..]. rewrite length_app. simpl. lia.
Qed.

Lemma kept_prefix (l l' : list Z) s p :
  flat_map kept (subsets_from d s p l) `prefix_of`
  flat_map kept (subsets_from d s p (l ++ l')).
Proof.
  induction l' as [|c l' IH] using rev_ind; [by rewrite app_nil_r|].
  rewrite app_assoc. etrans; [exact IH|].
  destruct (decide (c = d)) as [->|Hcd].
  - rewrite kept_snoc_delimiter. by apply prefix_app_r.
  - rewrite kept_snoc_char by done. by apply prefix_app_r.
Qed.

End UnionSpec.

Lemma remap_cons map c (l : list Z) :
  remap map (c :: l) =
  match rd map c with
  | Some m => if m =? -1 then [] else [m]
  | None => []
  end ++ remap map l.
Proof.
  change (c :: l) with ([c] ++ l). rewrite remap_app. f_equal.
  unfold remap. simpl. destruct (rd map c) as [m|]; simpl; [|done].
  by destruct (m =? -1).
Qed.

(** The walk over a chosen subset appends the characters of the subset
    that stay in the border. *)
Lemma union_subset_run gp gs map pc d s (w : list Z) :
  0 ≤ gs → 0 ≤ s →
  (∀ c, c ∈ run_prefix d (drop (Z.to_nat s) pc) → ∃ m, rd map c = Some m) →
  gs + Z.of_nat (length (w ++ remap map (run_prefix d (drop (Z.to_nat s) pc))))
    ≤ Z.of_nat (length gp) →
  ∃ j, union_subset map pc d s (overwrite gp gs w)
         (gs + Z.of_nat (length w)) =
       Some (j, (overwrite gp gs
                   (w ++ remap map (run_prefix d (drop (Z.to_nat s) pc))),
                 gs + Z.of_nat
                   (length (w ++ remap map
                              (run_prefix d (drop (Z.to_nat s) pc)))))).
Proof.
  intros Hgs Hs Hmap Hcap. unfold union_subset.
  set (fin := w ++ remap map (run_prefix d (drop (Z.to_nat s) pc))) in *.
  match goal with |- context [c_for ?lo ?hi ?body ?st0] =>
    destruct (c_for_total
      (λ j '(g, e), s ≤ j ∧ ∃ wj,
         g = overwrite gp gs wj ∧ e = gs + Z.of_nat (length wj) ∧
         wj ++ remap map (run_prefix d (drop (Z.to_nat j) pc)) = fin ∧
         ∀ c, c ∈ run_prefix d (drop (Z.to_nat j) pc) →
              c ∈ run_prefix d (drop (Z.to_nat s) pc))
      (λ _ '(g, e),
         g = overwrite gp gs fin ∧ e = gs + Z.of_nat (length fin))
      lo hi body st0) as (j & [g e] & -> & -> & ->); [| | |by eauto]
  end.
  - intros j [g e] (Hj & wj & -> & -> & Hfin & Hsub) Hlt.
    destruct (rd_in_range pc j) as [c Hc]; [lia|]. rewrite Hc. simpl.
    destruct (proj1 (rd_Some _ _ _) Hc) as [_ Hc'].
    rewrite (drop_S _ _ _ Hc') in Hfin, Hsub. simpl in Hfin, Hsub.
    replace (S (Z.to_nat j)) with (Z.to_nat (j + 1)) in Hfin, Hsub by lia.
    destruct (Z.eqb_spec c d) as [Hcd|Hcd].
    { eexists. split; [done|]. simpl. rewrite app_nil_r in Hfin.
      by subst wj. }
    rewrite remap_cons in Hfin.
    destruct (Hmap c) as [m Hm]; [apply Hsub; by left|]. rewrite Hm in *.
    simpl.
    assert (Hsub' : ∀ c', c' ∈ run_prefix d (drop (Z.to_nat (j + 1)) pc) →
                          c' ∈ run_prefix d (drop (Z.to_nat s) pc)).
    { intros c' Hc''. apply Hsub. by right. }
    destruct (Z.eqb_spec m (-1)) as [Hm1|Hm1]; simpl.
    + eexists. split; [done|]. simpl. split; [lia|]. split; [lia|].
      exists wj. done.
    + rewrite overwrite_wr_total; [|done|].
      2:{ apply (f_equal length) in Hfin. rewrite !length_app in Hfin.
          simpl in Hfin. lia. }
      simpl. eexists. split; [done|]. simpl. split; [lia|]. split; [lia|].
      exists (wj ++ [m]). split; [done|]. split.
      { rewrite length_app. simpl. lia. }
      split; [|done]. by rewrite <- app_assoc.
  - intros j [g e] (Hj & wj & -> & -> & Hfin & _) Hge.
    rewrite drop_ge in Hfin by lia. simpl in Hfin.
    rewrite app_nil_r in Hfin. by subst wj.
  - split; [lia|]. exists w. done.
Qed.

(** Where the marks are on subset starts only, the run of a start without
    mark reads as in the parent. *)
Lemma marked_run_prefix chars d (chosen : Z → Prop) pc :
  marked chars chosen 0 pc →
  (∀ k, chosen k → is_start chars d k) →
  ∀ (n : nat) j, (length chars - Z.to_nat j ≤ n)%nat → 0 ≤ j → ¬ chosen j →
    run_prefix d (drop (Z.to_nat j) pc) =
    run_prefix d (drop (Z.to_nat j) chars).
Proof.
  intros (Hlen & _ & Hpc) Hch.
  induction n as [|n IH]; intros j Hn Hj Hnot.
  - rewrite !drop_ge by lia. done.
  - destruct (decide (Z.to_nat j < length chars)%nat) as [Hlt|?];
      [|rewrite !drop_ge by lia; done].
    destruct (lookup_lt_is_Some_2 chars (Z.to_nat j) Hlt) as [c Hc].
    assert (Hrd : rd chars j = Some c) by (apply rd_Some; done).
    destruct (Hpc j c) as [[? _]|[_ Hpcj]]; [lia|done|done|].
    apply rd_Some in Hpcj as [_ Hpcj].
    rewrite (drop_S _ _ _ Hc), (drop_S _ _ _ Hpcj). simpl.
    destruct (Z.eqb_spec c d) as [_|Hcd]; [done|]. f_equal.
    replace (S (Z.to_nat j)) with (Z.to_nat (j + 1)) by lia.
    apply IH; [lia|lia|].
    intros [[?|Hprev] _]%Hch; [lia|].
    replace (j + 1 - 1) with j in Hprev by lia. congruence.
Qed.

Section UnionRun.

Variables (chars : list Z) (d : Z) (map : list Z) (D ext : Z).
Variables (gp : list Z) (gs : Z).

Hypothesis Hwf : partition_wf d chars.
Hypothesis Hpos : Forall (λ c, 0 ≤ c) chars.
Hypothesis Hlev : level_pre d D map ext.
Hypothesis Hgs : 0 ≤ gs.

Local Abbreviation is_start := (is_start chars d).
Local Abbreviation marked := (marked chars).

Lemma map_readable c : c ∈ chars → ∃ m, rd map c = Some m.
Proof.
  intros Hc. apply rd_in_range.
  pose proof (lp_delim _ _ _ _ Hlev) as Hd. apply rd_range in Hd.
  rewrite Forall_forall in Hpos. specialize (Hpos c Hc).
  apply list_elem_of_lookup in Hc as [k Hk].
  pose proof (wf_bound _ _ Hwf _ _ Hk). lia.
Qed.

Lemma run_prefix_drop_sub (l : list Z) (n : nat) c :
  c ∈ run_prefix d (drop n l) → c ∈ l.
Proof.
  intros Hc%run_prefix_sublist. by eapply subseteq_drop.
Qed.

(** The loop over the chosen starts appends their subsets, in the order of
    the starts, and marks the starts. *)
Lemma union_marked_run (starts : list Z) :
  NoDup starts → (∀ s, s ∈ starts → is_start s) →
  gs + Z.of_nat (length (flat_map (λ s, remap map (subset_at d chars s)) starts))
    ≤ Z.of_nat (length gp) →
  ∃ i pc,
    union_marked map d starts chars gp gs =
      Some (i, (pc,
                overwrite gp gs
                  (flat_map (λ s, remap map (subset_at d chars s)) starts),
                gs + Z.of_nat
                  (length (flat_map (λ s, remap map (subset_at d chars s))
                             starts)))) ∧
    marked (λ x, x ∈ starts) 0 pc.
Proof.
  intros Hnd Hstarts Hcap. unfold union_marked, StpVecGetSize.
  set (h := λ s, remap map (subset_at d chars s)) in *.
  match goal with |- context [c_for ?lo ?hi ?body ?st0] =>
    destruct (c_for_total
      (λ i '(pc, g, e), 0 ≤ i ≤ Z.of_nat (length starts) ∧
         marked (λ x, x ∈ take (Z.to_nat i) starts) 0 pc ∧
         g = overwrite gp gs (flat_map h (take (Z.to_nat i) starts)) ∧
         e = gs + Z.of_nat (length (flat_map h (take (Z.to_nat i) starts))))
      (λ _ '(pc, g, e),
         marked (λ x, x ∈ starts) 0 pc ∧
         g = overwrite gp gs (flat_map h starts) ∧
         e = gs + Z.of_nat (length (flat_map h starts)))
      lo hi body st0) as (i & [[pc g] e] & Hrun & Hm & -> & ->);
      [| | |by eauto]
  end.
  - intros i [[pc g] e] (Hi & Hm & -> & ->) Hlt.
    destruct (rd_in_range starts i) as [s Hs]; [lia|]. rewrite Hs. simpl.
    destruct (proj1 (rd_Some _ _ _) Hs) as [_ Hs'].
    assert (Htake : ∀ x, x ∈ take (Z.to_nat (i + 1)) starts ↔
                         x ∈ take (Z.to_nat i) starts ∨ x = s).
    { intros x. replace (Z.to_nat (i + 1)) with (S (Z.to_nat i)) by lia.
      rewrite (take_S_r _ _ _ Hs'), elem_of_app, list_elem_of_singleton. done. }
    assert (Hnew : s ∉ take (Z.to_nat i) starts).
    { intros [k Hk]%list_elem_of_lookup. apply lookup_lt_Some in Hk as Hkl.
      rewrite length_take in Hkl. rewrite lookup_take_lt in Hk by lia.
      pose proof (NoDup_lookup _ _ _ _ Hnd Hk Hs'). lia. }
    assert (Hsub : ∀ s', s' ∈ take (Z.to_nat i) starts → is_start s').
    { intros s' Hs'in. apply Hstarts.
      apply elem_of_take in Hs'in as (i0 & Hi0 & _).
      by eapply list_elem_of_lookup_2. }
    destruct (Hstarts s) as [Hs0 (c & Hc & Hcd)];
      [by eapply list_elem_of_lookup_2|].
    pose proof (rd_range _ _ _ Hc) as Hsr.
    assert (Hrun : run_prefix d (drop (Z.to_nat s) pc) = subset_at d chars s).
    { unfold subset_at.
      eapply (marked_run_prefix chars d _ pc Hm Hsub (length chars)); [lia|lia|done]. }
    assert (Hnext : flat_map h (take (Z.to_nat (i + 1)) starts) =
                    flat_map h (take (Z.to_nat i) starts) ++ h s).
    { replace (Z.to_nat (i + 1)) with (S (Z.to_nat i)) by lia.
      rewrite (take_S_r _ _ _ Hs'), flat_map_app. simpl.
      by rewrite app_nil_r. }
    assert (Hpre : (length (flat_map h (take (Z.to_nat (i + 1)) starts)) ≤
                    length (flat_map h starts))%nat).
    { apply prefix_length. rewrite <- (take_drop (Z.to_nat (i + 1)) starts) at 2.
      rewrite flat_map_app. by apply prefix_app_r. }
    destruct (union_subset_run gp gs map pc d s
                (flat_map h (take (Z.to_nat i) starts))) as [j Hwalk];
      [done|lia| | |].
    { rewrite Hrun. intros c' Hc'%run_prefix_drop_sub. by apply map_readable. }
    { rewrite Hrun. fold (h s). rewrite <- Hnext. lia. }
    rewrite Hwalk. simpl. rewrite Hrun. fold (h s). rewrite <- Hnext.
    destruct Hm as (Hlen0 & Hnn0 & Hpc0).
    destruct (Hpc0 s c) as [[? _]|[_ Hpcs]]; [lia|done|done|].
    rewrite Hpcs. simpl.
    rewrite wr_in_range by lia. simpl.
    pose proof (wr_in_range pc s (- c - 1) ltac:(lia)) as Hwr.
    eexists. split; [done|]. simpl. split; [lia|]. split; [lia|].
    split; [|done].
    rewrite Forall_forall in Hpos.
    split; [by rewrite length_insert|]. split.
    + intros s' c' _ Hc'. apply Hpos.
      apply rd_Some in Hc' as [_ Hc']. by eapply list_elem_of_lookup_2.
    + intros k c' _ Hc'. destruct (decide (k = s)) as [->|Hne].
      * left. split; [apply Htake; by right|].
        rewrite (rd_wr_eq _ _ _ _ Hwr). congruence.
      * rewrite (rd_wr_ne _ _ _ _ _ Hwr) by done.
        destruct (Hpc0 k c') as [[? ?]|[? ?]];
          [apply rd_range in Hc'; lia|done| |].
        -- left. split; [apply Htake; by left|done].
        -- right. split; [|done]. intros [?| ->]%Htake; done.
  - intros i [[pc g] e] (Hi & Hm & -> & ->) Hge.
    rewrite take_ge in * by lia. done.
  - split; [lia|]. change (Z.to_nat 0) with 0%nat. rewrite take_0. simpl.
    rewrite overwrite_nil. split; [|split; [done|lia]].
    rewrite Forall_forall in Hpos.
    split; [done|]. split.
    + intros s c _ Hc. apply Hpos.
      apply rd_Some in Hc as [_ Hc]. by eapply list_elem_of_lookup_2.
    + intros k c _ Hc. right. split; [apply not_elem_of_nil|done].
Qed.

Lemma run_start_at_start i :
  is_start i → run_start d 0 0 (take (Z.to_nat i) chars) = i.
Proof.
  intros [[->|Hprev] (c & Hc & _)]; [done|].
  pose proof (rd_range _ _ _ Hprev). apply rd_Some in Hprev as [_ Hprev].
  replace (Z.to_nat i) with (S (Z.to_nat (i - 1))) by lia.
  rewrite (take_S_r _ _ _ Hprev), run_start_snoc, Z.eqb_refl.
  rewrite length_take. lia.
Qed.

Lemma overwrite_rd_last (w : list Z) :
  w ≠ [] → gs + Z.of_nat (length w) ≤ Z.of_nat (length gp) →
  rd (overwrite gp gs w) (gs + Z.of_nat (length w) - 1) = last w.
Proof.
  intros Hw Hcap.
  assert (0 < length w)%nat by (destruct w; [done|simpl; lia]).
  replace (gs + Z.of_nat (length w) - 1)
    with (gs + Z.of_nat (Init.Nat.pred (length w))) by lia.
  rewrite overwrite_rd by (done || lia). by rewrite last_lookup.
Qed.

Lemma no_pair_snoc (w : list Z) x :
  (∀ k : nat, w !! k = Some D → w !! S k ≠ Some D) →
  ¬ (last w = Some D ∧ x = D) →
  ∀ k : nat, (w ++ [x]) !! k = Some D → (w ++ [x]) !! S k ≠ Some D.
Proof.
  intros Hw Hx k Hk Hk'.
  destruct (lookup_snoc_pair _ _ _ _ _ Hk Hk') as [[? ?]|[? ?]].
  - by apply (Hw k).
  - by apply Hx.
Qed.

Lemma pair_in_prefix (w full : list Z) :
  w ++ [D] `prefix_of` full → last w = Some D →
  ∃ k : nat, full !! k = Some D ∧ full !! S k = Some D.
Proof.
  intros Hpre Hlast. rewrite last_lookup in Hlast.
  assert (0 < length w)%nat.
  { destruct w; [done|simpl; lia]. }
  exists (Init.Nat.pred (length w)). split.
  - eapply prefix_lookup_Some; [|done]. by apply lookup_app_l_Some.
  - eapply prefix_lookup_Some; [|done].
    replace (S (Init.Nat.pred (length w))) with (length w) by lia.
    by rewrite list_lookup_middle.
Qed.

(** The loop over the parent's characters appends the subsets that are not
    chosen, each behind a delimiter, and stops when a delimiter would
    follow a delimiter. *)
Lemma copy_remaining_run (starts U pc : list Z) fl :
  (∀ s, s ∈ starts → is_start s) →
  marked (λ x, x ∈ starts) 0 pc →
  U ≠ [] → D ∉ U →
  gs + Z.of_nat (length (U ++ kept_chars map d D chars starts))
    ≤ Z.of_nat (length gp) →
  ∃ i pc' g' e' dc' fl',
    copy_remaining map d D pc
      (overwrite gp gs (U ++ kept map D starts (0, [])))
      (gs + Z.of_nat (length (U ++ kept map D starts (0, [])))) true fl =
      Some (i, (pc', g', e', dc', fl')) ∧
    ∃ w, g' = overwrite gp gs w ∧ e' = gs + Z.of_nat (length w) ∧
         w ≠ [] ∧ gs + Z.of_nat (length w) ≤ Z.of_nat (length gp) ∧
    ((fl' = -1 ∧
      ∃ k : nat, (U ++ kept_chars map d D chars starts) !! k = Some D ∧
                 (U ++ kept_chars map d D chars starts) !! S k = Some D) ∨
     (fl' = fl ∧ w = U ++ kept_chars map d D chars starts ∧
      ∀ k : nat, (U ++ kept_chars map d D chars starts) !! k = Some D →
                 (U ++ kept_chars map d D chars starts) !! S k ≠ Some D)).
Proof.
  intros Hstarts Hm HU HUD Hcap. unfold copy_remaining.
  pose proof (proj1 Hm) as Hlen.
  set (F := λ l, flat_map (kept map D starts) (subsets_from d 0 0 l)).
  set (ls := λ l, run_start d 0 0 l).
  change (kept_chars map d D chars starts) with (F chars) in *.
  assert (Hpre : ∀ i : nat, U ++ F (take i chars) `prefix_of` U ++ F chars).
  { intros i. apply prefix_app. rewrite <- (take_drop i chars) at 2.
    apply kept_prefix. }
  assert (Hroom : ∀ (i : nat) w, w `prefix_of` U ++ F (take i chars) →
                   gs + Z.of_nat (length w) ≤ Z.of_nat (length gp)).
  { intros i w Hw. apply prefix_length in Hw.
    pose proof (prefix_length _ _ (Hpre i)). lia. }
  pose proof (proj1 (Forall_forall _ _) Hpos) as Hpos'. simpl in Hpos'.
  match goal with |- context [c_for ?lo ?hi ?body ?st0] =>
    destruct (c_for_total
      (λ i '(pc, g, e, dc, f), 0 ≤ i ≤ Z.of_nat (length chars) ∧ f = fl ∧
         marked (λ x, x ∈ starts) i pc ∧
         g = overwrite gp gs (U ++ F (take (Z.to_nat i) chars)) ∧
         e = gs + Z.of_nat (length (U ++ F (take (Z.to_nat i) chars))) ∧
         (∀ k : nat, (U ++ F (take (Z.to_nat i) chars)) !! k = Some D →
                     (U ++ F (take (Z.to_nat i) chars)) !! S k ≠ Some D) ∧
         (ls (take (Z.to_nat i) chars) ∉ starts → dc = true) ∧
         (ls (take (Z.to_nat i) chars) ∈ starts →
          ls (take (Z.to_nat i) chars) < i → dc = false))
      (λ _ '(pc, g, e, dc, f),
         ∃ w, g = overwrite gp gs w ∧ e = gs + Z.of_nat (length w) ∧
              w ≠ [] ∧ gs + Z.of_nat (length w) ≤ Z.of_nat (length gp) ∧
         ((f = -1 ∧ ∃ k : nat, (U ++ F chars) !! k = Some D ∧
                               (U ++ F chars) !! S k = Some D) ∨
          (f = fl ∧ w = U ++ F chars ∧
           ∀ k : nat, (U ++ F chars) !! k = Some D →
                      (U ++ F chars) !! S k ≠ Some D)))
      lo hi body st0)
      as (i & [[[[pc' g'] e'] dc'] fl'] & Hrun & Hpost); [| | |by eauto 10]
  end.
  - intros i [[[[pc1 g1] e1] dc1] f1]
      (Hi & -> & Hm1 & -> & -> & Hadj & Hdc1 & Hdc2) Hlt.
    rewrite Hlen in Hlt.
    set (w := U ++ F (take (Z.to_nat i) chars)) in *.
    destruct (rd_in_range chars i) as [c Hc]; [lia|].
    destruct (proj1 (rd_Some _ _ _) Hc) as [_ Hc'].
    pose proof (Hpos' c ltac:(by eapply list_elem_of_lookup_2)) as Hc0.
    assert (Htake : take (Z.to_nat (i + 1)) chars =
                    take (Z.to_nat i) chars ++ [c]).
    { replace (Z.to_nat (i + 1)) with (S (Z.to_nat i)) by lia.
      by apply take_S_r. }
    assert (Hlt_take : Z.of_nat (length (take (Z.to_nat i) chars)) = i).
    { rewrite length_take. lia. }
    assert (Hw : w ≠ []) by (unfold w; by destruct U).
    assert (Hnext : ∀ pc2, length pc2 = length pc1 →
              (∀ j, i + 1 ≤ j → rd pc2 j = rd pc1 j) →
              marked (λ x, x ∈ starts) (i + 1) pc2).
    { intros pc2 Hl2 Hsame. destruct Hm1 as (Hl1 & Hnn1 & Hpc1).
      split; [congruence|]. split; [done|].
      intros j cj Hj Hcj. rewrite Hsame by done. apply Hpc1; [lia|done]. }
    pose proof (run_start_range d (take (Z.to_nat i) chars) 0 0 ltac:(lia))
      as Hls. fold (ls (take (Z.to_nat i) chars)) in Hls.
    destruct Hm1 as (Hl1 & Hnn1 & Hpc1).
    destruct (Hpc1 i c) as [[Hin Hp]|[Hout Hp]]; [lia|done| |];
      rewrite Hp; simpl.
    + (* a chosen start *)
      destruct (Z.ltb_spec (- c - 1) 0); [|lia].
      rewrite wr_in_range by lia. simpl.
      pose proof (wr_in_range pc1 i (- (- c - 1 + 1)) ltac:(lia)) as Hwr.
      eexists. split; [done|]. simpl.
      destruct (Hstarts i Hin) as [Hst (c' & Hc'' & Hcd)].
      assert (c' = c) by congruence. subst c'.
      pose proof (run_start_at_start i (Hstarts i Hin)) as Hlsi.
      fold (ls (take (Z.to_nat i) chars)) in Hlsi.
      assert (HF : F (take (Z.to_nat (i + 1)) chars) =
                   F (take (Z.to_nat i) chars)).
      { unfold F. rewrite Htake, kept_snoc_char by done.
        unfold ls in Hlsi.
        rewrite Hlsi, bool_decide_eq_true_2 by done. by rewrite app_nil_r. }
      assert (Hls' : ls (take (Z.to_nat (i + 1)) chars) = i).
      { unfold ls. rewrite Htake, run_start_snoc.
        destruct (Z.eqb_spec c d); [done|]. exact Hlsi. }
      rewrite HF, Hls'. fold w.
      split; [lia|]. split; [lia|]. split; [done|]. split.
      { apply Hnext; [by rewrite length_insert|].
        intros j Hj. apply (rd_wr_ne _ _ _ _ _ Hwr). lia. }
      split; [done|]. split; [done|]. split; [done|]. split; [done|done].
    + (* no mark *)
      destruct (Z.ltb_spec c 0); [lia|].
      destruct (Z.eqb_spec c d) as [Hcd|Hcd].
      * (* a delimiter *)
        subst c.
        assert (Hi1 : i + 1 < Z.of_nat (length chars)).
        { destruct (wf_last _ _ Hwf) as (cl & Hcl & Hcld).
          rewrite last_lookup in Hcl.
          destruct (decide (i + 1 = Z.of_nat (length chars))) as [Heq|]; [|lia].
          replace (Init.Nat.pred (length chars)) with (Z.to_nat i) in Hcl by lia.
          congruence. }
        destruct (rd_in_range chars (i + 1)) as [c1 Hc1]; [lia|].
        pose proof (Hpos' c1 ltac:(apply rd_Some in Hc1 as [_ ?];
                                  by eapply list_elem_of_lookup_2)) as Hc10.
        assert (HF : F (take (Z.to_nat (i + 1)) chars) =
                     F (take (Z.to_nat i) chars) ++
                     kept map D starts (i + 1, [])).
        { unfold F. rewrite Htake, kept_snoc_delimiter, Hlt_take.
          by rewrite Z.add_0_l. }
        assert (Hls' : ls (take (Z.to_nat (i + 1)) chars) = i + 1).
        { unfold ls. rewrite Htake, run_start_snoc, Z.eqb_refl, Hlt_take. lia. }
        destruct (Hpc1 (i + 1) c1) as [[Hin1 Hp1]|[Hout1 Hp1]]; [lia|done| |];
          rewrite Hp1; simpl.
        -- destruct (Z.geb_spec (- c1 - 1) 0); [lia|].
           assert (Hk : kept map D starts (i + 1, []) = []).
           { unfold kept. simpl. by rewrite bool_decide_eq_true_2. }
           rewrite Hk, app_nil_r in HF.
           eexists. split; [done|]. simpl. rewrite HF, Hls'. fold w.
           split; [lia|]. split; [lia|]. split; [done|].
           split; [by apply Hnext|]. split; [done|]. split; [done|].
           split; [done|]. split; [done|]. intros _ ?. lia.
        -- destruct (Z.geb_spec c1 0); [|lia].
           rewrite overwrite_rd_last by (done || by eapply (Hroom (Z.to_nat i))).
           destruct (last w) as [lastchar|] eqn:Hlast;
             [|by apply last_None in Hlast].
           simpl.
           assert (Hk : kept map D starts (i + 1, []) = [D]).
           { unfold kept. simpl. by rewrite bool_decide_eq_false_2. }
           rewrite Hk in HF.
           assert (HwD : w ++ [D] = U ++ F (take (Z.to_nat (i + 1)) chars)).
           { rewrite HF. unfold w. by rewrite <- app_assoc. }
           destruct (Z.eqb_spec D lastchar) as [<-|HlD].
           { eexists. split; [done|]. simpl. exists w.
             split; [done|]. split; [done|]. split; [done|].
             split; [by eapply (Hroom (Z.to_nat i))|].
             left. split; [done|].
             eapply (pair_in_prefix w); [|done]. rewrite HwD. apply Hpre. }
           rewrite overwrite_wr_total; [|done|].
           2:{ pose proof (Hroom (Z.to_nat (i + 1)) (w ++ [D])) as Hr.
               rewrite HwD in Hr. specialize (Hr ltac:(done)).
               rewrite <- HwD, length_app in Hr. simpl in Hr. lia. }
           simpl. eexists. split; [done|]. simpl.
           rewrite <- HwD, Hls'.
           split; [lia|]. split; [lia|]. split; [done|].
           split; [by apply Hnext|]. split; [done|]. split.
           { rewrite length_app. simpl. lia. }
           split.
           { apply no_pair_snoc; [done|]. intros [? _]. congruence. }
           split; [done|done].
      * (* a character *)
        assert (HF : F (take (Z.to_nat (i + 1)) chars) =
                     F (take (Z.to_nat i) chars) ++
                     (if bool_decide (ls (take (Z.to_nat i) chars) ∈ starts)
                      then [] else remap map [c])).
        { unfold F. by rewrite Htake, kept_snoc_char. }
        assert (Hls' : ls (take (Z.to_nat (i + 1)) chars) =
                       ls (take (Z.to_nat i) chars)).
        { unfold ls. rewrite Htake, run_start_snoc.
          by destruct (Z.eqb_spec c d). }
        destruct dc1; simpl.
        -- assert (Hnls : ls (take (Z.to_nat i) chars) ∉ starts).
           { intros Hin.
             destruct (decide (ls (take (Z.to_nat i) chars) = i)) as [Heq|?];
               [by rewrite Heq in Hin|].
             specialize (Hdc2 Hin ltac:(lia)). done. }
           rewrite bool_decide_eq_false_2 in HF by done.
           destruct (map_readable c) as [m Hmc];
             [by eapply list_elem_of_lookup_2|].
           rewrite Hmc. simpl. rewrite remap_cons, Hmc in HF.
           change (remap map []) with (@nil Z) in HF.
           rewrite app_nil_r in HF.
           destruct (Z.eqb_spec m (-1)) as [Hm1'|Hm1']; simpl.
           ++ eexists. split; [done|]. simpl. rewrite HF, Hls', app_nil_r.
              fold w. split; [lia|]. split; [lia|]. split; [done|].
              split; [by apply Hnext|]. split; [done|]. split; [done|].
              split; [done|]. split; [done|]. intros ?. done.
           ++ assert (HwD : w ++ [m] = U ++ F (take (Z.to_nat (i + 1)) chars)).
              { rewrite HF. unfold w. by rewrite <- app_assoc. }
              rewrite overwrite_wr_total; [|done|].
              2:{ pose proof (Hroom (Z.to_nat (i + 1)) (w ++ [m])) as Hr.
                  rewrite HwD in Hr. specialize (Hr ltac:(done)).
                  rewrite <- HwD, length_app in Hr. simpl in Hr. lia. }
              simpl. eexists. split; [done|]. simpl.
              rewrite <- HwD, Hls'.
              split; [lia|]. split; [lia|]. split; [done|].
              split; [by apply Hnext|]. split; [done|]. split.
              { rewrite length_app. simpl. lia. }
              split.
              { apply no_pair_snoc; [done|]. intros [_ ->].
                pose proof (wf_bound _ _ Hwf _ _ Hc').
                destruct (lp_range _ _ _ _ Hlev c D); [lia|done|done|lia]. }
              split; [done|]. intros ?. done.
        -- assert (Hinls : ls (take (Z.to_nat i) chars) ∈ starts).
           { destruct (decide (ls (take (Z.to_nat i) chars) ∈ starts));
               [done|]. by specialize (Hdc1 ltac:(done)). }
           rewrite bool_decide_eq_true_2, app_nil_r in HF by done.
           eexists. split; [done|]. simpl. rewrite HF, Hls'. fold w.
           split; [lia|]. split; [lia|]. split; [done|].
           split; [by apply Hnext|]. split; [done|]. split; [done|].
           split; [done|]. split; [done|done].
  - intros i [[[[pc1 g1] e1] dc1] f1]
      (Hi & -> & Hm1 & -> & -> & Hadj & _) Hge.
    rewrite Hlen in Hge. rewrite take_ge in * by lia.
    exists (U ++ F chars). split; [done|]. split; [done|].
    split; [by destruct U|]. split; [done|]. by right.
  - split; [lia|]. split; [done|]. split; [done|].
    change (Z.to_nat 0) with 0%nat. rewrite take_0.
    change (F []) with (kept map D starts (0, []) ++ []).
    rewrite app_nil_r. split; [done|]. split; [done|]. split.
    + unfold kept. simpl. destruct (bool_decide (0 ∈ starts)).
      * rewrite app_nil_r. intros k Hk%list_elem_of_lookup_2. done.
      * apply no_pair_snoc.
        -- intros k Hk%list_elem_of_lookup_2. done.
        -- intros [Hl%last_Some_elem_of _]. done.
    + unfold ls. simpl. split; [done|]. intros _ ?. lia.
Qed.

End UnionRun.

(** *** The room that the child takes *)

Lemma subsets_from_total d (l : list Z) : ∀ s p,
  sum_list_with (λ sr : Z * list Z, S (length sr.2)) (subsets_from d s p l) =
  S (length l).
Proof.
  induction l as [|c l IH]; intros s p; [done|].
  rewrite subsets_from_cons. destruct (c =? d).
  - simpl. by rewrite IH.
  - destruct (subsets_from_head d s (p + 1) l) as (run & rest & Heq).
    specialize (IH s (p + 1)). rewrite Heq in *. simpl in *. lia.
Qed.

Lemma flat_map_length_le {A} (f : A → list Z) (g : A → nat) (l : list A) :
  (∀ x, x ∈ l → (length (f x) ≤ g x)%nat) →
  (length (flat_map f l) ≤ sum_list_with g l)%nat.
Proof.
  induction l as [|x l IH]; intros Hle; simpl; [done|].
  rewrite length_app.
  pose proof (Hle x ltac:(by left)).
  specialize (IH ltac:(intros y Hy; apply Hle; by right)). lia.
Qed.

Lemma sum_list_with_filter {A} (f : A → nat) (P : A → Prop)
    `{!∀ x, Decision (P x)} (l : list A) :
  sum_list_with f (filter P l) =
  sum_list_with (λ x, if decide (P x) then f x else 0%nat) l.
Proof.
  induction l as [|x l IH]; [done|]. rewrite filter_cons. simpl.
  destruct (decide (P x)); simpl; by rewrite IH.
Qed.

Lemma sum_list_with_le {A} (f g : A → nat) (l : list A) :
  (∀ x, x ∈ l → (f x ≤ g x)%nat) →
  (sum_list_with f l ≤ sum_list_with g l)%nat.
Proof.
  induction l as [|x l IH]; intros Hle; simpl; [done|].
  pose proof (Hle x ltac:(by left)).
  specialize (IH ltac:(intros y Hy; apply Hle; by right)). lia.
Qed.

Lemma sum_list_with_plus {A} (f g : A → nat) (l : list A) :
  (sum_list_with f l + sum_list_with g l)%nat =
  sum_list_with (λ x, f x + g x)%nat l.
Proof. induction l as [|x l IH]; simpl; lia. Qed.

Lemma sum_list_with_fst {A B} (f : A → nat) (l : list (A * B)) :
  sum_list_with f l.*1 = sum_list_with (λ x, f x.1) l.
Proof.
  induction l as [|x l IH]; [done|].
  change (f x.1 + sum_list_with f l.*1 =
          f x.1 + sum_list_with (λ x, f x.1) l)%nat.
  by rewrite IH.
Qed.

Lemma StronglySorted_lt_NoDup (l : list Z) :
  StronglySorted Z.lt l → NoDup l.
Proof.
  induction 1 as [|x l _ IH Hall]; constructor; [|done].
  intros Hin. rewrite Forall_forall in Hall. specialize (Hall x Hin). lia.
Qed.

Lemma subset_starts_NoDup d (l : list Z) : NoDup (subsets d l).*1.
Proof.
  destruct (subsets_from_ascending d l 0 0) as (tl & Htl & _ & Hsorted);
    [lia|].
  unfold subsets. rewrite Htl. by apply StronglySorted_lt_NoDup.
Qed.

(** The child takes at most two entries more than the parent: one for the
    extension character and one for the delimiter behind the merged
    subset. *)
Lemma union_child_length map d D chars starts ext :
  partition_wf d chars → NoDup starts →
  (∀ s, s ∈ starts → s ∈ (subsets d chars).*1) →
  (length (union_child map d D chars starts ext) ≤ length chars + 2)%nat.
Proof.
  intros Hwf Hnd Hstarts. unfold union_child, union_chars, kept_chars.
  set (subs := subsets d chars).
  set (hlen := λ s, length (subset_at d chars s)).
  assert (HU : (length (flat_map (λ s, remap map (subset_at d chars s)) starts)
                ≤ sum_list_with hlen starts)%nat).
  { apply flat_map_length_le. intros s _. apply remap_length. }
  assert (Hperm : starts ≡ₚ filter (λ s, s ∈ starts) subs.*1).
  { apply NoDup_Permutation; [done| |].
    - apply NoDup_filter, subset_starts_NoDup.
    - intros s. rewrite list_elem_of_filter. split; [|tauto].
      intros Hs. split; [done|]. by apply Hstarts. }
  assert (Hsum : sum_list_with hlen starts =
                 sum_list_with
                   (λ sr : Z * list Z,
                      if decide (sr.1 ∈ starts) then length sr.2 else 0%nat)
                   subs).
  { rewrite Hperm at 1. rewrite sum_list_with_filter, sum_list_with_fst.
    apply Nat.le_antisymm; apply sum_list_with_le; intros [s run] Hin;
      simpl; destruct (decide (s ∈ starts)); try done;
      apply (subsets_valid _ _ _ _ Hwf) in Hin as (_ & _ & _ & -> & _);
      done. }
  assert (HK : (length (flat_map (kept map D starts) subs) ≤
                sum_list_with
                  (λ sr : Z * list Z,
                     if decide (sr.1 ∈ starts) then 0%nat
                     else S (length sr.2)) subs)%nat).
  { apply flat_map_length_le. intros [s run] _. unfold kept. simpl.
    pose proof (remap_length map run).
    case_bool_decide; destruct (decide (s ∈ starts)); simpl; try done; lia. }
  assert (Hall : (sum_list_with
                    (λ sr : Z * list Z,
                       if decide (sr.1 ∈ starts) then length sr.2 else 0%nat)
                    subs +
                  sum_list_with
                    (λ sr : Z * list Z,
                       if decide (sr.1 ∈ starts) then 0%nat
                       else S (length sr.2)) subs ≤ S (length chars))%nat).
  { rewrite sum_list_with_plus.
    rewrite <- (subsets_from_total d chars 0 0). fold (subsets d chars).
    apply sum_list_with_le. intros [s run] _. simpl.
    destruct (decide (s ∈ starts)); lia. }
  rewrite !length_app.
  assert (length (if ext >=? 0 then [ext] else []) ≤ 1)%nat
    by (destruct (ext >=? 0); simpl; lia).
  lia.
Qed.

(** *** The whole call *)

Lemma unmark_from_total (pc : list Z) lo :
  0 ≤ lo → ∃ pc', unmark_from lo pc = Some pc'.
Proof.
  intros Hlo. unfold unmark_from.
  match goal with |- context [c_for ?a ?hi ?body ?st0] =>
    destruct (c_for_total (λ i st, 0 ≤ i ∧ length st = length pc)
                (λ _ _, True) a hi body st0) as (i & st & -> & _);
      [| | |by eauto]
  end.
  - intros i st [Hi Hlen] Hlt.
    destruct (rd_in_range st i) as [c Hc]; [lia|]. rewrite Hc. simpl.
    destruct (c <? 0).
    + rewrite wr_in_range by lia. simpl. eexists. split; [done|]. simpl.
      split; [lia|]. split; [lia|]. by rewrite length_insert.
    + eexists. split; [done|]. simpl. split; [lia|]. split; [lia|done].
  - done.
  - done.
Qed.

Lemma flat_map_head {A} (f : A → list Z) D (l : list A) :
  (∀ x, f x = [] ∨ head (f x) = Some D) →
  flat_map f l = [] ∨ head (flat_map f l) = Some D.
Proof.
  intros Hf. induction l as [|x l IH]; [by left|]. simpl.
  destruct (Hf x) as [->|Hx]; [done|]. right.
  destruct (f x); [done|]. done.
Qed.

Lemma kept_chars_head map d D chars starts :
  kept_chars map d D chars starts = [] ∨
  head (kept_chars map d D chars starts) = Some D.
Proof.
  apply flat_map_head. intros [s run]. unfold kept. simpl.
  destruct (bool_decide (s ∈ starts)); [by left|by right].
Qed.

Lemma remap_elem d D map ext (l : list Z) x :
  level_pre d D map ext → (∀ c, c ∈ l → 0 ≤ c < d) →
  x ∈ remap map l → 0 ≤ x < D.
Proof.
  intros Hlev Hl (c & Hc & Hx)%list_elem_of_omap.
  destruct (rd map c) as [m|] eqn:Hm; simpl in Hx; [|done].
  destruct (Z.eqb_spec m (-1)) as [?|Hne]; [done|]. injection Hx as ->.
  destruct (lp_range _ _ _ _ Hlev c x); [by apply Hl|done|done|done].
Qed.

Lemma subset_at_chars d (chars : list Z) s c :
  partition_wf d chars → Forall (λ c, 0 ≤ c) chars →
  c ∈ subset_at d chars s → 0 ≤ c < d.
Proof.
  intros Hwf Hpos Hc. unfold subset_at in Hc.
  assert (c ≠ d) by (intros ->; by apply run_prefix_not_delimiter in Hc).
  apply run_prefix_sublist, subseteq_drop in Hc.
  rewrite Forall_forall in Hpos. specialize (Hpos c Hc).
  apply list_elem_of_lookup in Hc as [k Hk].
  pose proof (wf_bound _ _ Hwf _ _ Hk). simpl in Hpos. lia.
Qed.

Lemma union_chars_range d D map ext chars starts x :
  partition_wf d chars → Forall (λ c, 0 ≤ c) chars →
  level_pre d D map ext →
  x ∈ union_chars map d chars starts ext → 0 ≤ x < D.
Proof.
  intros Hwf Hpos Hlev. unfold union_chars.
  rewrite elem_of_app. intros [Hx|Hx].
  - apply list_elem_of_In, in_flat_map in Hx as (s & _ & Hx).
    apply list_elem_of_In in Hx. eapply remap_elem; [done| |done].
    intros c Hc. by eapply subset_at_chars.
  - destruct (Z.geb_spec ext 0); [|by apply elem_of_nil in Hx].
    apply list_elem_of_singleton in Hx as ->.
    destruct (lp_ext _ _ _ _ Hlev); lia.
Qed.

Lemma kept_chars_range d D map ext chars starts x :
  partition_wf d chars → Forall (λ c, 0 ≤ c) chars →
  level_pre d D map ext →
  x ∈ kept_chars map d D chars starts → x = D ∨ 0 ≤ x < D.
Proof.
  intros Hwf Hpos Hlev Hx. unfold kept_chars in Hx.
  apply list_elem_of_In, in_flat_map in Hx as ([s run] & Hin & Hx).
  apply list_elem_of_In in Hx, Hin. unfold kept in Hx. simpl in Hx.
  destruct (bool_decide (s ∈ starts)); [by apply elem_of_nil in Hx|].
  apply elem_of_cons in Hx as [->|Hx]; [by left|]. right.
  apply (subsets_valid _ _ _ _ Hwf) in Hin as (_ & _ & _ & -> & _).
  eapply remap_elem; [done| |done]. intros c Hc. by eapply subset_at_chars.
Qed.

Lemma kept_chars_first map d D chars starts :
  0 ∉ starts → ∃ rest, kept_chars map d D chars starts = D :: rest.
Proof.
  intros H0. unfold kept_chars, subsets.
  destruct (subsets_from_elem d chars 0 0) as (rest & -> & _). simpl.
  unfold kept at 1. simpl. rewrite bool_decide_eq_false_2 by done.
  simpl. eauto.
Qed.

Lemma copy_remaining_index map d D pc g e dc fl i st :
  copy_remaining map d D pc g e dc fl = Some (i, st) → 0 ≤ i.
Proof.
  unfold copy_remaining. intros Hrun.
  eapply (c_for_sound (λ i _, 0 ≤ i) (λ i _, 0 ≤ i)) in Hrun; [done| | |done].
  - intros k [[[[pc1 g1] e1] dc1] f1] st' Hk _ Hbody.
    repeat (simplify_option_eq || case_match); lia.
  - auto.
Qed.

(** The run of the union builder on a valid parent, with the child it
    forms spelled out. *)
Lemma partGetIdxNew_run FARAWAY bp starts dpb gs D :
  partition_inv bp →
  NoDup starts → Forall (λ s, s ∈ subset_starts bp) starts →
  level_pre (delimiter bp) D (bordercharmap dpb) (extborderchar dpb) →
  store_inv dpb → top_end dpb = Some gs →
  gs + partsize bp + 2 ≤ Z.of_nat (length (global_partitions dpb)) →
  dpborder_getTopDelimiter dpb = Some D →
  (rejected D (union_child (bordercharmap dpb) (delimiter bp) D
                 (partchars bp) starts (extborderchar dpb)) ∧
   ∃ gp', dpborder_partGetIdxNew FARAWAY bp starts dpb =
          Some (-1, bp, with_partitions dpb gp')) ∨
  (¬ rejected D (union_child (bordercharmap dpb) (delimiter bp) D
                   (partchars bp) starts (extborderchar dpb)) ∧
   dpborder_partGetIdxNew FARAWAY bp starts dpb =
   Some (global_npartitions dpb, bp,
         with_store dpb
           (overwrite (global_partitions dpb) gs
              (sort_subsets D
                 (union_child (bordercharmap dpb) (delimiter bp) D
                    (partchars bp) starts (extborderchar dpb))))
           (global_partstarts dpb ++
              [gs + Z.of_nat
                 (length (union_child (bordercharmap dpb) (delimiter bp) D
                            (partchars bp) starts (extborderchar dpb)))])
           (global_partcosts dpb ++ [FARAWAY])
           (global_predparts dpb ++ [-1])
           (global_partsUseExt dpb ++ [true])
           (global_npartitions dpb + 1))).
Proof.
  intros [Hvalid Hpos] Hnd Hst Hlev Hstore Htop Hcap HD.
  destruct bp as [chars d]. unfold subset_starts, partsize in *. simpl in *.
  apply dpborder_partIsValid_wf in Hvalid as Hwf. simpl in Hwf.
  set (map := bordercharmap dpb) in *. set (ext := extborderchar dpb) in *.
  set (gp := global_partitions dpb) in *.
  set (child := union_child map d D chars starts ext).
  assert (Hgs : 1 ≤ gs).
  { destruct Hstore as (_ & gs' & Hgs' & ? & _). rewrite Htop in Hgs'.
    injection Hgs' as <-. lia. }
  assert (Hstarts : ∀ s, s ∈ starts → is_start chars d s).
  { intros s Hs. rewrite Forall_forall in Hst. apply Hst in Hs.
    apply list_elem_of_fmap in Hs as ([s' run] & -> & Hin). simpl.
    apply (subsets_valid _ _ _ _ Hwf) in Hin as (_ & ? & ? & _). by split. }
  assert (Hlenc : Z.of_nat (length child) ≤ Z.of_nat (length chars) + 2).
  { pose proof (union_child_length map d D chars starts ext Hwf Hnd) as H.
    rewrite Forall_forall in Hst. specialize (H Hst). unfold child. lia. }
  set (U1 := flat_map (λ s, remap map (subset_at d chars s)) starts).
  set (U := union_chars map d chars starts ext).
  set (K := kept_chars map d D chars starts).
  assert (HchildUK : child = U ++ K) by done.
  assert (HUU1 : U = U1 ++ (if ext >=? 0 then [ext] else [])) by done.
  assert (HlenU : Z.of_nat (length U) ≤ Z.of_nat (length child)).
  { rewrite HchildUK, length_app. lia. }
  assert (HlenU1 : Z.of_nat (length U1) ≤ Z.of_nat (length U)).
  { rewrite HUU1, length_app. lia. }
  assert (HUrange : ∀ x, x ∈ U → 0 ≤ x < D).
  { intros x Hx. by eapply union_chars_range. }
  assert (HUD : D ∉ U).
  { intros HDU. apply HUrange in HDU. lia. }
  assert (HKrej : U = [] → rejected D child).
  { intros HU0. rewrite HchildUK, HU0. simpl.
    destruct (kept_chars_head map d D chars starts) as [HK|HK]; fold K in HK.
    - by left.
    - right. by left. }
  fold child.
  unfold dpborder_partGetIdxNew. simpl.
  unfold top_end in Htop. rewrite Htop, HD. simpl.
  fold map ext gp.
  destruct (union_marked_run chars d map D ext gp gs Hwf Hpos Hlev
              ltac:(lia) starts Hnd Hstarts) as (i1 & pc1 & Hum & Hm).
  { fold U1. lia. }
  fold U1 in Hum. rewrite Hum. simpl.
  pose proof Hum as Hroll.
  eapply (union_marked_rollback gs gp chars) in Hroll
    as [Hpc1 _]; [|apply restorable_refl|apply scratch_refl].
  assert (Hext :
    (if ext >=? 0
     then global_partitions ← wr (overwrite gp gs U1)
                                 (gs + Z.of_nat (length U1)) ext;
          Some (global_partitions, gs + Z.of_nat (length U1) + 1)
     else Some (overwrite gp gs U1, gs + Z.of_nat (length U1))) =
    Some (overwrite gp gs U, gs + Z.of_nat (length U))).
  { destruct (ext >=? 0) eqn:He.
    - assert (HU' : U = U1 ++ [ext]) by (unfold U, union_chars; by rewrite He).
      rewrite overwrite_wr_total.
      + simpl. rewrite HU', length_app. simpl. do 2 f_equal. lia.
      + lia.
      + rewrite HU', length_app in HlenU. simpl in HlenU. lia.
    - assert (HU' : U = U1).
      { unfold U, union_chars. by rewrite He, app_nil_r. }
      by rewrite HU'. }
  rewrite Hext. simpl. clear Hext.
  destruct (Z.eqb_spec (gs + Z.of_nat (length U)) gs) as [He|He].
  { assert (U = []) as HU0 by (destruct U; [done|simpl in He; lia]).
    left. split; [by apply HKrej|].
    destruct (unmark_from_total pc1 0) as [pc2 Hun]; [lia|].
    rewrite Hun. simpl.
    apply (unmark_from_restores chars) in Hun as ->; [|done..].
    eauto. }
  assert (HUne : U ≠ []) by (intros HU0; rewrite HU0 in He; simpl in He; lia).
  assert (HDpos : 0 < D).
  { destruct U as [|x U'] eqn:HUeq; [done|].
    specialize (HUrange x ltac:(left)). lia. }
  destruct (wf_head _ _ Hwf) as (ch & Hch & Hchd).
  assert (Hrd0 : rd chars 0 = Some ch) by (by apply rd_Some).
  assert (Hch0 : 0 ≤ ch).
  { rewrite Forall_forall in Hpos. apply Hpos. by eapply list_elem_of_lookup_2. }
  assert (Hfirst : ∃ c0, rd pc1 0 = Some c0 ∧
    (if c0 >=? 0
     then global_partitions ← wr (overwrite gp gs U)
                                 (gs + Z.of_nat (length U)) D;
          Some (global_partitions, gs + Z.of_nat (length U) + 1)
     else Some (overwrite gp gs U, gs + Z.of_nat (length U))) =
    Some (overwrite gp gs (U ++ kept map D starts (0, [])),
          gs + Z.of_nat (length (U ++ kept map D starts (0, []))))).
  { destruct Hm as (_ & _ & Hm).
    destruct (Hm 0 ch ltac:(lia) Hrd0) as [[Hin ->]|[Hnin ->]].
    - eexists. split; [done|].
      destruct (Z.geb_spec (- ch - 1) 0); [lia|].
      unfold kept. simpl. rewrite bool_decide_eq_true_2 by done.
      by rewrite app_nil_r.
    - eexists. split; [done|].
      destruct (Z.geb_spec ch 0); [|lia].
      unfold kept. simpl. rewrite bool_decide_eq_false_2 by done.
      destruct (kept_chars_first map d D chars starts Hnin) as [rest HK].
      fold K in HK.
      rewrite overwrite_wr_total.
      + simpl. rewrite length_app. simpl. do 2 f_equal. lia.
      + lia.
      + rewrite HchildUK, HK, length_app in Hlenc. simpl in Hlenc. lia. }
  destruct Hfirst as (c0 & -> & Hfirst). simpl. rewrite Hfirst. simpl.
  clear Hfirst.
  destruct (copy_remaining_run chars d map D ext gp gs Hwf Hpos Hlev
              ltac:(lia) starts U pc1 gs Hstarts Hm HUne HUD)
    as (i & pc' & g' & e' & dc' & fl' & Hcopy & w & -> & -> & Hw & Hwcap & Hcase).
  { fold K. rewrite <- HchildUK. lia. }
  rewrite Hcopy. simpl.
  pose proof (copy_remaining_end _ _ _ _ _ _ _ _ _ _ _ _ _ _ Hcopy) as Hend.
  pose proof (copy_remaining_index _ _ _ _ _ _ _ _ _ _ Hcopy) as Hi0.
  eapply (copy_remaining_rollback _ _ chars) in Hcopy as [Hpc' _];
    [|done|done|apply scratch_refl].
  rewrite overwrite_rd_last by (done || lia).
  destruct (last w) as [lastchar|] eqn:Hlast; [|by destruct w using rev_ind; [|rewrite last_snoc in Hlast]].
  simpl. fold K in Hcase. rewrite <- HchildUK in Hcase.
  assert (Hreject : ∃ gp',
    unmark_from (i + 1) pc' ≫= (λ partitionchars,
      Some (-1, mkDPBPART partitionchars d,
            with_partitions dpb (overwrite gp gs w))) =
    Some (-1, mkDPBPART chars d, with_partitions dpb gp')).
  { destruct (unmark_from_total pc' (i + 1)) as [pc2 Hun]; [lia|].
    rewrite Hun. simpl.
    apply (unmark_from_restores chars) in Hun as ->; [|done..].
    eauto. }
  destruct Hcase as [[-> Hpair]|(-> & -> & Hadj)].
  { left. split; [by do 3 right|].
    by destruct (D =? lastchar). }
  destruct (Z.eqb_spec D lastchar) as [<-|HDl].
  { left. split; [right; right; by left|done]. }
  destruct (Z.eqb_spec gs (-1)) as [?|_]; [lia|].
  assert (Hhead : ∃ x, child !! 0%nat = Some x ∧ x ≠ D).
  { rewrite HchildUK. destruct U as [|x U'] eqn:HUeq; [done|].
    exists x. split; [done|]. intros ->. apply HUD. left. }
  assert (Hnn : Forall (λ c, 0 ≤ c) child).
  { apply Forall_forall. intros x Hx. rewrite HchildUK in Hx.
    apply elem_of_app in Hx as [Hx|Hx].
    - apply HUrange in Hx. lia.
    - eapply kept_chars_range in Hx; [|done..]. lia. }
  right. split.
  { intros [Hr|[Hr|[Hr|Hr]]].
    - by rewrite Hr in Hw.
    - destruct Hhead as (x & Hx & HxD). rewrite head_lookup in Hr. congruence.
    - congruence.
    - destruct Hr as (k & Hk & Hk'). by apply (Hadj k). }
  replace (gs + Z.of_nat (length child) - gs)
    with (Z.of_nat (length child)) by lia.
  unfold gp.
  rewrite (sort_at_top_end dpb gs D child); [|done|done|fold gp; lia|done| |done].
  2:{ intros c Hc. destruct Hhead as (x & Hx & HxD). congruence. }
  simpl. unfold StpVecPushBack.
  replace (global_npartitions dpb + 1 - 1) with (global_npartitions dpb) by lia.
  assert (pc' = chars) as ->; [|done].
  eapply restorable_done; [done|].
  destruct Hend as [?|Hend]; [lia|].
  destruct Hpc1 as [Hlen1 _]. lia.
Qed.

(** X17.  For a valid parent in a well-formed store, distinct chosen starts and
    room for two entries more than the parent has, the union builder forms
    the child of the merged subset (the chosen subsets in the order of the
    starts, then the extension character) followed by every other subset
    behind a delimiter.  It returns -1 exactly when this child is empty,
    begins or ends with the new delimiter or holds two new delimiters in a
    row; otherwise it stores the child with its subsets sorted as a new
    partition that uses the extension vertex and costs [FARAWAY], and
    returns its index.  The parent is handed back as it was. *)
Theorem union_builder_total FARAWAY bp starts dpb gs D :
  partition_inv bp →
  NoDup starts → Forall (λ s, s ∈ subset_starts bp) starts →
  level_pre (delimiter bp) D (bordercharmap dpb) (extborderchar dpb) →
  store_inv dpb → top_end dpb = Some gs →
  gs + partsize bp + 2 ≤ Z.of_nat (length (global_partitions dpb)) →
  dpborder_getTopDelimiter dpb = Some D →
  (rejected D (union_child (bordercharmap dpb) (delimiter bp) D
                 (partchars bp) starts (extborderchar dpb)) →
     ∃ gp', dpborder_partGetIdxNew FARAWAY bp starts dpb =
            Some (-1, bp, with_partitions dpb gp')) ∧
  (¬ rejected D (union_child (bordercharmap dpb) (delimiter bp) D
                   (partchars bp) starts (extborderchar dpb)) →
     dpborder_partGetIdxNew FARAWAY bp starts dpb =
     Some (global_npartitions dpb, bp,
           with_store dpb
             (overwrite (global_partitions dpb) gs
                (sort_subsets D
                   (union_child (bordercharmap dpb) (delimiter bp) D
                      (partchars bp) starts (extborderchar dpb))))
             (global_partstarts dpb ++
                [gs + Z.of_nat
                   (length (union_child (bordercharmap dpb) (delimiter bp) D
                              (partchars bp) starts (extborderchar dpb)))])
             (global_partcosts dpb ++ [FARAWAY])
             (global_predparts dpb ++ [-1])
             (global_partsUseExt dpb ++ [true])
             (global_npartitions dpb + 1))).
Proof.
  intros Hinv Hnd Hst Hlev Hstore Htop Hcap HD.
  destruct (partGetIdxNew_run FARAWAY bp starts dpb gs D)
    as [[Hrej Hrun]|[Hrej Hrun]]; try done.
Qed.

Lemma union_level : level_pre 3 3 [0; 1; 2; 3] (-1).
Proof.
  split.
  - intros c m Hc Hm.
    assert (c = 0 ∨ c = 1 ∨ c = 2) as [-> | [-> | ->]] by lia;
      injection Hm as <-; lia.
  - intros c c' m Hc Hc' Hm Hm' _.
    assert (c = 0 ∨ c = 1 ∨ c = 2) as [-> | [-> | ->]] by lia;
      assert (c' = 0 ∨ c' = 1 ∨ c' = 2) as [-> | [-> | ->]] by lia;
      vm_compute in Hm, Hm'; congruence.
  - intros c m _ _ Hm. exact Hm.
  - reflexivity.
  - by left.
Qed.

Lemma union_builder_total_witness :
  ∃ dpb',
    dpborder_partGetIdxNew 100 union_parent [4; 0] union_border =
      Some (0, union_parent, dpb') ∧
    global_partitions dpb' = [0; 1; 2; 3; 0; 7; 7; 7] ∧
    global_partstarts dpb' = [1; 5] ∧
    global_partsUseExt dpb' = [true].
Proof.
  destruct (union_builder_total 100 union_parent [4; 0] union_border 1 3)
    as [_ Hrun].
  - split; [reflexivity|repeat constructor; lia].
  - apply (bool_decide_unpack (NoDup [4; 0])). by vm_compute.
  - apply (bool_decide_unpack
             (Forall (λ s, s ∈ subset_starts union_parent) [4; 0])).
    by vm_compute.
  - exact union_level.
  - split; [by repeat split|]. exists 1. split; [reflexivity|].
    split; [simpl; lia|]. repeat constructor. lia.
  - reflexivity.
  - unfold partsize. simpl. lia.
  - reflexivity.
  - eexists. split; [apply Hrun|by repeat split].
    intros [?|[?|[?|(i & Hi & Hi')]]]; [done..|].
    destruct i as [|[|[|[|i]]]]; vm_compute in Hi, Hi'; congruence.
Defined.

(** *** The subsets of the child *)

Lemma filter_fst_length {A B} (P : A → Prop) `{!∀ x, Decision (P x)}
    (l : list (A * B)) :
  length (filter P l.*1) = length (filter (λ x, P x.1) l).
Proof.
  induction l as [|x l IH]; [done|]. rewrite fmap_cons, !filter_cons.
  destruct (decide (P x.1)); simpl; by rewrite IH.
Qed.

Lemma filter_compl_length {A} (P : A → Prop) `{!∀ x, Decision (P x)}
    (l : list A) :
  length l = (length (filter P l) + length (filter (λ x, ¬ P x) l))%nat.
Proof.
  induction l as [|x l IH]; [done|]. rewrite !filter_cons.
  destruct (decide (P x)), (decide (¬ P x)); simpl; try lia; tauto.
Qed.

Lemma filter_none (l : list Z) D :
  D ∉ l → filter (λ x, x = D) l = [].
Proof.
  intros HD. induction l as [|x l IH]; [done|]. rewrite filter_cons.
  destruct (decide (x = D)) as [->|_]; [destruct HD; left|].
  apply IH. intros H. apply HD. by right.
Qed.

(** Every subset that is not chosen brings one delimiter into the child. *)
Lemma kept_delimiters map d D ext chars starts :
  partition_wf d chars → Forall (λ c, 0 ≤ c) chars →
  level_pre d D map ext →
  length (filter (λ x, x = D) (kept_chars map d D chars starts)) =
  length (filter (λ sr : Z * list Z, sr.1 ∉ starts) (subsets d chars)).
Proof.
  intros Hwf Hpos Hlev. unfold kept_chars.
  assert (H : ∀ l, (∀ sr, sr ∈ l → sr ∈ subsets d chars) →
    length (filter (λ x, x = D) (flat_map (kept map D starts) l)) =
    length (filter (λ sr : Z * list Z, sr.1 ∉ starts) l)); [|by apply H].
  induction l as [|[s run] l IH]; intros Hin; [done|]. simpl.
  rewrite filter_app, length_app, IH by (intros sr Hsr; apply Hin; by right).
  rewrite filter_cons. unfold kept. simpl.
  destruct (decide (s ∉ starts)) as [Hs|Hs].
  - rewrite bool_decide_eq_false_2 by done. rewrite filter_cons.
    destruct (decide (D = D)); [|done]. simpl. rewrite filter_none; [done|].
    intros HD.
    pose proof (Hin (s, run) ltac:(left)) as Hsr.
    apply (subsets_valid _ _ _ _ Hwf) in Hsr as (_ & _ & _ & -> & _).
    assert (0 ≤ D < D); [|lia].
    eapply remap_elem; [done| |done].
    intros c Hc. by eapply subset_at_chars.
  - rewrite bool_decide_eq_true_2; [done|].
    destruct (decide (s ∈ starts)); [done|by destruct Hs].
Qed.

Lemma chosen_length d (chars starts : list Z) :
  NoDup starts → (∀ s, s ∈ starts → s ∈ (subsets d chars).*1) →
  length starts =
  length (filter (λ sr : Z * list Z, sr.1 ∈ starts) (subsets d chars)).
Proof.
  intros Hnd Hstarts.
  pose proof (filter_fst_length (λ s, s ∈ starts) (subsets d chars)) as H.
  simpl in H. rewrite <- H.
  apply Permutation_length, NoDup_Permutation; [done| |].
  - apply NoDup_filter, subset_starts_NoDup.
  - intros s. rewrite list_elem_of_filter. split; [|tauto].
    intros Hs. split; [done|]. by apply Hstarts.
Qed.

(** X18.  Merging [k] subsets leaves [k - 1] subsets less: a partition that the
    union builder stores has one subset for the chosen ones together and
    one for every other subset of the parent. *)
Theorem union_merges_card FARAWAY bp starts dpb gs D r bp' dpb' :
  partition_inv bp →
  NoDup starts → Forall (λ s, s ∈ subset_starts bp) starts →
  level_pre (delimiter bp) D (bordercharmap dpb) (extborderchar dpb) →
  store_inv dpb → top_end dpb = Some gs →
  gs + partsize bp + 2 ≤ Z.of_nat (length (global_partitions dpb)) →
  dpborder_getTopDelimiter dpb = Some D →
  dpborder_partGetIdxNew FARAWAY bp starts dpb = Some (r, bp', dpb') →
  0 ≤ r →
  dpborder_partglobalGetCard r D dpb' =
  Some (Z.of_nat (length (subset_starts bp)) - Z.of_nat (length starts) + 1).
Proof.
  intros Hinv Hnd Hst Hlev Hstore Htop Hcap HD Hrun Hr.
  destruct (partGetIdxNew_run FARAWAY bp starts dpb gs D)
    as [[_ [gp' Hrej]]|[Hnrej Hacc]]; [done..| |].
  { rewrite Hrej in Hrun. injection Hrun as <- _ _. lia. }
  rewrite Hacc in Hrun. injection Hrun as <- _ <-.
  destruct Hinv as [Hvalid Hpos].
  apply dpborder_partIsValid_wf in Hvalid as Hwf.
  pose proof Hstore as ((Hlen & _) & gs' & Htop' & Hgs & _).
  rewrite Htop in Htop'. injection Htop' as <-.
  set (child := union_child (bordercharmap dpb) (delimiter bp) D
                  (partchars bp) starts (extborderchar dpb)) in *.
  assert (Hlenc : Z.of_nat (length child) ≤ partsize bp + 2).
  { pose proof (union_child_length (bordercharmap dpb) (delimiter bp) D
                  (partchars bp) starts (extborderchar dpb) Hwf Hnd) as H.
    rewrite Forall_forall in Hst. specialize (H Hst).
    unfold child, partsize. lia. }
  destruct (pushed_start (global_partstarts dpb) (global_npartitions dpb) gs
              (gs + Z.of_nat (length child)) Hlen Htop) as [Hs He].
  rewrite (partglobalGetCard_run _ D _ gs (gs + Z.of_nat (length child)));
    [|done|done|lia|].
  2:{ simpl. rewrite overwrite_length; [lia|lia|].
      rewrite sort_subsets_length. lia. }
  simpl. rewrite <- (sort_subsets_length D child) at 1.
  rewrite overwrite_segment; [|lia|rewrite sort_subsets_length; lia].
  rewrite sort_subsets_card. unfold subsets.
  rewrite subsets_from_length. f_equal.
  unfold child, union_child. rewrite filter_app, length_app.
  rewrite filter_none.
  2:{ intros HDU. assert (0 ≤ D < D); [|lia].
      by eapply union_chars_range. }
  rewrite (kept_delimiters _ _ _ (extborderchar dpb)) by done.
  unfold subset_starts. rewrite length_fmap.
  rewrite (filter_compl_length (λ sr : Z * list Z, sr.1 ∈ starts)
             (subsets (delimiter bp) (partchars bp))).
  rewrite <- chosen_length; [simpl; lia|done|].
  rewrite Forall_forall in Hst. exact Hst.
Qed.

Lemma union_merges_card_witness :
  ∃ bp' dpb',
    dpborder_partGetIdxNew 100 union_parent [4; 0] union_border =
      Some (0, bp', dpb') ∧
    dpborder_partglobalGetCard 0 3 dpb' = Some 2.
Proof.
  eexists _, _. split; [reflexivity|].
  apply (union_merges_card 100 union_parent [4; 0] union_border 1 3 0
           union_parent).
  - split; [reflexivity|repeat constructor; lia].
  - apply (bool_decide_unpack (NoDup [4; 0])). by vm_compute.
  - apply (bool_decide_unpack
             (Forall (λ s, s ∈ subset_starts union_parent) [4; 0])).
    by vm_compute.
  - exact union_level.
  - split; [by repeat split|]. exists 1. split; [reflexivity|].
    split; [simpl; lia|]. repeat constructor. lia.
  - reflexivity.
  - unfold partsize. simpl. lia.
  - reflexivity.
  - reflexivity.
  - lia.
Defined.

(** *** When the union builder gives up *)

Lemma rejected_free D (b : list Z) : D ∉ b → rejected D b ↔ b = [].
Proof.
  intros HD. split; [|by left].
  intros [H|[H|[H|(k & Hk & _)]]]; [done| | |].
  - destruct b as [|x b]; [done|]. injection H as ->. destruct HD. left.
  - apply last_Some_elem_of in H. by destruct HD.
  - apply list_elem_of_lookup_2 in Hk. by destruct HD.
Qed.

Lemma rejected_block D (b J : list Z) :
  D ∉ b → rejected D (b ++ D :: J) ↔ b = [] ∨ rejected D J.
Proof.
  intros HD. split.
  - intros [H|[H|[H|(k & Hk & Hk')]]].
    + by destruct b.
    + destruct b as [|x b]; [by left|]. injection H as ->.
      destruct HD. left.
    + rewrite last_app_cons, last_cons in H. right.
      destruct (last J) as [y|] eqn:HJ.
      * injection H as ->. right. right. by left.
      * left. by apply last_None.
    + right. destruct (decide (k < length b)%nat) as [Hlt|Hge].
      { rewrite lookup_app_l in Hk by done.
        apply list_elem_of_lookup_2 in Hk. by destruct HD. }
      rewrite lookup_app_r in Hk, Hk' by lia.
      destruct (k - length b)%nat as [|k'] eqn:Hkb.
      * replace (S k - length b)%nat with 1%nat in Hk' by lia.
        right. left. by rewrite head_lookup.
      * replace (S k - length b)%nat with (S (S k')) in Hk' by lia.
        right. right. right. by exists k'.
  - intros [->|[->|[H|[H|(k & Hk & Hk')]]]].
    + right. by left.
    + right. right. left. by rewrite last_app_cons.
    + right. right. right. exists (length b). split.
      * by rewrite list_lookup_middle.
      * rewrite lookup_app_r by lia.
        replace (S (length b) - length b)%nat with 1%nat by lia.
        by rewrite head_lookup in H.
    + right. right. left. by rewrite last_app_cons, last_cons, H.
    + right. right. right. exists (length b + S k)%nat. split.
      * rewrite lookup_app_r by lia.
        by replace (length b + S k - length b)%nat with (S k) by lia.
      * rewrite lookup_app_r by lia.
        by replace (S (length b + S k) - length b)%nat with (S (S k)) by lia.
Qed.

(** A sequence of blocks without delimiter, with a delimiter between two
    of them, is rejected exactly when one of the blocks is empty. *)
Lemma rejected_blocks D (bs : list (list Z)) : ∀ b,
  D ∉ b → Forall (λ b', D ∉ b') bs →
  rejected D (b ++ flat_map (cons D) bs) ↔ b = [] ∨ [] ∈ bs.
Proof.
  induction bs as [|b' bs IH]; intros b HD Hbs; simpl.
  - rewrite app_nil_r, rejected_free by done. split; [by left|].
    intros [?|H]; [done|by apply elem_of_nil in H].
  - apply Forall_cons in Hbs as [HD' Hbs].
    rewrite rejected_block, IH by done. rewrite elem_of_cons.
    split; intros [?|[?|?]]; auto.
Qed.

Lemma kept_blocks map D starts (subs : list (Z * list Z)) :
  flat_map (kept map D starts) subs =
  flat_map (cons D)
    ((λ sr, remap map sr.2) <$> filter (λ sr, sr.1 ∉ starts) subs).
Proof.
  induction subs as [|[s run] subs IH]; [done|]. simpl.
  rewrite filter_cons, IH. unfold kept. simpl.
  destruct (decide (s ∉ starts)) as [Hs|Hs].
  - by rewrite bool_decide_eq_false_2.
  - rewrite bool_decide_eq_true_2; [done|].
    destruct (decide (s ∈ starts)); [done|by destruct Hs].
Qed.

Lemma flat_map_nil {A B} (f : A → list B) (l : list A) :
  flat_map f l = [] ↔ ∀ x, x ∈ l → f x = [].
Proof.
  induction l as [|x l IH]; simpl.
  - split; [|done]. intros _ y Hy. by apply elem_of_nil in Hy.
  - split.
    + intros [Hx Hl]%app_eq_nil y [->|Hy]%elem_of_cons; [done|].
      by apply IH.
    + intros H. rewrite (H x) by left. apply IH. intros y Hy.
      apply H. by right.
Qed.

(** The child is rejected exactly when the merged subset is empty or a
    subset that is not chosen has no character that stays in the border. *)
Lemma union_child_rejected map d D ext chars starts :
  partition_wf d chars → Forall (λ c, 0 ≤ c) chars →
  level_pre d D map ext →
  rejected D (union_child map d D chars starts ext) ↔
  (ext < 0 ∧ ∀ s, s ∈ starts → remap map (subset_at d chars s) = []) ∨
  (∃ s run, (s, run) ∈ subsets d chars ∧ (s ∉ starts) ∧ remap map run = []).
Proof.
  intros Hwf Hpos Hlev. unfold union_child, kept_chars.
  rewrite kept_blocks, rejected_blocks.
  - assert (HU : union_chars map d chars starts ext = [] ↔
      ext < 0 ∧ ∀ s, s ∈ starts → remap map (subset_at d chars s) = []).
    { unfold union_chars. split.
      - intros [HU He]%app_eq_nil. split.
        + destruct (Z.geb_spec ext 0); [done|lia].
        + by apply flat_map_nil.
      - intros [He HU]. apply flat_map_nil in HU. rewrite HU.
        destruct (Z.geb_spec ext 0); [lia|done]. }
    rewrite HU, list_elem_of_fmap. clear HU.
    split; (intros [H|H]; [by left|right]).
    + destruct H as ([s run] & Hr & [Hs Hin]%list_elem_of_filter). eauto.
    + destruct H as (s & run & Hin & Hs & Hr). exists (s, run).
      split; [done|]. by apply list_elem_of_filter.
  - intros HD. assert (0 ≤ D < D); [|lia]. by eapply union_chars_range.
  - apply Forall_forall. intros b ([s run] & -> & [_ Hin]%list_elem_of_filter)%list_elem_of_fmap.
    simpl. intros HD. assert (0 ≤ D < D); [|lia].
    apply (subsets_valid _ _ _ _ Hwf) in Hin as (_ & _ & _ & -> & _).
    eapply remap_elem; [done| |done].
    intros c Hc. by eapply subset_at_chars.
Qed.

(** X19.  The union builder returns -1 in two cases only: when nothing is merged
    (there is no extension character and no character of a chosen subset
    stays in the border), or when a subset that is not chosen has no
    character that stays in the border. *)
Theorem union_rejects_iff FARAWAY bp starts dpb gs D :
  partition_inv bp →
  NoDup starts → Forall (λ s, s ∈ subset_starts bp) starts →
  level_pre (delimiter bp) D (bordercharmap dpb) (extborderchar dpb) →
  store_inv dpb → top_end dpb = Some gs →
  gs + partsize bp + 2 ≤ Z.of_nat (length (global_partitions dpb)) →
  dpborder_getTopDelimiter dpb = Some D →
  ∃ r dpb',
    dpborder_partGetIdxNew FARAWAY bp starts dpb = Some (r, bp, dpb') ∧
    (r = -1 ↔
     (extborderchar dpb < 0 ∧
      ∀ s, s ∈ starts →
        remap (bordercharmap dpb)
          (subset_at (delimiter bp) (partchars bp) s) = []) ∨
     (∃ s run, (s, run) ∈ subsets (delimiter bp) (partchars bp) ∧
               (s ∉ starts) ∧ remap (bordercharmap dpb) run = [])).
Proof.
  intros Hinv Hnd Hst Hlev Hstore Htop Hcap HD.
  pose proof Hinv as [Hvalid Hpos].
  apply dpborder_partIsValid_wf in Hvalid as Hwf.
  pose proof (union_child_rejected (bordercharmap dpb) (delimiter bp) D
                (extborderchar dpb) (partchars bp) starts Hwf Hpos Hlev)
    as Hiff.
  destruct (partGetIdxNew_run FARAWAY bp starts dpb gs D)
    as [[Hrej [gp' Hrun]]|[Hnrej Hrun]]; [done..| |].
  - eexists _, _. split; [exact Hrun|]. rewrite <- Hiff. done.
  - eexists _, _. split; [exact Hrun|]. rewrite <- Hiff. split; [|done].
    destruct Hstore as ((_ & Hnp & _) & _). unfold StpVecGetSize in Hnp. lia.
Qed.

Lemma vanishing_level : level_pre 3 3 [0; -1; 2; 3] (-1).
Proof.
  split.
  - intros c m Hc Hm.
    assert (c = 0 ∨ c = 1 ∨ c = 2) as [-> | [-> | ->]] by lia;
      injection Hm as <-; lia.
  - intros c c' m Hc Hc' Hm Hm' Hne.
    assert (c = 0 ∨ c = 1 ∨ c = 2) as [-> | [-> | ->]] by lia;
      assert (c' = 0 ∨ c' = 1 ∨ c' = 2) as [-> | [-> | ->]] by lia;
      vm_compute in Hm, Hm'; congruence.
  - intros c m _ _ Hm. exact Hm.
  - reflexivity.
  - by left.
Qed.

Lemma union_rejects_iff_witness :
  ∃ r dpb',
    dpborder_partGetIdxNew 100 union_parent [2; 4] vanishing_border =
      Some (r, union_parent, dpb') ∧
    (r = -1 ↔
     (-1 < 0 ∧
      ∀ s, s ∈ [2; 4] →
        remap [0; -1; 2; 3] (subset_at 3 [1; 3; 0; 3; 2] s) = []) ∨
     (∃ s run, (s, run) ∈ subsets 3 [1; 3; 0; 3; 2] ∧
               (s ∉ [2; 4]) ∧ remap [0; -1; 2; 3] run = [])).
Proof.
  apply (union_rejects_iff 100 union_parent [2; 4] vanishing_border 1 3).
  - split; [reflexivity|repeat constructor; lia].
  - apply (bool_decide_unpack (NoDup [2; 4])). by vm_compute.
  - apply (bool_decide_unpack
             (Forall (λ s, s ∈ subset_starts union_parent) [2; 4])).
    by vm_compute.
  - exact vanishing_level.
  - split; [by repeat split|]. exists 1. split; [reflexivity|].
    split; [simpl; lia|]. repeat constructor. lia.
  - reflexivity.
  - unfold partsize. simpl. lia.
  - reflexivity.
Defined.

(** *** The order of the chosen starts *)

Lemma kept_chars_perm map d D chars (starts starts' : list Z) :
  starts ≡ₚ starts' →
  kept_chars map d D chars starts = kept_chars map d D chars starts'.
Proof.
  intros Hperm. unfold kept_chars. apply flat_map_ext. intros [s run].
  unfold kept. simpl.
  destruct (decide (s ∈ starts)) as [Hs|Hs].
  - rewrite !bool_decide_eq_true_2; [done|by rewrite <- Hperm|done].
  - rewrite !bool_decide_eq_false_2; [done|by rewrite <- Hperm|done].
Qed.

Lemma union_chars_perm map d ext chars (starts starts' : list Z) :
  starts ≡ₚ starts' →
  union_chars map d chars starts ext ≡ₚ union_chars map d chars starts' ext.
Proof.
  intros Hperm. unfold union_chars. apply Permutation_app; [|done].
  by apply Permutation_flat_map.
Qed.

(** Two orders of the same chosen starts give children that are rejected
    together and sorted into the same characters. *)
Lemma union_child_perm map d D ext chars (starts starts' : list Z) :
  partition_wf d chars → Forall (λ c, 0 ≤ c) chars →
  level_pre d D map ext →
  starts ≡ₚ starts' →
  (rejected D (union_child map d D chars starts ext) ↔
   rejected D (union_child map d D chars starts' ext)) ∧
  sort_subsets D (union_child map d D chars starts ext) =
  sort_subsets D (union_child map d D chars starts' ext) ∧
  length (union_child map d D chars starts ext) =
  length (union_child map d D chars starts' ext).
Proof.
  intros Hwf Hpos Hlev Hperm.
  pose proof (union_chars_perm map d ext chars _ _ Hperm) as HU.
  pose proof (kept_chars_perm map d D chars _ _ Hperm) as HK.
  split; [|split].
  - rewrite !union_child_rejected by done.
    split; (intros [[He H]|(s & run & Hin & Hs & Hr)]; [left|right]).
    + split; [done|]. intros s Hs. apply H. by rewrite Hperm.
    + exists s, run. by rewrite <- Hperm.
    + split; [done|]. intros s Hs. apply H. by rewrite <- Hperm.
    + exists s, run. by rewrite Hperm.
  - unfold union_child. rewrite <- HK.
    assert (HD : ∀ st, D ∉ union_chars map d chars st ext).
    { intros st H. assert (0 ≤ D < D); [|lia]. by eapply union_chars_range. }
    destruct (kept_chars_head map d D chars starts) as [->|Hhead].
    + rewrite !app_nil_r, !sort_subsets_free by done.
      by apply merge_sort_perm.
    + destruct (kept_chars map d D chars starts) as [|x rest]; [done|].
      injection Hhead as ->.
      rewrite !sort_subsets_split by done. f_equal.
      by apply merge_sort_perm.
  - unfold union_child. rewrite !length_app, <- HK. f_equal.
    by apply Permutation_length.
Qed.

(** X20.  The partition that the union builder stores does not depend on the
    order in which the chosen starts are given: a call that returns an
    index returns the same index and leaves the same border for every
    reordering of the starts. *)
Theorem union_builder_order FARAWAY bp starts starts' dpb gs D r bp' dpb' :
  partition_inv bp →
  NoDup starts → Forall (λ s, s ∈ subset_starts bp) starts →
  level_pre (delimiter bp) D (bordercharmap dpb) (extborderchar dpb) →
  store_inv dpb → top_end dpb = Some gs →
  gs + partsize bp + 2 ≤ Z.of_nat (length (global_partitions dpb)) →
  dpborder_getTopDelimiter dpb = Some D →
  starts ≡ₚ starts' →
  dpborder_partGetIdxNew FARAWAY bp starts dpb = Some (r, bp', dpb') →
  0 ≤ r →
  dpborder_partGetIdxNew FARAWAY bp starts' dpb = Some (r, bp', dpb').
Proof.
  intros Hinv Hnd Hst Hlev Hstore Htop Hcap HD Hperm Hrun Hr.
  pose proof Hinv as [Hvalid Hpos].
  apply dpborder_partIsValid_wf in Hvalid as Hwf.
  destruct (union_child_perm (bordercharmap dpb) (delimiter bp) D
              (extborderchar dpb) (partchars bp) starts starts'
              Hwf Hpos Hlev Hperm) as (Hrej & Hsort & Hlen).
  destruct (partGetIdxNew_run FARAWAY bp starts dpb gs D)
    as [[_ [gp' H1]]|[Hn H1]]; [done..| |].
  { rewrite H1 in Hrun. injection Hrun as <- _ _. lia. }
  rewrite H1 in Hrun. injection Hrun as <- <- <-.
  destruct (partGetIdxNew_run FARAWAY bp starts' dpb gs D)
    as [[Hr' _]|[_ H2]]; [done|by rewrite <- Hperm|by rewrite <- Hperm
                         |done..| |].
  { by apply Hrej in Hr'. }
  by rewrite H2, Hsort, Hlen.
Qed.

Lemma union_builder_order_witness :
  ∃ bp' dpb',
    dpborder_partGetIdxNew 100 union_parent [4; 0] union_border =
      Some (0, bp', dpb') ∧
    dpborder_partGetIdxNew 100 union_parent [0; 4] union_border =
      Some (0, bp', dpb').
Proof.
  eexists _, _. split; [reflexivity|].
  apply (union_builder_order 100 union_parent [4; 0] [0; 4] union_border 1 3).
  - split; [reflexivity|repeat constructor; lia].
  - apply (bool_decide_unpack (NoDup [4; 0])). by vm_compute.
  - apply (bool_decide_unpack
             (Forall (λ s, s ∈ subset_starts union_parent) [4; 0])).
    by vm_compute.
  - exact union_level.
  - split; [by repeat split|]. exists 1. split; [reflexivity|].
    split; [simpl; lia|]. repeat constructor. lia.
  - reflexivity.
  - unfold partsize. simpl. lia.
  - reflexivity.
  - apply perm_swap.
  - reflexivity.
  - lia.
Defined.

(** ** When the exclusive builder gives up *)

Lemma partition_chars_range d (chars : list Z) c :
  partition_wf d chars → Forall (λ c, 0 ≤ c) chars → c ∈ chars → 0 ≤ c ≤ d.
Proof.
  intros Hwf Hpos Hc. rewrite Forall_forall in Hpos. specialize (Hpos c Hc).
  apply list_elem_of_lookup in Hc as [k Hk].
  pose proof (wf_bound _ _ Hwf _ _ Hk). simpl in Hpos. lia.
Qed.

(** The remapped characters are the remapped subsets, with a delimiter
    between two of them. *)
Lemma remap_subsets d D map ext (l : list Z) :
  level_pre d D map ext → D ≠ -1 → ∀ s p,
  ∃ b bs,
    (λ sr : Z * list Z, remap map sr.2) <$> subsets_from d s p l = b :: bs ∧
    remap map l = b ++ flat_map (cons D) bs.
Proof.
  intros Hlev HD. induction l as [|c l IH]; intros s p.
  - by exists [], [].
  - rewrite subsets_from_cons, remap_cons.
    destruct (Z.eqb_spec c d) as [->|Hcd].
    + destruct (IH (p + 1) (p + 1)) as (b & bs & Hsub & ->).
      exists [], (b :: bs). rewrite fmap_cons, Hsub. split; [done|].
      rewrite (lp_delim _ _ _ _ Hlev).
      by destruct (Z.eqb_spec D (-1)).
    + destruct (IH s (p + 1)) as (b & bs & Hsub & ->).
      destruct (subsets_from d s (p + 1) l) as [|[s0 run0] rest]; [done|].
      rewrite fmap_cons in Hsub. injection Hsub as <- <-.
      exists (remap map (c :: run0)), ((λ sr, remap map sr.2) <$> rest).
      split; [done|]. by rewrite (remap_cons map c run0), app_assoc.
Qed.

(** The remapped parent is rejected exactly when a subset of the parent
    has no character that stays in the border. *)
Lemma remap_rejected d D map ext (chars : list Z) :
  partition_wf d chars → Forall (λ c, 0 ≤ c) chars →
  level_pre d D map ext →
  rejected D (remap map chars) ↔
  ∃ s run, (s, run) ∈ subsets d chars ∧ remap map run = [].
Proof.
  intros Hwf Hpos Hlev.
  assert (Hruns : ∀ s run x, (s, run) ∈ subsets d chars →
            x ∈ remap map run → 0 ≤ x < D).
  { intros s run x Hin Hx.
    apply (subsets_valid _ _ _ _ Hwf) in Hin as (_ & _ & _ & -> & _).
    eapply remap_elem; [done| |done].
    intros c Hc. by eapply subset_at_chars. }
  destruct (decide (D ≤ 0)) as [HD|HD].
  { split; intros _.
    - destruct (subsets_from_head d 0 0 chars) as (run & rest & Heq).
      exists 0, run. split; [unfold subsets; rewrite Heq; left|].
      destruct (remap map run) as [|x r] eqn:Hr; [done|].
      assert (0 ≤ x < D); [|lia].
      apply (Hruns 0 run); [unfold subsets; rewrite Heq; left|].
      rewrite Hr. left.
    - destruct (remap map chars) as [|x r] eqn:Hr; [by left|].
      right. left. simpl. f_equal.
      destruct (remap_range d D map ext chars x Hlev); [|by rewrite Hr; left|done|lia].
      intros c Hc. pose proof (partition_chars_range _ _ c Hwf Hpos Hc). lia. }
  destruct (remap_subsets d D map ext chars Hlev ltac:(lia) 0 0)
    as (b & bs & Hsub & ->).
  assert (Hall : Forall (λ b', D ∉ b') (b :: bs)).
  { rewrite <- Hsub. apply Forall_forall.
    intros b' ([s run] & -> & Hin)%list_elem_of_fmap HDb. simpl in HDb.
    apply (Hruns s run D) in HDb; [lia|done]. }
  apply Forall_cons in Hall as [Hb Hbs].
  rewrite rejected_blocks by done.
  assert (Hin : [] ∈ b :: bs ↔ b = [] ∨ [] ∈ bs).
  { rewrite elem_of_cons. split; (intros [?|?]; [by left|by right]). }
  rewrite <- Hin, <- Hsub, list_elem_of_fmap. clear Hin. split.
  - intros ([s run] & Hr & Hin). eauto.
  - intros (s & run & Hin & Hr). by exists (s, run).
Qed.

(** The run of the exclusive builder on a valid parent. *)
Lemma partGetIdxNewExclusive_run FARAWAY bp dpb gs D :
  partition_inv bp →
  level_pre (delimiter bp) D (bordercharmap dpb) (extborderchar dpb) →
  store_inv dpb → top_end dpb = Some gs →
  gs + partsize bp ≤ Z.of_nat (length (global_partitions dpb)) →
  dpborder_getTopDelimiter dpb = Some D →
  (rejected D (remap (bordercharmap dpb) (partchars bp)) ∧
   ∃ dpb', dpborder_partGetIdxNewExclusive FARAWAY bp dpb = Some (-1, dpb')) ∨
  (¬ rejected D (remap (bordercharmap dpb) (partchars bp)) ∧
   ∃ dpb', dpborder_partGetIdxNewExclusive FARAWAY bp dpb =
           Some (global_npartitions dpb, dpb')).
Proof.
  intros [Hvalid Hpos] Hlev Hstore Htop Hcap HD.
  apply dpborder_partIsValid_wf in Hvalid as Hwf.
  set (w := remap (bordercharmap dpb) (partchars bp)).
  assert (Hgs : 1 ≤ gs).
  { destruct Hstore as (_ & gs' & Hgs' & ? & _). rewrite Htop in Hgs'.
    injection Hgs' as <-. lia. }
  assert (Hlenw : gs + Z.of_nat (length w) ≤
                  Z.of_nat (length (global_partitions dpb))).
  { pose proof (remap_length (bordercharmap dpb) (partchars bp)).
    unfold partsize in Hcap. fold w in H. lia. }
  assert (Hrange : ∀ x, x ∈ w → x = D ∨ 0 ≤ x < D).
  { intros x Hx. eapply remap_range; [done| |done].
    intros c Hc. pose proof (partition_chars_range _ _ c Hwf Hpos Hc). lia. }
  unfold dpborder_partGetIdxNewExclusive. unfold top_end in Htop.
  rewrite Htop, HD. simpl.
  destruct (exclusive_copy_spec (bordercharmap dpb) (partchars bp)
              (global_partitions dpb) gs) as (i & ->); [lia|done| |].
  { intros c Hc. apply rd_in_range.
    pose proof (rd_range _ _ _ (lp_delim _ _ _ _ Hlev)).
    pose proof (partition_chars_range _ _ c Hwf Hpos Hc). lia. }
  simpl. fold w.
  destruct w as [|x w'] eqn:Hw.
  { simpl. rewrite Z.add_0_r, Z.eqb_refl. left. split; [by left|eauto]. }
  rewrite <- Hw in *.
  assert (Hlen1 : (0 < length w)%nat) by (rewrite Hw; simpl; lia).
  destruct (Z.eqb_spec gs (gs + Z.of_nat (length w))) as [?|_]; [lia|].
  assert (Hhd : w !! 0%nat = Some x) by (by rewrite Hw).
  assert (Hr0 : rd (overwrite (global_partitions dpb) gs w) gs = Some x).
  { rewrite <- Hhd. replace gs with (gs + Z.of_nat 0) at 2 by lia.
    apply overwrite_rd; lia. }
  rewrite Hr0. simpl.
  destruct (Z.eqb_spec x D) as [->|HxD].
  { left. split; [|eauto]. right. left. by rewrite Hw. }
  destruct (lookup_lt_is_Some_2 w (Init.Nat.pred (length w))) as [y Hy]; [lia|].
  assert (Hr1 : rd (overwrite (global_partitions dpb) gs w)
                   (gs + Z.of_nat (length w) - 1) = Some y).
  { rewrite <- Hy. replace (gs + Z.of_nat (length w) - 1)
      with (gs + Z.of_nat (Init.Nat.pred (length w))) by lia.
    apply overwrite_rd; lia. }
  rewrite Hr1. simpl.
  destruct (Z.eqb_spec y D) as [->|HyD].
  { left. split; [|eauto]. right. right. left. by rewrite last_lookup. }
  destruct (exclusive_check_spec D (global_partitions dpb) gs w)
    as (i' & ret & -> & Hret); [lia|lia|].
  simpl. destruct Hret as [[-> Hadj]|[-> Hadj]].
  - right. split.
    + intros [Hnil|[Hhead|[Hlast|(k & Hk1 & Hk2)]]].
      * by rewrite Hw in Hnil.
      * rewrite Hw in Hhead. simpl in Hhead. congruence.
      * rewrite last_lookup in Hlast. congruence.
      * by apply (Hadj k).
    + rewrite Z.add_simpl_l, sort_at_top_end.
      * simpl. replace (global_npartitions dpb + 1 - 1)
          with (global_npartitions dpb) by lia. eauto.
      * done.
      * by unfold top_end.
      * lia.
      * assert (0 < D).
        { destruct (Hrange x); [by eapply list_elem_of_lookup_2|done|lia]. }
        apply Forall_forall. intros z Hz. destruct (Hrange z Hz); lia.
      * intros c Hc. congruence.
      * done.
  - left. split; [|eauto]. right. right. right. done.
Qed.

(** X21.  The exclusive builder returns -1 in one case only: when a subset of
    the parent has no character that stays in the border. *)
Theorem exclusive_rejects_iff FARAWAY bp dpb gs D :
  partition_inv bp →
  level_pre (delimiter bp) D (bordercharmap dpb) (extborderchar dpb) →
  store_inv dpb → top_end dpb = Some gs →
  gs + partsize bp ≤ Z.of_nat (length (global_partitions dpb)) →
  dpborder_getTopDelimiter dpb = Some D →
  ∃ r dpb',
    dpborder_partGetIdxNewExclusive FARAWAY bp dpb = Some (r, dpb') ∧
    (r = -1 ↔
     ∃ s run, (s, run) ∈ subsets (delimiter bp) (partchars bp) ∧
              remap (bordercharmap dpb) run = []).
Proof.
  intros Hinv Hlev Hstore Htop Hcap HD.
  pose proof Hinv as [Hvalid Hpos].
  apply dpborder_partIsValid_wf in Hvalid as Hwf.
  pose proof (remap_rejected (delimiter bp) D (bordercharmap dpb)
                (extborderchar dpb) (partchars bp) Hwf Hpos Hlev) as Hiff.
  destruct (partGetIdxNewExclusive_run FARAWAY bp dpb gs D)
    as [[Hrej [dpb' Hrun]]|[Hnrej [dpb' Hrun]]]; [done..| |].
  - eexists _, _. split; [exact Hrun|]. rewrite <- Hiff. done.
  - eexists _, _. split; [exact Hrun|]. rewrite <- Hiff. split; [|done].
    destruct Hstore as ((_ & Hnp & _) & _). unfold StpVecGetSize in Hnp. lia.
Qed.

Lemma exclusive_rejects_iff_witness :
  ∃ r dpb',
    dpborder_partGetIdxNewExclusive 100 union_parent vanishing_border =
      Some (r, dpb') ∧
    (r = -1 ↔
     ∃ s run, (s, run) ∈ subsets 3 [1; 3; 0; 3; 2] ∧
              remap [0; -1; 2; 3] run = []).
Proof.
  apply (exclusive_rejects_iff 100 union_parent vanishing_border 1 3).
  - split; [reflexivity|repeat constructor; lia].
  - exact vanishing_level.
  - split; [by repeat split|]. exists 1. split; [reflexivity|].
    split; [simpl; lia|]. repeat constructor. lia.
  - reflexivity.
  - unfold partsize. simpl. lia.
  - reflexivity.
Defined.
